(** * F1 race replay: gate detector, ledger, ranking, gap engine, freeze

    A shallow embedding of the replay core of
    [src/sketch_car_position/sketch.js]: the per-frame [draw] pipeline
    (clock, position sampler, gate-crossing detection, ledger updates),
    [recomputeGapsSFandMinisectors] (ranking and time gaps) and the
    freeze-commit part of [drawLeaderboard].

    Modelling conventions.
    - A JavaScript number is an exact rational ([Q]); [-Infinity] is kept
      apart as [NegInfinity] where the source stores it.  Rounding of
      IEEE doubles is outside this model.
    - A JavaScript object used as a map keyed by driver number is a
      [gmap N _]; the key is the driver number whose canonical decimal
      spelling is the property name, so [for (dn in obj)] visits the keys
      in ascending numeric order.
    - A dereference of [undefined] (a [TypeError]) makes a step return
      [None].
    - [Array.prototype.sort] is a stable sort; it is modelled by a stable
      insertion sort.
    - The drawing calls themselves are left out: they read the modelled
      state and never write it.  The reads of the visible rows in
      [drawLeaderboard], which throw on an empty slot, are modelled in
      [drawShown].  The replay core takes the viewport as fixed for a
      session ([reachable]); [runSession] adds [windowResized] to the
      frames.  The display arithmetic (viewport fit, panel and column
      layout, text truncation, smoothing, tyre stints, the controls and
      the chart snapshots) is modelled after the core, each part on its
      own state. *)

From Stdlib Require Import QArith Qminmax Qabs Qround Lqa ZArith Lia.
From stdpp Require Import gmap list sorting.

(** ** Numbers *)

Definition Qltb (a b : Q) : bool := if Qlt_le_dec a b then true else false.
Definition Qleb (a b : Q) : bool := if Qlt_le_dec b a then false else true.

(** p5's [constrain(v, lo, hi)]. *)
Definition constrain (v lo hi : Q) : Q := Qmax (Qmin v hi) lo.

(** A stored time: a number, or the [-Infinity] the ledgers start from. *)
Inductive jsTime := NegInfinity | Finite (t : Q).

(** [isFinite(v)] on a stored time; [undefined] is not finite. *)
Definition isFinite (v : option jsTime) : option Q :=
  match v with Some (Finite t) => Some t | _ => None end.

(** [v || -Infinity] for a stored time: [undefined] and the falsy number
    [0] both give [-Infinity]. *)
Definition orNegInfinity (v : option jsTime) : jsTime :=
  match v with
  | Some (Finite t) => if Qeq_bool t 0 then NegInfinity else Finite t
  | _ => NegInfinity
  end.

(** [v || -Infinity] where the slot holds a plain number or is absent. *)
Definition numOrNegInfinity (v : option Q) : jsTime :=
  orNegInfinity (Finite <$> v).

(** [obj[k] = f(k)] for every [k] of a list, in list order. *)
Definition assignAll {V} (ks : list N) (f : N -> V) (m : gmap N V) : gmap N V :=
  foldl (fun acc k => <[k := f k]> acc) m ks.

(** Sequencing of steps that may throw. *)
Fixpoint foldlOpt {A B} (f : A -> B -> option A) (a : A) (l : list B) : option A :=
  match l with
  | [] => Some a
  | b :: l' => match f a b with Some a' => foldlOpt f a' l' | None => None end
  end.

(** ** Sorting, as [Array.prototype.sort(cmp)] does it

    [cmp a b < 0] puts [a] first, [cmp a b > 0] puts [b] first and [0]
    keeps the original order. *)

Fixpoint insertBy {A} (cmp : A -> A -> Q) (a : A) (l : list A) : list A :=
  match l with
  | [] => [a]
  | b :: l' => if Qleb (cmp a b) 0 then a :: b :: l' else b :: insertBy cmp a l'
  end.

Definition sortBy {A} (cmp : A -> A -> Q) (l : list A) : list A :=
  foldr (insertBy cmp) [] l.

(** [a] may stand before [b] in the result. *)
Definition before {A} (cmp : A -> A -> Q) (a b : A) : Prop := (cmp a b <= 0)%Q.

(** Property names that are canonical integers enumerate in ascending
    order. *)
Definition jsKeys {V} (m : gmap N V) : list N :=
  sortBy (fun a b => inject_Z (Z.of_N a) - inject_Z (Z.of_N b))%Q (elements (dom m)).

(** ** Gate geometry (Gate / Lap Counter Config and the tests in [draw]) *)

Definition GATE_HALF_LEN : Q := 24.
Definition MIN_CROSSING_INTERVAL_SEC : Q := 4.
Definition LAP_COUNT_START_DELAY_SEC : Q := 1.
Definition TIME_OFFSET_SECONDS : Q := 0.

Record vec2 := Vec2 { x : Q; y : Q }.

(** A gate base in screen space: anchor, unit tangent, unit normal. *)
Record gateBase := GateBase { px : Q; py : Q; tx : Q; ty : Q; nx : Q; ny : Q }.

Section Geometry.
Local Open Scope Q_scope.

(** [d = (p - anchor) . normal] *)
Definition signedDist (gb : gateBase) (p : vec2) : Q :=
  (x p - px gb) * nx gb + (y p - py gb) * ny gb.

(** Forward sign flip, as tested for minisector and start/finish gates:
    [d0 < 0 && d1 >= 0]. *)
Definition flipsForward (d0 d1 : Q) : bool := Qltb d0 0 && Qleb 0 d1.

(** Either-direction sign flip, as tested for the pit-entry gate. *)
Definition crosses (d0 d1 : Q) : bool :=
  (Qltb d0 0 && Qleb 0 d1) || (Qltb 0 d0 && Qleb d1 0).

(** [r = d0 / (d0 - d1)] *)
Definition zeroFraction (d0 d1 : Q) : Q := d0 / (d0 - d1).

(** The pit gate's guarded fraction:
    [Math.abs(denom) > 1e-6 ? d0p/denom : 0.5]. *)
Definition pitFraction (d0 d1 : Q) : Q :=
  let denom := d0 - d1 in
  if Qltb 1e-6 (Qabs denom) then d0 / denom else 0.5.

(** Tangential coordinate [u] of the point at fraction [r] of prev->curr. *)
Definition tangentOffset (gb : gateBase) (prev curr : vec2) (r : Q) : Q :=
  let ix := x prev + (x curr - x prev) * r in
  let iy := y prev + (y curr - y prev) * r in
  (ix - px gb) * tx gb + (iy - py gb) * ty gb.

(** [Math.abs(u) <= GATE_HALF_LEN] *)
Definition withinGate (u : Q) : bool := Qleb (Qabs u) GATE_HALF_LEN.

(** The geometric part of a minisector or start/finish test: sign flip
    and intersection inside the gate's finite extent. *)
Definition gateHit (gb : gateBase) (prev curr : vec2) : bool :=
  let d0 := signedDist gb prev in
  let d1 := signedDist gb curr in
  if flipsForward d0 d1
  then withinGate (tangentOffset gb prev curr (zeroFraction d0 d1))
  else false.

(** The geometric part of the pit-entry test. *)
Definition pitHit (gb : gateBase) (prev curr : vec2) : bool :=
  let d0 := signedDist gb prev in
  let d1 := signedDist gb curr in
  if crosses d0 d1
  then withinGate (tangentOffset gb prev curr (pitFraction d0 d1))
  else false.

(** [(now - last) >= MIN_CROSSING_INTERVAL_SEC]; against [-Infinity] the
    difference is [+Infinity]. *)
Definition intervalElapsed (now : Q) (last : jsTime) : bool :=
  match last with
  | NegInfinity => true
  | Finite t => Qleb MIN_CROSSING_INTERVAL_SEC (now - t)
  end.
End Geometry.

(** [numericLap(c, pitStart)] *)
Definition numericLap (c : Z) (pitStart : bool) : Z :=
  if pitStart then (if (c =? 0)%Z then 1 else c + 1)%Z
  else (if (c =? 0)%Z then 1 else c)%Z.

(** ** Configuration: what [preload] and [setup] fix for a session *)

(** One telemetry sample: seconds of day and world position. *)
Record Sample := mkSample { tSec : Q; pos : vec2 }.

(** A gate as [setup] derives it: world anchor and direction.  The angle
    enters [draw] only through [Math.cos] and [Math.sin] of
    [radians(angleDeg)]; they are recorded here. *)
Record Gate := mkGate { worldPos : vec2; cosAngle : Q; sinAngle : Q }.

Record Config := mkConfig {
  DRIVER_NUMS : list N;
  (** the [driver_number] column of drivers.csv, in row order *)
  driverInfo : list N;
  (** [points[n]]: the parsed samples of driver [n] *)
  points : gmap N (list Sample);
  (** world -> screen fit: [centerX], [centerY], the scale [s], [TRACK_VP] *)
  centerX : Q; centerY : Q; worldScale : Q;
  TRACK_VP_x : Q; TRACK_VP_y : Q; TRACK_VP_w : Q; TRACK_VP_h : Q;
  miniGates : list Gate;
  (** start/finish anchor with the direction of [START_LINE_ANGLE_DEG] *)
  startFinishGate : option Gate;
  pitEntryGate : option Gate;
  RACE_START_ABS_SEC : Q;
  (** [DNF_EVENTS] with the timestamp parsed to seconds of day *)
  DNF_EVENTS : list (N * Q);
  FINAL_LAP : Z;
  PIT_START_DRIVERS : gset N
}.

Section Setup.
Local Open Scope Q_scope.
Variable cfg : Config.

(** [allTimes]: every sample time of every driver of [DRIVER_NUMS]. *)
Definition allTimes : list Q :=
  n ← DRIVER_NUMS cfg; tSec <$> default [] (points cfg !! n).

(** [allTimes.length ? allTimes.reduce(min, Infinity) : 0] *)
Definition carStartSec : Q :=
  match allTimes with
  | [] => 0
  | t :: ts => foldl Qmin t ts
  end.

Definition boardStartSec : Q := carStartSec.

Definition dnfTimesAbsSec : gmap N Q :=
  foldl (fun m ev => <[ev.1 := ev.2]> m) ∅ (DNF_EVENTS cfg).

(** [mapToScreen(pos)] *)
Definition mapToScreen (p : vec2) : vec2 :=
  Vec2 ((x p - centerX cfg) * worldScale cfg + TRACK_VP_w cfg / 2)
       (- (y p - centerY cfg) * worldScale cfg + TRACK_VP_h cfg / 2).

(** A gate base as [draw] precomputes it each frame. *)
Definition gateBaseOf (g : Gate) : gateBase :=
  let p := mapToScreen (worldPos g) in
  GateBase (TRACK_VP_x cfg + x p) (TRACK_VP_y cfg + y p)
           (cosAngle g) (sinAngle g) (- sinAngle g) (cosAngle g).

Definition miniBases : list gateBase := gateBaseOf <$> miniGates cfg.
Definition sfBase : option gateBase := gateBaseOf <$> startFinishGate cfg.
Definition pitBase : option gateBase := gateBaseOf <$> pitEntryGate cfg.
End Setup.

(** ** Gap values and the replay state *)

(** [{type:'leader'}], [{type:'time', gapSec}], [{type:'na'}] *)
Inductive gap := GLeader | GTime (gapSec : Q) | GNa.

Definition isLeader (g : gap) : bool :=
  match g with GLeader => true | _ => false end.

Record State := mkState {
  raceTime : Q;
  lastBoardAbsSec : Q;
  lapCounts : gmap N Z;
  lapTimes : gmap N (list Q);
  prevScreenPos : gmap N vec2;
  lastCrossSec : gmap N jsTime;
  miniCounts : gmap N Z;
  lastMiniCrossSec : gmap N jsTime;
  lastMiniCrossSecByGate : gmap N (gmap nat Q);
  miniLapTimesByGate : gmap N (gmap nat (list Q));
  pitOverlayActive : gmap N bool;
  lastPitEntryCrossSec : gmap N jsTime;
  dnfOverlayActive : gmap N bool;
  frozenDrivers : gset N;
  freezePos : gmap N Z;
  freezePending : gmap N bool;
  raceFinishTriggered : bool;
  finishLeaderDn : option N;
  awaitingFlag : gmap N bool;
  revealedDrivers : gset N;
  baselineMiniAtGreen : gmap N Z;
  baselinedAtGreen : bool;
  gapsToLeader : gmap N gap;
  gapsToAhead : gmap N gap;
  currentLeader : option N;
  miniSeqTimes : gmap N (list Q);
  lastStableGaps : gmap N gap;
  lastStableGapsAhead : gmap N gap
}.

Definition set_raceTime (v : Q) (st : State) : State :=
  mkState
    v (lastBoardAbsSec st) (lapCounts st) (lapTimes st) (prevScreenPos st)
    (lastCrossSec st) (miniCounts st) (lastMiniCrossSec st)
    (lastMiniCrossSecByGate st) (miniLapTimesByGate st)
    (pitOverlayActive st) (lastPitEntryCrossSec st) (dnfOverlayActive st)
    (frozenDrivers st) (freezePos st) (freezePending st)
    (raceFinishTriggered st) (finishLeaderDn st) (awaitingFlag st)
    (revealedDrivers st) (baselineMiniAtGreen st) (baselinedAtGreen st)
    (gapsToLeader st) (gapsToAhead st) (currentLeader st) (miniSeqTimes st)
    (lastStableGaps st) (lastStableGapsAhead st).
Definition set_lastBoardAbsSec (v : Q) (st : State) : State :=
  mkState
    (raceTime st) v (lapCounts st) (lapTimes st) (prevScreenPos st)
    (lastCrossSec st) (miniCounts st) (lastMiniCrossSec st)
    (lastMiniCrossSecByGate st) (miniLapTimesByGate st)
    (pitOverlayActive st) (lastPitEntryCrossSec st) (dnfOverlayActive st)
    (frozenDrivers st) (freezePos st) (freezePending st)
    (raceFinishTriggered st) (finishLeaderDn st) (awaitingFlag st)
    (revealedDrivers st) (baselineMiniAtGreen st) (baselinedAtGreen st)
    (gapsToLeader st) (gapsToAhead st) (currentLeader st) (miniSeqTimes st)
    (lastStableGaps st) (lastStableGapsAhead st).
Definition set_lapCounts (v : gmap N Z) (st : State) : State :=
  mkState
    (raceTime st) (lastBoardAbsSec st) v (lapTimes st) (prevScreenPos st)
    (lastCrossSec st) (miniCounts st) (lastMiniCrossSec st)
    (lastMiniCrossSecByGate st) (miniLapTimesByGate st)
    (pitOverlayActive st) (lastPitEntryCrossSec st) (dnfOverlayActive st)
    (frozenDrivers st) (freezePos st) (freezePending st)
    (raceFinishTriggered st) (finishLeaderDn st) (awaitingFlag st)
    (revealedDrivers st) (baselineMiniAtGreen st) (baselinedAtGreen st)
    (gapsToLeader st) (gapsToAhead st) (currentLeader st) (miniSeqTimes st)
    (lastStableGaps st) (lastStableGapsAhead st).
Definition set_lapTimes (v : gmap N (list Q)) (st : State) : State :=
  mkState
    (raceTime st) (lastBoardAbsSec st) (lapCounts st) v (prevScreenPos st)
    (lastCrossSec st) (miniCounts st) (lastMiniCrossSec st)
    (lastMiniCrossSecByGate st) (miniLapTimesByGate st)
    (pitOverlayActive st) (lastPitEntryCrossSec st) (dnfOverlayActive st)
    (frozenDrivers st) (freezePos st) (freezePending st)
    (raceFinishTriggered st) (finishLeaderDn st) (awaitingFlag st)
    (revealedDrivers st) (baselineMiniAtGreen st) (baselinedAtGreen st)
    (gapsToLeader st) (gapsToAhead st) (currentLeader st) (miniSeqTimes st)
    (lastStableGaps st) (lastStableGapsAhead st).
Definition set_prevScreenPos (v : gmap N vec2) (st : State) : State :=
  mkState
    (raceTime st) (lastBoardAbsSec st) (lapCounts st) (lapTimes st) v
    (lastCrossSec st) (miniCounts st) (lastMiniCrossSec st)
    (lastMiniCrossSecByGate st) (miniLapTimesByGate st)
    (pitOverlayActive st) (lastPitEntryCrossSec st) (dnfOverlayActive st)
    (frozenDrivers st) (freezePos st) (freezePending st)
    (raceFinishTriggered st) (finishLeaderDn st) (awaitingFlag st)
    (revealedDrivers st) (baselineMiniAtGreen st) (baselinedAtGreen st)
    (gapsToLeader st) (gapsToAhead st) (currentLeader st) (miniSeqTimes st)
    (lastStableGaps st) (lastStableGapsAhead st).
Definition set_lastCrossSec (v : gmap N jsTime) (st : State) : State :=
  mkState
    (raceTime st) (lastBoardAbsSec st) (lapCounts st) (lapTimes st)
    (prevScreenPos st) v (miniCounts st) (lastMiniCrossSec st)
    (lastMiniCrossSecByGate st) (miniLapTimesByGate st)
    (pitOverlayActive st) (lastPitEntryCrossSec st) (dnfOverlayActive st)
    (frozenDrivers st) (freezePos st) (freezePending st)
    (raceFinishTriggered st) (finishLeaderDn st) (awaitingFlag st)
    (revealedDrivers st) (baselineMiniAtGreen st) (baselinedAtGreen st)
    (gapsToLeader st) (gapsToAhead st) (currentLeader st) (miniSeqTimes st)
    (lastStableGaps st) (lastStableGapsAhead st).
Definition set_miniCounts (v : gmap N Z) (st : State) : State :=
  mkState
    (raceTime st) (lastBoardAbsSec st) (lapCounts st) (lapTimes st)
    (prevScreenPos st) (lastCrossSec st) v (lastMiniCrossSec st)
    (lastMiniCrossSecByGate st) (miniLapTimesByGate st)
    (pitOverlayActive st) (lastPitEntryCrossSec st) (dnfOverlayActive st)
    (frozenDrivers st) (freezePos st) (freezePending st)
    (raceFinishTriggered st) (finishLeaderDn st) (awaitingFlag st)
    (revealedDrivers st) (baselineMiniAtGreen st) (baselinedAtGreen st)
    (gapsToLeader st) (gapsToAhead st) (currentLeader st) (miniSeqTimes st)
    (lastStableGaps st) (lastStableGapsAhead st).
Definition set_lastMiniCrossSec (v : gmap N jsTime) (st : State) : State :=
  mkState
    (raceTime st) (lastBoardAbsSec st) (lapCounts st) (lapTimes st)
    (prevScreenPos st) (lastCrossSec st) (miniCounts st) v
    (lastMiniCrossSecByGate st) (miniLapTimesByGate st)
    (pitOverlayActive st) (lastPitEntryCrossSec st) (dnfOverlayActive st)
    (frozenDrivers st) (freezePos st) (freezePending st)
    (raceFinishTriggered st) (finishLeaderDn st) (awaitingFlag st)
    (revealedDrivers st) (baselineMiniAtGreen st) (baselinedAtGreen st)
    (gapsToLeader st) (gapsToAhead st) (currentLeader st) (miniSeqTimes st)
    (lastStableGaps st) (lastStableGapsAhead st).
Definition set_lastMiniCrossSecByGate (v : gmap N (gmap nat Q)) (st : State) : State :=
  mkState
    (raceTime st) (lastBoardAbsSec st) (lapCounts st) (lapTimes st)
    (prevScreenPos st) (lastCrossSec st) (miniCounts st)
    (lastMiniCrossSec st) v (miniLapTimesByGate st) (pitOverlayActive st)
    (lastPitEntryCrossSec st) (dnfOverlayActive st) (frozenDrivers st)
    (freezePos st) (freezePending st) (raceFinishTriggered st)
    (finishLeaderDn st) (awaitingFlag st) (revealedDrivers st)
    (baselineMiniAtGreen st) (baselinedAtGreen st) (gapsToLeader st)
    (gapsToAhead st) (currentLeader st) (miniSeqTimes st)
    (lastStableGaps st) (lastStableGapsAhead st).
Definition set_miniLapTimesByGate (v : gmap N (gmap nat (list Q))) (st : State) : State :=
  mkState
    (raceTime st) (lastBoardAbsSec st) (lapCounts st) (lapTimes st)
    (prevScreenPos st) (lastCrossSec st) (miniCounts st)
    (lastMiniCrossSec st) (lastMiniCrossSecByGate st) v
    (pitOverlayActive st) (lastPitEntryCrossSec st) (dnfOverlayActive st)
    (frozenDrivers st) (freezePos st) (freezePending st)
    (raceFinishTriggered st) (finishLeaderDn st) (awaitingFlag st)
    (revealedDrivers st) (baselineMiniAtGreen st) (baselinedAtGreen st)
    (gapsToLeader st) (gapsToAhead st) (currentLeader st) (miniSeqTimes st)
    (lastStableGaps st) (lastStableGapsAhead st).
Definition set_pitOverlayActive (v : gmap N bool) (st : State) : State :=
  mkState
    (raceTime st) (lastBoardAbsSec st) (lapCounts st) (lapTimes st)
    (prevScreenPos st) (lastCrossSec st) (miniCounts st)
    (lastMiniCrossSec st) (lastMiniCrossSecByGate st)
    (miniLapTimesByGate st) v (lastPitEntryCrossSec st)
    (dnfOverlayActive st) (frozenDrivers st) (freezePos st)
    (freezePending st) (raceFinishTriggered st) (finishLeaderDn st)
    (awaitingFlag st) (revealedDrivers st) (baselineMiniAtGreen st)
    (baselinedAtGreen st) (gapsToLeader st) (gapsToAhead st)
    (currentLeader st) (miniSeqTimes st) (lastStableGaps st)
    (lastStableGapsAhead st).
Definition set_lastPitEntryCrossSec (v : gmap N jsTime) (st : State) : State :=
  mkState
    (raceTime st) (lastBoardAbsSec st) (lapCounts st) (lapTimes st)
    (prevScreenPos st) (lastCrossSec st) (miniCounts st)
    (lastMiniCrossSec st) (lastMiniCrossSecByGate st)
    (miniLapTimesByGate st) (pitOverlayActive st) v (dnfOverlayActive st)
    (frozenDrivers st) (freezePos st) (freezePending st)
    (raceFinishTriggered st) (finishLeaderDn st) (awaitingFlag st)
    (revealedDrivers st) (baselineMiniAtGreen st) (baselinedAtGreen st)
    (gapsToLeader st) (gapsToAhead st) (currentLeader st) (miniSeqTimes st)
    (lastStableGaps st) (lastStableGapsAhead st).
Definition set_dnfOverlayActive (v : gmap N bool) (st : State) : State :=
  mkState
    (raceTime st) (lastBoardAbsSec st) (lapCounts st) (lapTimes st)
    (prevScreenPos st) (lastCrossSec st) (miniCounts st)
    (lastMiniCrossSec st) (lastMiniCrossSecByGate st)
    (miniLapTimesByGate st) (pitOverlayActive st) (lastPitEntryCrossSec st)
    v (frozenDrivers st) (freezePos st) (freezePending st)
    (raceFinishTriggered st) (finishLeaderDn st) (awaitingFlag st)
    (revealedDrivers st) (baselineMiniAtGreen st) (baselinedAtGreen st)
    (gapsToLeader st) (gapsToAhead st) (currentLeader st) (miniSeqTimes st)
    (lastStableGaps st) (lastStableGapsAhead st).
Definition set_frozenDrivers (v : gset N) (st : State) : State :=
  mkState
    (raceTime st) (lastBoardAbsSec st) (lapCounts st) (lapTimes st)
    (prevScreenPos st) (lastCrossSec st) (miniCounts st)
    (lastMiniCrossSec st) (lastMiniCrossSecByGate st)
    (miniLapTimesByGate st) (pitOverlayActive st) (lastPitEntryCrossSec st)
    (dnfOverlayActive st) v (freezePos st) (freezePending st)
    (raceFinishTriggered st) (finishLeaderDn st) (awaitingFlag st)
    (revealedDrivers st) (baselineMiniAtGreen st) (baselinedAtGreen st)
    (gapsToLeader st) (gapsToAhead st) (currentLeader st) (miniSeqTimes st)
    (lastStableGaps st) (lastStableGapsAhead st).
Definition set_freezePos (v : gmap N Z) (st : State) : State :=
  mkState
    (raceTime st) (lastBoardAbsSec st) (lapCounts st) (lapTimes st)
    (prevScreenPos st) (lastCrossSec st) (miniCounts st)
    (lastMiniCrossSec st) (lastMiniCrossSecByGate st)
    (miniLapTimesByGate st) (pitOverlayActive st) (lastPitEntryCrossSec st)
    (dnfOverlayActive st) (frozenDrivers st) v (freezePending st)
    (raceFinishTriggered st) (finishLeaderDn st) (awaitingFlag st)
    (revealedDrivers st) (baselineMiniAtGreen st) (baselinedAtGreen st)
    (gapsToLeader st) (gapsToAhead st) (currentLeader st) (miniSeqTimes st)
    (lastStableGaps st) (lastStableGapsAhead st).
Definition set_freezePending (v : gmap N bool) (st : State) : State :=
  mkState
    (raceTime st) (lastBoardAbsSec st) (lapCounts st) (lapTimes st)
    (prevScreenPos st) (lastCrossSec st) (miniCounts st)
    (lastMiniCrossSec st) (lastMiniCrossSecByGate st)
    (miniLapTimesByGate st) (pitOverlayActive st) (lastPitEntryCrossSec st)
    (dnfOverlayActive st) (frozenDrivers st) (freezePos st) v
    (raceFinishTriggered st) (finishLeaderDn st) (awaitingFlag st)
    (revealedDrivers st) (baselineMiniAtGreen st) (baselinedAtGreen st)
    (gapsToLeader st) (gapsToAhead st) (currentLeader st) (miniSeqTimes st)
    (lastStableGaps st) (lastStableGapsAhead st).
Definition set_raceFinishTriggered (v : bool) (st : State) : State :=
  mkState
    (raceTime st) (lastBoardAbsSec st) (lapCounts st) (lapTimes st)
    (prevScreenPos st) (lastCrossSec st) (miniCounts st)
    (lastMiniCrossSec st) (lastMiniCrossSecByGate st)
    (miniLapTimesByGate st) (pitOverlayActive st) (lastPitEntryCrossSec st)
    (dnfOverlayActive st) (frozenDrivers st) (freezePos st)
    (freezePending st) v (finishLeaderDn st) (awaitingFlag st)
    (revealedDrivers st) (baselineMiniAtGreen st) (baselinedAtGreen st)
    (gapsToLeader st) (gapsToAhead st) (currentLeader st) (miniSeqTimes st)
    (lastStableGaps st) (lastStableGapsAhead st).
Definition set_finishLeaderDn (v : option N) (st : State) : State :=
  mkState
    (raceTime st) (lastBoardAbsSec st) (lapCounts st) (lapTimes st)
    (prevScreenPos st) (lastCrossSec st) (miniCounts st)
    (lastMiniCrossSec st) (lastMiniCrossSecByGate st)
    (miniLapTimesByGate st) (pitOverlayActive st) (lastPitEntryCrossSec st)
    (dnfOverlayActive st) (frozenDrivers st) (freezePos st)
    (freezePending st) (raceFinishTriggered st) v (awaitingFlag st)
    (revealedDrivers st) (baselineMiniAtGreen st) (baselinedAtGreen st)
    (gapsToLeader st) (gapsToAhead st) (currentLeader st) (miniSeqTimes st)
    (lastStableGaps st) (lastStableGapsAhead st).
Definition set_awaitingFlag (v : gmap N bool) (st : State) : State :=
  mkState
    (raceTime st) (lastBoardAbsSec st) (lapCounts st) (lapTimes st)
    (prevScreenPos st) (lastCrossSec st) (miniCounts st)
    (lastMiniCrossSec st) (lastMiniCrossSecByGate st)
    (miniLapTimesByGate st) (pitOverlayActive st) (lastPitEntryCrossSec st)
    (dnfOverlayActive st) (frozenDrivers st) (freezePos st)
    (freezePending st) (raceFinishTriggered st) (finishLeaderDn st) v
    (revealedDrivers st) (baselineMiniAtGreen st) (baselinedAtGreen st)
    (gapsToLeader st) (gapsToAhead st) (currentLeader st) (miniSeqTimes st)
    (lastStableGaps st) (lastStableGapsAhead st).
Definition set_revealedDrivers (v : gset N) (st : State) : State :=
  mkState
    (raceTime st) (lastBoardAbsSec st) (lapCounts st) (lapTimes st)
    (prevScreenPos st) (lastCrossSec st) (miniCounts st)
    (lastMiniCrossSec st) (lastMiniCrossSecByGate st)
    (miniLapTimesByGate st) (pitOverlayActive st) (lastPitEntryCrossSec st)
    (dnfOverlayActive st) (frozenDrivers st) (freezePos st)
    (freezePending st) (raceFinishTriggered st) (finishLeaderDn st)
    (awaitingFlag st) v (baselineMiniAtGreen st) (baselinedAtGreen st)
    (gapsToLeader st) (gapsToAhead st) (currentLeader st) (miniSeqTimes st)
    (lastStableGaps st) (lastStableGapsAhead st).
Definition set_baselineMiniAtGreen (v : gmap N Z) (st : State) : State :=
  mkState
    (raceTime st) (lastBoardAbsSec st) (lapCounts st) (lapTimes st)
    (prevScreenPos st) (lastCrossSec st) (miniCounts st)
    (lastMiniCrossSec st) (lastMiniCrossSecByGate st)
    (miniLapTimesByGate st) (pitOverlayActive st) (lastPitEntryCrossSec st)
    (dnfOverlayActive st) (frozenDrivers st) (freezePos st)
    (freezePending st) (raceFinishTriggered st) (finishLeaderDn st)
    (awaitingFlag st) (revealedDrivers st) v (baselinedAtGreen st)
    (gapsToLeader st) (gapsToAhead st) (currentLeader st) (miniSeqTimes st)
    (lastStableGaps st) (lastStableGapsAhead st).
Definition set_baselinedAtGreen (v : bool) (st : State) : State :=
  mkState
    (raceTime st) (lastBoardAbsSec st) (lapCounts st) (lapTimes st)
    (prevScreenPos st) (lastCrossSec st) (miniCounts st)
    (lastMiniCrossSec st) (lastMiniCrossSecByGate st)
    (miniLapTimesByGate st) (pitOverlayActive st) (lastPitEntryCrossSec st)
    (dnfOverlayActive st) (frozenDrivers st) (freezePos st)
    (freezePending st) (raceFinishTriggered st) (finishLeaderDn st)
    (awaitingFlag st) (revealedDrivers st) (baselineMiniAtGreen st) v
    (gapsToLeader st) (gapsToAhead st) (currentLeader st) (miniSeqTimes st)
    (lastStableGaps st) (lastStableGapsAhead st).
Definition set_gapsToLeader (v : gmap N gap) (st : State) : State :=
  mkState
    (raceTime st) (lastBoardAbsSec st) (lapCounts st) (lapTimes st)
    (prevScreenPos st) (lastCrossSec st) (miniCounts st)
    (lastMiniCrossSec st) (lastMiniCrossSecByGate st)
    (miniLapTimesByGate st) (pitOverlayActive st) (lastPitEntryCrossSec st)
    (dnfOverlayActive st) (frozenDrivers st) (freezePos st)
    (freezePending st) (raceFinishTriggered st) (finishLeaderDn st)
    (awaitingFlag st) (revealedDrivers st) (baselineMiniAtGreen st)
    (baselinedAtGreen st) v (gapsToAhead st) (currentLeader st)
    (miniSeqTimes st) (lastStableGaps st) (lastStableGapsAhead st).
Definition set_gapsToAhead (v : gmap N gap) (st : State) : State :=
  mkState
    (raceTime st) (lastBoardAbsSec st) (lapCounts st) (lapTimes st)
    (prevScreenPos st) (lastCrossSec st) (miniCounts st)
    (lastMiniCrossSec st) (lastMiniCrossSecByGate st)
    (miniLapTimesByGate st) (pitOverlayActive st) (lastPitEntryCrossSec st)
    (dnfOverlayActive st) (frozenDrivers st) (freezePos st)
    (freezePending st) (raceFinishTriggered st) (finishLeaderDn st)
    (awaitingFlag st) (revealedDrivers st) (baselineMiniAtGreen st)
    (baselinedAtGreen st) (gapsToLeader st) v (currentLeader st)
    (miniSeqTimes st) (lastStableGaps st) (lastStableGapsAhead st).
Definition set_currentLeader (v : option N) (st : State) : State :=
  mkState
    (raceTime st) (lastBoardAbsSec st) (lapCounts st) (lapTimes st)
    (prevScreenPos st) (lastCrossSec st) (miniCounts st)
    (lastMiniCrossSec st) (lastMiniCrossSecByGate st)
    (miniLapTimesByGate st) (pitOverlayActive st) (lastPitEntryCrossSec st)
    (dnfOverlayActive st) (frozenDrivers st) (freezePos st)
    (freezePending st) (raceFinishTriggered st) (finishLeaderDn st)
    (awaitingFlag st) (revealedDrivers st) (baselineMiniAtGreen st)
    (baselinedAtGreen st) (gapsToLeader st) (gapsToAhead st) v
    (miniSeqTimes st) (lastStableGaps st) (lastStableGapsAhead st).
Definition set_miniSeqTimes (v : gmap N (list Q)) (st : State) : State :=
  mkState
    (raceTime st) (lastBoardAbsSec st) (lapCounts st) (lapTimes st)
    (prevScreenPos st) (lastCrossSec st) (miniCounts st)
    (lastMiniCrossSec st) (lastMiniCrossSecByGate st)
    (miniLapTimesByGate st) (pitOverlayActive st) (lastPitEntryCrossSec st)
    (dnfOverlayActive st) (frozenDrivers st) (freezePos st)
    (freezePending st) (raceFinishTriggered st) (finishLeaderDn st)
    (awaitingFlag st) (revealedDrivers st) (baselineMiniAtGreen st)
    (baselinedAtGreen st) (gapsToLeader st) (gapsToAhead st)
    (currentLeader st) v (lastStableGaps st) (lastStableGapsAhead st).
Definition set_lastStableGaps (v : gmap N gap) (st : State) : State :=
  mkState
    (raceTime st) (lastBoardAbsSec st) (lapCounts st) (lapTimes st)
    (prevScreenPos st) (lastCrossSec st) (miniCounts st)
    (lastMiniCrossSec st) (lastMiniCrossSecByGate st)
    (miniLapTimesByGate st) (pitOverlayActive st) (lastPitEntryCrossSec st)
    (dnfOverlayActive st) (frozenDrivers st) (freezePos st)
    (freezePending st) (raceFinishTriggered st) (finishLeaderDn st)
    (awaitingFlag st) (revealedDrivers st) (baselineMiniAtGreen st)
    (baselinedAtGreen st) (gapsToLeader st) (gapsToAhead st)
    (currentLeader st) (miniSeqTimes st) v (lastStableGapsAhead st).
Definition set_lastStableGapsAhead (v : gmap N gap) (st : State) : State :=
  mkState
    (raceTime st) (lastBoardAbsSec st) (lapCounts st) (lapTimes st)
    (prevScreenPos st) (lastCrossSec st) (miniCounts st)
    (lastMiniCrossSec st) (lastMiniCrossSecByGate st)
    (miniLapTimesByGate st) (pitOverlayActive st) (lastPitEntryCrossSec st)
    (dnfOverlayActive st) (frozenDrivers st) (freezePos st)
    (freezePending st) (raceFinishTriggered st) (finishLeaderDn st)
    (awaitingFlag st) (revealedDrivers st) (baselineMiniAtGreen st)
    (baselinedAtGreen st) (gapsToLeader st) (gapsToAhead st)
    (currentLeader st) (miniSeqTimes st) (lastStableGaps st) v.

(** The state [setup] leaves behind: every ledger has an entry for each
    row of the driver table; [prevScreenPos] starts at [null]. *)
Definition setup (cfg : Config) : State :=
  let rows := driverInfo cfg in
  {| raceTime := 0;
     lastBoardAbsSec := 0;
     lapCounts := assignAll rows (fun _ => 0%Z) ∅;
     lapTimes := assignAll rows (fun _ => []) ∅;
     prevScreenPos := ∅;
     lastCrossSec := assignAll rows (fun _ => NegInfinity) ∅;
     miniCounts := assignAll rows (fun _ => 0%Z) ∅;
     lastMiniCrossSec := assignAll rows (fun _ => NegInfinity) ∅;
     lastMiniCrossSecByGate := assignAll rows (fun _ => ∅) ∅;
     miniLapTimesByGate := assignAll rows (fun _ => ∅) ∅;
     pitOverlayActive := assignAll rows (fun _ => false) ∅;
     lastPitEntryCrossSec := assignAll rows (fun _ => NegInfinity) ∅;
     dnfOverlayActive := assignAll rows (fun _ => false) ∅;
     frozenDrivers := ∅;
     freezePos := ∅;
     freezePending := ∅;
     raceFinishTriggered := false;
     finishLeaderDn := None;
     awaitingFlag := assignAll rows (fun _ => false) ∅;
     revealedDrivers := ∅;
     baselineMiniAtGreen := ∅;
     baselinedAtGreen := false;
     gapsToLeader := ∅;
     gapsToAhead := ∅;
     currentLeader := None;
     miniSeqTimes := assignAll rows (fun _ => []) ∅;
     lastStableGaps := assignAll rows (fun _ => GNa) ∅;
     lastStableGapsAhead := assignAll rows (fun _ => GNa) ∅ |}.

(** ** Ranking (shared by the gap engine and the leaderboard) *)

(** One entry of [cand] (and of [rows], without the cosmetic columns). *)
Record Candidate := mkCandidate { dn : N; rawMini : Z; timeSince : Q }.

Section Ranking.
Local Open Scope Q_scope.

(** [{ dn, rawMini: raw, timeSince: since }] for driver [d]. *)
Definition candidateOf (st : State) (d : N) : Candidate :=
  let base := if baselinedAtGreen st
              then default 0%Z (baselineMiniAtGreen st !! d) else 0%Z in
  let raw := Z.max 0 (default 0%Z (miniCounts st !! d) - base) in
  let since := match isFinite (lastMiniCrossSec st !! d) with
               | Some last => lastBoardAbsSec st - last
               | None => - 1e99
               end in
  mkCandidate d raw since.

(** The comparator handed to [sort]:
    [if (b.rawMini !== a.rawMini) return b.rawMini - a.rawMini;
     return b.timeSince - a.timeSince]. *)
Definition candidateCmp (a b : Candidate) : Q :=
  if negb (rawMini b =? rawMini a)%Z
  then inject_Z (rawMini b - rawMini a)
  else timeSince b - timeSince a.

(** [cand] of [recomputeGapsSFandMinisectors]: the revealed keys of
    [lapCounts], in enumeration order. *)
Definition candidates (st : State) : list Candidate :=
  candidateOf st <$>
    filter (fun d => d ∈ revealedDrivers st) (jsKeys (lapCounts st)).

(** [order = cand.sort(...).map(c => c.dn)] *)
Definition rankOrder (st : State) : list N :=
  dn <$> sortBy candidateCmp (candidates st).
End Ranking.

(** ** Gap engine: [recomputeGapsSFandMinisectors] *)

Section GapEngine.
Local Open Scope Q_scope.

(** [(!fb || fb.type === 'leader') ? {type:'na'} : fb] *)
Definition fallbackGap (fb : option gap) : gap :=
  match fb with
  | None => GNa
  | Some GLeader => GNa
  | Some g => g
  end.

(** The comparison against a reference sequence at the driver's latest
    index, with the fallback when either side has no entry there. *)
Definition timeGap (seq refSeq : list Q) (fb : option gap) : gap :=
  match length seq with
  | O => fallbackGap fb
  | S idx =>
      match seq !! idx, refSeq !! idx with
      | Some tD, Some tL => GTime (Qmax 0 (tD - tL))
      | _, _ => fallbackGap fb
      end
  end.

(** [miniSeqTimes[d] || []] *)
Definition seqOf (st : State) (d : N) : list Q :=
  default [] (miniSeqTimes st !! d).

Definition leaderGapOf (st : State) (leader d : N) : gap :=
  if (d =? leader)%N then GLeader
  else timeGap (seqOf st d) (seqOf st leader) (lastStableGaps st !! d).

(** [ahead] is [order[i-1]], absent for [i === 0]. *)
Definition aheadGapOf (st : State) (ahead : option N) (d : N) : gap :=
  match ahead with
  | None => GLeader
  | Some a => timeGap (seqOf st d) (seqOf st a) (lastStableGapsAhead st !! d)
  end.

(** The loop over [order] filling [newLeader] and [newAhead]. *)
Fixpoint gapLoop (st : State) (leader : N) (ahead : option N) (order : list N)
    (acc : gmap N gap * gmap N gap) : gmap N gap * gmap N gap :=
  match order with
  | [] => acc
  | d :: rest =>
      gapLoop st leader (Some d) rest
        (<[d := leaderGapOf st leader d]> acc.1,
         <[d := aheadGapOf st ahead d]> acc.2)
  end.

(** [(g.type === 'leader') ? {type:'na'} : g] *)
Definition demoteLeader (g : gap) : gap :=
  match g with GLeader => GNa | _ => g end.

(** What [lastStableGaps] keeps of a committed value: leaders are
    normalised to a zero time gap. *)
Definition stableLeader (g : gap) : gap :=
  match g with GLeader => GTime 0 | _ => g end.

(** The branch taken when [cand] is empty: last stable values with any
    leader tag nulled out; the caches are left alone. *)
Definition degradeNoCandidates (st : State) : State :=
  let demote (cache : gmap N gap) :=
    map_imap (fun d (_ : Z) => Some (demoteLeader (default GNa (cache !! d))))
             (lapCounts st) in
  set_currentLeader None
    (set_gapsToAhead (demote (lastStableGapsAhead st))
      (set_gapsToLeader (demote (lastStableGaps st)) st)).

(** [for (dn in fresh) cache[dn] = keep(fresh[dn])] *)
Definition refreshCache (keep : gap -> gap) (fresh cache : gmap N gap)
    : gmap N gap :=
  (keep <$> fresh) ∪ cache.

(** [cand] is empty exactly when the sorted [order] is; otherwise
    [currentLeader = order[0]]. *)
Definition recomputeGapsSFandMinisectors (st : State) : State :=
  match rankOrder st with
  | [] => degradeNoCandidates st
  | (leader :: _) as order =>
      let '(newLeader, newAhead) := gapLoop st leader None order (∅, ∅) in
      set_lastStableGapsAhead
        (refreshCache demoteLeader newAhead (lastStableGapsAhead st))
        (set_lastStableGaps
          (refreshCache stableLeader newLeader (lastStableGaps st))
          (set_currentLeader (Some leader)
            (set_gapsToAhead newAhead (set_gapsToLeader newLeader st))))
  end.
End GapEngine.

(** ** Position sampler *)

Section Sampler.
Local Open Scope Q_scope.

(** The binary search of [indexLE]; [fuel] bounds the [while] loop, which
    halves [hi - lo] on every turn. *)
Fixpoint indexLE_loop (fuel : nat) (arr : list Q) (t : Q) (lo hi ans : Z) : Z :=
  match fuel with
  | O => ans
  | S fuel' =>
      if (lo <=? hi)%Z then
        let mid := Z.shiftr (lo + hi) 1 in
        match arr !! Z.to_nat mid with
        | Some v =>
            if Qleb v t then indexLE_loop fuel' arr t (mid + 1)%Z hi mid
            else indexLE_loop fuel' arr t lo (mid - 1)%Z ans
        | None => indexLE_loop fuel' arr t lo (mid - 1)%Z ans
        end
      else ans
  end.

Definition indexLE (arr : list Q) (t : Q) : Z :=
  indexLE_loop (S (length arr)) arr t 0 (Z.of_nat (length arr) - 1) 0.

(** The active segment index [k] for [carAbsSec]. *)
Definition segmentIndex (times : list Q) (carAbsSec : Q) : nat :=
  match times with
  | [] => 0%nat
  | t0 :: _ =>
      if Qleb carAbsSec t0 then 0%nat
      else if Qleb (default t0 (last times)) carAbsSec then (length times - 1)%nat
      else Z.to_nat (indexLE times carAbsSec)
  end.

(** [posWorld]: interpolation inside the bracket, clamped at the ends.
    [None] stands for reading [.pos] of a missing sample. *)
Definition samplePosition (arr : list Sample) (carAbsSec : Q) : option vec2 :=
  let k := segmentIndex (tSec <$> arr) carAbsSec in
  if (k <? length arr - 1)%nat then
    a ← arr !! k; b ← arr !! S k;
    let span := Qmax 1e-6 (tSec b - tSec a) in
    let f := constrain ((carAbsSec - tSec a) / span) 0 1 in
    Some (Vec2 (x (pos a) + (x (pos b) - x (pos a)) * f)
               (y (pos a) + (y (pos b) - y (pos a)) * f))
  else
    a ← arr !! k; Some (Vec2 (x (pos a)) (y (pos a))).
End Sampler.

(** ** Ledger updates on accepted crossings *)

Section Detector.
Local Open Scope Q_scope.
Variable cfg : Config.
(** [carAbsSec] and [afterGreen] of the running frame *)
Variable carAbsSec : Q.
Variable afterGreen : bool.

(** Pit-entry gate: sets the overlay, subject to its own debounce. *)
Definition pitStep (key : N) (prev curr : vec2) (pb : gateBase) (st : State)
    : State :=
  if pitHit pb prev curr then
    let lastPit := orNegInfinity (lastPitEntryCrossSec st !! key) in
    if intervalElapsed carAbsSec lastPit then
      set_lastPitEntryCrossSec
        (<[key := Finite carAbsSec]> (lastPitEntryCrossSec st))
        (set_pitOverlayActive (<[key := true]> (pitOverlayActive st)) st)
    else st
  else st.

(** The [allowMiniForOrder] block: count, stamp, reveal, clear the pit
    overlay. *)
Definition countMini (key : N) (st : State) : State :=
  let st1 :=
    set_lastMiniCrossSec (<[key := Finite carAbsSec]> (lastMiniCrossSec st))
      (set_miniCounts
         (<[key := (default 0 (miniCounts st !! key) + 1)%Z]> (miniCounts st))
         st) in
  let st2 :=
    if decide (key ∈ revealedDrivers st1) then st1
    else set_revealedDrivers ({[key]} ∪ revealedDrivers st1) st1 in
  match pitOverlayActive st2 !! key with
  | Some true => set_pitOverlayActive (<[key := false]> (pitOverlayActive st2)) st2
  | _ => st2
  end.

(** The [allowMiniForGaps] block: per-gate and sequence times, then the
    gap recomputation. *)
Definition timeMini (key : N) (gi : nat) (st : State) : option State :=
  byGate ← miniLapTimesByGate st !! key;
  let laps := default [] (byGate !! gi) ++ [carAbsSec] in
  let st1 :=
    set_miniLapTimesByGate
      (<[key := <[gi := laps]> byGate]> (miniLapTimesByGate st)) st in
  let st2 :=
    set_miniSeqTimes
      (<[key := default [] (miniSeqTimes st1 !! key) ++ [carAbsSec]]>
         (miniSeqTimes st1)) st1 in
  Some (recomputeGapsSFandMinisectors st2).

(** One turn of the loop over [miniBases]. *)
Definition miniGateStep (key : N) (prev curr : vec2) (st : State)
    (g : nat * gateBase) : option State :=
  let '(gi, gb) := g in
  if gateHit gb prev curr then
    byGate ← lastMiniCrossSecByGate st !! key;
    let lastByGate := numOrNegInfinity (byGate !! gi) in
    if intervalElapsed carAbsSec lastByGate then
      let st1 := countMini key st in
      st2 ← (if afterGreen then timeMini key gi st1 else Some st1);
      byGate' ← lastMiniCrossSecByGate st2 !! key;
      Some (set_lastMiniCrossSecByGate
              (<[key := <[gi := carAbsSec]> byGate']>
                 (lastMiniCrossSecByGate st2)) st2)
    else Some st
  else Some st.

(** Finish logic run on an accepted start/finish crossing. *)
Definition finishLogic (key : N) (st : State) : State :=
  let lapNum := numericLap (default 0%Z (lapCounts st !! key))
                           (bool_decide (key ∈ PIT_START_DRIVERS cfg)) in
  let st1 :=
    if raceFinishTriggered st
       && bool_decide (awaitingFlag st !! key = Some true)
       && bool_decide (key ∉ frozenDrivers st)
    then set_awaitingFlag (<[key := false]> (awaitingFlag st))
           (set_freezePending (<[key := true]> (freezePending st)) st)
    else st in
  let st2 :=
    if (FINAL_LAP cfg <=? lapNum)%Z && bool_decide (key ∉ frozenDrivers st1)
    then set_freezePending (<[key := true]> (freezePending st1)) st1
    else st1 in
  if negb (raceFinishTriggered st2) && (FINAL_LAP cfg <=? lapNum)%Z
  then
    let flagged :=
      map_imap (fun k2 (_ : Z) =>
                  if bool_decide (k2 ≠ key ∧ k2 ∉ frozenDrivers st2)
                  then Some true else None) (lapCounts st2) in
    set_awaitingFlag (flagged ∪ awaitingFlag st2)
      (set_finishLeaderDn (Some key) (set_raceFinishTriggered true st2))
  else st2.

(** Start/finish gate. *)
Definition sfStep (key : N) (prev curr : vec2) (sb : gateBase) (st : State)
    : option State :=
  if gateHit sb prev curr then
    let lastSF := orNegInfinity (lastCrossSec st !! key) in
    if intervalElapsed carAbsSec lastSF then
      times ← lapTimes st !! key;
      let st1 :=
        set_lastCrossSec (<[key := Finite carAbsSec]> (lastCrossSec st))
          (set_lapTimes (<[key := times ++ [carAbsSec]]> (lapTimes st))
            (set_lapCounts
               (<[key := (default 0 (lapCounts st !! key) + 1)%Z]> (lapCounts st))
               st)) in
      Some (finishLogic key st1)
    else Some st
  else Some st.

(** The body guarded by [allowDetection && prev && playbackSpeed > 0]. *)
Definition detect (key : N) (prev curr : vec2) (st : State) : option State :=
  let st1 :=
    match pitBase cfg with
    | Some pb =>
        if decide (key ∈ frozenDrivers st) then st
        else pitStep key prev curr pb st
    | None => st
    end in
  st2 ← foldlOpt (miniGateStep key prev curr) st1 (imap pair (miniBases cfg));
  if afterGreen then
    match sfBase cfg with
    | Some sb => sfStep key prev curr sb st2
    | None => Some st2
    end
  else Some st2.

(** [allowDetection] *)
Definition allowDetection : bool :=
  Qleb LAP_COUNT_START_DELAY_SEC (carAbsSec - carStartSec cfg).

(** One turn of [DRIVER_NUMS.forEach]; [speed] is the clamped
    [playbackSpeed]. *)
Definition driverStep (speed : Q) (st : State) (n : N) : option State :=
  match points cfg !! n with
  | None | Some [] => Some st
  | Some arr =>
      posWorld ← samplePosition arr carAbsSec;
      let spRaw := mapToScreen cfg posWorld in
      let curr := Vec2 (TRACK_VP_x cfg + x spRaw) (TRACK_VP_y cfg + y spRaw) in
      st' ← match prevScreenPos st !! n with
            | Some prev =>
                if allowDetection && Qltb 0 speed
                then detect n prev curr st else Some st
            | None => Some st
            end;
      Some (set_prevScreenPos (<[n := curr]> (prevScreenPos st')) st')
  end.
End Detector.

(** ** Freeze commits of [drawLeaderboard] *)

Section Leaderboard.
Local Open Scope Z_scope.
Variable cfg : Config.

(** [rows]: one row per revealed line of the driver table, sorted. *)
Definition boardRows (st : State) : list Candidate :=
  sortBy candidateCmp
    (candidateOf st <$>
       filter (fun d => d ∈ revealedDrivers st) (driverInfo cfg)).

(** [rowByDn[d].position]: [rowByDn] keeps the row pushed last for a
    driver number, and a stable sort leaves it the last of its equals. *)
Definition rowPosition (rows : list Candidate) (d : N) : option Z :=
  foldl (fun acc r => if (dn r.2 =? d)%N then Some (Z.of_nat r.1 + 1) else acc)
        None (imap pair rows).

(** The marking loop over [rows]; [r.1 + 1] is [d.position]. *)
Definition markFreeze (st : State) (r : nat * Candidate) : State :=
  let d := dn r.2 in
  let lapNum := numericLap (default 0 (lapCounts st !! d))
                           (bool_decide (d ∈ PIT_START_DRIVERS cfg)) in
  let st1 :=
    if (FINAL_LAP cfg <=? lapNum) && bool_decide (d ∉ frozenDrivers st)
    then set_freezePending (<[d := true]> (freezePending st)) st
    else st in
  if (d =? 4)%N
     && bool_decide (dnfOverlayActive st1 !! 4%N = Some true)
     && (Z.of_nat r.1 + 1 =? 20)
     && bool_decide (4%N ∉ frozenDrivers st1)
  then set_freezePending (<[4%N := true]> (freezePending st1)) st1
  else st1.

(** The commit loop over [freezePending]: each pending driver not yet
    frozen joins [frozenDrivers], takes its row's position if it has a
    row, and loses its pit overlay. *)
Definition commitPending (rows : list Candidate) (st : State) : State :=
  let newly :=
    filter (fun kv => kv.2 = true ∧ kv.1 ∉ frozenDrivers st) (freezePending st) in
  set_pitOverlayActive (((fun _ => false) <$> newly) ∪ pitOverlayActive st)
    (set_freezePos
       (map_imap (fun d (_ : bool) => rowPosition rows d) newly ∪ freezePos st)
       (set_frozenDrivers (dom newly ∪ frozenDrivers st) st)).

(** The state-changing part of [drawLeaderboard]; with no rows it
    returns before the freeze logic. *)
Definition drawLeaderboard (st : State) : State :=
  match boardRows st with
  | [] => st
  | rows => commitPending rows (foldl markFreeze st (imap pair rows))
  end.
End Leaderboard.

(** ** One frame: [draw] *)

(** What a frame receives from outside: p5's [deltaTime] (milliseconds)
    and the playback controls. *)
Record Frame := mkFrame { deltaTime : Q; isPlaying : bool; playbackSpeed : Q }.

Section Draw.
Local Open Scope Q_scope.
Variable cfg : Config.

(** DNF activation: [if (boardAbsSec >= dnfTimesAbsSec[dn])
    dnfOverlayActive[dn] = true]. *)
Definition activateDnf (boardAbsSec : Q) (st : State) : State :=
  let due := omap (fun t => if Qleb t boardAbsSec then Some true else None)
                  (dnfTimesAbsSec cfg) in
  set_dnfOverlayActive (due ∪ dnfOverlayActive st) st.

(** Baseline at green: capture the counts, reset the per-gate ledgers,
    the sequences, the caches and the pit overlay, then recompute. *)
Definition baselineAtGreen (st : State) : State :=
  let rows := driverInfo cfg in
  let st1 :=
    set_baselineMiniAtGreen
      (assignAll rows (fun d => default 0%Z (miniCounts st !! d))
                 (baselineMiniAtGreen st)) st in
  let st2 :=
    set_lastPitEntryCrossSec
      (assignAll rows (fun _ => NegInfinity) (lastPitEntryCrossSec st1))
    (set_pitOverlayActive
      (assignAll rows (fun _ => false) (pitOverlayActive st1))
    (set_lastStableGapsAhead
      (assignAll rows (fun _ => GNa) (lastStableGapsAhead st1))
    (set_lastStableGaps
      (assignAll rows (fun _ => GNa) (lastStableGaps st1))
    (set_miniSeqTimes
      (assignAll rows (fun _ => []) (miniSeqTimes st1))
    (set_lastMiniCrossSecByGate
      (assignAll rows (fun _ => ∅) (lastMiniCrossSecByGate st1))
    (set_miniLapTimesByGate
      (assignAll rows (fun _ => ∅) (miniLapTimesByGate st1)) st1)))))) in
  recomputeGapsSFandMinisectors (set_baselinedAtGreen true st2).

(** [dt = (deltaTime || 16.67) / 1000] *)
Definition frameDt (f : Frame) : Q :=
  (if Qeq_bool (deltaTime f) 0 then 16.67 else deltaTime f) / 1000.

(** [constrain(playbackSpeed, 1, 20)] *)
Definition frameSpeed (f : Frame) : Q := constrain (playbackSpeed f) 1 20.

(** [raceTime] after the clock advance of this frame. *)
Definition advance (f : Frame) (st : State) : Q :=
  if isPlaying f then raceTime st + frameDt f * frameSpeed f else raceTime st.

Definition boardAbsSecAt (raceT : Q) : Q := boardStartSec cfg + raceT.
Definition carAbsSecAt (raceT : Q) : Q :=
  (carStartSec cfg + raceT) + TIME_OFFSET_SECONDS.

Definition afterGreenAt (raceT : Q) : bool :=
  Qleb (RACE_START_ABS_SEC cfg) (carAbsSecAt raceT).
Definition raceStartedAt (raceT : Q) : bool :=
  Qleb (RACE_START_ABS_SEC cfg) (boardAbsSecAt raceT).

(** The head of [draw]: clock, DNF activation, baseline at green. *)
Definition frameStart (f : Frame) (st : State) : State :=
  let raceT := advance f st in
  let boardAbsSec := boardAbsSecAt raceT in
  let st1 := set_lastBoardAbsSec boardAbsSec (set_raceTime raceT st) in
  let st2 := activateDnf boardAbsSec st1 in
  if raceStartedAt raceT && negb (baselinedAtGreen st2)
  then baselineAtGreen st2 else st2.

(** [draw]: the head, the loop over [DRIVER_NUMS], the leaderboard. *)
Definition draw (f : Frame) (st : State) : option State :=
  let raceT := advance f st in
  st4 ← foldlOpt (driverStep cfg (carAbsSecAt raceT) (afterGreenAt raceT)
                             (frameSpeed f))
                 (frameStart f st) (DRIVER_NUMS cfg);
  Some (drawLeaderboard cfg st4).

(** A session: [setup], then frames. *)
Inductive reachable : State -> Prop :=
| reach_setup : reachable (setup cfg)
| reach_draw st f st' :
    reachable st -> 0 <= deltaTime f -> draw f st = Some st' -> reachable st'.
End Draw.

(** ** Notions the statements are phrased in *)

Section Notions.
Local Open Scope Q_scope.

(** Progress since the green-flag baseline: [miniCounts - baseline],
    the baseline being [0] until it is captured. *)
Definition rawProgress (st : State) (d : N) : Z :=
  (default 0 (miniCounts st !! d)
   - (if baselinedAtGreen st then default 0 (baselineMiniAtGreen st !! d) else 0))%Z.

(** Seconds since the last minisector crossing; [None] stands for the
    minus infinity of a driver that never crossed. *)
Definition recency (st : State) (d : N) : option Q :=
  (fun last => lastBoardAbsSec st - last) <$> isFinite (lastMiniCrossSec st !! d).

Definition recencyLe (a b : option Q) : Prop :=
  match a, b with
  | None, _ => True
  | Some _, None => False
  | Some u, Some v => u <= v
  end.

(** [a] ranks ahead of (or level with) [b]: more progress, or equal
    progress and at least the recency. *)
Definition ranksAhead (st : State) (a b : N) : Prop :=
  (rawProgress st b < rawProgress st a)%Z
  \/ (rawProgress st a = rawProgress st b /\ recencyLe (recency st b) (recency st a)).

(** The ledger facts that hold throughout a session: counts are
    non-negative and never below a captured baseline, no baseline entry
    exists before the capture, and a revealed driver has a crossing
    time. *)
Record ledgerOk (st : State) : Prop := {
  counts_nonneg : forall d, (0 <= default 0 (miniCounts st !! d))%Z;
  counts_above_baseline :
    forall d, (default 0 (baselineMiniAtGreen st !! d)
               <= default 0 (miniCounts st !! d))%Z;
  revealed_crossed :
    forall d, d ∈ revealedDrivers st ->
              exists t, lastMiniCrossSec st !! d = Some (Finite t)
}.

(** A gap map holds the leader tag for [d]. *)
Definition leaderTagged (gaps : gmap N gap) (d : N) : Prop :=
  gaps !! d = Some GLeader.

(** The three acceptance conditions of a forward gate, on the numbers
    [draw] computes. *)
Definition forwardFlip (gb : gateBase) (prev curr : vec2) : Prop :=
  signedDist gb prev < 0 /\ 0 <= signedDist gb curr.

Definition insideGate (gb : gateBase) (prev curr : vec2) : Prop :=
  Qabs (tangentOffset gb prev curr
          (zeroFraction (signedDist gb prev) (signedDist gb curr)))
  <= GATE_HALF_LEN.

(** At least [MIN_CROSSING_INTERVAL_SEC] since the recorded crossing, if
    there is one. *)
Definition debounced (now : Q) (recorded : option Q) : Prop :=
  match recorded with
  | None => True
  | Some t => MIN_CROSSING_INTERVAL_SEC <= now - t
  end.

(** What every step of a frame maintains; [now] is the frame's
    [carAbsSec] and [ag] its [afterGreen].  Besides the ledger facts:
    the domains line up, the caches never hold a leader tag, the
    sequences are sorted and bounded by the clock, at most one entry is
    leader-tagged, and every driver of the table keeps its cache and
    ledger slots. *)
Record coreInv (cfg : Config) (now : Q) (ag : bool) (st : State) : Prop := {
  inv_ledger : ledgerOk st;
  inv_rows : forall d, d ∈ driverInfo cfg -> d ∈ dom (lapCounts st);
  inv_byGate :
    forall d, d ∈ dom (lastMiniCrossSecByGate st) -> d ∈ dom (lapCounts st);
  inv_revealed : forall d, d ∈ revealedDrivers st -> d ∈ dom (lapCounts st);
  inv_caches :
    forall d, lastStableGaps st !! d <> Some GLeader
              /\ lastStableGapsAhead st !! d <> Some GLeader;
  inv_seqs :
    forall d seq, miniSeqTimes st !! d = Some seq ->
                  StronglySorted Qle seq /\ Forall (fun t => t <= now) seq;
  inv_unique :
    forall a b, leaderTagged (gapsToLeader st) a ->
                leaderTagged (gapsToLeader st) b -> a = b;
  inv_green : baselinedAtGreen st = true -> ag = true;
  inv_clock : carAbsSecAt cfg (raceTime st) = now;
  inv_stable :
    forall d, d ∈ driverInfo cfg ->
              is_Some (lastStableGaps st !! d)
              /\ is_Some (lastStableGapsAhead st !! d);
  inv_slots :
    forall d, d ∈ driverInfo cfg ->
              is_Some (lastMiniCrossSecByGate st !! d)
              /\ is_Some (miniLapTimesByGate st !! d)
              /\ is_Some (lapTimes st !! d)
}.

(** Once the baseline is taken, a revealed driver implies a leader tag. *)
Definition leaderInv (st : State) : Prop :=
  baselinedAtGreen st = true ->
  (exists d, d ∈ revealedDrivers st) ->
  exists l, leaderTagged (gapsToLeader st) l.

Definition sessionInv (cfg : Config) (now : Q) (ag : bool) (st : State) : Prop :=
  coreInv cfg now ag st /\ leaderInv st.

(** The invariant at a frame boundary. *)
Definition atBoundary (cfg : Config) (st : State) : Prop :=
  sessionInv cfg (carAbsSecAt cfg (raceTime st)) (afterGreenAt cfg (raceTime st)) st.

(** Every driver with telemetry has a row in the driver table (and so
    its ledger entries). *)
Definition wellFormed (cfg : Config) : Prop :=
  forall n arr, n ∈ DRIVER_NUMS cfg -> points cfg !! n = Some arr ->
                arr <> [] -> n ∈ driverInfo cfg.

(** Fields no detector step writes: the freeze record. *)
Definition finishKept (st st' : State) : Prop :=
  frozenDrivers st' = frozenDrivers st /\ freezePos st' = freezePos st.

(** Fields the pit and minisector steps leave alone: the lap ledger. *)
Definition lapsKept (st st' : State) : Prop :=
  lapCounts st' = lapCounts st /\ lapTimes st' = lapTimes st
  /\ lastCrossSec st' = lastCrossSec st.

(** The crossing times the debounce of a gate reads: the per-gate slot
    of a minisector, [lastCrossSec] for start/finish. *)
Definition recordedMini (st : State) (key : N) (gi : nat) : option Q :=
  lastMiniCrossSecByGate st !! key ≫= fun byGate => byGate !! gi.

Definition recordedSF (st : State) (key : N) : option Q :=
  isFinite (lastCrossSec st !! key).

(** All three acceptance conditions together. *)
Definition accepted (gb : gateBase) (prev curr : vec2) (now : Q)
    (recorded : option Q) : Prop :=
  forwardFlip gb prev curr /\ insideGate gb prev curr /\ debounced now recorded.

(** A recorded time of exactly zero reads as no record at all (it is
    falsy); the statements below leave that case aside. *)
Definition nonzeroRecord (recorded : option Q) : Prop :=
  forall t, recorded = Some t -> ~ t == 0.

(** Frames run in sequence. *)
Definition runFrames (cfg : Config) (fs : list Frame) (st : State) : option State :=
  foldlOpt (fun s f => draw cfg f s) st fs.

(** The state after a list of frames from [setup]; a run that throws
    stays at [setup]. *)
Definition afterFrames (cfg : Config) (fs : list Frame) : State :=
  default (setup cfg) (runFrames cfg fs (setup cfg)).

(** What "no crossing was counted" means between two states: the
    counters, the reveal set and the crossing stamps are the same, and
    no pit overlay was switched on. *)
Definition nothingCounted (st st' : State) : Prop :=
  miniCounts st' = miniCounts st
  /\ lapCounts st' = lapCounts st
  /\ revealedDrivers st' = revealedDrivers st
  /\ lastMiniCrossSec st' = lastMiniCrossSec st
  /\ lastCrossSec st' = lastCrossSec st
  /\ (forall d, pitOverlayActive st' !! d = Some true ->
                pitOverlayActive st !! d = Some true).
End Notions.

(** ** Concrete sessions used as witnesses *)

Section Scenarios.
Local Open Scope Q_scope.

(** A gate across a track that runs down the screen: tangent along x,
    normal along y ([angleDeg = 0]). *)
Definition gateAt (wy : Q) : Gate := mkGate (Vec2 0 wy) 1 0.

(** Cars 1 and 4 on parallel straights, car 1 twice as fast; minisector
    gates at screen y = 0 and y = 3, start/finish at y = 5; the green
    flag at [green]; car 4 retires at t = 3. *)
Definition straightCfg (green : Q) : Config :=
  {| DRIVER_NUMS := [1%N; 4%N];
     driverInfo := [1%N; 4%N];
     points :=
       <[1%N := [mkSample 0 (Vec2 0 1); mkSample 10 (Vec2 0 (-9))]]>
         (<[4%N := [mkSample 0 (Vec2 1 1); mkSample 20 (Vec2 1 (-9))]]> ∅);
     centerX := 0; centerY := 0; worldScale := 1;
     TRACK_VP_x := 0; TRACK_VP_y := 0; TRACK_VP_w := 0; TRACK_VP_h := 0;
     miniGates := [gateAt 0; gateAt (-3)];
     startFinishGate := Some (gateAt (-5));
     pitEntryGate := None;
     RACE_START_ABS_SEC := green;
     DNF_EVENTS := [(4%N, 3)];
     FINAL_LAP := 3;
     PIT_START_DRIVERS := ∅ |}.

(** A frame of [ms] milliseconds, playing at [speed]. *)
Definition playing (ms speed : Q) : Frame := mkFrame ms true speed.

(** Formation: green far away.  After frames ending at t = 0.5, 1.5 and
    2.5 both cars have crossed the first minisector gate. *)
Definition formationCfg : Config := straightCfg 100.
Definition formationFrames : list Frame :=
  [playing 500 1; playing 1000 1; playing 1000 1].

(** Three more seconds bring car 1 to t = 5.5, just before the
    start/finish line; the next frame takes it across. *)
Definition beforeLineFrames : list Frame :=
  formationFrames ++ [playing 1000 1; playing 1000 1; playing 1000 1].
Definition lineFrame : Frame := playing 1000 1.

(** At t = 4.5 car 1 has two minisectors, car 4 one, and car 4 is
    flagged DNF. *)
Definition retiredFrames : list Frame :=
  formationFrames ++ [playing 1000 1; playing 1000 1].

(** Green from the start.  The second frame covers four seconds of
    race time (200 ms at 20x) and takes car 1 across both minisector
    gates. *)
Definition greenCfg : Config := straightCfg 0.
Definition jumpFrames : list Frame := [playing 500 1; playing 200 20].

(** Car 4's telemetry starts ten seconds after car 1's, a quarter of a
    unit before the first gate. *)
Definition lateCfg : Config :=
  {| DRIVER_NUMS := [1%N; 4%N];
     driverInfo := [1%N; 4%N];
     points :=
       <[1%N := [mkSample 0 (Vec2 0 100); mkSample 100 (Vec2 0 90)]]>
         (<[4%N := [mkSample 10 (Vec2 1 (1 # 4));
                    mkSample 20 (Vec2 1 (- (39 # 4)))]]> ∅);
     centerX := 0; centerY := 0; worldScale := 1;
     TRACK_VP_x := 0; TRACK_VP_y := 0; TRACK_VP_w := 0; TRACK_VP_h := 0;
     miniGates := [gateAt 0];
     startFinishGate := None;
     pitEntryGate := None;
     RACE_START_ABS_SEC := 1000;
     DNF_EVENTS := [];
     FINAL_LAP := 3;
     PIT_START_DRIVERS := ∅ |}.
Definition lateFrames : list Frame := [playing 10000 1; playing 500 1].

(** The first sample time of a driver: the start of its own timeline. *)
Definition ownStart (cfg : Config) (n : N) : option Q :=
  head (tSec <$> default [] (points cfg !! n)).

(** The spec's gap scenario: A = car 1 with times 10.0 and 22.0, B = car
    4 with 10.5 and 22.6, both revealed, board time 22.6. *)
Definition gapScenario : State :=
  set_miniSeqTimes (<[1%N := [10; 22]]> (<[4%N := [10.5; 22.6]]> ∅))
    (set_revealedDrivers {[1%N; 4%N]}
      (set_lastMiniCrossSec
         (<[1%N := Finite 22]> (<[4%N := Finite 22.6]> ∅))
        (set_miniCounts (<[1%N := 2%Z]> (<[4%N := 2%Z]> ∅))
          (set_lastBoardAbsSec 22.6 (setup formationCfg))))).

(** A full grid of twenty on the same straights, formation running:
    car 4 at half the speed of the others, retiring at t = 3. *)
Definition gridCfg : Config :=
  {| DRIVER_NUMS := N.of_nat <$> seq 1 20;
     driverInfo := N.of_nat <$> seq 1 20;
     points :=
       <[4%N := [mkSample 0 (Vec2 1 1); mkSample 20 (Vec2 1 (-9))]]>
         (assignAll (N.of_nat <$> seq 1 20)
            (fun _ => [mkSample 0 (Vec2 0 1); mkSample 10 (Vec2 0 (-9))]) ∅);
     centerX := 0; centerY := 0; worldScale := 1;
     TRACK_VP_x := 0; TRACK_VP_y := 0; TRACK_VP_w := 0; TRACK_VP_h := 0;
     miniGates := [gateAt 0; gateAt (-3)];
     startFinishGate := Some (gateAt (-5));
     pitEntryGate := None;
     RACE_START_ABS_SEC := 100; DNF_EVENTS := [(4%N, 3)];
     FINAL_LAP := 72; PIT_START_DRIVERS := {[24%N]} |}.

(** The state of a frame at the point where its leaderboard is drawn. *)
Definition beforeBoard (cfg : Config) (f : Frame) (st : State) : State :=
  let raceT := advance f st in
  default st
    (foldlOpt (driverStep cfg (carAbsSecAt cfg raceT) (afterGreenAt cfg raceT)
                          (frameSpeed f))
              (frameStart cfg f st) (DRIVER_NUMS cfg)).

(** The frame ending at t = 3.5: every car has crossed the first gate,
    car 4 last of all, and car 4 has just been flagged DNF. *)
Definition gridFrame : Frame := playing 1000 1.
Definition gridState : State :=
  beforeBoard gridCfg gridFrame (afterFrames gridCfg formationFrames).
End Scenarios.

(** ** Notions for the further properties *)

Section MoreNotions.
Local Open Scope Q_scope.

(** What a step can only move forward: the two counters, the reveal
    set, the DNF flags, the finish trigger with its leader, the captured
    baseline and the lap-time history. *)
Record advances (st st' : State) : Prop := {
  adv_mini :
    forall d, (default 0 (miniCounts st !! d) <= default 0 (miniCounts st' !! d))%Z;
  adv_laps :
    forall d, (default 0 (lapCounts st !! d) <= default 0 (lapCounts st' !! d))%Z;
  adv_revealed : forall d, d ∈ revealedDrivers st -> d ∈ revealedDrivers st';
  adv_dnf :
    forall d, dnfOverlayActive st !! d = Some true ->
              dnfOverlayActive st' !! d = Some true;
  adv_finish :
    raceFinishTriggered st = true ->
    raceFinishTriggered st' = true /\ finishLeaderDn st' = finishLeaderDn st;
  adv_baseline :
    baselinedAtGreen st = true ->
    baselinedAtGreen st' = true /\ baselineMiniAtGreen st' = baselineMiniAtGreen st;
  adv_lapTimes :
    forall d ts, lapTimes st !! d = Some ts ->
                 exists more, lapTimes st' !! d = Some (ts ++ more)
}.

(** Fields neither the detector nor the leaderboard writes: the clock,
    the previous screen positions (written by the driver loop around
    the detector), the DNF flags and the baseline. *)
Definition detectKept (st st' : State) : Prop :=
  raceTime st' = raceTime st
  /\ lastBoardAbsSec st' = lastBoardAbsSec st
  /\ prevScreenPos st' = prevScreenPos st
  /\ dnfOverlayActive st' = dnfOverlayActive st
  /\ baselinedAtGreen st' = baselinedAtGreen st
  /\ baselineMiniAtGreen st' = baselineMiniAtGreen st.

(** Facts about the freeze record, the finish trigger, the DNF flags and
    the per-gate ledger that hold at every point of a session. *)
Record boardInv (cfg : Config) (st : State) : Prop := {
  binv_pit :
    forall d, d ∈ frozenDrivers st -> pitOverlayActive st !! d <> Some true;
  binv_pos :
    forall d p, freezePos st !! d = Some p ->
                d ∈ frozenDrivers st
                /\ (1 <= p <= Z.of_nat (length (driverInfo cfg)))%Z;
  binv_trigger :
    raceFinishTriggered st = true -> is_Some (finishLeaderDn st);
  binv_winner :
    forall k, finishLeaderDn st = Some k ->
              raceFinishTriggered st = true
              /\ (FINAL_LAP cfg
                  <= numericLap (default 0 (lapCounts st !! k))
                                (bool_decide (k ∈ PIT_START_DRIVERS cfg)))%Z;
  binv_laps : forall d, (0 <= default 0 (lapCounts st !! d))%Z;
  binv_dnf :
    forall d, dnfOverlayActive st !! d = Some true ->
              exists t, dnfTimesAbsSec cfg !! d = Some t
                        /\ t <= boardAbsSecAt cfg (raceTime st);
  binv_gates :
    forall d, d ∈ dom (lastMiniCrossSecByGate st) -> d ∈ driverInfo cfg
}.

(** The screen position [draw] computes for driver [n] at car time [t]:
    [curr] of the crossing tests. *)
Definition screenPosAt (cfg : Config) (n : N) (t : Q) : option vec2 :=
  arr ← points cfg !! n;
  posWorld ← samplePosition arr t;
  let spRaw := mapToScreen cfg posWorld in
  Some (Vec2 (TRACK_VP_x cfg + x spRaw) (TRACK_VP_y cfg + y spRaw)).

(** At a frame boundary every stored previous position belongs to a
    driver of [DRIVER_NUMS] and is that driver's position at the
    current clock. *)
Definition prevOk (cfg : Config) (st : State) : Prop :=
  forall n p, prevScreenPos st !! n = Some p ->
              n ∈ DRIVER_NUMS cfg
              /\ screenPosAt cfg n (carAbsSecAt cfg (raceTime st)) = Some p.
End MoreNotions.

(** ** More concrete sessions *)

Section MoreScenarios.
Local Open Scope Q_scope.

(** The straights with the green flag at the start and a race of a
    single lap: the first car over the line finishes the race. *)
Definition sprintCfg : Config :=
  {| DRIVER_NUMS := [1%N; 4%N];
     driverInfo := [1%N; 4%N];
     points := points greenCfg;
     centerX := 0; centerY := 0; worldScale := 1;
     TRACK_VP_x := 0; TRACK_VP_y := 0; TRACK_VP_w := 0; TRACK_VP_h := 0;
     miniGates := [gateAt 0; gateAt (-3)];
     startFinishGate := Some (gateAt (-5));
     pitEntryGate := None;
     RACE_START_ABS_SEC := 0;
     DNF_EVENTS := [];
     FINAL_LAP := 1;
     PIT_START_DRIVERS := ∅ |}.

(** Frames ending at t = 0.5, 1.5, ..., 6.5: car 1 crosses the line in
    the last one. *)
Definition sprintFrames : list Frame := beforeLineFrames ++ [lineFrame].

(** The straights with a third car, 7, that has telemetry but no row in
    the driver table. *)
Definition strayCfg : Config :=
  {| DRIVER_NUMS := [1%N; 4%N; 7%N];
     driverInfo := [1%N; 4%N];
     points :=
       <[7%N := [mkSample 0 (Vec2 2 1); mkSample 10 (Vec2 2 (-9))]]>
         (points greenCfg);
     centerX := 0; centerY := 0; worldScale := 1;
     TRACK_VP_x := 0; TRACK_VP_y := 0; TRACK_VP_w := 0; TRACK_VP_h := 0;
     miniGates := [gateAt 0; gateAt (-3)];
     startFinishGate := Some (gateAt (-5));
     pitEntryGate := None;
     RACE_START_ABS_SEC := 100;
     DNF_EVENTS := [];
     FINAL_LAP := 3;
     PIT_START_DRIVERS := ∅ |}.
End MoreScenarios.

(** ** The visible order of the leaderboard ([finalRows] of
       [drawLeaderboard]) *)

Section VisibleOrder.
Local Open Scope Z_scope.

Definition BOARD_MAX_ROWS : nat := 20.

(** [rowByDn[d]]: the row pushed last for driver number [d]. *)
Definition rowByDn (rows : list Candidate) (d : N) : option Candidate :=
  foldl (fun acc r => if (dn r =? d)%N then Some r else acc) None rows.

(** [finalRows[idx] !== null] for an index inside the array. *)
Definition occupied (slots : list (option Candidate)) (idx : Z) : bool :=
  match slots !! Z.to_nat idx with
  | Some (Some _) => true
  | _ => false
  end.

(** [while (idx < total && finalRows[idx] !== null) idx++]; the loop
    makes at most [total] turns. *)
Fixpoint scanUp (fuel : nat) (slots : list (option Candidate)) (idx : Z) : Z :=
  match fuel with
  | O => idx
  | S fuel' =>
      if (idx <? Z.of_nat (length slots)) && occupied slots idx
      then scanUp fuel' slots (idx + 1) else idx
  end.

(** [while (idx >= 0 && finalRows[idx] !== null) idx--] *)
Fixpoint scanDown (fuel : nat) (slots : list (option Candidate)) (idx : Z) : Z :=
  match fuel with
  | O => idx
  | S fuel' =>
      if (0 <=? idx) && occupied slots idx
      then scanDown fuel' slots (idx - 1) else idx
  end.

(** [constrain(pos, 1, total)] on positions. *)
Definition constrainPos (pos total : Z) : Z := Z.max (Z.min pos total) 1.

(** One turn of [Array.from(frozenDrivers).forEach]: a frozen driver
    with a row goes to its frozen slot, or to the next free slot below
    it on the board, or failing that to the nearest free slot above. *)
Definition placeFrozen (st : State) (rows : list Candidate)
    (slots : list (option Candidate)) (d : N) : list (option Candidate) :=
  match rowByDn rows d, rowPosition rows d with
  | Some r, Some position =>
      let total := Z.of_nat (length rows) in
      let pos0 := match freezePos st !! d with
                  | Some p => if p =? 0 then position else p
                  | None => position
                  end in
      let pos := constrainPos pos0 total in
      let up := scanUp (length rows) slots (pos - 1) in
      let idx := if total <=? up
                 then scanDown (length rows) slots (pos - 2) else up in
      if (0 <=? idx) && (idx <? total)
      then <[Z.to_nat idx := Some r]> slots else slots
  | _, _ => slots
  end.

(** The fill loop: every slot still [null] takes the next active row;
    [active[fillIdx++]] is [undefined] once [active] is used up. *)
Fixpoint fillHoles (slots : list (option Candidate)) (active : list Candidate)
    : list (option Candidate) :=
  match slots with
  | [] => []
  | Some r :: slots' => Some r :: fillHoles slots' active
  | None :: slots' => head active :: fillHoles slots' (tail active)
  end.

(** [finalRows]; [frozenOrder] is the iteration order of the set
    [frozenDrivers] (its insertion order). *)
Definition finalRows (st : State) (rows : list Candidate) (frozenOrder : list N)
    : list (option Candidate) :=
  let placed := foldl (placeFrozen st rows) (replicate (length rows) None)
                      frozenOrder in
  fillHoles placed (filter (fun r => dn r ∉ frozenDrivers st) rows).

(** [visible = finalRows.slice(0, visCount)] *)
Definition visibleRows (st : State) (rows : list Candidate) (frozenOrder : list N)
    : list (option Candidate) :=
  take (Nat.min BOARD_MAX_ROWS (length rows)) (finalRows st rows frozenOrder).

(** The insertion order of a set lists its elements once each. *)
Definition iterationOf (order : list N) (s : gset N) : Prop :=
  NoDup order /\ forall d, d ∈ order <-> d ∈ s.
End VisibleOrder.
(** ** Fitting the world into the track viewport
       ([setup] bounds and [rebuildViewportAndLayers]) *)

Section Viewport.
Local Open Scope Q_scope.

Definition PADDING : Q := 40.

(** [allPos]: the position of every sample of every driver of
    [DRIVER_NUMS]. *)
Definition allPos (cfg : Config) : list vec2 :=
  n ← DRIVER_NUMS cfg; pos <$> default [] (points cfg !! n).

Record Bounds := mkBounds { minX : Q; maxX : Q; minY : Q; maxY : Q }.

(** The world bounds of [setup]: the four [reduce] calls when there is
    a position, the initial zeros otherwise. *)
Definition worldBounds (cfg : Config) : Bounds :=
  match allPos cfg with
  | [] => mkBounds 0 0 0 0
  | p :: ps =>
      mkBounds (foldl (fun m q => Qmin m (x q)) (x p) ps)
               (foldl (fun m q => Qmax m (x q)) (x p) ps)
               (foldl (fun m q => Qmin m (y q)) (y p) ps)
               (foldl (fun m q => Qmax m (y q)) (y p) ps)
  end.

(** [rebuildViewportAndLayers]: the scale and the centre it assigns. *)
Definition rebuildViewportAndLayers (cfg : Config) : Config :=
  let b := worldBounds cfg in
  let dataW := Qmax 1 (maxX b - minX b) in
  let dataH := Qmax 1 (maxY b - minY b) in
  let scaleX := (TRACK_VP_w cfg - PADDING * 2) / dataW in
  let scaleY := (TRACK_VP_h cfg - PADDING * 2) / dataH in
  {| DRIVER_NUMS := DRIVER_NUMS cfg;
     driverInfo := driverInfo cfg;
     points := points cfg;
     centerX := (minX b + maxX b) / 2;
     centerY := (minY b + maxY b) / 2;
     worldScale := Qmin scaleX scaleY;
     TRACK_VP_x := TRACK_VP_x cfg; TRACK_VP_y := TRACK_VP_y cfg;
     TRACK_VP_w := TRACK_VP_w cfg; TRACK_VP_h := TRACK_VP_h cfg;
     miniGates := miniGates cfg;
     startFinishGate := startFinishGate cfg;
     pitEntryGate := pitEntryGate cfg;
     RACE_START_ABS_SEC := RACE_START_ABS_SEC cfg;
     DNF_EVENTS := DNF_EVENTS cfg;
     FINAL_LAP := FINAL_LAP cfg;
     PIT_START_DRIVERS := PIT_START_DRIVERS cfg |}.

(** A point of the screen lies in the track viewport, [PADDING] away
    from its edges. *)
Definition insidePadded (cfg : Config) (p : vec2) : Prop :=
  TRACK_VP_x cfg + PADDING <= x p
  /\ x p <= TRACK_VP_x cfg + TRACK_VP_w cfg - PADDING
  /\ TRACK_VP_y cfg + PADDING <= y p
  /\ y p <= TRACK_VP_y cfg + TRACK_VP_h cfg - PADDING.

(** A track on a slope, in a viewport of 1000 by 600 at (500, 20). *)
Definition slopeCfg : Config :=
  {| DRIVER_NUMS := [1%N; 16%N];
     driverInfo := [1%N; 16%N];
     points :=
       <[1%N := [mkSample 0 (Vec2 (-300) 50); mkSample 10 (Vec2 900 450)]]>
         (<[16%N := [mkSample 0 (Vec2 100 (-150)); mkSample 8 (Vec2 500 250)]]> ∅);
     centerX := 0; centerY := 0; worldScale := 1;
     TRACK_VP_x := 500; TRACK_VP_y := 20; TRACK_VP_w := 1000; TRACK_VP_h := 600;
     miniGates := []; startFinishGate := None; pitEntryGate := None;
     RACE_START_ABS_SEC := 0; DNF_EVENTS := [];
     FINAL_LAP := 72; PIT_START_DRIVERS := ∅ |}.
End Viewport.
(** ** Layout arithmetic: panels, board columns, background image *)

Section Layout.
Local Open Scope Q_scope.

Record Rect := mkRect { rx : Q; ry : Q; rw : Q; rh : Q }.

(** [Math.round(v)]: the nearest integer, halves upwards. *)
Definition jsRound (v : Q) : Q := inject_Z (Qfloor (v + (1 # 2))).

(** [computeLayout()] for a canvas of [width] by [height]: the board
    and the track viewport. *)
Definition computeLayout (width height : Q) : Rect * Rect :=
  let M := 20 in
  let GAP := 100 in
  let h := Qmax 1 (height - M * 2) in
  let boardW := jsRound (constrain (width * 0.28) 380 560) in
  let xBoard := M in
  let yBoard := M in
  let xTrack := xBoard + boardW + GAP in
  let yTrack := M in
  let trackW := Qmax 1 (width - xTrack - M) in
  let trackH := h in
  (mkRect xBoard yBoard boardW h, mkRect xTrack yTrack trackW trackH).

Definition BOARD_VP (width height : Q) : Rect := (computeLayout width height).1.
Definition TRACK_VP (width height : Q) : Rect := (computeLayout width height).2.

(** *** The column budget of the leaderboard *)

Definition TYRE_ICON : Q := 25.
Definition SP : Q := 8.
Definition PAD_L : Q := 12.
Definition PAD_R : Q := 10.
Definition flagW : Q := 22.
Definition DRIVER_MIN : Q := 40.
Definition GAP_MIN : Q := 60.

(** The widths the shrinking steps change, and the running total. *)
Record Columns := mkColumns { driverW : Q; gapW : Q; tyreW : Q; totalW : Q }.

(** [totalW] as first computed from the measured widths. *)
Definition columnsTotal (showTyre : bool)
    (DELTA_W posW teamW dW gW tW : Q) : Q :=
  let totalCols := if showTyre then 7 else 6 in
  DELTA_W + posW + teamW + dW + gW + (if showTyre then tW else 0) + flagW
  + SP * (totalCols - 1).

Definition shrinkDriverStep (avail : Q) (c : Columns) : Columns :=
  if Qltb avail (totalW c)
  then let need := totalW c - avail in
       let shrinkDriver := Qmin need (Qmax 0 (driverW c - DRIVER_MIN)) in
       mkColumns (driverW c - shrinkDriver) (gapW c) (tyreW c)
                 (totalW c - shrinkDriver)
  else c.

Definition shrinkGapStep (avail : Q) (c : Columns) : Columns :=
  if Qltb avail (totalW c)
  then let need := totalW c - avail in
       let shrinkGap := Qmin need (Qmax 0 (gapW c - GAP_MIN)) in
       mkColumns (driverW c) (gapW c - shrinkGap) (tyreW c)
                 (totalW c - shrinkGap)
  else c.

Definition shrinkTyreStep (showTyre : bool) (avail : Q) (c : Columns) : Columns :=
  if Qltb avail (totalW c) && showTyre
  then let need := totalW c - avail in
       let tyreMin := TYRE_ICON + 4 in
       let shrinkTyre := Qmin need (Qmax 0 (tyreW c - tyreMin)) in
       mkColumns (driverW c) (gapW c) (tyreW c - shrinkTyre)
                 (totalW c - shrinkTyre)
  else c.

(** The width budget of [drawLeaderboard]: the total of the measured
    columns, then the shrinking Driver, Gap, Tyre in this order;
    [boardW] is [BOARD_VP.w]. *)
Definition shrinkColumns (showTyre : bool)
    (DELTA_W posW teamW dW gW tW boardW : Q) : Columns :=
  let avail := boardW - PAD_L - PAD_R in
  shrinkTyreStep showTyre avail
    (shrinkGapStep avail
       (shrinkDriverStep avail
          (mkColumns dW gW tW
             (columnsTotal showTyre DELTA_W posW teamW dW gW tW)))).

(** *** [drawImageCover] *)

Record Image := mkImage { imgWidth : Q; imgHeight : Q }.

(** The rectangle [drawImageCover(img, x, y, w, h)] passes to
    [image]: a missing image and a zero size count as size 1. *)
Definition drawImageCover (img : option Image) (bx by_ w h : Q) : Rect :=
  let iw := match img with
            | Some i => if Qeq_bool (imgWidth i) 0 then 1 else imgWidth i
            | None => 1
            end in
  let ih := match img with
            | Some i => if Qeq_bool (imgHeight i) 0 then 1 else imgHeight i
            | None => 1
            end in
  let scale := Qmax (w / iw) (h / ih) in
  let nw := iw * scale in
  let nh := ih * scale in
  let ox := bx + (w - nw) / 2 in
  let oy := by_ + (h - nh) / 2 in
  mkRect ox oy nw nh.
End Layout.
(** ** Text that must fit: [drawTruncatedText] *)

Section TruncatedText.
Local Open Scope Q_scope.

(** A string is the list of its UTF-16 code units; [textWidth] is p5's
    measure under the current font. *)
Variable textWidth : list N -> Q.

(** ['…'] *)
Definition ell : list N := [8230%N].

(** [txt.slice(0, k) + ell] *)
Definition withEllipsis (txt : list N) (k : nat) : list N := take k txt ++ ell.

(** The binary search [while (lo < hi)]; every turn narrows [hi - lo],
    so [txt.length] turns are enough. *)
Fixpoint truncLoop (fuel : nat) (txt : list N) (maxW : Q) (lo hi : nat) : nat :=
  match fuel with
  | O => lo
  | S fuel' =>
      if (lo <? hi)%nat
      then let mid := ((lo + hi + 1) / 2)%nat in
           if Qleb (textWidth (withEllipsis txt mid)) maxW
           then truncLoop fuel' txt maxW mid hi
           else truncLoop fuel' txt maxW lo (mid - 1)
      else lo
  end.

(** The string [drawTruncatedText(txt, x, baselineY, maxW)] hands to
    [text], at [x] and [baselineY] as given; [None] when it draws
    nothing. *)
Definition drawTruncatedText (txt : list N) (maxW : Q) : option (list N) :=
  if Qleb maxW 0 then None
  else if Qleb (textWidth txt) maxW then Some txt
  else Some (withEllipsis txt (truncLoop (length txt) txt maxW 0 (length txt))).
End TruncatedText.

(** A fixed-pitch measure: seven pixels a code unit. *)
Definition fixedPitch (s : list N) : Q := 7 * inject_Z (Z.of_nat (length s)).

(** ** The lap of the header: [lapHeaderNumeric] *)

Definition lapHeaderNumeric (cfg : Config) (st : State) : Z :=
  foldl (fun mx k =>
           let c := default 0%Z (lapCounts st !! k) in
           let pit := bool_decide (k ∈ PIT_START_DRIVERS cfg) in
           let ln := numericLap c pit in
           if (mx <? ln)%Z then ln else mx)
        1%Z (jsKeys (lapCounts st)).

(** ** Tyre stints: [stintsByDriver] and its two readers *)

Section Stints.
Local Open Scope Z_scope.

(** What [normalizeCompound] returns for a row: a compound name. *)
Variable Compound : Type.

(** One row of stints.csv as [setup] parses it; [age] is [NaN] when the
    cell is empty. *)
Record Stint := mkStint {
  lap_start : Z;
  lap_end : Z;
  compound : option Compound;
  age : option Z;
  tyre_age_at_start : Z
}.

(** The rows of stints.csv: the trimmed [driver_number] cell ([None]
    when it is empty) and the parsed stint. *)
Definition pushStint (m : gmap N (list Stint)) (r : option N * Stint)
    : gmap N (list Stint) :=
  match r.1 with
  | None => m
  | Some d => <[d := default [] (m !! d) ++ [r.2]]> m
  end.

(** [(a, b) => a.lap_start - b.lap_start] *)
Definition byLapStart (a b : Stint) : Q :=
  (inject_Z (lap_start a) - inject_Z (lap_start b))%Q.

(** [(stintsByDriver[dn] ??= []).push(row)] over the rows, then each
    driver's array sorted by [lap_start]. *)
Definition buildStints (rows : list (option N * Stint)) : gmap N (list Stint) :=
  sortBy byLapStart <$> foldl pushStint ∅ rows.

(** The stints of the rows of driver [d], in row order. *)
Definition rowsOf (rows : list (option N * Stint)) (d : N) : list Stint :=
  omap (fun r => if decide (r.1 = Some d) then Some r.2 else None) rows.

(** The first stint with [lapNum >= lap_start && lapNum <= lap_end]. *)
Definition coveringStint (arr : list Stint) (lapNum : Z) : option Stint :=
  head (filter (fun s => lap_start s <= lapNum /\ lapNum <= lap_end s) arr).

(** [best]: the last stint in array order with [lap_start <= lapNum]. *)
Definition bestStint (arr : list Stint) (lapNum : Z) : option Stint :=
  foldl (fun best s => if bool_decide (lap_start s <= lapNum) then Some s else best)
        None arr.

(** [isNaN(s.age) ? (s.tyre_age_at_start || 0) : s.age], then
    [baseAge || 0]. *)
Definition baseAge (s : Stint) : Z :=
  match age s with
  | None => tyre_age_at_start s
  | Some a => a
  end.

Variable stintsByDriver : gmap N (list Stint).

Definition currentCompoundForDriver (d : N) (lapNum : Z) : option Compound :=
  match stintsByDriver !! d with
  | None | Some [] => None
  | Some arr =>
      match coveringStint arr lapNum with
      | Some s => compound s
      | None =>
          match bestStint arr lapNum with
          | Some best => compound best
          | None => None
          end
      end
  end.

Definition currentTyreAgeForDriver (d : N) (lapNum : Z) : option Z :=
  match stintsByDriver !! d with
  | None | Some [] => None
  | Some arr =>
      match coveringStint arr lapNum with
      | Some s => Some ((lapNum - lap_start s) + baseAge s)
      | None =>
          match bestStint arr lapNum with
          | Some best => Some ((lapNum - lap_start best) + baseAge best)
          | None => None
          end
      end
  end.
End Stints.

Arguments mkStint {Compound}.
Arguments lap_start {Compound}.
Arguments lap_end {Compound}.
Arguments compound {Compound}.
Arguments age {Compound}.
Arguments tyre_age_at_start {Compound}.
Arguments pushStint {Compound}.
Arguments byLapStart {Compound}.
Arguments buildStints {Compound}.
Arguments rowsOf {Compound}.
Arguments coveringStint {Compound}.
Arguments bestStint {Compound}.
Arguments baseAge {Compound}.
Arguments currentCompoundForDriver {Compound}.
Arguments currentTyreAgeForDriver {Compound}.
(** ** Controls: the button row, [mousePressed], [keyPressed] and the
       view switch of [draw] *)

Module Controls.
Section Interaction.
Local Open Scope Q_scope.

(** [pointInRect(px, py, r)] *)
Definition pointInRect (px py : Q) (r : Rect) : bool :=
  Qleb (rx r) px && Qleb px (rx r + rw r) && Qleb (ry r) py && Qleb py (ry r + rh r).

Definition BTN_H : Q := 34.
Definition BTN_W : Q := 64.
Definition GAP_BTN : Q := 8.
Definition PILL_PAD_X : Q := 12.
Definition SPEED_PRESETS : list Q := [1; 2; 5; 10; 20].
Definition HOVER_RADIUS_BASE : Q := 14.
Definition CAR_DIAM : Q := 10.

(** The hit boxes of [UI_BTN]. *)
Record Buttons := mkButtons {
  bgL : Rect; bgR : Rect; viewL : Rect; viewR : Rect;
  playL : Rect; playR : Rect;
  s1 : Rect; s2 : Rect; s5 : Rect; s10 : Rect; s20 : Rect;
  group : Rect;
  gapL : Rect; gapA : Rect; tyreHide : Rect; tyreShow : Rect
}.

(** [UI_BTN] as declared. *)
Definition UI_BTN : Buttons :=
  let pill := mkRect 0 0 0 BTN_H in
  let speed := mkRect 0 0 BTN_W BTN_H in
  let none := mkRect 0 0 0 0 in
  mkButtons pill pill pill pill pill pill speed speed speed speed speed
            none none none none none.

(** The labels measured by [computeUnifiedPillSegW], as UTF-16 code
    units: "BG Off", "BG On", "Track", "Chart", "Play", "Pause",
    "Leader", "Ahead", "Hide", "Show". *)
Definition pillLabels : list (list N) :=
  [ [66; 71; 32; 79; 102; 102]; [66; 71; 32; 79; 110];
    [84; 114; 97; 99; 107]; [67; 104; 97; 114; 116];
    [80; 108; 97; 121]; [80; 97; 117; 115; 101];
    [76; 101; 97; 100; 101; 114]; [65; 104; 101; 97; 100];
    [72; 105; 100; 101]; [83; 104; 111; 119] ]%N.

(** [computeUnifiedPillSegW()]: the value it gives
    [UNIFIED_PILL_SEG_W]. *)
Definition computeUnifiedPillSegW (textWidth : list N -> Q) : Q :=
  inject_Z (Qceiling
    (foldl (fun w l => Qmax w (textWidth l + PILL_PAD_X * 2)) 0 pillLabels)).

(** [layoutButtonsTrack()], for the track viewport [vp] and the
    segment width [W]; the speed buttons keep their size and only move. *)
Definition layoutButtonsTrack (vp : Rect) (W : Q) (b : Buttons) : Buttons :=
  let pad := 16 in
  let x0 := rx vp + pad in
  let y := ry vp + pad in
  let x1 := x0 + (W * 2 + GAP_BTN) in
  let x2 := x1 + (W * 2 + GAP_BTN) in
  let x3 := x2 + (W * 2 + GAP_BTN) in
  let x4 := x3 + (BTN_W + GAP_BTN) in
  let x5 := x4 + (BTN_W + GAP_BTN) in
  let x6 := x5 + (BTN_W + GAP_BTN) in
  let x7 := x6 + (BTN_W + GAP_BTN) in
  let x8 := x7 + (BTN_W + GAP_BTN) in
  let groupX := x0 - 8 in
  let groupY := y - 8 in
  let groupW := (x8 - x0) + 16 in
  let groupH := BTN_H + 16 in
  mkButtons
    (mkRect x0 y W BTN_H) (mkRect (x0 + W) y W BTN_H)
    (mkRect x1 y W BTN_H) (mkRect (x1 + W) y W BTN_H)
    (mkRect x2 y W BTN_H) (mkRect (x2 + W) y W BTN_H)
    (mkRect x3 y (rw (s1 b)) (rh (s1 b)))
    (mkRect x4 y (rw (s2 b)) (rh (s2 b)))
    (mkRect x5 y (rw (s5 b)) (rh (s5 b)))
    (mkRect x6 y (rw (s10 b)) (rh (s10 b)))
    (mkRect x7 y (rw (s20 b)) (rh (s20 b)))
    (mkRect groupX groupY groupW groupH)
    (gapL b) (gapA b) (tyreHide b) (tyreShow b).

(** The eleven hit boxes of the top row, left to right. *)
Definition topRow (b : Buttons) : list Rect :=
  [bgL b; bgR b; viewL b; viewR b; playL b; playR b;
   s1 b; s2 b; s5 b; s10 b; s20 b].

(** *** The state the controls write *)

Inductive View := TRACK | CHART.
Inductive GapMode := LEADER | AHEAD.

Definition View_eqb (a b : View) : bool :=
  match a, b with TRACK, TRACK | CHART, CHART => true | _, _ => false end.

Record ViewSwitch := mkViewSwitch {
  vsActive : bool; vsFrom : View; vsTo : View;
  vsT : Q; vsDur : Q; vsSwitched : bool
}.

Record Ui := mkUi {
  bgVisible : bool;
  viewMode : View;
  viewSwitch : ViewSwitch;
  isPlaying : bool;
  playbackSpeed : Q;
  (** [SPEED_PRESETS.indexOf(...)]: [-1] when absent *)
  speedIndex : Z;
  gapMode : GapMode;
  showTyre : bool;
  selectedDriver : option N
}.

(** The globals as declared. *)
Definition initialUi : Ui :=
  mkUi true TRACK (mkViewSwitch false TRACK CHART 0 0.45 false)
       true 5 2 LEADER false None.

Definition set_bgVisible (v : bool) (u : Ui) : Ui :=
  mkUi v (viewMode u) (viewSwitch u) (isPlaying u) (playbackSpeed u)
       (speedIndex u) (gapMode u) (showTyre u) (selectedDriver u).
Definition set_viewMode (v : View) (u : Ui) : Ui :=
  mkUi (bgVisible u) v (viewSwitch u) (isPlaying u) (playbackSpeed u)
       (speedIndex u) (gapMode u) (showTyre u) (selectedDriver u).
Definition set_viewSwitch (v : ViewSwitch) (u : Ui) : Ui :=
  mkUi (bgVisible u) (viewMode u) v (isPlaying u) (playbackSpeed u)
       (speedIndex u) (gapMode u) (showTyre u) (selectedDriver u).
Definition set_isPlaying (v : bool) (u : Ui) : Ui :=
  mkUi (bgVisible u) (viewMode u) (viewSwitch u) v (playbackSpeed u)
       (speedIndex u) (gapMode u) (showTyre u) (selectedDriver u).
Definition set_speed (v : Q) (i : Z) (u : Ui) : Ui :=
  mkUi (bgVisible u) (viewMode u) (viewSwitch u) (isPlaying u) v
       i (gapMode u) (showTyre u) (selectedDriver u).
Definition set_gapMode (v : GapMode) (u : Ui) : Ui :=
  mkUi (bgVisible u) (viewMode u) (viewSwitch u) (isPlaying u) (playbackSpeed u)
       (speedIndex u) v (showTyre u) (selectedDriver u).
Definition set_showTyre (v : bool) (u : Ui) : Ui :=
  mkUi (bgVisible u) (viewMode u) (viewSwitch u) (isPlaying u) (playbackSpeed u)
       (speedIndex u) (gapMode u) v (selectedDriver u).
Definition set_selectedDriver (v : option N) (u : Ui) : Ui :=
  mkUi (bgVisible u) (viewMode u) (viewSwitch u) (isPlaying u) (playbackSpeed u)
       (speedIndex u) (gapMode u) (showTyre u) v.

(** [SPEED_PRESETS.indexOf(v)] *)
Definition indexOf (v : Q) : Z :=
  (fix go (l : list Q) (i : Z) : Z :=
     match l with
     | [] => (-1)%Z
     | q :: l' => if Qeq_bool q v then i else go l' (i + 1)%Z
     end) SPEED_PRESETS 0%Z.

(** *** [mousePressed] *)

(** p5's [dist(x1, y1, x2, y2)]. *)
Variable dist : Q -> Q -> Q -> Q -> Q.

(** What a click reads besides the state: the pointer, the hit boxes,
    the hovered chart point, the cars as last drawn, the rows of the
    board. *)
Record Pointer := mkPointer {
  mouseX : Q; mouseY : Q;
  buttons : Buttons;
  (** [chartHover.dn] when a chart point with a driver is hovered *)
  chartHover : option N;
  lastFrameScreenPos : gmap N vec2;
  driverY : gmap N Q;
  boardVp : Rect;
  BOARD_ROW_H_CURR : Q
}.

(** One turn of the loop over [Object.keys(lastFrameScreenPos)];
    [bestDist] starts at [Infinity] ([None]). *)
Definition nearerCar (p : Pointer) (acc : option N * option Q) (k : N)
    : option N * option Q :=
  match lastFrameScreenPos p !! k with
  | Some sp =>
      let d := dist (mouseX p) (mouseY p) (x sp) (y sp) in
      if Qleb d (Qmax HOVER_RADIUS_BASE (CAR_DIAM + 6))
         && match acc.2 with None => true | Some bestDist => Qltb d bestDist end
      then (Some k, Some d) else acc
  | None => acc
  end.

Definition nearestCar (p : Pointer) : option N :=
  (foldl (nearerCar p) (None, None) (jsKeys (lastFrameScreenPos p))).1.

(** One turn of the loop over [Object.keys(driverY)]. *)
Definition nearerRow (p : Pointer) (acc : option N * option Q) (k : N)
    : option N * option Q :=
  match driverY p !! k with
  | Some centerY =>
      let top := centerY - BOARD_ROW_H_CURR p / 2 in
      let bottom := centerY + BOARD_ROW_H_CURR p / 2 in
      let dy := if Qltb (mouseY p) top then top - mouseY p
                else if Qltb bottom (mouseY p) then mouseY p - bottom else 0 in
      if match acc.2 with None => true | Some bestDY => Qltb dy bestDY end
         && Qltb dy (BOARD_ROW_H_CURR p * 0.75)
      then (Some k, Some dy) else acc
  | None => acc
  end.

Definition nearestRow (p : Pointer) : option N :=
  (foldl (nearerRow p) (None, None) (jsKeys (driverY p))).1.

(** The end of [mousePressed]: the car, the board row, or no selection. *)
Definition selectByClick (p : Pointer) (u : Ui) : Ui :=
  let onTrack := match viewMode u with
                 | TRACK => nearestCar p
                 | CHART => None
                 end in
  match onTrack with
  | Some best => set_selectedDriver (Some best) u
  | None =>
      let inBoard := pointInRect (mouseX p) (mouseY p) (boardVp p) in
      match (if inBoard then nearestRow p else None) with
      | Some bestDriver => set_selectedDriver (Some bestDriver) u
      | None => set_selectedDriver None u
      end
  end.

Definition startSwitch (target : View) (u : Ui) : Ui :=
  if vsActive (viewSwitch u) then u
  else set_viewSwitch (mkViewSwitch true (viewMode u) target 0 0.45 false) u.

Definition mousePressed (p : Pointer) (u : Ui) : Ui :=
  let hit := pointInRect (mouseX p) (mouseY p) in
  let b := buttons p in
  if hit (bgL b) then set_bgVisible false u
  else if hit (bgR b) then set_bgVisible true u
  else if hit (viewL b) && negb (View_eqb (viewMode u) TRACK) then startSwitch TRACK u
  else if hit (viewR b) && negb (View_eqb (viewMode u) CHART) then startSwitch CHART u
  else if hit (playL b) then set_isPlaying true u
  else if hit (playR b) then set_isPlaying false u
  else if hit (s1 b) then set_speed 1 (indexOf 1) u
  else if hit (s2 b) then set_speed 2 (indexOf 2) u
  else if hit (s5 b) then set_speed 5 (indexOf 5) u
  else if hit (s10 b) then set_speed 10 (indexOf 10) u
  else if hit (s20 b) then set_speed 20 (indexOf 20) u
  else if hit (gapL b) then set_gapMode LEADER u
  else if hit (gapA b) then set_gapMode AHEAD u
  else if hit (tyreHide b) then set_showTyre false u
  else if hit (tyreShow b) then set_showTyre true u
  else match viewMode u, chartHover p with
       | CHART, Some dn => set_selectedDriver (Some dn) u
       | _, _ => selectByClick p u
       end.

(** [keyPressed()]: the space bar toggles playback. *)
Definition keyPressed (keyCode : Z) (u : Ui) : Ui :=
  if (keyCode =? 32)%Z then set_isPlaying (negb (isPlaying u)) u else u.

(** What [draw] writes of this state in a frame of [lastDt] seconds:
    the clamp of the speed and the crossfade of the view switch. *)
Definition drawControls (lastDt : Q) (u : Ui) : Ui :=
  let u1 := set_speed (constrain (playbackSpeed u) 1 20) (speedIndex u) u in
  let vs := viewSwitch u1 in
  if vsActive vs
  then let t' := vsT vs + lastDt in
       let half := vsDur vs * 0.5 in
       let flip := negb (vsSwitched vs) && Qleb half t' in
       let mode := if flip then vsTo vs else viewMode u1 in
       let sw := if flip then true else vsSwitched vs in
       let act := if Qleb (vsDur vs) t' then false else vsActive vs in
       set_viewSwitch (mkViewSwitch act (vsFrom vs) (vsTo vs) t' (vsDur vs) sw)
         (set_viewMode mode u1)
  else u1.

Inductive UiEvent :=
| Click (p : Pointer)
| Key (keyCode : Z)
| Drawn (lastDt : Q).

Definition uiStep (u : Ui) (e : UiEvent) : Ui :=
  match e with
  | Click p => mousePressed p u
  | Key k => keyPressed k u
  | Drawn dt => drawControls dt u
  end.

Definition uiRun (es : list UiEvent) (u : Ui) : Ui := foldl uiStep u es.
End Interaction.
End Controls.
(** ** Notions for the controls *)

Section ControlNotions.
Local Open Scope Q_scope.

(** The speed in use and its index go together. *)
Definition speedOk (u : Controls.Ui) : Prop :=
  (Controls.playbackSpeed u, Controls.speedIndex u)
  ∈ [(1, 0%Z); (2, 1%Z); (5, 2%Z); (10, 3%Z); (20, 4%Z)].

(** The view is the target of the switch once it has flipped and its
    origin before; a running switch leads to the other view and has not
    run out its time. *)
Definition viewOk (u : Controls.Ui) : Prop :=
  let vs := Controls.viewSwitch u in
  Controls.viewMode u
  = (if Controls.vsSwitched vs then Controls.vsTo vs else Controls.vsFrom vs)
  /\ Controls.vsDur vs = 0.45
  /\ (Controls.vsActive vs = true ->
      Controls.vsFrom vs <> Controls.vsTo vs /\ Controls.vsT vs < Controls.vsDur vs).

Definition sumQ (l : list Q) : Q := foldr Qplus 0 l.

(** Every hit box a click is tested against. *)
Definition allButtons (b : Controls.Buttons) : list Rect :=
  Controls.topRow b
  ++ [Controls.gapL b; Controls.gapA b; Controls.tyreHide b; Controls.tyreShow b].

(** The distance a click is judged by in the examples: the larger of
    the two coordinate differences. *)
Definition chebyshev (x1 y1 x2 y2 : Q) : Q :=
  Qmax (Qabs (x1 - x2)) (Qabs (y1 - y2)).

(** A track viewport at (500, 20), its button row for a segment width
    of 70, and a click at (900, 400) with car 44 three pixels away and
    car 16 ten pixels away. *)
Definition demoButtons : Controls.Buttons :=
  Controls.layoutButtonsTrack (mkRect 500 20 1000 600) 70 Controls.UI_BTN.

Definition demoPointer : Controls.Pointer :=
  Controls.mkPointer 900 400 demoButtons None
    (<[44%N := Vec2 903 400]> (<[16%N := Vec2 900 410]> ∅))
    ∅ (mkRect 20 20 380 600) 24.

(** A click on the "Chart" segment of the view pill. *)
Definition chartClick : Controls.Pointer :=
  Controls.mkPointer (rx (Controls.viewR demoButtons) + 5)
                     (ry (Controls.viewR demoButtons) + 5)
                     demoButtons None ∅ ∅ (mkRect 20 20 380 600) 24.
End ControlNotions.
(** ** The position snapshots for the chart (the end of
       [drawLeaderboard]) *)

Section PositionSnapshots.
Local Open Scope Z_scope.

Record ChartLog := mkChartLog {
  positionsByLap : gmap Z (gmap N Z);
  lastRecordedLap : Z
}.

(** [positionsByLap = {}], [lastRecordedLap = 0] *)
Definition emptyLog : ChartLog := mkChartLog ∅ 0.

(** [snap[dn] = i + 1] over the rows. *)
Definition snapshotOf (rows : list Candidate) : gmap N Z :=
  foldl (fun snap r => <[dn r.2 := Z.of_nat r.1 + 1]> snap) ∅ (imap pair rows).

(** The snapshot step, with the ranking [rows] of this frame and the
    state [st] at the end of [drawLeaderboard]; with no rows the
    leaderboard has returned before it. *)
Definition recordPositions (cfg : Config) (st : State) (rows : list Candidate)
    (log : ChartLog) : ChartLog :=
  match rows with
  | [] => log
  | r :: _ =>
      let leaderDn := dn r in
      let leaderLap :=
        numericLap (default 0 (lapCounts st !! leaderDn))
                   (bool_decide (leaderDn ∈ PIT_START_DRIVERS cfg)) in
      if baselinedAtGreen st && (0 <? leaderLap)
         && negb (leaderLap =? lastRecordedLap log)
      then mkChartLog (<[leaderLap := snapshotOf rows]> (positionsByLap log))
                      leaderLap
      else log
  end.

(** A frame with its snapshot: [draw], whose leaderboard ranks the
    state the driver loop has left. *)
Definition drawLogged (cfg : Config) (sl : State * ChartLog) (f : Frame)
    : option (State * ChartLog) :=
  match draw cfg f sl.1 with
  | Some st' =>
      Some (st', recordPositions cfg st' (boardRows cfg (beforeBoard cfg f sl.1)) sl.2)
  | None => None
  end.

Definition runLogged (cfg : Config) (fs : list Frame) (sl : State * ChartLog)
    : option (State * ChartLog) :=
  foldlOpt (drawLogged cfg) sl fs.

(** A snapshot ranks its drivers 1 to [n] without gaps or ties. *)
Definition isRanking (cfg : Config) (snap : gmap N Z) : Prop :=
  exists n : nat,
    (1 <= n <= length (driverInfo cfg))%nat
    /\ (forall d p, snap !! d = Some p -> d ∈ driverInfo cfg)
    /\ (forall p, (exists d, snap !! d = Some p) <-> 1 <= p <= Z.of_nat n)
    /\ (forall d d' p, snap !! d = Some p -> snap !! d' = Some p -> d = d').
End PositionSnapshots.

(** ** The drawn position of a car: exponential smoothing in [draw] *)

Section Smoothing.
Local Open Scope Q_scope.

(** [Math.exp] *)
Variable exp : Q -> Q.

(** [alpha = constrain(1 - Math.exp(-(dt * playbackSpeed) / tau), 0.18, 0.9)] *)
Definition smoothAlpha (dt speed : Q) : Q :=
  let tau := 0.12 in
  constrain (1 - exp (- (dt * speed) / tau)) 0.18 0.9.

(** [posDraw]: towards [posWorld] from the smoothed position of the
    last frame, or [posWorld] itself for a car drawn for the first
    time. *)
Definition posDrawOf (prevSm : option vec2) (posWorld : vec2) (alpha : Q) : vec2 :=
  match prevSm with
  | Some prev => Vec2 (x prev + (x posWorld - x prev) * alpha)
                      (y prev + (y posWorld - y prev) * alpha)
  | None => posWorld
  end.

Record DrawnCars := mkDrawnCars {
  smoothWorldPos : gmap N vec2;
  lastFrameScreenPos : gmap N vec2
}.

(** The drawing part of one turn of [DRIVER_NUMS.forEach]. *)
Definition drawCar (cfg : Config) (alpha carAbsSec : Q) (dc : DrawnCars) (n : N)
    : DrawnCars :=
  match points cfg !! n ≫= (fun arr => samplePosition arr carAbsSec) with
  | Some posWorld =>
      let posDraw := posDrawOf (smoothWorldPos dc !! n) posWorld alpha in
      let sp := mapToScreen cfg posDraw in
      mkDrawnCars (<[n := posDraw]> (smoothWorldPos dc))
                  (<[n := Vec2 (TRACK_VP_x cfg + x sp) (TRACK_VP_y cfg + y sp)]>
                     (lastFrameScreenPos dc))
  | None => dc
  end.

(** The cars of one frame; [lastFrameScreenPos] starts empty. *)
Definition drawCars (cfg : Config) (dc : DrawnCars) (f : Q * Q * Q) : DrawnCars :=
  let '(dt, speed, carAbsSec) := f in
  foldl (drawCar cfg (smoothAlpha dt speed) carAbsSec)
        (mkDrawnCars (smoothWorldPos dc) ∅) (DRIVER_NUMS cfg).

(** Frames given by [dt], the clamped speed and the car clock. *)
Definition drawFrames (cfg : Config) (fs : list (Q * Q * Q)) : DrawnCars :=
  foldl (drawCars cfg) (mkDrawnCars ∅ ∅) fs.

Definition inBounds (b : Bounds) (p : vec2) : Prop :=
  minX b <= x p <= maxX b /\ minY b <= y p <= maxY b.

(** What holds of the drawn cars at any point of a session: the
    smoothed positions lie in the world bounds and the positions on
    screen inside the padded viewport. *)
Definition drawnOk (cfg : Config) (dc : DrawnCars) : Prop :=
  (forall n q, smoothWorldPos dc !! n = Some q -> inBounds (worldBounds cfg) q)
  /\ (forall n p, lastFrameScreenPos dc !! n = Some p ->
                  insidePadded (rebuildViewportAndLayers cfg) p).
End Smoothing.
(** ** Gates from timestamps: [gateFromTimestamp] and
       [gateFromTimestampFuzzy] *)

Section GateFromTimestamp.
Local Open Scope Q_scope.

(** An ISO timestamp as the tables hold it; [===] on strings. *)
Variable Date : Type.
Context `{EqDecision Date}.
Variable parseIsoToSecOfDay : Date -> Q.
(** [degrees(Math.atan2(dy, dx))] *)
Variable angleOf : Q -> Q -> Q.

(** An element of [points[n]]: [{pos, date, tSec}]. *)
Record DatedSample := mkDatedSample { date : Date; sample : Sample }.

(** [{ worldPos, angleDeg }] *)
Record GateSpec := mkGateSpec { gateWorldPos : vec2; angleDeg : Q }.

(** The angle at index [idx]: from the neighbours where there are two
    samples around or beside it that are apart, the default
    otherwise. *)
Definition angleAt (arr : list DatedSample) (idx : nat) (defaultAngleDeg : Q) : Q :=
  let last := (length arr - 1)%nat in
  let ends :=
    if (0 <? idx)%nat && (idx <? last)%nat then (arr !! (idx - 1)%nat, arr !! (idx + 1)%nat)
    else if (idx <? last)%nat then (arr !! idx, arr !! (idx + 1)%nat)
    else if (0 <? idx)%nat then (arr !! (idx - 1)%nat, arr !! idx)
    else (None, None) in
  match ends with
  | (Some pA, Some pB) =>
      let dx := x (pos (sample pB)) - x (pos (sample pA)) in
      let dy := y (pos (sample pB)) - y (pos (sample pA)) in
      if Qltb 1e-6 (Qabs dx + Qabs dy) then angleOf dy dx else defaultAngleDeg
  | _ => defaultAngleDeg
  end.

Definition gateAtIndex (arr : list DatedSample) (idx : nat) (defaultAngleDeg : Q)
    : option GateSpec :=
  s ← arr !! idx;
  Some (mkGateSpec (pos (sample s)) (angleAt arr idx defaultAngleDeg)).

(** [gateFromTimestamp(arr, ts, defaultAngleDeg)] *)
Definition gateFromTimestamp (arr : list DatedSample) (ts : Date)
    (defaultAngleDeg : Q) : option GateSpec :=
  match list_find (fun s => date s = ts) arr with
  | Some (idx, _) => gateAtIndex arr idx defaultAngleDeg
  | None => None
  end.

(** One turn of the search for the nearest sample; [None] is
    [bestIdx = -1], [bestDiff = Infinity]. *)
Definition nearerSample (target : Q) (best : option (nat * Q))
    (e : nat * DatedSample) : option (nat * Q) :=
  let d := Qabs (tSec (sample e.2) - target) in
  match best with
  | None => Some (e.1, d)
  | Some (_, bestDiff) => if Qltb d bestDiff then Some (e.1, d) else best
  end.

(** [gateFromTimestampFuzzy(arr, ts, defaultAngleDeg, toleranceSec)] *)
Definition gateFromTimestampFuzzy (arr : list DatedSample) (ts : Date)
    (defaultAngleDeg toleranceSec : Q) : option GateSpec :=
  match arr with
  | [] => None
  | _ =>
      if bool_decide (Exists (fun s => date s = ts) arr)
      then gateFromTimestamp arr ts defaultAngleDeg
      else
        let target := parseIsoToSecOfDay ts in
        match foldl (nearerSample target) None (imap pair arr) with
        | None => None
        | Some (bestIdx, bestDiff) =>
            if Qltb toleranceSec bestDiff then None
            else gateAtIndex arr bestIdx defaultAngleDeg
        end
  end.
End GateFromTimestamp.

Arguments mkDatedSample {Date}.
Arguments date {Date}.
Arguments sample {Date}.
Arguments angleAt {Date}.
Arguments gateAtIndex {Date}.
Arguments gateFromTimestamp {Date _}.
Arguments nearerSample {Date}.
Arguments gateFromTimestampFuzzy {Date _}.
(** ** A crossing inside the first second *)

Section EarlyCrossing.
Local Open Scope Q_scope.

(** One car that starts half a unit before the only minisector gate and
    crosses it at t = 0.5. *)
Definition earlyCfg : Config :=
  {| DRIVER_NUMS := [1%N];
     driverInfo := [1%N];
     points :=
       <[1%N := [mkSample 0 (Vec2 0 (1 # 2));
                 mkSample 10 (Vec2 0 (- (19 # 2)))]]> ∅;
     centerX := 0; centerY := 0; worldScale := 1;
     TRACK_VP_x := 0; TRACK_VP_y := 0; TRACK_VP_w := 0; TRACK_VP_h := 0;
     miniGates := [gateAt 0];
     startFinishGate := None;
     pitEntryGate := None;
     RACE_START_ABS_SEC := 1000;
     DNF_EVENTS := [];
     FINAL_LAP := 3;
     PIT_START_DRIVERS := ∅ |}.

(** The first frame ends at t = 0.3 and stores the car's position; the
    second ends at t = 0.7, on the other side of the gate. *)
Definition earlyFrames : list Frame := [playing 300 1].
Definition earlyFrame : Frame := playing 400 1.
End EarlyCrossing.
(** ** The rows [drawLeaderboard] shows *)

Section ShownBoard.
Variable cfg : Config.

(** The drivers one pass of the commit loop adds to [frozenDrivers], in
    the order of [for (const dn in freezePending)]. *)
Definition newlyFrozen (st : State) : list N :=
  jsKeys (filter (fun kv => kv.2 = true ∧ kv.1 ∉ frozenDrivers st)
                 (freezePending st)).

(** The rest of [drawLeaderboard] reads [visible[i].name_acronym],
    [visible[i].driver_number], ... for every [i < visCount]: a
    TypeError on a slot that holds [undefined]. *)
Definition readVisible (visible : list (option Candidate))
    : option (list Candidate) :=
  mapM id visible.

(** [drawLeaderboard] with the rows it shows.  [order] is
    [Array.from(frozenDrivers)], the insertion order of the set, as it
    stands when the function is entered; the result carries the order
    as the commit loop leaves it. *)
Definition drawLeaderboardShown (order : list N) (st : State)
    : option (State * list N) :=
  match boardRows cfg st with
  | [] => Some (st, order)
  | rows =>
      let marked := foldl (markFreeze cfg) st (imap pair rows) in
      let st' := commitPending rows marked in
      let order' := order ++ newlyFrozen marked in
      _ ← readVisible (visibleRows st' rows order');
      Some (st', order')
  end.

(** One frame with its leaderboard drawn. *)
Definition drawShown (f : Frame) (so : State * list N)
    : option (State * list N) :=
  let raceT := advance f so.1 in
  st4 ← foldlOpt (driverStep cfg (carAbsSecAt cfg raceT) (afterGreenAt cfg raceT)
                             (frameSpeed f))
                 (frameStart cfg f so.1) (DRIVER_NUMS cfg);
  drawLeaderboardShown so.2 st4.

(** A session with its leaderboards drawn: [setup] leaves
    [frozenDrivers] empty. *)
Definition runShown (fs : list Frame) (so : State * list N)
    : option (State * list N) :=
  foldlOpt (fun so f => drawShown f so) so fs.
End ShownBoard.

Section RepeatedRow.
Local Open Scope Q_scope.

(** The sprint with the row of car 1 repeated in the driver table. *)
Definition repeatedRowCfg : Config :=
  {| DRIVER_NUMS := [1%N; 4%N];
     driverInfo := [1%N; 1%N; 4%N];
     points := points greenCfg;
     centerX := 0; centerY := 0; worldScale := 1;
     TRACK_VP_x := 0; TRACK_VP_y := 0; TRACK_VP_w := 0; TRACK_VP_h := 0;
     miniGates := [gateAt 0; gateAt (-3)];
     startFinishGate := Some (gateAt (-5));
     pitEntryGate := None;
     RACE_START_ABS_SEC := 0;
     DNF_EVENTS := [];
     FINAL_LAP := 1;
     PIT_START_DRIVERS := ∅ |}.
End RepeatedRow.

(** ** Resizing the window *)

Section Resize.
Local Open Scope Q_scope.

(** [TRACK_VP = {...}] as [computeLayout] assigns it. *)
Definition withTrackVp (r : Rect) (cfg : Config) : Config :=
  {| DRIVER_NUMS := DRIVER_NUMS cfg;
     driverInfo := driverInfo cfg;
     points := points cfg;
     centerX := centerX cfg; centerY := centerY cfg;
     worldScale := worldScale cfg;
     TRACK_VP_x := rx r; TRACK_VP_y := ry r;
     TRACK_VP_w := rw r; TRACK_VP_h := rh r;
     miniGates := miniGates cfg;
     startFinishGate := startFinishGate cfg;
     pitEntryGate := pitEntryGate cfg;
     RACE_START_ABS_SEC := RACE_START_ABS_SEC cfg;
     DNF_EVENTS := DNF_EVENTS cfg;
     FINAL_LAP := FINAL_LAP cfg;
     PIT_START_DRIVERS := PIT_START_DRIVERS cfg |}.

(** [windowResized()]: [computeLayout] for the new canvas, then
    [rebuildViewportAndLayers].  It leaves the replay state, and with it
    [prevScreenPos], as it is. *)
Definition windowResized (windowWidth windowHeight : Q) (cfg : Config) : Config :=
  rebuildViewportAndLayers (withTrackVp (TRACK_VP windowWidth windowHeight) cfg).

(** What p5 calls between [setup] and the end of a session. *)
Inductive SessionEvent :=
| DrawFrame (f : Frame)
| WindowResized (windowWidth windowHeight : Q).

Definition sessionStep (cs : Config * State) (e : SessionEvent)
    : option (Config * State) :=
  match e with
  | DrawFrame f => st' ← draw cs.1 f cs.2; Some (cs.1, st')
  | WindowResized w h => Some (windowResized w h cs.1, cs.2)
  end.

Definition runSession (es : list SessionEvent) (cs : Config * State)
    : option (Config * State) :=
  foldlOpt sessionStep cs es.

(** No resize since the last frame was drawn: the last event, if there
    is one, is a frame. *)
Definition drawnLast (es : list SessionEvent) : Prop :=
  match last es with
  | Some (WindowResized _ _) => False
  | _ => True
  end.

(** What a resize leaves of [prevOk]: every stored previous position
    belongs to a driver of [DRIVER_NUMS] that has a position at the
    current clock. *)
Definition prevKnown (cfg : Config) (st : State) : Prop :=
  forall n p, prevScreenPos st !! n = Some p ->
              n ∈ DRIVER_NUMS cfg
              /\ is_Some (screenPosAt cfg n (carAbsSecAt cfg (raceTime st))).

(** A track 100 wide and 400 high.  Car 1 drives along y = 0 from
    x = 26 and passes the gate at x = 30 at t = 0.8, inside the first
    second; the gate faces the direction of travel. *)
Definition resizeBase : Config :=
  {| DRIVER_NUMS := [1%N];
     driverInfo := [1%N];
     points :=
       <[1%N := [mkSample 0 (Vec2 26 0); mkSample 10 (Vec2 76 0);
                 mkSample 20 (Vec2 0 (-200)); mkSample 30 (Vec2 100 200)]]> ∅;
     centerX := 0; centerY := 0; worldScale := 1;
     TRACK_VP_x := 0; TRACK_VP_y := 0; TRACK_VP_w := 0; TRACK_VP_h := 0;
     miniGates := [mkGate (Vec2 30 0) 0 (-1)];
     startFinishGate := None;
     pitEntryGate := None;
     RACE_START_ABS_SEC := 1000;
     DNF_EVENTS := [];
     FINAL_LAP := 3;
     PIT_START_DRIVERS := ∅ |}.

(** The session opens in a window of 1000 by 600. *)
Definition resizeCfg : Config := windowResized 1000 600 resizeBase.

(** A frame that ends at t = 2, then the window grows to 1600 by 600. *)
Definition resizeEvents : list SessionEvent :=
  [DrawFrame (playing 2000 1); WindowResized 1600 600].

Definition pausedFrame : Frame := mkFrame 16 false 1.
End Resize.

(** * Properties *)

(** ** Comparisons and fractions *)

Section NumberFacts.
Local Open Scope Q_scope.

Lemma Qltb_true a b : Qltb a b = true <-> a < b.
Proof. unfold Qltb. destruct (Qlt_le_dec a b); split; intros; try easy. lra. Qed.

Lemma Qltb_false a b : Qltb a b = false <-> b <= a.
Proof. unfold Qltb. destruct (Qlt_le_dec a b); split; intros; try easy. lra. Qed.

Lemma Qleb_true a b : Qleb a b = true <-> a <= b.
Proof. unfold Qleb. destruct (Qlt_le_dec b a); split; intros; try easy. lra. Qed.

Lemma Qleb_false a b : Qleb a b = false <-> b < a.
Proof. unfold Qleb. destruct (Qlt_le_dec b a); split; intros; try easy. lra. Qed.

Lemma flipsForward_spec d0 d1 : flipsForward d0 d1 = true <-> d0 < 0 /\ 0 <= d1.
Proof.
  unfold flipsForward. rewrite andb_true_iff, Qltb_true, Qleb_true. tauto.
Qed.

Lemma crosses_spec d0 d1 :
  crosses d0 d1 = true <-> (d0 < 0 /\ 0 <= d1) \/ (0 < d0 /\ d1 <= 0).
Proof.
  unfold crosses.
  rewrite orb_true_iff, !andb_true_iff, !Qltb_true, !Qleb_true. tauto.
Qed.

Lemma withinGate_spec u : withinGate u = true <-> Qabs u <= GATE_HALF_LEN.
Proof. unfold withinGate. apply Qleb_true. Qed.

(** A quotient of two negative numbers, the numerator the smaller in
    size, lies in the unit interval. *)
Lemma ratio_neg_unit a b : b <= a -> a < 0 -> 0 <= a / b <= 1.
Proof.
  intros Hba Ha.
  assert (Hb : b < 0) by lra.
  assert (Hopp : a / b == (- a) / (- b)) by (field; lra).
  rewrite Hopp. split.
  - apply Qle_shift_div_l; lra.
  - apply Qle_shift_div_r; lra.
Qed.

Lemma ratio_pos_unit a b : a <= b -> 0 < a -> 0 <= a / b <= 1.
Proof.
  intros Hab Ha. split.
  - apply Qle_shift_div_l; lra.
  - apply Qle_shift_div_r; lra.
Qed.
End NumberFacts.

(** ** The stable sort *)

Section SortFacts.
Local Open Scope Q_scope.
Context {A : Type} (cmp : A -> A -> Q).

Lemma insertBy_perm a l : insertBy cmp a l ≡ₚ a :: l.
Proof.
  induction l as [|b l IH]; simpl; [done|].
  destruct (Qleb (cmp a b) 0); [done|].
  rewrite IH. apply Permutation_swap.
Qed.

Lemma sortBy_perm l : sortBy cmp l ≡ₚ l.
Proof.
  induction l as [|a l IH]; simpl; [done|].
  unfold sortBy in *. simpl. rewrite insertBy_perm. by f_equiv.
Qed.

Lemma sortBy_length l : length (sortBy cmp l) = length l.
Proof. by rewrite sortBy_perm. Qed.

Lemma sortBy_nil_inv l : sortBy cmp l = [] -> l = [].
Proof.
  intros H. apply Permutation_nil_r. rewrite <- H. symmetry. apply sortBy_perm.
Qed.

Hypothesis cmp_total : forall a b, ~ before cmp a b -> before cmp b a.
Hypothesis cmp_trans : forall a b c, before cmp a b -> before cmp b c -> before cmp a c.

Lemma insertBy_sorted a l :
  StronglySorted (before cmp) l -> StronglySorted (before cmp) (insertBy cmp a l).
Proof.
  induction 1 as [|b l Hs IH Hall]; simpl.
  - repeat constructor.
  - destruct (Qleb (cmp a b) 0) eqn:E.
    + apply Qleb_true in E. constructor; [by constructor|].
      constructor; [done|].
      eapply Forall_impl; [exact Hall|]. intros c Hc. by eapply cmp_trans.
    + apply Qleb_false in E. constructor; [done|].
      rewrite insertBy_perm. constructor; [|done].
      apply cmp_total. unfold before. lra.
Qed.

Lemma sortBy_sorted l : StronglySorted (before cmp) (sortBy cmp l).
Proof.
  induction l as [|a l IH]; [constructor|].
  unfold sortBy in *. simpl. by apply insertBy_sorted.
Qed.
End SortFacts.

Lemma StronglySorted_lookup {A} (R : A -> A -> Prop) (l : list A) i j a b :
  StronglySorted R l -> (i < j)%nat -> l !! i = Some a -> l !! j = Some b -> R a b.
Proof.
  intros Hs. revert i j. induction Hs as [|c l Hs IH Hall]; intros i j Hij Hi Hj.
  - by rewrite lookup_nil in Hi.
  - destruct j as [|j]; [lia|]. destruct i as [|i]; simpl in *.
    + inversion Hi; subst. rewrite Forall_forall in Hall.
      apply Hall. by eapply list_elem_of_lookup_2.
    + apply (IH i j); [lia|done|done].
Qed.

(** ** Enumeration and bulk assignment *)

Lemma jsKeys_perm {V} (m : gmap N V) : jsKeys m ≡ₚ elements (dom m).
Proof. apply sortBy_perm. Qed.

Lemma elem_of_jsKeys {V} (m : gmap N V) d : d ∈ jsKeys m <-> d ∈ dom m.
Proof. rewrite jsKeys_perm. apply elem_of_elements. Qed.

Lemma NoDup_jsKeys {V} (m : gmap N V) : NoDup (jsKeys m).
Proof. rewrite jsKeys_perm. apply NoDup_elements. Qed.

Lemma lookup_assignAll {V} (ks : list N) (f : N -> V) (m : gmap N V) d :
  assignAll ks f m !! d = if decide (d ∈ ks) then Some (f d) else m !! d.
Proof.
  unfold assignAll. revert m. induction ks as [|k ks IH]; intros m; cbn [foldl].
  - rewrite decide_False; [done|]. apply not_elem_of_nil.
  - rewrite IH. destruct (decide (d ∈ ks)) as [Hin|Hnin].
    + rewrite decide_True; [done|]. by apply list_elem_of_further.
    + destruct (decide (d = k)) as [->|Hne].
      * rewrite decide_True by apply list_elem_of_here. by rewrite lookup_insert_eq.
      * rewrite decide_False; [by rewrite lookup_insert_ne|].
        intros [?|?]%elem_of_cons; done.
Qed.

Lemma dom_assignAll {V} (ks : list N) (f : N -> V) (m : gmap N V) :
  dom (assignAll ks f m) = list_to_set ks ∪ dom m.
Proof.
  apply set_eq. intros d. rewrite elem_of_dom, lookup_assignAll.
  rewrite elem_of_union, elem_of_list_to_set, elem_of_dom.
  destruct (decide (d ∈ ks)); [|tauto]. split; [tauto|]. intros _. by eexists.
Qed.

(** ** Ranking *)

Section RankingFacts.
Local Open Scope Q_scope.

Lemma candidateCmp_before a b :
  before candidateCmp a b <->
  (rawMini b < rawMini a)%Z
  \/ (rawMini a = rawMini b /\ timeSince b <= timeSince a).
Proof.
  unfold before, candidateCmp.
  destruct (Z.eqb_spec (rawMini b) (rawMini a)) as [E|E]; simpl.
  - split; [intros H; right; split; [done|lra]|].
    intros [H|[_ H]]; [lia|lra].
  - rewrite <- (Qle_bool_iff _ 0). unfold Qle_bool. simpl.
    rewrite Z.leb_le. split; [intros H; left; lia|].
    intros [H|[H _]]; [lia|congruence].
Qed.

Lemma candidateCmp_total a b :
  ~ before candidateCmp a b -> before candidateCmp b a.
Proof.
  rewrite !candidateCmp_before. intros H.
  destruct (Z.lt_trichotomy (rawMini a) (rawMini b)) as [?|[E|?]]; [by left| |tauto].
  right. split; [done|].
  destruct (Qlt_le_dec (timeSince a) (timeSince b)); [lra|]. tauto.
Qed.

Lemma candidateCmp_trans a b c :
  before candidateCmp a b -> before candidateCmp b c -> before candidateCmp a c.
Proof.
  rewrite !candidateCmp_before.
  intros [?|[? ?]] [?|[? ?]]; try (left; lia). right. split; [lia|lra].
Qed.

Lemma dn_candidateOf st (ds : list N) : dn <$> (candidateOf st <$> ds) = ds.
Proof. rewrite <- list_fmap_compose. by rewrite <- (list_fmap_id ds) at 2. Qed.

Lemma rankOrder_perm st :
  rankOrder st ≡ₚ filter (fun d => d ∈ revealedDrivers st) (jsKeys (lapCounts st)).
Proof.
  unfold rankOrder, candidates. rewrite sortBy_perm. by rewrite dn_candidateOf.
Qed.

Lemma elem_of_rankOrder st d :
  d ∈ rankOrder st <-> d ∈ revealedDrivers st /\ d ∈ dom (lapCounts st).
Proof.
  rewrite rankOrder_perm, list_elem_of_filter, elem_of_jsKeys. tauto.
Qed.

Lemma NoDup_rankOrder st : NoDup (rankOrder st).
Proof. rewrite rankOrder_perm. apply NoDup_filter, NoDup_jsKeys. Qed.

Lemma rankOrder_nil st : rankOrder st = [] <-> candidates st = [].
Proof.
  unfold rankOrder. split.
  - intros H. apply fmap_nil_inv in H. by apply sortBy_nil_inv in H.
  - by intros ->.
Qed.

(** Every entry of a sorted candidate list is the candidate of its own
    driver number. *)
Lemma sorted_candidates_lookup st (ds : list N) i c :
  sortBy candidateCmp (candidateOf st <$> ds) !! i = Some c ->
  c = candidateOf st (dn c).
Proof.
  intros H. apply list_elem_of_lookup_2 in H.
  rewrite sortBy_perm in H. apply list_elem_of_fmap in H as (d & -> & _). done.
Qed.

(** On a sound ledger the comparator orders by the stated keys. *)
Lemma before_ranksAhead st a b :
  ledgerOk st -> a ∈ revealedDrivers st -> b ∈ revealedDrivers st ->
  before candidateCmp (candidateOf st a) (candidateOf st b) -> ranksAhead st a b.
Proof.
  intros Hok Ha Hb. rewrite candidateCmp_before.
  assert (Hraw : forall d, rawMini (candidateOf st d) = rawProgress st d).
  { intros d. unfold candidateOf, rawProgress. simpl.
    pose proof (counts_nonneg st Hok d). pose proof (counts_above_baseline st Hok d).
    destruct (baselinedAtGreen st); lia. }
  rewrite !Hraw. unfold ranksAhead, recency.
  destruct (revealed_crossed st Hok a Ha) as [ta Hta].
  destruct (revealed_crossed st Hok b Hb) as [tb Htb].
  unfold candidateOf. simpl. rewrite Hta, Htb. simpl. tauto.
Qed.

Lemma sorted_ranksAhead st (ds : list N) i j a b :
  ledgerOk st -> (forall d, d ∈ ds -> d ∈ revealedDrivers st) -> (i < j)%nat ->
  (dn <$> sortBy candidateCmp (candidateOf st <$> ds)) !! i = Some a ->
  (dn <$> sortBy candidateCmp (candidateOf st <$> ds)) !! j = Some b ->
  ranksAhead st a b.
Proof.
  intros Hok Hrev Hij Hi Hj.
  rewrite list_lookup_fmap in Hi, Hj.
  destruct (sortBy _ _ !! i) as [ca|] eqn:Ei; [|done].
  destruct (sortBy _ _ !! j) as [cb|] eqn:Ej; [|done].
  simpl in Hi, Hj. inversion Hi; inversion Hj; subst.
  pose proof (sorted_candidates_lookup _ _ _ _ Ei) as Ea.
  pose proof (sorted_candidates_lookup _ _ _ _ Ej) as Eb.
  assert (Hin : forall k c, sortBy candidateCmp (candidateOf st <$> ds) !! k = Some c ->
                            dn c ∈ revealedDrivers st).
  { intros k c Hk. apply list_elem_of_lookup_2 in Hk. rewrite sortBy_perm in Hk.
    apply list_elem_of_fmap in Hk as (d & -> & Hd). by apply Hrev. }
  apply before_ranksAhead; [done|by eapply Hin|by eapply Hin|].
  rewrite <- Ea, <- Eb.
  eapply StronglySorted_lookup; [|exact Hij|exact Ei|exact Ej].
  apply sortBy_sorted; [apply candidateCmp_total|apply candidateCmp_trans].
Qed.
End RankingFacts.

(** ** Gap engine *)

Section GapFacts.
Local Open Scope Q_scope.

Lemma fallbackGap_not_leader fb : fallbackGap fb <> GLeader.
Proof. by destruct fb as [[]|]. Qed.

Lemma timeGap_not_leader seq refSeq fb : timeGap seq refSeq fb <> GLeader.
Proof.
  unfold timeGap. destruct (length seq); [apply fallbackGap_not_leader|].
  destruct (seq !! n), (refSeq !! n); try apply fallbackGap_not_leader. done.
Qed.

Lemma fallbackGap_keep fb : fb <> GLeader -> fallbackGap (Some fb) = fb.
Proof. by destruct fb. Qed.

(** Feeding a computed gap back as the fallback reproduces it. *)
Lemma timeGap_refeed keep seq refSeq fb :
  (forall g, g <> GLeader -> keep g = g) ->
  timeGap seq refSeq (Some (keep (timeGap seq refSeq fb))) = timeGap seq refSeq fb.
Proof.
  intros Hkeep. rewrite Hkeep by apply timeGap_not_leader.
  unfold timeGap. destruct (length seq).
  - apply fallbackGap_keep, fallbackGap_not_leader.
  - destruct (seq !! n), (refSeq !! n);
      try (apply fallbackGap_keep, fallbackGap_not_leader). done.
Qed.

Lemma leaderGapOf_leader st leader d :
  leaderGapOf st leader d = GLeader <-> d = leader.
Proof.
  unfold leaderGapOf. destruct (N.eqb_spec d leader) as [->|Hne]; [done|].
  split; [|done]. intros H. by apply timeGap_not_leader in H.
Qed.

Lemma gapLoop_leader_lookup st leader ahead order acc d :
  (gapLoop st leader ahead order acc).1 !! d
  = if decide (d ∈ order) then Some (leaderGapOf st leader d) else acc.1 !! d.
Proof.
  revert ahead acc. induction order as [|e order IH]; intros ahead acc; cbn [gapLoop].
  - rewrite decide_False; [done|]. apply not_elem_of_nil.
  - rewrite IH. cbn [fst]. destruct (decide (d ∈ order)) as [Hin|Hnin].
    + rewrite decide_True; [done|]. by apply list_elem_of_further.
    + destruct (decide (d = e)) as [->|Hne].
      * rewrite decide_True by apply list_elem_of_here. by rewrite lookup_insert_eq.
      * rewrite decide_False; [by rewrite lookup_insert_ne|].
        intros [?|?]%elem_of_cons; done.
Qed.

Lemma gapLoop_ahead_notin st leader ahead order acc d :
  d ∉ order -> (gapLoop st leader ahead order acc).2 !! d = acc.2 !! d.
Proof.
  revert ahead acc. induction order as [|e order IH]; intros ahead acc Hd; cbn [gapLoop].
  - done.
  - apply not_elem_of_cons in Hd as [Hne Hd]. rewrite IH by done.
    cbn [snd]. by rewrite lookup_insert_ne.
Qed.

(** The driver ahead of position [length pre] when the loop started
    with [ahead] before the list. *)
Lemma gapLoop_ahead_lookup st leader ahead pre d post acc :
  NoDup (pre ++ d :: post) ->
  (gapLoop st leader ahead (pre ++ d :: post) acc).2 !! d
  = Some (aheadGapOf st (from_option Some ahead (last pre)) d).
Proof.
  revert ahead acc. induction pre as [|e pre IH]; intros ahead acc Hnd.
  - cbn [app gapLoop last from_option]. apply NoDup_cons in Hnd as [Hd _].
    rewrite gapLoop_ahead_notin by done. cbn [snd]. by rewrite lookup_insert_eq.
  - cbn [app gapLoop]. apply NoDup_cons in Hnd as [_ Hnd].
    rewrite IH by done. do 2 f_equal.
    destruct pre as [|e' pre]; [done|].
    change (last (e :: e' :: pre)) with (last (e' :: pre)).
    destruct (last (e' :: pre)) eqn:E; [done|]. by apply last_None in E.
Qed.

(** The loop only looks at the state through the gap of each driver it
    visits. *)
Lemma gapLoop_ext st1 st2 leader order :
  forall pre rest ahead acc,
    order = pre ++ rest ->
    ahead = last pre ->
    (forall p d q, order = p ++ d :: q ->
       leaderGapOf st1 leader d = leaderGapOf st2 leader d
       /\ aheadGapOf st1 (last p) d = aheadGapOf st2 (last p) d) ->
    gapLoop st1 leader ahead rest acc = gapLoop st2 leader ahead rest acc.
Proof.
  intros pre rest. revert pre. induction rest as [|d rest IH]; intros pre ahead acc Ho Ha Hext.
  - done.
  - cbn [gapLoop]. destruct (Hext pre d rest Ho) as [-> E2]. subst ahead. rewrite E2.
    apply (IH (pre ++ [d])).
    + by rewrite <- app_assoc.
    + by rewrite last_snoc.
    + done.
Qed.

(** *** Shape of the result *)

Lemma recompute_empty st :
  rankOrder st = [] -> recomputeGapsSFandMinisectors st = degradeNoCandidates st.
Proof. unfold recomputeGapsSFandMinisectors. by intros ->. Qed.

Lemma recompute_nonempty st leader rest :
  rankOrder st = leader :: rest ->
  let new := gapLoop st leader None (leader :: rest) (∅, ∅) in
  recomputeGapsSFandMinisectors st =
    set_lastStableGapsAhead
      (refreshCache demoteLeader new.2 (lastStableGapsAhead st))
      (set_lastStableGaps
         (refreshCache stableLeader new.1 (lastStableGaps st))
         (set_currentLeader (Some leader)
            (set_gapsToAhead new.2 (set_gapsToLeader new.1 st)))).
Proof.
  intros H new. unfold recomputeGapsSFandMinisectors. rewrite H.
  fold new. by destruct new.
Qed.

Lemma rankOrder_recompute st :
  rankOrder (recomputeGapsSFandMinisectors st) = rankOrder st.
Proof.
  destruct (rankOrder st) as [|leader rest] eqn:E.
  - by rewrite recompute_empty.
  - by rewrite (recompute_nonempty _ _ _ E).
Qed.

Lemma currentLeader_recompute st :
  currentLeader (recomputeGapsSFandMinisectors st) = head (rankOrder st).
Proof.
  destruct (rankOrder st) as [|leader rest] eqn:E.
  - by rewrite recompute_empty.
  - by rewrite (recompute_nonempty _ _ _ E).
Qed.

Lemma gapsToLeader_recompute_nonempty st leader rest d :
  rankOrder st = leader :: rest ->
  gapsToLeader (recomputeGapsSFandMinisectors st) !! d
  = if decide (d ∈ rankOrder st) then Some (leaderGapOf st leader d) else None.
Proof.
  intros E. rewrite (recompute_nonempty _ _ _ E).
  remember (gapLoop st leader None (leader :: rest) (∅, ∅)) as new eqn:Hnew.
  cbn. subst new.
  rewrite gapLoop_leader_lookup, E. case_decide; [done|]. apply lookup_empty.
Qed.

Lemma gapsToLeader_recompute_empty st d :
  rankOrder st = [] ->
  gapsToLeader (recomputeGapsSFandMinisectors st) !! d
  = if decide (d ∈ dom (lapCounts st))
    then Some (demoteLeader (default GNa (lastStableGaps st !! d))) else None.
Proof.
  intros E. rewrite recompute_empty by done. cbn.
  rewrite map_lookup_imap. case_decide as Hd.
  - apply elem_of_dom in Hd as [c ->]. done.
  - apply not_elem_of_dom in Hd. by rewrite Hd.
Qed.

Lemma demoteLeader_not_leader g : demoteLeader g <> GLeader.
Proof. by destruct g. Qed.
End GapFacts.

Section GapResults.
Local Open Scope Q_scope.

Lemma refreshCache_twice keep (fresh cache : gmap N gap) :
  refreshCache keep fresh (refreshCache keep fresh cache)
  = refreshCache keep fresh cache.
Proof.
  unfold refreshCache. rewrite (assoc_L (∪)). by rewrite (idemp_L (∪)).
Qed.

Lemma lookup_refreshCache keep (fresh cache : gmap N gap) d g :
  fresh !! d = Some g -> refreshCache keep fresh cache !! d = Some (keep g).
Proof.
  intros H. unfold refreshCache. apply lookup_union_Some_l.
  by rewrite lookup_fmap, H.
Qed.

Lemma recompute_leader_tag_nonempty st leader rest d :
  rankOrder st = leader :: rest ->
  leaderTagged (gapsToLeader (recomputeGapsSFandMinisectors st)) d <-> d = leader.
Proof.
  intros E. unfold leaderTagged.
  rewrite (gapsToLeader_recompute_nonempty _ _ _ _ E). case_decide as Hd.
  - split; [intros [= Hg]; by apply leaderGapOf_leader in Hg|].
    intros ->. f_equal. by apply leaderGapOf_leader.
  - split; [done|]. intros ->. exfalso. apply Hd. rewrite E. apply list_elem_of_here.
Qed.

Lemma recompute_leader_tag_empty st d :
  rankOrder st = [] ->
  ~ leaderTagged (gapsToLeader (recomputeGapsSFandMinisectors st)) d.
Proof.
  intros E. unfold leaderTagged. rewrite gapsToLeader_recompute_empty by done.
  case_decide; [|done]. intros [= Hg]. by apply demoteLeader_not_leader in Hg.
Qed.

(** After any recomputation at most one entry is leader-tagged. *)
Lemma recompute_leader_tag_unique st a b :
  leaderTagged (gapsToLeader (recomputeGapsSFandMinisectors st)) a ->
  leaderTagged (gapsToLeader (recomputeGapsSFandMinisectors st)) b -> a = b.
Proof.
  destruct (rankOrder st) as [|leader rest] eqn:E.
  - intros H. by apply recompute_leader_tag_empty in H.
  - rewrite !(recompute_leader_tag_nonempty _ _ _ _ E). congruence.
Qed.

(** Committing gap fields over an earlier commit forgets the earlier
    one. *)
Lemma commit_absorb st gl ga cl sl sa gl' ga' cl' sl' sa' :
  set_lastStableGapsAhead sa
    (set_lastStableGaps sl
       (set_currentLeader cl
          (set_gapsToAhead ga
             (set_gapsToLeader gl
                (set_lastStableGapsAhead sa'
                   (set_lastStableGaps sl'
                      (set_currentLeader cl'
                         (set_gapsToAhead ga' (set_gapsToLeader gl' st)))))))))
  = set_lastStableGapsAhead sa
      (set_lastStableGaps sl
         (set_currentLeader cl (set_gapsToAhead ga (set_gapsToLeader gl st)))).
Proof. by destruct st. Qed.

Lemma lastStableGaps_commit st gl ga cl sl sa :
  lastStableGaps
    (set_lastStableGapsAhead sa
       (set_lastStableGaps sl
          (set_currentLeader cl (set_gapsToAhead ga (set_gapsToLeader gl st)))))
  = sl.
Proof. done. Qed.

Lemma lastStableGapsAhead_commit st gl ga cl sl sa :
  lastStableGapsAhead
    (set_lastStableGapsAhead sa
       (set_lastStableGaps sl
          (set_currentLeader cl (set_gapsToAhead ga (set_gapsToLeader gl st)))))
  = sa.
Proof. done. Qed.

Lemma degradeNoCandidates_twice st :
  degradeNoCandidates (degradeNoCandidates st) = degradeNoCandidates st.
Proof. by destruct st. Qed.

Lemma recompute_twice st :
  recomputeGapsSFandMinisectors (recomputeGapsSFandMinisectors st)
  = recomputeGapsSFandMinisectors st.
Proof.
  pose proof (rankOrder_recompute st) as Hord.
  destruct (rankOrder st) as [|leader rest] eqn:E.
  - rewrite (recompute_empty _ Hord). rewrite (recompute_empty _ E).
    apply degradeNoCandidates_twice.
  - rewrite (recompute_nonempty _ _ _ Hord).
    pose proof (NoDup_rankOrder st) as Hnd. rewrite E in Hnd.
    assert (Hsame :
      gapLoop (recomputeGapsSFandMinisectors st) leader None (leader :: rest) (∅, ∅)
      = gapLoop st leader None (leader :: rest) (∅, ∅)).
    { apply (gapLoop_ext _ _ leader (leader :: rest) []); [done|done|].
      intros p d q Hpq. rewrite (recompute_nonempty _ _ _ E).
      remember (gapLoop st leader None (leader :: rest) (∅, ∅)) as new eqn:Hnew.
      assert (Hd : d ∈ leader :: rest).
      { rewrite Hpq. apply elem_of_app. right. apply list_elem_of_here. }
      split.
      - unfold leaderGapOf. destruct (d =? leader)%N eqn:Edl; [done|].
        unfold seqOf. cbn.
        erewrite lookup_refreshCache; last first.
        { subst new. rewrite gapLoop_leader_lookup. by rewrite decide_True. }
        unfold leaderGapOf at 1. rewrite Edl. unfold seqOf.
        apply timeGap_refeed. by intros [].
      - destruct (last p) as [a|] eqn:Ea; [|done].
        unfold aheadGapOf, seqOf. cbn.
        erewrite lookup_refreshCache; last first.
        { subst new. rewrite Hpq. apply gapLoop_ahead_lookup. by rewrite <- Hpq. }
        rewrite Ea. cbn. unfold seqOf.
        apply timeGap_refeed. by intros []. }
    rewrite Hsame. rewrite (recompute_nonempty _ _ _ E).
    generalize (gapLoop st leader None (leader :: rest) (∅, ∅)). intros new.
    rewrite commit_absorb, lastStableGaps_commit, lastStableGapsAhead_commit.
    by rewrite !refreshCache_twice.
Qed.
End GapResults.

(** ** What the steps of a frame maintain *)

(** A step that leaves the fields of an invariant alone keeps it. *)
Ltac frame_core H :=
  destruct H as [[Hnn Hab Hrc] Hrows Hbg Hrev Hca Hseq Huq Hgr Hclk Hstb Hslot];
  split; [split|..]; cbn in *; try assumption.

Ltac frame_session H :=
  let Hc := fresh "Hc" in
  let Hl := fresh "Hl" in
  destruct H as [Hc Hl];
  split; [frame_core Hc | unfold leaderInv in *; cbn in *; try assumption].

Section StepFacts.
Local Open Scope Q_scope.

Lemma Qleb_compat a b b' : b == b' -> Qleb a b = Qleb a b'.
Proof.
  intros E. destruct (Qleb a b') eqn:E'.
  - apply Qleb_true. apply Qleb_true in E'. lra.
  - apply Qleb_false. apply Qleb_false in E'. lra.
Qed.

Lemma StronglySorted_snoc (l : list Q) (t : Q) :
  StronglySorted Qle l -> Forall (fun u => u <= t) l -> StronglySorted Qle (l ++ [t]).
Proof.
  induction 1 as [|a l Hs IH Hall]; intros Hb; simpl.
  - repeat constructor.
  - apply Forall_cons in Hb as [Ha Hb]. constructor; [by apply IH|].
    apply Forall_app. split; [done|]. by repeat constructor.
Qed.

(** The recomputation writes the five gap fields and nothing else. *)
Lemma recompute_shape st :
  exists gl ga cl sl sa,
    recomputeGapsSFandMinisectors st
    = set_lastStableGapsAhead sa
        (set_lastStableGaps sl
           (set_currentLeader cl (set_gapsToAhead ga (set_gapsToLeader gl st))))
    /\ (forall d, sl !! d = Some GLeader -> lastStableGaps st !! d = Some GLeader)
    /\ (forall d, sa !! d = Some GLeader -> lastStableGapsAhead st !! d = Some GLeader)
    /\ (forall d, is_Some (lastStableGaps st !! d) -> is_Some (sl !! d))
    /\ (forall d, is_Some (lastStableGapsAhead st !! d) -> is_Some (sa !! d)).
Proof.
  destruct (rankOrder st) as [|leader rest] eqn:E.
  - rewrite (recompute_empty _ E).
    exists (gapsToLeader (degradeNoCandidates st)), (gapsToAhead (degradeNoCandidates st)),
           None, (lastStableGaps st), (lastStableGapsAhead st).
    split; [by destruct st|]. done.
  - rewrite (recompute_nonempty _ _ _ E).
    remember (gapLoop st leader None (leader :: rest) (∅, ∅)) as new eqn:Hnew.
    do 5 eexists. split; [reflexivity|].
    unfold refreshCache. split; [|split; [|split]]; intros d Hd.
    + apply lookup_union_Some_raw in Hd as [Hd|[_ Hd]]; [|done].
      rewrite lookup_fmap in Hd. by destruct (new.1 !! d) as [[]|].
    + apply lookup_union_Some_raw in Hd as [Hd|[_ Hd]]; [|done].
      rewrite lookup_fmap in Hd. by destruct (new.2 !! d) as [[]|].
    + apply lookup_union_is_Some. by right.
    + apply lookup_union_is_Some. by right.
Qed.

Lemma recompute_core cfg now ag st :
  coreInv cfg now ag st -> coreInv cfg now ag (recomputeGapsSFandMinisectors st).
Proof.
  intros H.
  pose proof (recompute_leader_tag_unique st) as Huniq.
  destruct (recompute_shape st) as (gl & ga & cl & sl & sa & E & Hsl & Hsa & Hdl & Hda).
  rewrite E in *. cbn in Huniq. frame_core H.
  - intros d. split; intros Hd.
    + apply Hsl in Hd. by eapply (proj1 (Hca d)).
    + apply Hsa in Hd. by eapply (proj2 (Hca d)).
  - intros d Hd. destruct (Hstb d Hd) as [H1 H2]. split; [by apply Hdl|by apply Hda].
Qed.

Lemma recompute_leaderInv cfg now ag st :
  coreInv cfg now ag st -> leaderInv (recomputeGapsSFandMinisectors st).
Proof.
  intros H _ [d Hd].
  assert (Hrev : d ∈ revealedDrivers st).
  { destruct (recompute_shape st) as (gl & ga & cl & sl & sa & E & _).
    by rewrite E in Hd. }
  assert (Hin : d ∈ rankOrder st).
  { apply elem_of_rankOrder. split; [done|]. by apply (inv_revealed _ _ _ _ H). }
  destruct (rankOrder st) as [|leader rest] eqn:E; [by apply elem_of_nil in Hin|].
  exists leader. by apply (recompute_leader_tag_nonempty _ _ _ _ E).
Qed.

(** *** Detector steps *)

Lemma pitStep_session cfg now ag key prev curr pb st :
  sessionInv cfg now ag st -> sessionInv cfg now ag (pitStep now key prev curr pb st).
Proof.
  intros H. unfold pitStep. repeat case_match; try done. frame_session H.
Qed.

Lemma countMini_shape now key st :
  exists po,
    countMini now key st
    = set_pitOverlayActive po
        (set_revealedDrivers ({[key]} ∪ revealedDrivers st)
           (set_lastMiniCrossSec (<[key := Finite now]> (lastMiniCrossSec st))
              (set_miniCounts
                 (<[key := (default 0 (miniCounts st !! key) + 1)%Z]> (miniCounts st))
                 st))).
Proof.
  unfold countMini. cbn.
  assert (Hset : forall s : gset N, key ∈ s -> s = {[key]} ∪ s).
  { intros s Hs. apply set_eq. intros z.
    rewrite elem_of_union, elem_of_singleton. split; [tauto|]. by intros [->|?]. }
  destruct (decide (key ∈ revealedDrivers st)) as [Hin|Hnin]; cbn.
  - apply Hset in Hin.
    destruct (pitOverlayActive st !! key) as [[]|];
      [exists (<[key := false]> (pitOverlayActive st))
      |exists (pitOverlayActive st) | exists (pitOverlayActive st)];
      rewrite <- Hin; destruct st; reflexivity.
  - destruct (pitOverlayActive st !! key) as [[]|];
      [exists (<[key := false]> (pitOverlayActive st))
      |exists (pitOverlayActive st) | exists (pitOverlayActive st)];
      destruct st; reflexivity.
Qed.

Lemma countMini_core cfg now ag key st :
  key ∈ dom (lapCounts st) ->
  coreInv cfg now ag st -> coreInv cfg now ag (countMini now key st).
Proof.
  intros Hkey H. destruct (countMini_shape now key st) as [po ->].
  frame_core H.
  - intros d. destruct (decide (d = key)) as [->|Hne].
    + rewrite lookup_insert_eq. cbn. specialize (Hnn key). lia.
    + by rewrite lookup_insert_ne.
  - intros d. destruct (decide (d = key)) as [->|Hne].
    + rewrite lookup_insert_eq. cbn. specialize (Hab key). lia.
    + by rewrite lookup_insert_ne.
  - intros d Hd. destruct (decide (d = key)) as [->|Hne].
    + rewrite lookup_insert_eq. by eexists.
    + rewrite lookup_insert_ne by done. apply Hrc.
      apply elem_of_union in Hd as [Hd|Hd]; [|done].
      by apply elem_of_singleton in Hd.
  - intros d Hd. apply elem_of_union in Hd as [Hd|Hd]; [|by apply Hrev].
    apply elem_of_singleton in Hd. by subst d.
Qed.

Lemma timeMini_session cfg now ag key gi st st' :
  coreInv cfg now ag st -> timeMini now key gi st = Some st' ->
  sessionInv cfg now ag st'.
Proof.
  intros H Hstep. unfold timeMini in Hstep.
  destruct (miniLapTimesByGate st !! key) as [byGate|]; [|done].
  cbn [mbind option_bind] in Hstep. inversion Hstep as [Hst']. clear Hstep Hst'.
  match goal with |- sessionInv _ _ _ (recomputeGapsSFandMinisectors ?s) =>
    assert (Hs : coreInv cfg now ag s) end.
  { frame_core H.
    - intros d seq Hd. destruct (decide (d = key)) as [->|Hne].
      + rewrite lookup_insert_eq in Hd. inversion Hd as [Hseq']. clear Hd Hseq'.
        destruct (miniSeqTimes st !! key) as [old|] eqn:Eold; cbn.
        * destruct (Hseq key old Eold) as [Hs Hb]. split.
          -- by apply StronglySorted_snoc.
          -- apply Forall_app. split; [done|]. repeat constructor. lra.
        * split; repeat constructor. lra.
      + rewrite lookup_insert_ne in Hd by done. by apply (Hseq d).
    - intros d Hd. destruct (Hslot d Hd) as (Hs1 & Hs2 & Hs3).
      split; [done|]. split; [|done]. apply lookup_insert_is_Some'. by right. }
  split; [by apply recompute_core|by eapply recompute_leaderInv].
Qed.

Lemma foldlOpt_inv {A B} (P : A -> Prop) (f : A -> B -> option A) l :
  (forall a b a', P a -> f a b = Some a' -> P a') ->
  forall a a', P a -> foldlOpt f a l = Some a' -> P a'.
Proof.
  intros Hstep. induction l as [|b l IH]; intros a a' Ha Hrun; cbn in Hrun.
  - by inversion Hrun; subst.
  - destruct (f a b) as [a1|] eqn:E; [|done]. eapply IH; [|exact Hrun]. eauto.
Qed.

Lemma miniGateStep_session cfg now ag key prev curr st g st' :
  sessionInv cfg now ag st ->
  miniGateStep now ag key prev curr st g = Some st' ->
  sessionInv cfg now ag st'.
Proof.
  intros H Hstep. destruct g as [gi gb]. unfold miniGateStep in Hstep.
  destruct (gateHit gb prev curr); [|by inversion Hstep; subst].
  destruct (lastMiniCrossSecByGate st !! key) as [byGate|] eqn:Eg; [|done].
  cbn [mbind option_bind] in Hstep.
  destruct (intervalElapsed now _); [|by inversion Hstep; subst].
  assert (Hkey : key ∈ dom (lapCounts st)).
  { apply (inv_byGate _ _ _ _ (proj1 H)). apply elem_of_dom. by eexists. }
  pose proof (countMini_core _ _ _ _ _ Hkey (proj1 H)) as H1.
  assert (H2 : exists st2,
             (if ag then timeMini now key gi (countMini now key st)
              else Some (countMini now key st)) = Some st2
             /\ sessionInv cfg now ag st2).
  { destruct (if ag then timeMini now key gi (countMini now key st)
              else Some (countMini now key st)) as [st2|] eqn:E2; [|done].
    exists st2. split; [done|]. destruct ag.
    - by eapply timeMini_session.
    - inversion E2; subst. split; [done|].
      intros Hb. by apply (inv_green _ _ _ _ H1) in Hb. }
  destruct H2 as (st2 & E2 & H2). rewrite E2 in Hstep.
  cbn [mbind option_bind] in Hstep.
  destruct (lastMiniCrossSecByGate st2 !! key) as [byGate'|] eqn:Eg'; [|done].
  cbn [mbind option_bind] in Hstep. inversion Hstep as [Hst']. clear Hstep Hst'.
  assert (Hkey2 : key ∈ dom (lapCounts st2)).
  { apply (inv_byGate _ _ _ _ (proj1 H2)). apply elem_of_dom. by eexists. }
  frame_session H2.
  - intros d Hd. rewrite dom_insert in Hd.
    apply elem_of_union in Hd as [Hd|Hd]; [|by apply Hbg].
    apply elem_of_singleton in Hd. by subst d.
  - intros d Hd. destruct (Hslot d Hd) as (Hs1 & Hs2 & Hs3).
    split; [|done]. apply lookup_insert_is_Some'. by right.
Qed.

Lemma finishLogic_session cfg now ag key st :
  sessionInv cfg now ag st -> sessionInv cfg now ag (finishLogic cfg key st).
Proof.
  intros H. unfold finishLogic.
  repeat match goal with
         | |- context [if ?b then _ else _] => destruct b
         end; frame_session H.
Qed.

Lemma sfStep_session cfg now ag key prev curr sb st st' :
  sessionInv cfg now ag st ->
  sfStep cfg now key prev curr sb st = Some st' ->
  sessionInv cfg now ag st'.
Proof.
  intros H Hstep. unfold sfStep in Hstep.
  destruct (gateHit sb prev curr); [|by inversion Hstep; subst].
  destruct (intervalElapsed now _); [|by inversion Hstep; subst].
  destruct (lapTimes st !! key) as [times|]; [|done].
  cbn [mbind option_bind] in Hstep. inversion Hstep as [Hst']. clear Hstep Hst'.
  apply finishLogic_session. frame_session H.
  - intros d Hd. rewrite dom_insert. apply elem_of_union. right. by apply Hrows.
  - intros d Hd. rewrite dom_insert. apply elem_of_union. right. by apply Hbg.
  - intros d Hd. rewrite dom_insert. apply elem_of_union. right. by apply Hrev.
  - intros d Hd. destruct (Hslot d Hd) as (Hs1 & Hs2 & Hs3).
    split; [done|]. split; [done|]. apply lookup_insert_is_Some'. by right.
Qed.

Lemma detect_session cfg now ag key prev curr st st' :
  sessionInv cfg now ag st ->
  detect cfg now ag key prev curr st = Some st' ->
  sessionInv cfg now ag st'.
Proof.
  intros H Hstep. unfold detect in Hstep.
  match type of Hstep with context [foldlOpt _ ?s _] =>
    assert (H1 : sessionInv cfg now ag s) end.
  { destruct (pitBase cfg); [|done]. case_decide; [done|]. by apply pitStep_session. }
  destruct (foldlOpt _ _ _) as [st2|] eqn:E2; [|done]. cbn [mbind option_bind] in Hstep.
  assert (H2 : sessionInv cfg now ag st2).
  { eapply (foldlOpt_inv (sessionInv cfg now ag)); [|exact H1|exact E2].
    intros a b a' Ha Hb. by eapply miniGateStep_session. }
  destruct ag; [|by inversion Hstep; subst].
  destruct (sfBase cfg); [|by inversion Hstep; subst].
  by eapply sfStep_session.
Qed.

Lemma driverStep_session cfg now ag speed st n st' :
  sessionInv cfg now ag st ->
  driverStep cfg now ag speed st n = Some st' ->
  sessionInv cfg now ag st'.
Proof.
  intros H Hstep. unfold driverStep in Hstep.
  destruct (points cfg !! n) as [[|a arr]|]; try by inversion Hstep; subst.
  destruct (samplePosition _ _) as [posWorld|]; [|done]. cbn [mbind option_bind] in Hstep.
  match type of Hstep with (?m ≫= _) = _ =>
    destruct m as [st1|] eqn:E1; [|done] end.
  cbn [mbind option_bind] in Hstep. inversion Hstep as [Hst']. clear Hstep Hst'.
  assert (H1 : sessionInv cfg now ag st1).
  { destruct (prevScreenPos st !! n); [|by inversion E1; subst].
    destruct (allowDetection cfg now && Qltb 0 speed); [|by inversion E1; subst].
    by eapply detect_session. }
  frame_session H1.
Qed.

(** *** The frame around the detector *)

Lemma foldl_inv {A B} (P : A -> Prop) (f : A -> B -> A) l :
  (forall a b, P a -> P (f a b)) -> forall a, P a -> P (foldl f a l).
Proof.
  intros Hstep. induction l as [|b l IH]; intros a Ha; cbn; [done|].
  apply IH. by apply Hstep.
Qed.

Lemma activateDnf_session cfg now ag b st :
  sessionInv cfg now ag st -> sessionInv cfg now ag (activateDnf cfg b st).
Proof. intros H. unfold activateDnf. frame_session H. Qed.

Lemma baselineAtGreen_session cfg now st :
  coreInv cfg now true st -> sessionInv cfg now true (baselineAtGreen cfg st).
Proof.
  intros H. unfold baselineAtGreen.
  match goal with |- sessionInv _ _ _ (recomputeGapsSFandMinisectors ?s) =>
    assert (Hs : coreInv cfg now true s) end.
  { frame_core H.
    - intros d. rewrite lookup_assignAll. case_decide; [cbn; lia|apply Hab].
    - intros d Hd. rewrite dom_assignAll in Hd.
      apply elem_of_union in Hd as [Hd|Hd]; [|by apply Hbg].
      apply elem_of_list_to_set in Hd. by apply Hrows.
    - intros d. rewrite !lookup_assignAll. split; case_decide; try done; apply Hca.
    - intros d seq. rewrite lookup_assignAll. case_decide; [|by apply Hseq].
      intros [= <-]. split; constructor.
    - done.
    - intros d Hd. rewrite !lookup_assignAll, !decide_True by done. by split.
    - intros d Hd. rewrite !lookup_assignAll, !decide_True by done.
      split; [done|]. split; [done|]. by apply (Hslot d). }
  split; [by apply recompute_core|by eapply recompute_leaderInv].
Qed.

Lemma markFreeze_session cfg now ag st r :
  sessionInv cfg now ag st -> sessionInv cfg now ag (markFreeze cfg st r).
Proof.
  intros H. unfold markFreeze.
  repeat match goal with
         | |- context [if ?b then _ else _] => destruct b
         end; frame_session H.
Qed.

Lemma drawLeaderboard_session cfg now ag st :
  sessionInv cfg now ag st -> sessionInv cfg now ag (drawLeaderboard cfg st).
Proof.
  intros H. unfold drawLeaderboard. destruct (boardRows cfg st) as [|r rows]; [done|].
  match goal with |- sessionInv _ _ _ (commitPending _ ?s) =>
    assert (Hs : sessionInv cfg now ag s) end.
  { apply (foldl_inv (sessionInv cfg now ag)); [|done].
    intros a b Ha. by apply markFreeze_session. }
  unfold commitPending. frame_session Hs.
Qed.

(** *** The clock *)

Lemma frameDt_nonneg f : 0 <= deltaTime f -> 0 <= frameDt f.
Proof.
  intros H. unfold frameDt. destruct (Qeq_bool (deltaTime f) 0).
  - apply Qle_shift_div_l; lra.
  - apply Qle_shift_div_l; lra.
Qed.

Lemma frameSpeed_pos f : 1 <= frameSpeed f.
Proof. unfold frameSpeed, constrain. apply Q.le_max_r. Qed.

Lemma advance_mono f st : 0 <= deltaTime f -> raceTime st <= advance f st.
Proof.
  intros H. unfold advance. destruct (isPlaying f); [|lra].
  pose proof (frameDt_nonneg f H). pose proof (frameSpeed_pos f).
  assert (0 <= frameDt f * frameSpeed f) by (apply Qmult_le_0_compat; lra). lra.
Qed.

Lemma carAbsSecAt_mono cfg r r' : r <= r' -> carAbsSecAt cfg r <= carAbsSecAt cfg r'.
Proof. unfold carAbsSecAt. lra. Qed.

Lemma raceStarted_afterGreen cfg r : raceStartedAt cfg r = afterGreenAt cfg r.
Proof.
  apply Qleb_compat. unfold boardAbsSecAt, carAbsSecAt, boardStartSec, TIME_OFFSET_SECONDS.
  lra.
Qed.

Lemma frameStart_session cfg f st :
  0 <= deltaTime f -> atBoundary cfg st ->
  sessionInv cfg (carAbsSecAt cfg (advance f st)) (afterGreenAt cfg (advance f st))
             (frameStart cfg f st).
Proof.
  intros Hdt H. unfold frameStart.
  set (raceT := advance f st) in *.
  set (now := carAbsSecAt cfg raceT) in *.
  assert (Hmono : carAbsSecAt cfg (raceTime st) <= now).
  { apply carAbsSecAt_mono, advance_mono, Hdt. }
  match goal with |- context [activateDnf cfg ?b ?s] =>
    assert (H1 : sessionInv cfg now (afterGreenAt cfg raceT) s) end.
  { unfold atBoundary in H. frame_session H.
    - intros d seq Hd. destruct (Hseq d seq Hd) as [Hs Hb]. split; [done|].
      eapply Forall_impl; [exact Hb|]. cbn. intros t Ht. lra.
    - intros Hb. apply Hgr in Hb. unfold afterGreenAt in *.
      apply Qleb_true in Hb. apply Qleb_true. fold now. lra.
    - reflexivity. }
  apply (activateDnf_session _ _ _ (boardAbsSecAt cfg raceT)) in H1.
  rewrite raceStarted_afterGreen.
  destruct (afterGreenAt cfg raceT) eqn:Eag; cbn [andb]; [|done].
  destruct (negb _); [|done]. apply baselineAtGreen_session, H1.
Qed.

Lemma draw_session cfg f st st' :
  0 <= deltaTime f -> atBoundary cfg st -> draw cfg f st = Some st' ->
  atBoundary cfg st'.
Proof.
  intros Hdt H Hdraw. unfold draw in Hdraw.
  pose proof (frameStart_session cfg f st Hdt H) as H3.
  destruct (foldlOpt _ _ _) as [st4|] eqn:E4; [|done].
  cbn [mbind option_bind] in Hdraw. inversion Hdraw as [Hst']. clear Hdraw Hst'.
  assert (H4 : sessionInv cfg (carAbsSecAt cfg (advance f st))
                 (afterGreenAt cfg (advance f st)) st4).
  { eapply (foldlOpt_inv (sessionInv cfg _ _)); [|exact H3|exact E4].
    intros a b a' Ha Hb. by eapply driverStep_session. }
  apply drawLeaderboard_session in H4.
  unfold atBoundary, afterGreenAt in *. by rewrite (inv_clock _ _ _ _ (proj1 H4)).
Qed.

Lemma setup_session cfg : atBoundary cfg (setup cfg).
Proof.
  unfold atBoundary. split; [split; [split|..]|]; cbn.
  - intros d. rewrite lookup_assignAll. by case_decide.
  - intros d. rewrite lookup_assignAll, lookup_empty. by case_decide.
  - intros d Hd. by apply elem_of_empty in Hd.
  - intros d Hd. rewrite dom_assignAll. apply elem_of_union. left.
    by apply elem_of_list_to_set.
  - intros d. rewrite !dom_assignAll. done.
  - intros d Hd. by apply elem_of_empty in Hd.
  - intros d. rewrite !lookup_assignAll, !lookup_empty. split; by case_decide.
  - intros d seq. rewrite lookup_assignAll, lookup_empty. case_decide; [|done].
    intros [= <-]. split; constructor.
  - intros a b Ha. unfold leaderTagged in Ha. by rewrite lookup_empty in Ha.
  - done.
  - done.
  - intros d Hd. rewrite !lookup_assignAll, !decide_True by done. by split.
  - intros d Hd. rewrite !lookup_assignAll, !decide_True by done. by repeat split.
  - intros Hb. done.
Qed.

Lemma reachable_session cfg st : reachable cfg st -> atBoundary cfg st.
Proof.
  induction 1 as [|st f st' Hr IH Hdt Hdraw]; [apply setup_session|].
  by eapply draw_session.
Qed.
End StepFacts.

(** ** The frame does not throw

    With every telemetry-bearing driver listed in the driver table, each
    ledger read of [draw] finds its entry. *)

Section Totality.
Local Open Scope Q_scope.

Lemma shiftr1_between lo hi :
  (lo <= hi)%Z -> (lo <= Z.shiftr (lo + hi) 1 <= hi)%Z.
Proof.
  intros H. rewrite Z.shiftr_div_pow2 by lia. change (2 ^ 1)%Z with 2%Z.
  split.
  - apply Z.div_le_lower_bound; lia.
  - apply Z.div_le_upper_bound; lia.
Qed.

Lemma indexLE_loop_range fuel arr t lo hi ans :
  (0 <= lo)%Z -> (hi < Z.of_nat (length arr))%Z ->
  (0 <= ans < Z.of_nat (length arr))%Z ->
  (0 <= indexLE_loop fuel arr t lo hi ans < Z.of_nat (length arr))%Z.
Proof.
  revert lo hi ans. induction fuel as [|fuel IH]; intros lo hi ans Hlo Hhi Hans;
    cbn [indexLE_loop]; [done|].
  destruct (Z.leb_spec lo hi) as [Hle|Hgt]; [|done].
  pose proof (shiftr1_between lo hi Hle) as Hmid.
  destruct (arr !! Z.to_nat _) as [v|]; [destruct (Qleb v t)|]; apply IH; lia.
Qed.

(** The loop ends before its fuel does: more fuel changes nothing. *)
Lemma indexLE_loop_fuel fuel fuel' arr t lo hi ans :
  (hi - lo + 1 < Z.of_nat fuel)%Z -> (hi - lo + 1 < Z.of_nat fuel')%Z ->
  indexLE_loop fuel arr t lo hi ans = indexLE_loop fuel' arr t lo hi ans.
Proof.
  revert fuel' lo hi ans. induction fuel as [|fuel IH];
    intros fuel' lo hi ans Hf Hf'.
  - destruct fuel' as [|fuel']; [done|]. cbn [indexLE_loop].
    destruct (Z.leb_spec lo hi) as [Hle|Hgt]; [lia|done].
  - destruct fuel' as [|fuel']; cbn [indexLE_loop];
      destruct (Z.leb_spec lo hi) as [Hle|Hgt]; try done; [lia|].
    pose proof (shiftr1_between lo hi Hle) as Hmid.
    destruct (arr !! Z.to_nat _) as [v|]; [destruct (Qleb v t)|]; apply IH; lia.
Qed.

Lemma indexLE_fuel arr t fuel :
  (length arr < fuel)%nat ->
  indexLE arr t
  = indexLE_loop fuel arr t 0 (Z.of_nat (length arr) - 1) 0.
Proof. intros H. unfold indexLE. apply indexLE_loop_fuel; lia. Qed.

Lemma segmentIndex_lt times t :
  times <> [] -> (segmentIndex times t < length times)%nat.
Proof.
  intros Hne. unfold segmentIndex. destruct times as [|t0 rest] eqn:E; [done|].
  rewrite <- E. assert (Hlen : (0 < length times)%nat) by (subst; cbn; lia).
  destruct (Qleb t t0); [done|]. destruct (Qleb _ t); [lia|].
  pose proof (indexLE_loop_range (S (length times)) times t 0
                (Z.of_nat (length times) - 1) 0) as Hr.
  unfold indexLE. lia.
Qed.

Lemma samplePosition_total arr t : arr <> [] -> is_Some (samplePosition arr t).
Proof.
  intros Hne. unfold samplePosition.
  pose proof (segmentIndex_lt (tSec <$> arr) t) as Hk.
  rewrite length_fmap in Hk.
  assert (Hk' : (segmentIndex (tSec <$> arr) t < length arr)%nat).
  { apply Hk. by destruct arr. }
  clear Hk. set (k := segmentIndex _ _) in *.
  destruct (lookup_lt_is_Some_2 arr k Hk') as [a Ha]. rewrite Ha.
  destruct (Nat.ltb_spec k (length arr - 1)) as [Hlt|Hge]; cbn [mbind option_bind].
  - destruct (lookup_lt_is_Some_2 arr (S k)) as [b Hb]; [lia|]. rewrite Hb.
    by eexists.
  - by eexists.
Qed.

Lemma foldlOpt_total {A B} (P : A -> Prop) (f : A -> B -> option A) l :
  (forall a b, b ∈ l -> P a -> exists a', f a b = Some a' /\ P a') ->
  forall a, P a -> exists a', foldlOpt f a l = Some a' /\ P a'.
Proof.
  induction l as [|b l IH]; intros Hstep a Ha; cbn.
  - by exists a.
  - destruct (Hstep a b) as (a1 & -> & Ha1); [by left|done|].
    apply IH; [|done]. intros a2 b2 Hb2. apply Hstep. by right.
Qed.

Lemma timeMini_total cfg now ag key gi st :
  key ∈ driverInfo cfg -> coreInv cfg now ag st ->
  exists st', timeMini now key gi st = Some st' /\ sessionInv cfg now ag st'.
Proof.
  intros Hkey H.
  destruct (timeMini now key gi st) as [st'|] eqn:E.
  - exists st'. split; [done|]. by eapply timeMini_session.
  - unfold timeMini in E.
    destruct (inv_slots _ _ _ _ H key Hkey) as (_ & [bg Hbg] & _).
    rewrite Hbg in E. cbn [mbind option_bind] in E. discriminate E.
Qed.

Lemma miniGateStep_total cfg now ag key prev curr st g :
  key ∈ driverInfo cfg -> sessionInv cfg now ag st ->
  exists st', miniGateStep now ag key prev curr st g = Some st'
              /\ sessionInv cfg now ag st'.
Proof.
  intros Hkey H.
  destruct (miniGateStep now ag key prev curr st g) as [st'|] eqn:E.
  { exists st'. split; [done|]. by eapply miniGateStep_session. }
  exfalso. destruct g as [gi gb]. unfold miniGateStep in E.
  destruct (gateHit gb prev curr); [|discriminate E].
  destruct (inv_slots _ _ _ _ (proj1 H) key Hkey) as ([bg Hbg] & _ & _).
  rewrite Hbg in E. cbn [mbind option_bind] in E.
  destruct (intervalElapsed now _); [|discriminate E].
  assert (Hdom : key ∈ dom (lapCounts st)).
  { apply (inv_byGate _ _ _ _ (proj1 H)). apply elem_of_dom. by eexists. }
  pose proof (countMini_core _ _ _ _ _ Hdom (proj1 H)) as H1.
  assert (H2 : exists st2,
             (if ag then timeMini now key gi (countMini now key st)
              else Some (countMini now key st)) = Some st2
             /\ coreInv cfg now ag st2).
  { destruct ag.
    - destruct (timeMini_total cfg now true key gi _ Hkey H1) as (st2 & E2 & H2).
      exists st2. split; [done|]. apply H2.
    - by eexists. }
  destruct H2 as (st2 & E2 & H2). rewrite E2 in E.
  cbn [mbind option_bind] in E.
  destruct (inv_slots _ _ _ _ H2 key Hkey) as ([bg' Hbg'] & _ & _).
  rewrite Hbg' in E. cbn [mbind option_bind] in E. discriminate E.
Qed.

Lemma sfStep_total cfg now ag key prev curr sb st :
  key ∈ driverInfo cfg -> sessionInv cfg now ag st ->
  exists st', sfStep cfg now key prev curr sb st = Some st'
              /\ sessionInv cfg now ag st'.
Proof.
  intros Hkey H.
  destruct (sfStep cfg now key prev curr sb st) as [st'|] eqn:E.
  { exists st'. split; [done|]. by eapply sfStep_session. }
  exfalso. unfold sfStep in E.
  destruct (gateHit sb prev curr); [|discriminate E].
  destruct (intervalElapsed now _); [|discriminate E].
  destruct (inv_slots _ _ _ _ (proj1 H) key Hkey) as (_ & _ & [ts Hts]).
  rewrite Hts in E. cbn [mbind option_bind] in E. discriminate E.
Qed.

Lemma detect_total cfg now ag key prev curr st :
  key ∈ driverInfo cfg -> sessionInv cfg now ag st ->
  exists st', detect cfg now ag key prev curr st = Some st'
              /\ sessionInv cfg now ag st'.
Proof.
  intros Hkey H. unfold detect.
  match goal with |- context [foldlOpt _ ?s _] =>
    assert (H1 : sessionInv cfg now ag s) end.
  { destruct (pitBase cfg); [|done]. case_decide; [done|].
    by apply pitStep_session. }
  destruct (foldlOpt_total (sessionInv cfg now ag)
              (miniGateStep now ag key prev curr) (imap pair (miniBases cfg)))
    with (a := match pitBase cfg with
               | Some pb => if decide (key ∈ frozenDrivers st) then st
                            else pitStep now key prev curr pb st
               | None => st
               end) as (st2 & E2 & H2); [|exact H1|].
  { intros a b _ Ha. by apply miniGateStep_total. }
  rewrite E2. cbn [mbind option_bind].
  destruct ag; [|by exists st2].
  destruct (sfBase cfg); [|by exists st2]. by apply sfStep_total.
Qed.

Lemma driverStep_total cfg now ag speed st n :
  wellFormed cfg -> n ∈ DRIVER_NUMS cfg -> sessionInv cfg now ag st ->
  exists st', driverStep cfg now ag speed st n = Some st'
              /\ sessionInv cfg now ag st'.
Proof.
  intros Hwf Hn H.
  destruct (driverStep cfg now ag speed st n) as [st'|] eqn:E.
  { exists st'. split; [done|]. by eapply driverStep_session. }
  exfalso. unfold driverStep in E.
  destruct (points cfg !! n) as [arr|] eqn:Earr; [|discriminate E].
  destruct arr as [|s arr]; [discriminate E|].
  assert (Hkey : n ∈ driverInfo cfg) by by eapply Hwf.
  destruct (samplePosition_total (s :: arr) now) as [p Hp]; [done|].
  rewrite Hp in E. cbn [mbind option_bind] in E.
  destruct (prevScreenPos st !! n) as [prev|]; [|discriminate E].
  destruct (allowDetection cfg now && Qltb 0 speed); [|discriminate E].
  match type of E with context [detect _ _ _ _ ?pv ?cu _] =>
    destruct (detect_total cfg now ag n pv cu st Hkey H) as (st1 & E1 & _) end.
  rewrite E1 in E. discriminate E.
Qed.

(** A frame with a non-negative [deltaTime] returns. *)
Lemma draw_total cfg f st :
  wellFormed cfg -> 0 <= deltaTime f -> atBoundary cfg st ->
  is_Some (draw cfg f st).
Proof.
  intros Hwf Hdt H. unfold draw.
  pose proof (frameStart_session cfg f st Hdt H) as H3.
  destruct (foldlOpt_total
              (sessionInv cfg (carAbsSecAt cfg (advance f st))
                          (afterGreenAt cfg (advance f st)))
              (driverStep cfg (carAbsSecAt cfg (advance f st))
                          (afterGreenAt cfg (advance f st)) (frameSpeed f))
              (DRIVER_NUMS cfg)) with (a := frameStart cfg f st)
    as (st4 & E4 & _); [|exact H3|].
  { intros a b Hb Ha. by apply driverStep_total. }
  rewrite E4. by eexists.
Qed.

(** So does every session of such frames. *)
Lemma runFrames_total cfg fs st :
  wellFormed cfg -> Forall (fun f => 0 <= deltaTime f) fs ->
  reachable cfg st -> is_Some (runFrames cfg fs st).
Proof.
  intros Hwf Hfs. unfold runFrames. revert st.
  induction Hfs as [|f fs Hf Hfs IH]; intros st Hr; cbn.
  - by eexists.
  - destruct (draw_total cfg f st Hwf Hf) as [st1 E1];
      [by apply reachable_session|].
    rewrite E1. apply IH. by eapply reach_draw.
Qed.
End Totality.

(** ** Fields a step does not write *)

Section Frames.
Local Open Scope Q_scope.

Lemma pitStep_kept now key prev curr pb st :
  finishKept st (pitStep now key prev curr pb st)
  /\ lapsKept st (pitStep now key prev curr pb st).
Proof. unfold pitStep. by repeat case_match. Qed.

Lemma countMini_kept now key st :
  finishKept st (countMini now key st) /\ lapsKept st (countMini now key st).
Proof. by destruct (countMini_shape now key st) as [po ->]. Qed.

Lemma recompute_kept st :
  finishKept st (recomputeGapsSFandMinisectors st)
  /\ lapsKept st (recomputeGapsSFandMinisectors st)
  /\ miniCounts (recomputeGapsSFandMinisectors st) = miniCounts st
  /\ lastMiniCrossSecByGate (recomputeGapsSFandMinisectors st)
     = lastMiniCrossSecByGate st.
Proof. by destruct (recompute_shape st) as (gl & ga & cl & sl & sa & -> & _). Qed.

Lemma timeMini_kept now key gi st st' :
  timeMini now key gi st = Some st' ->
  finishKept st st' /\ lapsKept st st' /\ miniCounts st' = miniCounts st
  /\ lastMiniCrossSecByGate st' = lastMiniCrossSecByGate st.
Proof.
  unfold timeMini. destruct (miniLapTimesByGate st !! key); [|done].
  cbn [mbind option_bind]. intros [= <-].
  match goal with |- context [recomputeGapsSFandMinisectors ?s] =>
    pose proof (recompute_kept s) as H;
    remember (recomputeGapsSFandMinisectors s) as r eqn:Hr end.
  unfold finishKept, lapsKept in *. cbn in H. exact H.
Qed.

Lemma miniGateStep_kept now ag key prev curr st g st' :
  miniGateStep now ag key prev curr st g = Some st' ->
  finishKept st st' /\ lapsKept st st'.
Proof.
  destruct g as [gi gb]. unfold miniGateStep.
  destruct (gateHit gb prev curr); [|by intros [= <-]].
  destruct (lastMiniCrossSecByGate st !! key); [|done]. cbn [mbind option_bind].
  destruct (intervalElapsed now _); [|by intros [= <-]].
  destruct (countMini_kept now key st) as [Hf Hl].
  destruct (if ag then _ else _) as [st2|] eqn:E2; [|done]. cbn [mbind option_bind].
  destruct (lastMiniCrossSecByGate st2 !! key); [|done]. cbn [mbind option_bind].
  intros [= <-].
  assert (finishKept st st2 /\ lapsKept st st2) as [Hf2 Hl2].
  { destruct ag; [|by inversion E2; subst].
    apply timeMini_kept in E2 as (Hf2 & Hl2 & _).
    unfold finishKept, lapsKept in *. split; intuition congruence. }
  done.
Qed.

Lemma miniLoop_kept now ag key prev curr gates st st' :
  foldlOpt (miniGateStep now ag key prev curr) st gates = Some st' ->
  finishKept st st' /\ lapsKept st st'.
Proof.
  apply (foldlOpt_inv (fun s => finishKept st s /\ lapsKept st s)); [|done].
  intros a b a' [Hf Hl] Hb. apply miniGateStep_kept in Hb as [Hf' Hl'].
  unfold finishKept, lapsKept in *. split; intuition congruence.
Qed.

Lemma finishLogic_kept cfg key st :
  finishKept st (finishLogic cfg key st)
  /\ lapCounts (finishLogic cfg key st) = lapCounts st.
Proof.
  unfold finishLogic.
  repeat match goal with
         | |- context [if ?b then _ else _] => destruct b
         end; done.
Qed.

Lemma sfStep_kept cfg now key prev curr sb st st' :
  sfStep cfg now key prev curr sb st = Some st' -> finishKept st st'.
Proof.
  unfold sfStep. destruct (gateHit sb prev curr); [|by intros [= <-]].
  destruct (intervalElapsed now _); [|by intros [= <-]].
  destruct (lapTimes st !! key); [|done]. cbn [mbind option_bind].
  intros [= <-]. by destruct (finishLogic_kept cfg key
    (set_lastCrossSec (<[key:=Finite now]> (lastCrossSec st))
       (set_lapTimes (<[key:=l ++ [now]]> (lapTimes st))
          (set_lapCounts (<[key:=(default 0 (lapCounts st !! key) + 1)%Z]> (lapCounts st))
             st)))) as [Hf _].
Qed.

(** Before the green flag the detector leaves the lap ledger alone. *)
Lemma detect_before_green cfg now key prev curr st st' :
  detect cfg now false key prev curr st = Some st' -> lapsKept st st'.
Proof.
  unfold detect.
  match goal with |- context [foldlOpt _ ?s _] =>
    assert (H1 : lapsKept st s) end.
  { destruct (pitBase cfg); [|done]. case_decide; [done|]. apply pitStep_kept. }
  destruct (foldlOpt _ _ _) as [st2|] eqn:E2; [|done]. cbn [mbind option_bind].
  intros [= <-]. apply miniLoop_kept in E2 as [_ Hl].
  unfold lapsKept in *. intuition congruence.
Qed.

Lemma detect_kept cfg now ag key prev curr st st' :
  detect cfg now ag key prev curr st = Some st' -> finishKept st st'.
Proof.
  unfold detect.
  match goal with |- context [foldlOpt _ ?s _] =>
    assert (H1 : finishKept st s) end.
  { destruct (pitBase cfg); [|done]. case_decide; [done|]. apply pitStep_kept. }
  destruct (foldlOpt _ _ _) as [st2|] eqn:E2; [|done]. cbn [mbind option_bind].
  apply miniLoop_kept in E2 as [Hf _].
  assert (H2 : finishKept st st2) by (unfold finishKept in *; intuition congruence).
  destruct ag; [|by intros [= <-]].
  destruct (sfBase cfg); [|by intros [= <-]].
  intros Hsf. apply sfStep_kept in Hsf. unfold finishKept in *. intuition congruence.
Qed.

Lemma driverStep_kept cfg now ag speed st n st' :
  driverStep cfg now ag speed st n = Some st' -> finishKept st st'.
Proof.
  unfold driverStep.
  destruct (points cfg !! n) as [[|a arr]|]; try by intros [= <-].
  destruct (samplePosition _ _); [|done]. cbn [mbind option_bind].
  match goal with |- (?m ≫= _) = _ -> _ => destruct m as [st1|] eqn:E1; [|done] end.
  cbn [mbind option_bind]. intros [= <-].
  assert (H1 : finishKept st st1).
  { destruct (prevScreenPos st !! n); [|by inversion E1; subst].
    destruct (allowDetection cfg now && Qltb 0 speed); [|by inversion E1; subst].
    by eapply detect_kept. }
  exact H1.
Qed.

Lemma driverLoop_kept cfg now ag speed ns st st' :
  foldlOpt (driverStep cfg now ag speed) st ns = Some st' -> finishKept st st'.
Proof.
  apply (foldlOpt_inv (finishKept st)); [|done].
  intros a b a' Hf Hb. apply driverStep_kept in Hb.
  unfold finishKept in *. intuition congruence.
Qed.

Lemma baselineAtGreen_kept cfg st : finishKept st (baselineAtGreen cfg st).
Proof.
  unfold baselineAtGreen.
  match goal with |- context [recomputeGapsSFandMinisectors ?s] =>
    pose proof (recompute_kept s) as H;
    remember (recomputeGapsSFandMinisectors s) as r eqn:Hr end.
  unfold finishKept in *. cbn in H. tauto.
Qed.

(** *** Detection suspended *)

Lemma driverStep_suspended cfg now ag speed st n st' :
  allowDetection cfg now = false ->
  driverStep cfg now ag speed st n = Some st' ->
  exists p, st' = set_prevScreenPos p st.
Proof.
  intros Hoff. unfold driverStep. rewrite Hoff. cbn [andb].
  destruct (points cfg !! n) as [[|a arr]|];
    try (intros [= <-]; exists (prevScreenPos st); by destruct st).
  destruct (samplePosition _ _); [|done]. cbn [mbind option_bind].
  destruct (prevScreenPos st !! n); cbn [mbind option_bind];
    intros [= <-]; by eexists.
Qed.

Lemma driverLoop_suspended cfg now ag speed ns st st' :
  allowDetection cfg now = false ->
  foldlOpt (driverStep cfg now ag speed) st ns = Some st' ->
  exists p, st' = set_prevScreenPos p st.
Proof.
  intros Hoff.
  apply (foldlOpt_inv (fun s => exists p, s = set_prevScreenPos p st)).
  - intros a b a' [p ->] Hb.
    destruct (driverStep_suspended _ _ _ _ _ _ _ Hoff Hb) as [p' ->].
    exists p'. by destruct st.
  - exists (prevScreenPos st). by destruct st.
Qed.
End Frames.

(** ** Freeze commits *)

Section FreezeFacts.
Local Open Scope Z_scope.

Lemma markFreeze_kept cfg st r :
  finishKept st (markFreeze cfg st r)
  /\ dnfOverlayActive (markFreeze cfg st r) = dnfOverlayActive st.
Proof.
  unfold markFreeze.
  repeat match goal with
         | |- context [if ?b then _ else _] => destruct b
         end; done.
Qed.

Lemma markLoop_kept cfg rs st :
  finishKept st (foldl (markFreeze cfg) st rs)
  /\ dnfOverlayActive (foldl (markFreeze cfg) st rs) = dnfOverlayActive st.
Proof.
  apply (foldl_inv (fun s => finishKept st s
                             /\ dnfOverlayActive s = dnfOverlayActive st)); [|done].
  intros a b [[H1 H2] H3]. destruct (markFreeze_kept cfg a b) as [[H4 H5] H6].
  unfold finishKept. intuition congruence.
Qed.

(** A pending mark, once set, stays set through the marking loop. *)
Lemma markFreeze_pending cfg st r d :
  freezePending st !! d = Some true ->
  freezePending (markFreeze cfg st r) !! d = Some true.
Proof.
  intros H. unfold markFreeze.
  repeat match goal with
         | |- context [if ?b then _ else _] => destruct b
         end; cbn;
    repeat match goal with
           | |- <[?k := true]> _ !! d = Some true =>
               destruct (decide (k = d)) as [->|?];
               [by rewrite lookup_insert_eq|rewrite lookup_insert_ne by done]
           end; done.
Qed.

Lemma markLoop_pending cfg rs st d :
  freezePending st !! d = Some true ->
  freezePending (foldl (markFreeze cfg) st rs) !! d = Some true.
Proof.
  apply (foldl_inv (fun s => freezePending s !! d = Some true)).
  intros a b Ha. by apply markFreeze_pending.
Qed.

(** The special case: car 4, flagged DNF, in the row of position 20. *)
Lemma markFreeze_dnf_last cfg st (i : nat) r :
  dn r = 4%N -> Z.of_nat i + 1 = 20 ->
  dnfOverlayActive st !! 4%N = Some true -> 4%N ∉ frozenDrivers st ->
  freezePending (markFreeze cfg st (i, r)) !! 4%N = Some true.
Proof.
  intros Hd Hi Hdnf Hnf. unfold markFreeze. cbn [fst snd]. rewrite Hd, Hi.
  match goal with
  | |- context [if ?c then set_freezePending ?v st else st] => destruct c
  end; cbn; rewrite !bool_decide_eq_true_2 by done; cbn;
    by rewrite lookup_insert_eq.
Qed.

Lemma commitPending_frozen rows st e :
  e ∈ frozenDrivers st ->
  e ∈ frozenDrivers (commitPending rows st)
  /\ freezePos (commitPending rows st) !! e = freezePos st !! e.
Proof.
  intros He. unfold commitPending. cbn. split.
  - apply elem_of_union. by right.
  - apply lookup_union_r. rewrite map_lookup_imap.
    rewrite map_lookup_filter_None_2; [done|].
    right. intros b _ [_ Hnf]. by apply Hnf.
Qed.

Lemma commitPending_new rows st e :
  freezePending st !! e = Some true -> e ∉ frozenDrivers st ->
  e ∈ frozenDrivers (commitPending rows st)
  /\ forall p, rowPosition rows e = Some p ->
               freezePos (commitPending rows st) !! e = Some p.
Proof.
  intros Hp Hnf. unfold commitPending. cbn.
  assert (Hnew : filter (fun kv => kv.2 = true ∧ kv.1 ∉ frozenDrivers st)
                   (freezePending st) !! e = Some true).
  { by apply map_lookup_filter_Some_2. }
  split.
  - apply elem_of_union. left. apply elem_of_dom. by eexists.
  - intros p Hpos. apply lookup_union_Some_l. rewrite map_lookup_imap, Hnew. done.
Qed.

Lemma drawLeaderboard_terminal cfg st e :
  e ∈ frozenDrivers st ->
  e ∈ frozenDrivers (drawLeaderboard cfg st)
  /\ freezePos (drawLeaderboard cfg st) !! e = freezePos st !! e.
Proof.
  intros He. unfold drawLeaderboard.
  destruct (boardRows cfg st) as [|r rows]; [done|].
  destruct (markLoop_kept cfg (imap pair (r :: rows)) st) as [[Hf Hp] _].
  destruct (commitPending_frozen (r :: rows)
              (foldl (markFreeze cfg) st (imap pair (r :: rows))) e) as [H1 H2].
  { by rewrite Hf. }
  split; [done|]. by rewrite H2, Hp.
Qed.

Lemma draw_terminal cfg f st st' e :
  draw cfg f st = Some st' -> e ∈ frozenDrivers st ->
  e ∈ frozenDrivers st' /\ freezePos st' !! e = freezePos st !! e.
Proof.
  intros Hdraw He. unfold draw in Hdraw.
  destruct (foldlOpt _ _ _) as [st4|] eqn:E4; [|done].
  cbn [mbind option_bind] in Hdraw. inversion Hdraw as [Hst']. clear Hdraw Hst'.
  apply driverLoop_kept in E4 as [Hf Hp].
  assert (H3 : frozenDrivers st4 = frozenDrivers st /\ freezePos st4 = freezePos st).
  { rewrite Hf, Hp. unfold frameStart. destruct (_ && _); [|done].
    destruct (baselineAtGreen_kept cfg
                (activateDnf cfg (boardAbsSecAt cfg (advance f st))
                   (set_lastBoardAbsSec (boardAbsSecAt cfg (advance f st))
                      (set_raceTime (advance f st) st)))) as [-> ->].
    done. }
  destruct H3 as [Hf' Hp'].
  destruct (drawLeaderboard_terminal cfg st4 e) as [H1 H2]; [by rewrite Hf'|].
  split; [done|]. by rewrite H2, Hp'.
Qed.

Lemma runFrames_terminal cfg fs st st' e :
  runFrames cfg fs st = Some st' -> e ∈ frozenDrivers st ->
  e ∈ frozenDrivers st' /\ freezePos st' !! e = freezePos st !! e.
Proof.
  unfold runFrames. revert st. induction fs as [|f fs IH]; intros st Hrun He; cbn in Hrun.
  - by inversion Hrun; subst.
  - destruct (draw cfg f st) as [st1|] eqn:E1; [|done].
    destruct (draw_terminal _ _ _ _ _ E1 He) as [H1 H2].
    destruct (IH _ Hrun H1) as [H3 H4]. split; [done|]. by rewrite H4.
Qed.
End FreezeFacts.

(** ** Acceptance of a crossing *)

Section AcceptFacts.
Local Open Scope Q_scope.

Lemma gateHit_spec gb prev curr :
  gateHit gb prev curr = true <-> forwardFlip gb prev curr /\ insideGate gb prev curr.
Proof.
  unfold gateHit, forwardFlip, insideGate.
  destruct (flipsForward _ _) eqn:E.
  - apply flipsForward_spec in E. rewrite withinGate_spec. tauto.
  - split; [done|]. intros [H _]. apply flipsForward_spec in H. congruence.
Qed.

Lemma intervalElapsed_mini now (slot : option Q) :
  nonzeroRecord slot ->
  intervalElapsed now (numOrNegInfinity slot) = true <-> debounced now slot.
Proof.
  intros Hnz. destruct slot as [t|]; cbn; [|done].
  destruct (Qeq_bool t 0) eqn:E.
  - apply Qeq_bool_iff in E. by destruct (Hnz t).
  - cbn. apply Qleb_true.
Qed.

Lemma intervalElapsed_sf now (slot : option jsTime) :
  nonzeroRecord (isFinite slot) ->
  intervalElapsed now (orNegInfinity slot) = true <-> debounced now (isFinite slot).
Proof.
  intros Hnz. destruct slot as [[|t]|]; cbn; [done| |done].
  destruct (Qeq_bool t 0) eqn:E.
  - apply Qeq_bool_iff in E. by destruct (Hnz t).
  - cbn. apply Qleb_true.
Qed.

(** A minisector gate: counted exactly when accepted, and nothing at
    all changes otherwise. *)
Lemma miniGateStep_counted now ag key prev curr st gi gb st' :
  nonzeroRecord (recordedMini st key gi) ->
  miniGateStep now ag key prev curr st (gi, gb) = Some st' ->
  (accepted gb prev curr now (recordedMini st key gi) ->
   miniCounts st' !! key = Some (default 0 (miniCounts st !! key) + 1)%Z
   /\ recordedMini st' key gi = Some now)
  /\ (~ accepted gb prev curr now (recordedMini st key gi) -> st' = st).
Proof.
  intros Hnz Hstep. unfold miniGateStep in Hstep. unfold accepted.
  pose proof (gateHit_spec gb prev curr) as Hhit.
  destruct (gateHit gb prev curr).
  2:{ inversion Hstep; subst. split; [|done]. intros (? & ? & _).
      assert (false = true) by tauto. done. }
  unfold recordedMini in *.
  destruct (lastMiniCrossSecByGate st !! key) as [byGate|] eqn:Eg; [|done].
  cbn [mbind option_bind] in *.
  pose proof (intervalElapsed_mini now (byGate !! gi) Hnz) as Hdeb.
  destruct (intervalElapsed now _).
  2:{ inversion Hstep; subst. split; [|done]. intros (_ & _ & ?).
      assert (false = true) by tauto. done. }
  split; [|intros Hn; exfalso; apply Hn; tauto]. intros _.
  destruct (if ag then _ else _) as [st2|] eqn:E2; [|done].
  cbn [mbind option_bind] in Hstep.
  destruct (lastMiniCrossSecByGate st2 !! key); [|done].
  cbn [mbind option_bind] in Hstep. inversion Hstep as [Hst']. clear Hstep Hst'.
  cbn. split; [|by rewrite !lookup_insert_eq; cbn; rewrite lookup_insert_eq].
  assert (Hc : miniCounts st2 = miniCounts (countMini now key st)).
  { destruct ag; [|by inversion E2; subst]. by apply timeMini_kept in E2 as (_ & _ & -> & _). }
  rewrite Hc. destruct (countMini_shape now key st) as [po ->]. cbn.
  by rewrite lookup_insert_eq.
Qed.

Lemma finishLogic_lastCrossSec cfg key st :
  lastCrossSec (finishLogic cfg key st) = lastCrossSec st.
Proof.
  unfold finishLogic.
  repeat match goal with
         | |- context [if ?b then _ else _] => destruct b
         end; done.
Qed.

(** The start/finish gate, when it is evaluated. *)
Lemma sfStep_counted cfg now key prev curr sb st st' :
  nonzeroRecord (recordedSF st key) ->
  sfStep cfg now key prev curr sb st = Some st' ->
  (accepted sb prev curr now (recordedSF st key) ->
   lapCounts st' !! key = Some (default 0 (lapCounts st !! key) + 1)%Z
   /\ recordedSF st' key = Some now)
  /\ (~ accepted sb prev curr now (recordedSF st key) -> st' = st).
Proof.
  intros Hnz Hstep. unfold sfStep in Hstep. unfold accepted.
  pose proof (gateHit_spec sb prev curr) as Hhit.
  destruct (gateHit sb prev curr).
  2:{ inversion Hstep; subst. split; [|done]. intros (? & ? & _).
      assert (false = true) by tauto. done. }
  unfold recordedSF in *.
  pose proof (intervalElapsed_sf now (lastCrossSec st !! key) Hnz) as Hdeb.
  destruct (intervalElapsed now _).
  2:{ inversion Hstep; subst. split; [|done]. intros (_ & _ & ?).
      assert (false = true) by tauto. done. }
  split; [|intros Hn; exfalso; apply Hn; tauto]. intros _.
  destruct (lapTimes st !! key) as [times|]; [|done].
  cbn [mbind option_bind] in Hstep. inversion Hstep as [Hst']. clear Hstep Hst'.
  match goal with |- lapCounts (finishLogic cfg key ?s) !! _ = _ /\ _ =>
    destruct (finishLogic_kept cfg key s) as [_ ->];
    rewrite (finishLogic_lastCrossSec cfg key s) end.
  cbn. by rewrite !lookup_insert_eq.
Qed.

(** The baseline at green clears the per-gate records of the table's
    drivers. *)
Lemma baselineAtGreen_recordedMini cfg st key gi :
  key ∈ driverInfo cfg -> recordedMini (baselineAtGreen cfg st) key gi = None.
Proof.
  intros Hk. unfold recordedMini, baselineAtGreen.
  match goal with |- context [recomputeGapsSFandMinisectors ?s] =>
    destruct (recompute_kept s) as (_ & _ & _ & ->) end.
  cbn. rewrite lookup_assignAll, decide_True by done. cbn. apply lookup_empty.
Qed.

(** Acceptance is decidable: it is what the booleans of [draw] test. *)
Lemma classic_accept gb prev curr now recorded :
  accepted gb prev curr now recorded \/ ~ accepted gb prev curr now recorded.
Proof.
  unfold accepted. pose proof (gateHit_spec gb prev curr) as Hh.
  destruct (gateHit gb prev curr).
  2:{ right. intros (? & ? & _). assert (false = true) by tauto. done. }
  destruct recorded as [t|]; cbn; [|tauto].
  destruct (Qlt_le_dec (now - t) MIN_CROSSING_INTERVAL_SEC) as [Hlt|Hle].
  - right. intros (_ & _ & H). lra.
  - tauto.
Qed.

(** A counter that moved by one is a different counter. *)
Lemma counted_changes (m m' : gmap N Z) key :
  m' !! key = Some (default 0 (m !! key) + 1)%Z -> m' <> m.
Proof.
  intros H ->. destruct (m !! key) as [c|]; [|done]. cbn in H.
  inversion H. lia.
Qed.
End AcceptFacts.

(** ** The special freeze rule *)

Section DnfRule.
Local Open Scope Z_scope.

Lemma rowPosition_snoc rows r d :
  rowPosition (rows ++ [r]) d
  = if (dn r =? d)%N then Some (Z.of_nat (length rows) + 1) else rowPosition rows d.
Proof.
  unfold rowPosition. rewrite imap_app, foldl_app. cbn. by rewrite Nat.add_0_r.
Qed.

Lemma rowPosition_unique rows (i : nat) d :
  NoDup (dn <$> rows) -> (dn <$> rows) !! i = Some d ->
  rowPosition rows d = Some (Z.of_nat i + 1).
Proof.
  revert i. induction rows as [|r rows IH] using rev_ind; intros i Hnd Hi.
  - by cbn in Hi.
  - rewrite fmap_app in Hnd, Hi. cbn in Hnd, Hi.
    apply NoDup_app in Hnd as (Hnd & Hne & _).
    rewrite rowPosition_snoc.
    destruct (decide (i < length (dn <$> rows))%nat) as [Hlt|Hge].
    + rewrite lookup_app_l in Hi by done.
      destruct (N.eqb_spec (dn r) d) as [E|E].
      * exfalso. apply (Hne d); [by eapply list_elem_of_lookup_2|].
        rewrite E. apply list_elem_of_here.
      * by apply IH.
    + rewrite lookup_app_r in Hi by lia.
      destruct (i - length (dn <$> rows))%nat as [|k] eqn:Ek; [|done].
      cbn in Hi. inversion Hi; subst. rewrite N.eqb_refl.
      rewrite length_fmap in *. do 2 f_equal. lia.
Qed.

Lemma NoDup_boardRows cfg st :
  NoDup (driverInfo cfg) -> NoDup (dn <$> boardRows cfg st).
Proof.
  intros H. unfold boardRows. rewrite sortBy_perm, dn_candidateOf.
  by apply NoDup_filter.
Qed.

Lemma markLoop_dnf_last cfg rows st :
  (dn <$> rows) !! 19%nat = Some 4%N ->
  dnfOverlayActive st !! 4%N = Some true -> 4%N ∉ frozenDrivers st ->
  freezePending (foldl (markFreeze cfg) st (imap pair rows)) !! 4%N = Some true.
Proof.
  intros Hi Hdnf Hnf. rewrite list_lookup_fmap in Hi.
  destruct (rows !! 19%nat) as [r|] eqn:Er; [|done]. cbn in Hi.
  inversion Hi as [Hd]. clear Hi. rewrite ?Hd.
  pose proof (take_drop_middle rows 19 r Er) as Hsplit.
  rewrite <- Hsplit. rewrite imap_app, foldl_app. cbn [imap foldl].
  apply markLoop_pending.
  destruct (markLoop_kept cfg (imap pair (take 19 rows)) st) as [[Hf _] Hdn].
  apply markFreeze_dnf_last; [done| |by rewrite Hdn|by rewrite Hf].
  apply lookup_lt_Some in Er. rewrite length_take. lia.
Qed.
End DnfRule.

(** ** Sessions *)

Section SessionFacts.
Local Open Scope Q_scope.

Lemma runFrames_reachable cfg fs st st' :
  reachable cfg st -> Forall (fun f => 0 <= deltaTime f) fs ->
  runFrames cfg fs st = Some st' -> reachable cfg st'.
Proof.
  unfold runFrames. intros Hr Hfs. revert st Hr.
  induction Hfs as [|f fs Hf Hfs IH]; intros st Hr Hrun; cbn in Hrun.
  - by inversion Hrun; subst.
  - destruct (draw cfg f st) as [st1|] eqn:E1; [|done].
    apply (IH st1); [|done]. by eapply reach_draw.
Qed.

Lemma afterFrames_reachable cfg fs :
  Forall (fun f => 0 <= deltaTime f) fs -> reachable cfg (afterFrames cfg fs).
Proof.
  intros Hfs. unfold afterFrames.
  destruct (runFrames cfg fs (setup cfg)) as [st|] eqn:E; cbn.
  - eapply runFrames_reachable; [apply reach_setup|exact Hfs|exact E].
  - apply reach_setup.
Qed.

(** The caches the fallback of the gap loop reads: every driver of the
    table has both, and neither ever holds a leader tag. *)
Lemma reachable_caches cfg st d :
  reachable cfg st -> d ∈ driverInfo cfg ->
  (exists fb, lastStableGaps st !! d = Some fb /\ fb <> GLeader)
  /\ (exists fb, lastStableGapsAhead st !! d = Some fb /\ fb <> GLeader).
Proof.
  intros Hr Hd. apply reachable_session in Hr. destruct Hr as [Hc _].
  destruct (inv_stable _ _ _ _ Hc d Hd) as [[fb Hfb] [fa Hfa]].
  destruct (inv_caches _ _ _ _ Hc d) as [Hnl Hna].
  split; [exists fb|exists fa]; (split; [done|]); intros ->; congruence.
Qed.

Lemma reachable_ledgerOk cfg st : reachable cfg st -> ledgerOk st.
Proof. intros H. apply reachable_session in H. apply (inv_ledger _ _ _ _ (proj1 H)). Qed.

(** *** A frame inside the start delay *)

Lemma nothingCounted_trans a b c :
  nothingCounted a b -> nothingCounted b c -> nothingCounted a c.
Proof.
  unfold nothingCounted. intros (-> & -> & -> & -> & -> & H1) (-> & -> & -> & -> & -> & H2).
  repeat split; auto.
Qed.

Lemma recompute_nothingCounted st :
  nothingCounted st (recomputeGapsSFandMinisectors st).
Proof. by destruct (recompute_shape st) as (gl & ga & cl & sl & sa & -> & _). Qed.

Lemma baselineAtGreen_nothingCounted cfg st :
  nothingCounted st (baselineAtGreen cfg st).
Proof.
  unfold baselineAtGreen.
  match goal with |- context [recomputeGapsSFandMinisectors ?s] =>
    apply (nothingCounted_trans _ s); [|apply recompute_nothingCounted] end.
  unfold nothingCounted. cbn. repeat split; try done.
  intros d. rewrite lookup_assignAll. by case_decide.
Qed.

Lemma markLoop_nothingCounted cfg rs st :
  nothingCounted st (foldl (markFreeze cfg) st rs).
Proof.
  apply (foldl_inv (nothingCounted st)); [|by unfold nothingCounted].
  intros a b Ha. apply (nothingCounted_trans _ a); [done|].
  unfold markFreeze.
  repeat match goal with
         | |- context [if ?c then _ else _] => destruct c
         end; by unfold nothingCounted.
Qed.

Lemma drawLeaderboard_nothingCounted cfg st :
  nothingCounted st (drawLeaderboard cfg st).
Proof.
  unfold drawLeaderboard. destruct (boardRows cfg st) as [|r rows].
  - by unfold nothingCounted.
  - apply (nothingCounted_trans _ (foldl (markFreeze cfg) st (imap pair (r :: rows))));
      [apply markLoop_nothingCounted|].
    remember (foldl (markFreeze cfg) st (imap pair (r :: rows))) as s eqn:Hs.
    unfold commitPending, nothingCounted. cbn. repeat split; try done.
    intros d Hd. apply lookup_union_Some_raw in Hd as [Hd|[_ Hd]]; [|done].
    rewrite lookup_fmap in Hd. by destruct (filter _ _ !! d).
Qed.

Lemma draw_suspended cfg f st st' :
  allowDetection cfg (carAbsSecAt cfg (advance f st)) = false ->
  draw cfg f st = Some st' -> nothingCounted st st'.
Proof.
  intros Hoff Hdraw. unfold draw in Hdraw.
  destruct (foldlOpt _ _ _) as [st4|] eqn:E4; [|done].
  cbn [mbind option_bind] in Hdraw. inversion Hdraw as [Hst']. clear Hdraw Hst'.
  apply (driverLoop_suspended _ _ _ _ _ _ _ Hoff) in E4 as [p ->].
  eapply nothingCounted_trans; [|apply drawLeaderboard_nothingCounted].
  match goal with |- nothingCounted st (set_prevScreenPos p ?s) =>
    apply (nothingCounted_trans _ s); [|by unfold nothingCounted] end.
  unfold frameStart. destruct (_ && _).
  - eapply nothingCounted_trans; [|apply baselineAtGreen_nothingCounted].
    by unfold nothingCounted.
  - by unfold nothingCounted.
Qed.
End SessionFacts.

(** * The claims *)

Section Claims.
Local Open Scope Q_scope.

(** C10. Every zero-crossing fraction is computed under a sign flip,
    with a non-zero denominator, and lies in [0,1]: the pit gate's
    guarded fraction for either direction, and the plain quotient of
    the minisector and start/finish gates, whose branch condition makes
    the denominator strictly negative. *)
Theorem zero_fraction_well_defined (d0 d1 : Q) :
  crosses d0 d1 = true ->
  ~ d0 - d1 == 0
  /\ 0 <= pitFraction d0 d1 <= 1
  /\ (Qabs (d0 - d1) <= 1e-6 -> pitFraction d0 d1 = 0.5)
  /\ (1e-6 < Qabs (d0 - d1) -> pitFraction d0 d1 = d0 / (d0 - d1))
  /\ (flipsForward d0 d1 = true ->
      d0 - d1 < 0 /\ 0 <= zeroFraction d0 d1 <= 1).
Proof.
  intros Hc. apply crosses_spec in Hc.
  assert (Hne : ~ d0 - d1 == 0) by (destruct Hc; lra).
  assert (Hunit : 0 <= d0 / (d0 - d1) <= 1).
  { destruct Hc as [[? ?]|[? ?]].
    - apply ratio_neg_unit; lra.
    - apply ratio_pos_unit; lra. }
  assert (Hfwd : flipsForward d0 d1 = true ->
                 d0 - d1 < 0 /\ 0 <= zeroFraction d0 d1 <= 1).
  { intros Hf. apply flipsForward_spec in Hf. split; [lra|exact Hunit]. }
  split; [done|]. unfold pitFraction. cbn zeta.
  destruct (Qltb 1e-6 (Qabs (d0 - d1))) eqn:E.
  - apply Qltb_true in E. split; [exact Hunit|]. split; [intros H; lra|].
    split; [done|exact Hfwd].
  - apply Qltb_false in E. split; [lra|]. split; [done|].
    split; [intros H; lra|exact Hfwd].
Qed.

Lemma zero_fraction_witness :
  crosses (-1) 1 = true
  /\ 0 <= pitFraction (-1) 1 <= 1
  /\ 0 <= zeroFraction (-1) 1 <= 1.
Proof.
  pose proof (zero_fraction_well_defined (-1) 1 eq_refl) as (_ & Hp & _ & _ & Hz).
  split; [reflexivity|]. split; [exact Hp|]. exact (proj2 (Hz eq_refl)).
Defined.

(** C7. Running the gap recomputation twice in a row on an unchanged
    ledger gives the same gap-to-leader map, gap-to-ahead map and
    current leader as running it once, although the first run has
    rewritten the last-stable caches the second one reads. *)
Theorem recompute_idempotent (st : State) :
  let once := recomputeGapsSFandMinisectors st in
  let twice := recomputeGapsSFandMinisectors once in
  gapsToLeader twice = gapsToLeader once
  /\ gapsToAhead twice = gapsToAhead once
  /\ currentLeader twice = currentLeader once.
Proof. cbv zeta. by rewrite recompute_twice. Qed.

(** C2. For a revealed entity that is not the leader and has a
    non-empty minisector sequence, the recomputed gap to the leader is
    [Time (max 0 (entityTime - leaderTime))] at the entity's latest
    index whenever the leader has a time at that index, hence never
    negative; with leader times 10.0, 22.0 and entity times 10.5, 22.6
    it is 0.6 s.  When the leader has no time at that index the entity
    keeps its last stable gap. *)
Theorem gap_to_leader_at_latest_index
    (st : State) (leader d : N) (seq : list Q) (tD : Q) :
  currentLeader (recomputeGapsSFandMinisectors st) = Some leader ->
  d ∈ revealedDrivers st -> d ∈ dom (lapCounts st) -> d <> leader ->
  miniSeqTimes st !! d = Some seq -> last seq = Some tD ->
  let idx := (length seq - 1)%nat in
  let newGap := gapsToLeader (recomputeGapsSFandMinisectors st) !! d in
  (forall tL, seqOf st leader !! idx = Some tL ->
     newGap = Some (GTime (Qmax 0 (tD - tL))) /\ 0 <= Qmax 0 (tD - tL))
  /\ (seqOf st leader !! idx = None ->
      forall fb, lastStableGaps st !! d = Some fb -> fb <> GLeader ->
                 newGap = Some fb)
  /\ (seq = [10.5; 22.6] -> seqOf st leader = [10; 22] ->
      exists s, newGap = Some (GTime s) /\ s == 0.6).
Proof.
  intros Hlead Hrev Hdom Hne Hseq Hlast idx newGap.
  rewrite currentLeader_recompute in Hlead.
  destruct (rankOrder st) as [|l rest] eqn:E; [done|].
  cbn in Hlead. inversion Hlead; subst l. clear Hlead.
  assert (Hgap : newGap = Some (timeGap seq (seqOf st leader) (lastStableGaps st !! d))).
  { subst newGap. rewrite (gapsToLeader_recompute_nonempty _ _ _ _ E).
    rewrite decide_True by (by apply elem_of_rankOrder).
    unfold leaderGapOf. destruct (N.eqb_spec d leader) as [?|_]; [done|].
    unfold seqOf at 1. by rewrite Hseq. }
  assert (Hlen : length seq = S idx /\ seq !! idx = Some tD).
  { subst idx. rewrite last_lookup in Hlast.
    destruct seq as [|t0 seq']; [done|]. cbn in *.
    rewrite Nat.sub_0_r. done. }
  destruct Hlen as [Hlen HtD].
  assert (Htime : forall tL, seqOf st leader !! idx = Some tL ->
            newGap = Some (GTime (Qmax 0 (tD - tL)))).
  { intros tL HtL. rewrite Hgap. unfold timeGap. by rewrite Hlen, HtD, HtL. }
  split; [|split].
  - intros tL HtL. split; [by apply Htime|]. apply Q.le_max_l.
  - intros Hnone fb Hfb Hnl. rewrite Hgap. unfold timeGap.
    rewrite Hlen, HtD, Hnone, Hfb. f_equal. by apply fallbackGap_keep.
  - intros -> Hl. cbn in Hlast. inversion Hlast; subst tD.
    exists (Qmax 0 (22.6 - 22)). split; [|reflexivity].
    apply Htime. subst idx. by rewrite Hl.
Qed.

Lemma gap_to_leader_witness :
  currentLeader (recomputeGapsSFandMinisectors gapScenario) = Some 1%N
  /\ miniSeqTimes gapScenario !! 4%N = Some [10.5; 22.6]
  /\ seqOf gapScenario 1%N = [10; 22]
  /\ exists s, gapsToLeader (recomputeGapsSFandMinisectors gapScenario) !! 4%N
               = Some (GTime s) /\ s == 0.6.
Proof.
  assert (H1 : currentLeader (recomputeGapsSFandMinisectors gapScenario) = Some 1%N)
    by (vm_compute; reflexivity).
  assert (H2 : 4%N ∈ revealedDrivers gapScenario)
    by compute_done.
  assert (H3 : 4%N ∈ dom (lapCounts gapScenario))
    by compute_done.
  assert (H4 : 4%N <> 1%N) by discriminate.
  assert (H5 : miniSeqTimes gapScenario !! 4%N = Some [10.5; 22.6])
    by (vm_compute; reflexivity).
  assert (H6 : last [10.5; 22.6] = Some 22.6) by reflexivity.
  assert (H7 : seqOf gapScenario 1%N = [10; 22]) by (vm_compute; reflexivity).
  destruct (gap_to_leader_at_latest_index gapScenario 1%N 4%N [10.5; 22.6] 22.6
              H1 H2 H3 H4 H5 H6) as (_ & _ & Hs).
  split; [exact H1|]. split; [exact H5|]. split; [exact H7|].
  exact (Hs eq_refl H7).
Defined.

(** C5. The ranking behind both the gap engine and the leaderboard lists
    exactly the revealed entities, ordered by progress since the
    baseline (descending; baseline 0 until captured) and, on equal
    progress, by time since the last minisector crossing (descending);
    its first entity is the current leader. *)
Theorem ranking_by_progress_then_recency (cfg : Config) (st : State) :
  ledgerOk st ->
  (forall d, d ∈ rankOrder st <-> d ∈ revealedDrivers st /\ d ∈ dom (lapCounts st))
  /\ (forall i j a b, (i < j)%nat ->
        rankOrder st !! i = Some a -> rankOrder st !! j = Some b ->
        ranksAhead st a b)
  /\ currentLeader (recomputeGapsSFandMinisectors st) = head (rankOrder st)
  /\ (forall d, d ∈ dn <$> boardRows cfg st
                <-> d ∈ revealedDrivers st /\ d ∈ driverInfo cfg)
  /\ (forall i j a b, (i < j)%nat ->
        (dn <$> boardRows cfg st) !! i = Some a ->
        (dn <$> boardRows cfg st) !! j = Some b ->
        ranksAhead st a b).
Proof.
  intros Hok. split; [apply elem_of_rankOrder|].
  split.
  { intros i j a b Hij Hi Hj. unfold rankOrder, candidates in Hi, Hj.
    eapply sorted_ranksAhead; [exact Hok| |exact Hij|exact Hi|exact Hj].
    intros d Hd. by apply list_elem_of_filter in Hd as [Hd _]. }
  split; [apply currentLeader_recompute|].
  split.
  { intros d. unfold boardRows. rewrite sortBy_perm, dn_candidateOf.
    by rewrite list_elem_of_filter. }
  intros i j a b Hij Hi Hj. unfold boardRows in Hi, Hj.
  eapply sorted_ranksAhead; [exact Hok| |exact Hij|exact Hi|exact Hj].
  intros d Hd. by apply list_elem_of_filter in Hd as [Hd _].
Qed.

Lemma ranking_witness :
  rankOrder (afterFrames formationCfg retiredFrames) = [1%N; 4%N]
  /\ ranksAhead (afterFrames formationCfg retiredFrames) 1%N 4%N
  /\ currentLeader (recomputeGapsSFandMinisectors
                      (afterFrames formationCfg retiredFrames)) = Some 1%N.
Proof.
  assert (Hok : ledgerOk (afterFrames formationCfg retiredFrames)).
  { apply (reachable_ledgerOk formationCfg), afterFrames_reachable.
    repeat constructor; vm_compute; discriminate. }
  assert (Ho : rankOrder (afterFrames formationCfg retiredFrames) = [1%N; 4%N])
    by (vm_compute; reflexivity).
  destruct (ranking_by_progress_then_recency formationCfg _ Hok)
    as (_ & Hsorted & Hlead & _).
  split; [exact Ho|]. split.
  - apply (Hsorted 0%nat 1%nat); [lia|by rewrite Ho|by rewrite Ho].
  - rewrite Hlead, Ho. reflexivity.
Defined.

(** C4. Once an entity is in the frozen set, no later frame removes it
    or changes its recorded final position. *)
Theorem frozen_is_terminal
    (cfg : Config) (fs : list Frame) (st st' : State) (e : N) :
  runFrames cfg fs st = Some st' -> e ∈ frozenDrivers st ->
  e ∈ frozenDrivers st' /\ freezePos st' !! e = freezePos st !! e.
Proof. apply runFrames_terminal. Qed.

Lemma frozen_is_terminal_witness :
  let st := drawLeaderboard gridCfg gridState in
  let st' := default st (runFrames gridCfg [playing 1000 1; playing 1000 5] st) in
  4%N ∈ frozenDrivers st /\ freezePos st !! 4%N = Some 20%Z
  /\ 4%N ∈ frozenDrivers st' /\ freezePos st' !! 4%N = Some 20%Z.
Proof.
  cbv zeta.
  assert (Hrun : runFrames gridCfg [playing 1000 1; playing 1000 5]
                   (drawLeaderboard gridCfg gridState)
                 = Some (default (drawLeaderboard gridCfg gridState)
                           (runFrames gridCfg [playing 1000 1; playing 1000 5]
                              (drawLeaderboard gridCfg gridState))))
    by (vm_compute; reflexivity).
  assert (Hin : 4%N ∈ frozenDrivers (drawLeaderboard gridCfg gridState))
    by compute_done.
  assert (Hpos : freezePos (drawLeaderboard gridCfg gridState) !! 4%N = Some 20%Z)
    by (vm_compute; reflexivity).
  destruct (frozen_is_terminal _ _ _ _ 4%N Hrun Hin) as [H1 H2].
  split; [exact Hin|]. split; [exact Hpos|]. split; [exact H1|].
  rewrite H2. exact Hpos.
Defined.

(** C1, as amended.  At every frame boundary at most one entity's
    gap-to-leader value carries the leader tag, and from the green-flag
    baseline on some entity carries it whenever a revealed entity
    exists.  Every recomputation leaves exactly one leader tag (on the
    first of the ranking) when its candidate set is non-empty, and none
    when it is empty, each entry then being the last stable value with
    a leader tag demoted to unavailable. *)
Theorem leader_tag_unique (cfg : Config) (st : State) :
  reachable cfg st ->
  (forall a b, leaderTagged (gapsToLeader st) a ->
               leaderTagged (gapsToLeader st) b -> a = b)
  /\ (baselinedAtGreen st = true -> (exists d, d ∈ revealedDrivers st) ->
      exists l, leaderTagged (gapsToLeader st) l)
  /\ (forall s : State,
        let s' := recomputeGapsSFandMinisectors s in
        (candidates s <> [] ->
           exists l, currentLeader s' = Some l
                     /\ forall d, leaderTagged (gapsToLeader s') d <-> d = l)
        /\ (candidates s = [] ->
            forall d, ~ leaderTagged (gapsToLeader s') d
                      /\ (d ∈ dom (lapCounts s) ->
                          gapsToLeader s' !! d
                          = Some (demoteLeader (default GNa (lastStableGaps s !! d)))))).
Proof.
  intros Hr. apply reachable_session in Hr as [Hc Hl].
  split; [apply (inv_unique _ _ _ _ Hc)|]. split; [exact Hl|].
  intros s s'. subst s'. split.
  - intros Hne. destruct (rankOrder s) as [|l rest] eqn:E.
    { by apply rankOrder_nil in E. }
    exists l. split; [by rewrite currentLeader_recompute, E|].
    intros d. by apply (recompute_leader_tag_nonempty _ _ rest).
  - intros He. apply rankOrder_nil in He. intros d. split.
    + by apply recompute_leader_tag_empty.
    + intros Hd. rewrite gapsToLeader_recompute_empty by done.
      by rewrite decide_True.
Qed.

Lemma leader_tag_witness :
  reachable greenCfg (afterFrames greenCfg jumpFrames)
  /\ baselinedAtGreen (afterFrames greenCfg jumpFrames) = true
  /\ 1%N ∈ revealedDrivers (afterFrames greenCfg jumpFrames)
  /\ exists l, leaderTagged (gapsToLeader (afterFrames greenCfg jumpFrames)) l.
Proof.
  assert (Hr : reachable greenCfg (afterFrames greenCfg jumpFrames)).
  { apply afterFrames_reachable. repeat constructor; vm_compute; discriminate. }
  assert (Hb : baselinedAtGreen (afterFrames greenCfg jumpFrames) = true)
    by (vm_compute; reflexivity).
  assert (H1 : 1%N ∈ revealedDrivers (afterFrames greenCfg jumpFrames))
    by compute_done.
  destruct (leader_tag_unique greenCfg _ Hr) as (_ & Hex & _).
  split; [exact Hr|]. split; [exact Hb|]. split; [exact H1|].
  apply Hex; [exact Hb|]. exists 1%N. exact H1.
Defined.

(** C1 as stated fails during the formation phase: revealed entities
    form a non-empty candidate set while no gap has been computed. *)
Lemma formation_has_no_leader :
  ~ (forall (cfg : Config) (st : State),
       reachable cfg st -> candidates st <> [] ->
       exists l, leaderTagged (gapsToLeader st) l).
Proof.
  intros H.
  destruct (H formationCfg (afterFrames formationCfg formationFrames)) as [l Hl].
  - apply afterFrames_reachable. repeat constructor; vm_compute; discriminate.
  - vm_compute. discriminate.
  - assert (E : gapsToLeader (afterFrames formationCfg formationFrames) = ∅)
      by (vm_compute; reflexivity).
    unfold leaderTagged in Hl. rewrite E, lookup_empty in Hl. discriminate Hl.
Qed.

(** C3, as amended.  Inside the detection block of a frame a minisector
    crossing is counted exactly when the sign flips forward, the
    intersection lies within the gate's half length and at least four
    seconds have passed since the time recorded for that entity and
    gate; an accepted crossing records its own time, so that a second
    crossing of the same gate less than four seconds later is discarded
    and changes nothing; the baseline at green clears the minisector
    records.  The start/finish gate obeys the same three conditions
    against the entity's last lap crossing, and is not evaluated before
    the green flag.  A crossing that is not accepted changes nothing. *)
Theorem crossing_counted_iff_accepted
    (cfg : Config) (now : Q) (ag : bool) (key : N) (prev curr : vec2) (st : State) :
  (forall gi gb st',
      nonzeroRecord (recordedMini st key gi) ->
      miniGateStep now ag key prev curr st (gi, gb) = Some st' ->
      (miniCounts st' !! key = Some (default 0 (miniCounts st !! key) + 1)%Z
       <-> accepted gb prev curr now (recordedMini st key gi))
      /\ (accepted gb prev curr now (recordedMini st key gi) ->
          recordedMini st' key gi = Some now)
      /\ (~ accepted gb prev curr now (recordedMini st key gi) -> st' = st))
  /\ (forall sb st',
        nonzeroRecord (recordedSF st key) ->
        sfStep cfg now key prev curr sb st = Some st' ->
        (lapCounts st' !! key = Some (default 0 (lapCounts st !! key) + 1)%Z
         <-> accepted sb prev curr now (recordedSF st key))
        /\ (accepted sb prev curr now (recordedSF st key) ->
            recordedSF st' key = Some now)
        /\ (~ accepted sb prev curr now (recordedSF st key) -> st' = st))
  /\ (forall gi gb st' later ag' prev' curr' st'',
        nonzeroRecord (recordedMini st key gi) -> ~ now == 0 ->
        accepted gb prev curr now (recordedMini st key gi) ->
        miniGateStep now ag key prev curr st (gi, gb) = Some st' ->
        later - now < MIN_CROSSING_INTERVAL_SEC ->
        miniGateStep later ag' key prev' curr' st' (gi, gb) = Some st'' ->
        st'' = st')
  /\ (forall gi, key ∈ driverInfo cfg ->
                 recordedMini (baselineAtGreen cfg st) key gi = None)
  /\ (forall st',
        detect cfg now false key prev curr st = Some st' ->
        lapCounts st' = lapCounts st).
Proof.
  split; [|split; [|split; [|split]]].
  - intros gi gb st' Hnz Hstep.
    destruct (miniGateStep_counted _ _ _ _ _ _ _ _ _ Hnz Hstep) as [Hyes Hno].
    split; [|split; [apply Hyes|exact Hno]]. split; [|apply Hyes].
    intros Hc. destruct (classic_accept gb prev curr now (recordedMini st key gi))
      as [Ha|Hn]; [done|].
    apply Hno in Hn. subst st'. by apply counted_changes in Hc.
  - intros sb st' Hnz Hstep.
    destruct (sfStep_counted _ _ _ _ _ _ _ _ Hnz Hstep) as [Hyes Hno].
    split; [|split; [apply Hyes|exact Hno]]. split; [|apply Hyes].
    intros Hc. destruct (classic_accept sb prev curr now (recordedSF st key))
      as [Ha|Hn]; [done|].
    apply Hno in Hn. subst st'. by apply counted_changes in Hc.
  - intros gi gb st' later ag' prev' curr' st'' Hnz Hnow Hacc Hstep Hsoon Hstep'.
    destruct (miniGateStep_counted _ _ _ _ _ _ _ _ _ Hnz Hstep) as [Hyes _].
    destruct (Hyes Hacc) as [_ Hrec].
    assert (Hnz' : nonzeroRecord (recordedMini st' key gi)).
    { rewrite Hrec. intros t [= <-]. exact Hnow. }
    destruct (miniGateStep_counted _ _ _ _ _ _ _ _ _ Hnz' Hstep') as [_ Hno].
    apply Hno. rewrite Hrec. intros (_ & _ & Hdeb). cbn in Hdeb. lra.
  - intros gi Hk. by apply baselineAtGreen_recordedMini.
  - intros st' Hd. by apply detect_before_green in Hd as (-> & _).
Qed.
End Claims.

Section ClaimsOnSessions.
Local Open Scope Q_scope.

Lemma crossing_counted_witness :
  let st := afterFrames formationCfg [playing 500 1] in
  let prev := Vec2 0 (- (1 # 2)) in
  let curr := Vec2 0 (1 # 2) in
  let gb := gateBaseOf formationCfg (gateAt 0) in
  let st' := default st (miniGateStep 10 false 1%N prev curr st (0%nat, gb)) in
  let st'' := default st' (miniGateStep 10.1 false 1%N prev curr st' (0%nat, gb)) in
  accepted gb prev curr 10 (recordedMini st 1%N 0%nat)
  /\ miniCounts st !! 1%N = Some 0%Z
  /\ miniCounts st' !! 1%N = Some 1%Z
  /\ recordedMini st' 1%N 0%nat = Some 10
  /\ st'' = st'.
Proof.
  cbv zeta.
  set (st := afterFrames formationCfg [playing 500 1]).
  set (prev := Vec2 0 (- (1 # 2))). set (curr := Vec2 0 (1 # 2)).
  set (gb := gateBaseOf formationCfg (gateAt 0)).
  set (st' := default st (miniGateStep 10 false 1%N prev curr st (0%nat, gb))).
  assert (Hnz : nonzeroRecord (recordedMini st 1%N 0%nat)).
  { assert (E : recordedMini st 1%N 0%nat = None) by (vm_compute; reflexivity).
    rewrite E. intros t Ht. discriminate Ht. }
  assert (Hstep : miniGateStep 10 false 1%N prev curr st (0%nat, gb) = Some st')
    by (vm_compute; reflexivity).
  assert (Hstep' : miniGateStep 10.1 false 1%N prev curr st' (0%nat, gb)
                   = Some (default st' (miniGateStep 10.1 false 1%N prev curr st'
                                          (0%nat, gb))))
    by (vm_compute; reflexivity).
  assert (Hold : miniCounts st !! 1%N = Some 0%Z) by (vm_compute; reflexivity).
  assert (Hnew : miniCounts st' !! 1%N = Some 1%Z) by (vm_compute; reflexivity).
  destruct (crossing_counted_iff_accepted formationCfg 10 false 1%N prev curr st)
    as (Hmini & _ & Htwice & _).
  destruct (Hmini 0%nat gb _ Hnz Hstep) as (Hiff & Hrec & _).
  assert (Hacc : accepted gb prev curr 10 (recordedMini st 1%N 0%nat)).
  { apply (proj1 Hiff). rewrite Hnew, Hold. reflexivity. }
  split; [exact Hacc|]. split; [exact Hold|]. split; [exact Hnew|].
  split; [exact (Hrec Hacc)|].
  apply (Htwice 0%nat gb st' 10.1 false prev curr _ Hnz); try assumption.
  - intros H0. discriminate H0.
  - reflexivity.
Defined.

(** C3 as stated fails for the start/finish gate before the green flag:
    car 1 crosses the line between t = 5.5 and t = 6.5, forwards,
    through the middle of the gate and with no earlier crossing on
    record, and its lap count does not move. *)
Lemma line_crossing_before_green_not_counted :
  ~ (forall (cfg : Config) (f : Frame) (st st' : State) (key : N)
            (sb : gateBase) (prev curr : vec2),
       reachable cfg st -> draw cfg f st = Some st' ->
       sfBase cfg = Some sb ->
       prevScreenPos st !! key = Some prev ->
       prevScreenPos st' !! key = Some curr ->
       accepted sb prev curr (carAbsSecAt cfg (raceTime st')) (recordedSF st key) ->
       lapCounts st' !! key = Some (default 0 (lapCounts st !! key) + 1)%Z).
Proof.
  intros H.
  set (st := afterFrames formationCfg beforeLineFrames).
  set (st' := default st (draw formationCfg lineFrame st)).
  set (sb := gateBaseOf formationCfg (gateAt (-5))).
  set (prev := default (Vec2 0 0) (prevScreenPos st !! 1%N)).
  set (curr := default (Vec2 0 0) (prevScreenPos st' !! 1%N)).
  assert (Hlap : lapCounts st' !! 1%N = Some 0%Z) by (vm_compute; reflexivity).
  assert (Hold : lapCounts st !! 1%N = Some 0%Z) by (vm_compute; reflexivity).
  assert (Hcount : lapCounts st' !! 1%N
                   = Some (default 0 (lapCounts st !! 1%N) + 1)%Z);
    [|rewrite Hlap, Hold in Hcount; discriminate Hcount].
  apply (H formationCfg lineFrame st st' 1%N sb prev curr).
  - apply afterFrames_reachable. repeat constructor; vm_compute; discriminate.
  - vm_compute. reflexivity.
  - reflexivity.
  - vm_compute. reflexivity.
  - vm_compute. reflexivity.
  - split; [|split].
    + assert (Hhit : gateHit sb prev curr = true) by (vm_compute; reflexivity).
      apply gateHit_spec in Hhit. apply Hhit.
    + assert (Hhit : gateHit sb prev curr = true) by (vm_compute; reflexivity).
      apply gateHit_spec in Hhit. apply Hhit.
    + assert (E : recordedSF st 1%N = None) by (vm_compute; reflexivity).
      rewrite E. exact I.
Qed.

(** C6, as amended.  Every minisector sequence is non-decreasing: each
    appended time is at least the entry before it. *)
Theorem miniSeqTimes_non_decreasing
    (cfg : Config) (st : State) (e : N) (seq : list Q) (i : nat) (a b : Q) :
  reachable cfg st -> miniSeqTimes st !! e = Some seq ->
  seq !! i = Some a -> seq !! S i = Some b -> a <= b.
Proof.
  intros Hr Hseq Ha Hb. apply reachable_session in Hr as [Hc _].
  destruct (inv_seqs _ _ _ _ Hc e seq Hseq) as [Hs _].
  eapply (StronglySorted_lookup Qle seq i (S i)); [exact Hs|lia|exact Ha|exact Hb].
Qed.

Lemma miniSeqTimes_witness :
  let st := afterFrames greenCfg jumpFrames in
  let seq := default [] (miniSeqTimes st !! 1%N) in
  let a := default 0 (seq !! 0%nat) in
  let b := default 0 (seq !! 1%nat) in
  reachable greenCfg st
  /\ miniSeqTimes st !! 1%N = Some seq
  /\ length seq = 2%nat /\ a == 4.5 /\ b == 4.5 /\ a <= b.
Proof.
  cbv zeta.
  set (st := afterFrames greenCfg jumpFrames).
  set (seq := default [] (miniSeqTimes st !! 1%N)).
  assert (Hr : reachable greenCfg st).
  { apply afterFrames_reachable. repeat constructor; vm_compute; discriminate. }
  assert (Hseq : miniSeqTimes st !! 1%N = Some seq) by (vm_compute; reflexivity).
  assert (Ha : seq !! 0%nat = Some (default 0 (seq !! 0%nat)))
    by (vm_compute; reflexivity).
  assert (Hb : seq !! 1%nat = Some (default 0 (seq !! 1%nat)))
    by (vm_compute; reflexivity).
  split; [exact Hr|]. split; [exact Hseq|].
  split; [vm_compute; reflexivity|].
  split; [vm_compute; reflexivity|]. split; [vm_compute; reflexivity|].
  exact (miniSeqTimes_non_decreasing greenCfg st 1%N seq 0%nat _ _ Hr Hseq Ha Hb).
Defined.

(** C6 as stated fails: a frame that takes an entity across two
    minisector gates appends the same time twice (here car 1, prev at
    t = 0.5 and curr at t = 4.5 after the green flag). *)
Lemma same_frame_crossings_share_a_time :
  ~ (forall (cfg : Config) (st : State) (e : N) (seq : list Q) (i : nat) (a b : Q),
       reachable cfg st -> miniSeqTimes st !! e = Some seq ->
       seq !! i = Some a -> seq !! S i = Some b -> a < b).
Proof.
  intros H.
  set (st := afterFrames greenCfg jumpFrames).
  set (seq := default [] (miniSeqTimes st !! 1%N)).
  assert (Hlt : default 0 (seq !! 0%nat) < default 0 (seq !! 1%nat)).
  { apply (H greenCfg st 1%N seq 0%nat).
    - apply afterFrames_reachable. repeat constructor; vm_compute; discriminate.
    - vm_compute. reflexivity.
    - vm_compute. reflexivity.
    - vm_compute. reflexivity. }
  vm_compute in Hlt. discriminate Hlt.
Qed.

(** C8, as amended.  Gate-crossing detection is suspended while less
    than one second of the replay clock has elapsed since the earliest
    telemetry sample of all entities: such a frame counts no minisector,
    no lap and no pit entry for anybody. *)
Theorem detection_suspended_at_replay_start
    (cfg : Config) (f : Frame) (st st' : State) :
  draw cfg f st = Some st' ->
  carAbsSecAt cfg (advance f st) - carStartSec cfg < LAP_COUNT_START_DELAY_SEC ->
  nothingCounted st st'.
Proof.
  intros Hdraw Hlt. eapply draw_suspended; [|exact Hdraw].
  unfold allowDetection. by apply Qleb_false.
Qed.

(** The frame ending at t = 0.7: car 1 has a stored previous position,
    the segment from it to the current position crosses the minisector
    gate in the counted direction, and nothing is counted. *)
Lemma detection_suspended_witness :
  let st := afterFrames earlyCfg earlyFrames in
  let now := carAbsSecAt earlyCfg (advance earlyFrame st) in
  exists (st' : State) (prev curr : vec2) (gb : gateBase),
    draw earlyCfg earlyFrame st = Some st'
    /\ now - carStartSec earlyCfg == 0.7
    /\ prevScreenPos st !! 1%N = Some prev
    /\ screenPosAt earlyCfg 1%N now = Some curr
    /\ miniBases earlyCfg !! 0%nat = Some gb
    /\ gateHit gb prev curr = true
    /\ miniCounts st !! 1%N = Some 0%Z
    /\ nothingCounted st st'.
Proof.
  cbv zeta.
  set (st := afterFrames earlyCfg earlyFrames).
  set (now := carAbsSecAt earlyCfg (advance earlyFrame st)).
  set (st' := default st (draw earlyCfg earlyFrame st)).
  set (prev := default (Vec2 0 0) (prevScreenPos st !! 1%N)).
  set (curr := default (Vec2 0 0) (screenPosAt earlyCfg 1%N now)).
  set (gb := default (GateBase 0 0 0 0 0 0) (miniBases earlyCfg !! 0%nat)).
  assert (Hdraw : draw earlyCfg earlyFrame st = Some st')
    by (vm_compute; reflexivity).
  assert (Hlt : now - carStartSec earlyCfg < LAP_COUNT_START_DELAY_SEC)
    by (vm_compute; reflexivity).
  exists st', prev, curr, gb.
  split; [exact Hdraw|].
  split; [vm_compute; reflexivity|].
  split; [vm_compute; reflexivity|].
  split; [vm_compute; reflexivity|].
  split; [vm_compute; reflexivity|].
  split; [vm_compute; reflexivity|].
  split; [vm_compute; reflexivity|].
  exact (detection_suspended_at_replay_start _ _ _ _ Hdraw Hlt).
Defined.

(** C8 as stated fails for an entity whose telemetry starts later than
    the earliest sample: car 4's own timeline starts at t = 10, and its
    gate crossing in the frame ending at t = 10.5 is counted. *)
Lemma late_starter_counted_in_its_first_second :
  ~ (forall (cfg : Config) (f : Frame) (st st' : State) (n : N) (t0 : Q),
       reachable cfg st -> 0 <= deltaTime f -> draw cfg f st = Some st' ->
       ownStart cfg n = Some t0 ->
       carAbsSecAt cfg (raceTime st') - t0 < LAP_COUNT_START_DELAY_SEC ->
       miniCounts st' !! n = miniCounts st !! n).
Proof.
  intros H.
  set (st := afterFrames lateCfg [playing 10000 1]).
  set (st' := default st (draw lateCfg (playing 500 1) st)).
  assert (Hnew : miniCounts st' !! 4%N = Some 1%Z) by (vm_compute; reflexivity).
  assert (Hold : miniCounts st !! 4%N = Some 0%Z) by (vm_compute; reflexivity).
  assert (Hsame : miniCounts st' !! 4%N = miniCounts st !! 4%N);
    [|rewrite Hnew, Hold in Hsame; discriminate Hsame].
  apply (H lateCfg (playing 500 1) st st' 4%N 10).
  - apply afterFrames_reachable. repeat constructor; vm_compute; discriminate.
  - vm_compute. discriminate.
  - vm_compute. reflexivity.
  - reflexivity.
  - vm_compute. reflexivity.
Qed.

(** What the immediate-freeze rule of [drawLeaderboard] does: in a
    driver table without repeated rows, when car 4 is flagged DNF, stands
    in the row of position 20 and is not yet frozen, that frame's
    leaderboard pass freezes it, and 20 is its final position from then
    on. *)
Lemma dnf_car4_in_row_20_frozen (cfg : Config) (st : State) :
  NoDup (driverInfo cfg) ->
  (dn <$> boardRows cfg st) !! 19%nat = Some 4%N ->
  dnfOverlayActive st !! 4%N = Some true ->
  4%N ∉ frozenDrivers st ->
  let st' := drawLeaderboard cfg st in
  4%N ∈ frozenDrivers st' /\ freezePos st' !! 4%N = Some 20%Z
  /\ forall fs st'', runFrames cfg fs st' = Some st'' ->
       4%N ∈ frozenDrivers st'' /\ freezePos st'' !! 4%N = Some 20%Z.
Proof.
  intros Hnd Hrow Hdnf Hnf st'.
  assert (Hpos : rowPosition (boardRows cfg st) 4%N = Some 20%Z).
  { apply (rowPosition_unique _ 19); [by apply NoDup_boardRows|done]. }
  assert (Hnow : 4%N ∈ frozenDrivers st' /\ freezePos st' !! 4%N = Some 20%Z).
  { subst st'. unfold drawLeaderboard.
    destruct (boardRows cfg st) as [|r rows] eqn:E; [done|].
    pose proof (markLoop_dnf_last cfg (r :: rows) st Hrow Hdnf Hnf) as Hpend.
    destruct (markLoop_kept cfg (imap pair (r :: rows)) st) as [[Hf _] _].
    destruct (commitPending_new (r :: rows)
                (foldl (markFreeze cfg) st (imap pair (r :: rows))) 4%N Hpend)
      as [Hin Hfp]; [by rewrite Hf|].
    split; [exact Hin|]. by apply Hfp. }
  destruct Hnow as [Hin Hfp]. split; [exact Hin|]. split; [exact Hfp|].
  intros fs st'' Hrun.
  destruct (runFrames_terminal _ _ _ _ 4%N Hrun Hin) as [H1 H2].
  split; [exact H1|]. by rewrite H2.
Qed.

Lemma dnf_car4_witness :
  reachable gridCfg (afterFrames gridCfg formationFrames)
  /\ draw gridCfg gridFrame (afterFrames gridCfg formationFrames)
     = Some (drawLeaderboard gridCfg gridState)
  /\ (dn <$> boardRows gridCfg gridState) !! 19%nat = Some 4%N
  /\ dnfOverlayActive gridState !! 4%N = Some true
  /\ (4%N ∉ frozenDrivers gridState)
  /\ 4%N ∈ frozenDrivers (drawLeaderboard gridCfg gridState)
  /\ freezePos (drawLeaderboard gridCfg gridState) !! 4%N = Some 20%Z.
Proof.
  assert (Hnd : NoDup (driverInfo gridCfg)) by compute_done.
  assert (Hrow : (dn <$> boardRows gridCfg gridState) !! 19%nat = Some 4%N)
    by (vm_compute; reflexivity).
  assert (Hdnf : dnfOverlayActive gridState !! 4%N = Some true)
    by (vm_compute; reflexivity).
  assert (Hnf : 4%N ∉ frozenDrivers gridState) by compute_done.
  destruct (dnf_car4_in_row_20_frozen gridCfg gridState Hnd Hrow Hdnf Hnf)
    as (H1 & H2 & _).
  split.
  { apply afterFrames_reachable. repeat constructor; vm_compute; discriminate. }
  split; [vm_compute; reflexivity|].
  split; [exact Hrow|]. split; [exact Hdnf|]. split; [exact Hnf|].
  split; [exact H1|exact H2].
Defined.

(** C9.  The rule the source announces ("car '4' DNF and currently last:
    freeze immediately") is tested as [d.position === 20], so it misses a
    car that is last of fewer than twenty rows.  In the two-car session,
    in the frame ending at t = 3.5 (car 4 retires at t = 3), the
    leaderboard is drawn with car 4 flagged DNF, in the last of its two
    rows and not frozen; the frame leaves car 4 unfrozen and without a
    final position, and so do the frames that follow. *)
Theorem dnf_car4_last_of_two_left_unfrozen :
  let st0 := afterFrames formationCfg formationFrames in
  let f := playing 1000 1 in
  let st := beforeBoard formationCfg f st0 in
  let st' := drawLeaderboard formationCfg st in
  reachable formationCfg st0
  /\ draw formationCfg f st0 = Some st'
  /\ dnfOverlayActive st !! 4%N = Some true
  /\ dn <$> boardRows formationCfg st = [1%N; 4%N]
  /\ last (dn <$> boardRows formationCfg st) = Some 4%N
  /\ rowPosition (boardRows formationCfg st) 4%N = Some 2%Z
  /\ (4%N ∉ frozenDrivers st)
  /\ (4%N ∉ frozenDrivers st')
  /\ freezePos st' !! 4%N = None
  /\ (4%N ∉ frozenDrivers (afterFrames formationCfg retiredFrames)).
Proof.
  cbv zeta.
  split.
  { apply afterFrames_reachable. repeat constructor; vm_compute; discriminate. }
  split; [vm_compute; reflexivity|].
  split; [vm_compute; reflexivity|].
  split; [vm_compute; reflexivity|].
  split; [vm_compute; reflexivity|].
  split; [vm_compute; reflexivity|].
  split; [compute_done|].
  split; [compute_done|].
  split; [vm_compute; reflexivity|].
  compute_done.
Qed.

(** The same in general form: not every DNF entity that is last of the
    ranking is frozen by the leaderboard pass. *)
Lemma dnf_last_of_two_not_frozen :
  ~ (forall (cfg : Config) (st : State) (d : N),
       reachable cfg st -> dnfOverlayActive st !! d = Some true ->
       last (dn <$> boardRows cfg st) = Some d -> d ∉ frozenDrivers st ->
       d ∈ frozenDrivers (drawLeaderboard cfg st)).
Proof.
  intros H.
  set (st := afterFrames formationCfg retiredFrames).
  assert (Hnot : 4%N ∉ frozenDrivers (drawLeaderboard formationCfg st)) by compute_done.
  apply Hnot. apply H.
  - apply afterFrames_reachable. repeat constructor; vm_compute; discriminate.
  - vm_compute. reflexivity.
  - vm_compute. reflexivity.
  - compute_done.
Qed.
End ClaimsOnSessions.

(** * Further properties of the replay *)

(** ** The binary search and the position sampler *)

Section SamplerResults.
Local Open Scope Q_scope.

Lemma sorted_lookup_le (arr : list Q) i j a b :
  StronglySorted Qle arr -> (i <= j)%nat ->
  arr !! i = Some a -> arr !! j = Some b -> a <= b.
Proof.
  intros Hs Hij Hi Hj. destruct (decide (i = j)) as [->|Hne].
  - rewrite Hi in Hj. inversion Hj; subst. apply Qle_refl.
  - eapply (StronglySorted_lookup Qle); [exact Hs| |exact Hi|exact Hj]. lia.
Qed.

(** On an ascending array the loop ends at the boundary [b] between the
    elements [<= t] and the elements [> t], with [ans = max 0 (b - 1)]. *)
Lemma indexLE_loop_sorted fuel arr t lo hi ans :
  StronglySorted Qle arr ->
  (0 <= lo)%Z -> (hi < Z.of_nat (length arr))%Z -> (lo <= hi + 1)%Z ->
  (hi - lo + 1 < Z.of_nat fuel)%Z ->
  (forall j v, (Z.of_nat j < lo)%Z -> arr !! j = Some v -> v <= t) ->
  (forall j v, (hi < Z.of_nat j)%Z -> arr !! j = Some v -> t < v) ->
  ans = Z.max 0 (lo - 1) ->
  exists b : Z,
    (0 <= b <= Z.of_nat (length arr))%Z
    /\ (forall j v, (Z.of_nat j < b)%Z -> arr !! j = Some v -> v <= t)
    /\ (forall j v, (b <= Z.of_nat j)%Z -> arr !! j = Some v -> t < v)
    /\ indexLE_loop fuel arr t lo hi ans = Z.max 0 (b - 1).
Proof.
  intros Hs. revert lo hi ans.
  induction fuel as [|fuel IH]; intros lo hi ans Hlo Hhi Hord Hfuel Hbelow Habove Hans.
  { lia. }
  cbn [indexLE_loop]. destruct (Z.leb_spec lo hi) as [Hle|Hgt].
  2:{ exists lo. repeat split; try lia; try assumption.
      intros j v Hj. apply Habove. lia. }
  pose proof (shiftr1_between lo hi Hle) as Hmid.
  set (mid := Z.shiftr (lo + hi) 1) in *.
  destruct (lookup_lt_is_Some_2 arr (Z.to_nat mid)) as [v Hv]; [lia|].
  rewrite Hv. destruct (Qleb v t) eqn:E.
  - apply Qleb_true in E. apply IH; try lia.
    + intros j w Hj Hw. apply Qle_trans with v; [|exact E].
      apply (sorted_lookup_le arr j (Z.to_nat mid)); try assumption. lia.
    + exact Habove.
  - apply Qleb_false in E. apply IH; try lia; [exact Hbelow|].
    intros j w Hj Hw. apply Qlt_le_trans with v; [exact E|].
    apply (sorted_lookup_le arr (Z.to_nat mid) j); try assumption. lia.
Qed.

Lemma indexLE_sorted arr t :
  StronglySorted Qle arr ->
  exists b : Z,
    (0 <= b <= Z.of_nat (length arr))%Z
    /\ (forall j v, (Z.of_nat j < b)%Z -> arr !! j = Some v -> v <= t)
    /\ (forall j v, (b <= Z.of_nat j)%Z -> arr !! j = Some v -> t < v)
    /\ indexLE arr t = Z.max 0 (b - 1).
Proof.
  intros Hs. unfold indexLE. apply indexLE_loop_sorted; try lia; try assumption.
  intros j v Hj Hv. apply lookup_lt_Some in Hv. lia.
Qed.

(** Whatever the array, the loop returns [ans] or an index it has
    tested. *)
Lemma indexLE_loop_tested fuel arr t lo hi ans :
  indexLE_loop fuel arr t lo hi ans = ans
  \/ exists v, arr !! Z.to_nat (indexLE_loop fuel arr t lo hi ans) = Some v /\ v <= t.
Proof.
  revert lo hi ans. induction fuel as [|fuel IH]; intros lo hi ans;
    cbn [indexLE_loop]; [by left|].
  destruct (lo <=? hi)%Z; [|by left].
  set (mid := Z.shiftr (lo + hi) 1).
  destruct (arr !! Z.to_nat mid) as [v|] eqn:Hv; [|apply IH].
  destruct (Qleb v t) eqn:E; [|apply IH].
  destruct (IH (mid + 1)%Z hi mid) as [->|H]; [|by right].
  right. exists v. split; [exact Hv|]. by apply Qleb_true.
Qed.
End SamplerResults.

Section SamplerTheorems.
Local Open Scope Q_scope.

(** X1. On an ascending array [indexLE] returns the greatest index whose
    element is [<= t]: every element [<= t] sits at or before the
    returned index, the element there is [<= t], and every later element
    is [> t].  When no element is [<= t] it returns [0]. *)
Theorem indexLE_greatest_index (arr : list Q) (t : Q) :
  StronglySorted Qle arr ->
  let i := Z.to_nat (indexLE arr t) in
  (forall j v, arr !! j = Some v -> v <= t ->
               (j <= i)%nat /\ exists w, arr !! i = Some w /\ w <= t)
  /\ (forall j v, (i < j)%nat -> arr !! j = Some v -> t < v)
  /\ ((forall j v, arr !! j = Some v -> t < v) -> indexLE arr t = 0%Z).
Proof.
  intros Hs i.
  destruct (indexLE_sorted arr t Hs) as (b & Hb & Hbelow & Habove & Hres).
  subst i. rewrite Hres. split; [|split].
  - intros j v Hj Hv.
    assert (Hjb : (Z.of_nat j < b)%Z).
    { destruct (Z.lt_ge_cases (Z.of_nat j) b) as [?|Hge]; [done|].
      pose proof (Habove j v Hge Hj). lra. }
    split; [lia|].
    destruct (lookup_lt_is_Some_2 arr (Z.to_nat (Z.max 0 (b - 1)))) as [w Hw]; [lia|].
    exists w. split; [exact Hw|].
    apply (Hbelow (Z.to_nat (Z.max 0 (b - 1))) w); [lia|exact Hw].
  - intros j v Hj Hv. apply (Habove j v); [lia|exact Hv].
  - intros Hall.
    destruct (Z.le_gt_cases b 1) as [?|Hgt]; [lia|].
    destruct (lookup_lt_is_Some_2 arr 0) as [w Hw]; [lia|].
    assert (H0 : (Z.of_nat 0 < b)%Z) by lia.
    pose proof (Hbelow 0%nat w H0 Hw). pose proof (Hall 0%nat w Hw). lra.
Qed.

Lemma indexLE_greatest_witness :
  Z.to_nat (indexLE [1; 2; 4; 8] 5) = 2%nat
  /\ (forall j v, [1; 2; 4; 8] !! j = Some v -> v <= 5 -> (j <= 2)%nat)
  /\ (forall j v, (2 < j)%nat -> [1; 2; 4; 8] !! j = Some v -> 5 < v).
Proof.
  assert (Hs : StronglySorted Qle [1; 2; 4; 8]).
  { repeat match goal with
           | |- StronglySorted _ _ => constructor
           | |- Forall _ _ => constructor
           end; lra. }
  assert (E : indexLE [1; 2; 4; 8] 5 = 2%Z) by (vm_compute; reflexivity).
  pose proof (indexLE_greatest_index [1; 2; 4; 8] 5 Hs) as H.
  cbv zeta in H. rewrite E in H. change (Z.to_nat 2) with 2%nat in H.
  destruct H as (H1 & H2 & _).
  split; [rewrite E; reflexivity|]. split; [|exact H2].
  intros j v Hj Hv. exact (proj1 (H1 j v Hj Hv)).
Defined.

(** X2. Whatever the array holds, sorted or not, [indexLE] returns an
    index inside the array ([0] for the empty array), and a returned
    index other than [0] points at an element [<= t].  The loop needs
    at most as many turns as the array is long: more turns change
    nothing. *)
Theorem indexLE_in_bounds (arr : list Q) (t : Q) :
  (0 <= indexLE arr t)%Z
  /\ (arr <> [] -> (indexLE arr t < Z.of_nat (length arr))%Z)
  /\ (indexLE arr t = 0%Z
      \/ exists v, arr !! Z.to_nat (indexLE arr t) = Some v /\ v <= t)
  /\ indexLE [] t = 0%Z
  /\ (forall fuel, (length arr < fuel)%nat ->
        indexLE_loop fuel arr t 0 (Z.of_nat (length arr) - 1) 0 = indexLE arr t).
Proof.
  split; [|split; [|split; [|split]]].
  - destruct arr as [|a arr]; [done|].
    pose proof (indexLE_loop_range (S (length (a :: arr))) (a :: arr) t 0
                  (Z.of_nat (length (a :: arr)) - 1) 0) as H.
    unfold indexLE. cbn [length] in *. lia.
  - intros Hne. destruct arr as [|a arr]; [done|].
    pose proof (indexLE_loop_range (S (length (a :: arr))) (a :: arr) t 0
                  (Z.of_nat (length (a :: arr)) - 1) 0) as H.
    unfold indexLE. cbn [length] in *. lia.
  - unfold indexLE. apply indexLE_loop_tested.
  - reflexivity.
  - intros fuel Hfuel. symmetry. by apply indexLE_fuel.
Qed.
End SamplerTheorems.

Section SamplePositionResults.
Local Open Scope Q_scope.

Lemma constrain_bounds v lo hi : lo <= hi -> lo <= constrain v lo hi <= hi.
Proof.
  intros H. unfold constrain. split.
  - apply Q.le_max_r.
  - apply Q.max_lub; [apply Q.le_min_r|exact H].
Qed.

Lemma constrain_inside v lo hi : lo <= v -> v <= hi -> constrain v lo hi == v.
Proof.
  intros H1 H2. unfold constrain. rewrite (Q.min_l v hi H2). by apply Q.max_l.
Qed.

Lemma constrain_below v lo hi : v <= lo -> lo <= hi -> constrain v lo hi == lo.
Proof.
  intros H1 H2. unfold constrain. apply Q.max_r.
  apply Qle_trans with v; [apply Q.le_min_l|exact H1].
Qed.

Lemma span_positive d : 0 < Qmax 1e-6 d.
Proof. apply Qlt_le_trans with 1e-6; [reflexivity|apply Q.le_max_l]. Qed.

(** A point at fraction [f] of the way from [u] to [v] lies between
    them. *)
Lemma lerp_between u v f :
  0 <= f -> f <= 1 -> Qmin u v <= u + (v - u) * f <= Qmax u v.
Proof.
  intros H0 H1. destruct (Qlt_le_dec v u) as [Hlt|Hle].
  - rewrite (Q.min_r u v), (Q.max_l u v) by lra. split; nra.
  - rewrite (Q.min_l u v), (Q.max_r u v) by lra. split; nra.
Qed.

(** What [posWorld] is made of: a sample, or a point at a fraction in
    [[0, 1]] of the way from a sample to its successor. *)
Lemma samplePosition_shape arr t p :
  samplePosition arr t = Some p ->
  exists k a,
    arr !! k = Some a
    /\ (p = pos a
        \/ exists b f, arr !! S k = Some b /\ 0 <= f /\ f <= 1
             /\ p = Vec2 (x (pos a) + (x (pos b) - x (pos a)) * f)
                         (y (pos a) + (y (pos b) - y (pos a)) * f)).
Proof.
  unfold samplePosition. set (k := segmentIndex _ _).
  destruct (k <? length arr - 1)%nat.
  - destruct (arr !! k) as [a|] eqn:Ea; [|done]. cbn [mbind option_bind].
    destruct (arr !! S k) as [b|] eqn:Eb; [|done]. cbn [mbind option_bind].
    intros [= <-]. exists k, a. split; [done|]. right.
    exists b, (constrain ((t - tSec a) / Qmax 1e-6 (tSec b - tSec a)) 0 1).
    split; [done|].
    destruct (constrain_bounds ((t - tSec a) / Qmax 1e-6 (tSec b - tSec a)) 0 1)
      as [H0 H1]; [lra|]. done.
  - destruct (arr !! k) as [a|] eqn:Ea; [|done]. cbn [mbind option_bind].
    intros [= <-]. exists k, a. split; [done|]. left. by destruct (pos a).
Qed.

Lemma segmentIndex_early times t t0 rest :
  times = t0 :: rest -> t <= t0 -> segmentIndex times t = 0%nat.
Proof.
  intros -> H. unfold segmentIndex. apply Qleb_true in H. by rewrite H.
Qed.

Lemma segmentIndex_late times t t0 tl :
  head times = Some t0 -> last times = Some tl -> t0 < t -> tl <= t ->
  segmentIndex times t = (length times - 1)%nat.
Proof.
  intros Hh Hl H0 H1. unfold segmentIndex.
  destruct times as [|u rest]; [done|]. cbn in Hh. inversion Hh; subst u.
  apply Qleb_false in H0. rewrite H0, Hl.
  change (default t0 (Some tl)) with tl.
  apply Qleb_true in H1. by rewrite H1.
Qed.

(** Strictly inside the time range of an ascending array the segment
    index brackets [t]. *)
Lemma segmentIndex_bracket times t t0 tl :
  StronglySorted Qle times ->
  head times = Some t0 -> last times = Some tl -> t0 < t -> t < tl ->
  let k := segmentIndex times t in
  exists u v, times !! k = Some u /\ times !! S k = Some v /\ u <= t /\ t < v.
Proof.
  intros Hs Hh Hl H0 H1 k. subst k. unfold segmentIndex.
  destruct times as [|u0 rest] eqn:E; [done|]. rewrite <- E in *.
  assert (Hu0 : u0 = t0) by (rewrite E in Hh; cbn in Hh; congruence). subst u0.
  apply Qleb_false in H0. rewrite H0. rewrite Hl.
  change (default t0 (Some tl)) with tl.
  apply Qleb_false in H1. rewrite H1.
  apply Qleb_false in H0. apply Qleb_false in H1.
  destruct (indexLE_sorted times t Hs) as (b & Hb & Hbelow & Habove & ->).
  assert (H0' : times !! 0%nat = Some t0) by (rewrite E; done).
  assert (Hb1 : (1 <= b)%Z).
  { destruct (Z.le_gt_cases 1 b) as [?|Hgt]; [done|].
    pose proof (Habove 0%nat t0 ltac:(lia) H0'). lra. }
  assert (Hlast : times !! (length times - 1)%nat = Some tl).
  { rewrite <- Hl. rewrite last_lookup. f_equal. lia. }
  assert (Hlen : (0 < length times)%nat) by (rewrite E; cbn; lia).
  assert (Hb2 : (b < Z.of_nat (length times))%Z).
  { destruct (Z.lt_ge_cases b (Z.of_nat (length times))) as [?|Hge]; [done|].
    assert (Hlt : (Z.of_nat (length times - 1) < b)%Z) by lia.
    pose proof (Hbelow _ _ Hlt Hlast). lra. }
  destruct (lookup_lt_is_Some_2 times (Z.to_nat (Z.max 0 (b - 1)))) as [u Hu]; [lia|].
  destruct (lookup_lt_is_Some_2 times (S (Z.to_nat (Z.max 0 (b - 1))))) as [v Hv]; [lia|].
  exists u, v. split; [done|]. split; [done|]. split.
  - apply (Hbelow (Z.to_nat (Z.max 0 (b - 1))) u); [lia|done].
  - apply (Habove (S (Z.to_nat (Z.max 0 (b - 1)))) v); [lia|done].
Qed.
End SamplePositionResults.

Section SamplePositionTheorems.
Local Open Scope Q_scope.

(** X3. The position sampler of [draw] never extrapolates.  For a
    non-empty trace it always yields a position, whose coordinates lie
    between those of two samples of the trace; at or before the first
    sample time it is the first sample's position, and past the first
    and at or after the last sample time it is the last sample's. *)
Theorem samplePosition_clamps (arr : list Sample) (t : Q) (first final : Sample) :
  head arr = Some first -> last arr = Some final ->
  (exists p, samplePosition arr t = Some p
     /\ exists a b, a ∈ arr /\ b ∈ arr
          /\ Qmin (x (pos a)) (x (pos b)) <= x p <= Qmax (x (pos a)) (x (pos b))
          /\ Qmin (y (pos a)) (y (pos b)) <= y p <= Qmax (y (pos a)) (y (pos b)))
  /\ (t <= tSec first ->
      exists p, samplePosition arr t = Some p
                /\ x p == x (pos first) /\ y p == y (pos first))
  /\ (tSec first < t -> tSec final <= t -> samplePosition arr t = Some (pos final)).
Proof.
  intros Hh Hl.
  assert (Hne : arr <> []) by (by destruct arr).
  split; [|split].
  - destruct (samplePosition_total arr t Hne) as [p Hp]. exists p. split; [done|].
    destruct (samplePosition_shape arr t p Hp) as (k & a & Ha & [->|Hb]).
    + exists a, a. split; [by eapply list_elem_of_lookup_2|].
      split; [by eapply list_elem_of_lookup_2|].
      rewrite !Q.min_id, !Q.max_id. split; split; apply Qle_refl.
    + destruct Hb as (b & f & Hb & H0 & H1 & ->). exists a, b.
      split; [by eapply list_elem_of_lookup_2|].
      split; [by eapply list_elem_of_lookup_2|].
      cbn [x y]. split; by apply lerp_between.
  - intros Hearly. unfold samplePosition.
    destruct arr as [|a0 rest]; [done|]. cbn in Hh. inversion Hh; subst a0.
    rewrite (segmentIndex_early (tSec <$> first :: rest) t (tSec first)
               (tSec <$> rest)) by done.
    destruct rest as [|a1 rest].
    + cbn. by eexists.
    + cbn [length Nat.sub Nat.ltb Nat.leb lookup list_lookup mbind option_bind].
      eexists. split; [reflexivity|]. cbn [x y].
      assert (Hf : constrain ((t - tSec first) / Qmax 1e-6 (tSec a1 - tSec first)) 0 1
                   == 0).
      { apply constrain_below; [|lra].
        pose proof (span_positive (tSec a1 - tSec first)) as Hs.
        apply Qle_shift_div_r; [exact Hs|]. lra. }
      rewrite Hf. split; ring.
  - intros Hafter Hlate. unfold samplePosition.
    rewrite (segmentIndex_late (tSec <$> arr) t (tSec first) (tSec final)); try done.
    + rewrite length_fmap, Nat.ltb_irrefl.
      rewrite last_lookup in Hl.
      replace (length arr - 1)%nat with (Nat.pred (length arr)) by lia.
      rewrite Hl. cbn [mbind option_bind]. by destruct (pos final).
    + by destruct arr; inversion Hh; subst.
    + by rewrite fmap_last, Hl.
Qed.

Lemma samplePosition_clamps_witness :
  let arr := [mkSample 0 (Vec2 0 1); mkSample 10 (Vec2 0 (-9))] in
  samplePosition arr 20 = Some (Vec2 0 (-9))
  /\ exists p, samplePosition arr (-5) = Some p /\ x p == 0 /\ y p == 1.
Proof.
  cbv zeta.
  destruct (samplePosition_clamps
              [mkSample 0 (Vec2 0 1); mkSample 10 (Vec2 0 (-9))] 20
              (mkSample 0 (Vec2 0 1)) (mkSample 10 (Vec2 0 (-9)))
              eq_refl eq_refl) as (_ & _ & Hlate).
  destruct (samplePosition_clamps
              [mkSample 0 (Vec2 0 1); mkSample 10 (Vec2 0 (-9))] (-5)
              (mkSample 0 (Vec2 0 1)) (mkSample 10 (Vec2 0 (-9)))
              eq_refl eq_refl) as (_ & Hearly & _).
  split.
  - apply Hlate; [reflexivity|discriminate].
  - apply Hearly. discriminate.
Defined.

(** X4. On a trace with ascending sample times, strictly between the
    first and the last time, the sampled position is the linear
    interpolation inside the segment that brackets [t]: with
    [tSec a <= t < tSec b] for two consecutive samples, it is
    [a + (b - a) * (t - tSec a) / max(1e-6, tSec b - tSec a)]. *)
Theorem samplePosition_interpolates
    (arr : list Sample) (t : Q) (first final : Sample) :
  StronglySorted Qle (tSec <$> arr) ->
  head arr = Some first -> last arr = Some final ->
  tSec first < t -> t < tSec final ->
  exists k a b p,
    arr !! k = Some a /\ arr !! S k = Some b
    /\ tSec a <= t /\ t < tSec b
    /\ samplePosition arr t = Some p
    /\ x p == x (pos a) + (x (pos b) - x (pos a))
                          * ((t - tSec a) / Qmax 1e-6 (tSec b - tSec a))
    /\ y p == y (pos a) + (y (pos b) - y (pos a))
                          * ((t - tSec a) / Qmax 1e-6 (tSec b - tSec a)).
Proof.
  intros Hs Hh Hl H0 H1.
  destruct (segmentIndex_bracket (tSec <$> arr) t (tSec first) (tSec final) Hs)
    as (u & v & Hu & Hv & Hut & Htv); try done.
  { by destruct arr; inversion Hh; subst. }
  { by rewrite fmap_last, Hl. }
  set (k := segmentIndex (tSec <$> arr) t) in *.
  rewrite list_lookup_fmap in Hu, Hv.
  destruct (arr !! k) as [a|] eqn:Ea; [|done].
  destruct (arr !! S k) as [b|] eqn:Eb; [|done].
  cbn in Hu, Hv. inversion Hu; subst u. inversion Hv; subst v. clear Hu Hv.
  exists k, a, b.
  assert (Hk : (k <? length arr - 1)%nat = true).
  { apply Nat.ltb_lt. apply lookup_lt_Some in Eb. lia. }
  eexists. split; [done|]. split; [done|]. split; [done|]. split; [done|].
  split.
  { unfold samplePosition. fold k. rewrite Hk, Ea, Eb. reflexivity. }
  cbn [x y].
  pose proof (span_positive (tSec b - tSec a)) as Hsp.
  assert (Hf : constrain ((t - tSec a) / Qmax 1e-6 (tSec b - tSec a)) 0 1
               == (t - tSec a) / Qmax 1e-6 (tSec b - tSec a)).
  { apply constrain_inside.
    - apply Qle_shift_div_l; [exact Hsp|]. lra.
    - apply Qle_shift_div_r; [exact Hsp|].
      pose proof (Q.le_max_r 1e-6 (tSec b - tSec a)). lra. }
  rewrite Hf. split; reflexivity.
Qed.

Lemma samplePosition_interpolates_witness :
  exists p, samplePosition [mkSample 0 (Vec2 0 1); mkSample 10 (Vec2 0 (-9))] 4
            = Some p
            /\ x p == 0 /\ y p == -3.
Proof.
  assert (Hs : StronglySorted Qle
                 (tSec <$> [mkSample 0 (Vec2 0 1); mkSample 10 (Vec2 0 (-9))])).
  { cbn. repeat match goal with
                | |- StronglySorted _ _ => constructor
                | |- Forall _ _ => constructor
                end; lra. }
  destruct (samplePosition_interpolates
              [mkSample 0 (Vec2 0 1); mkSample 10 (Vec2 0 (-9))] 4
              (mkSample 0 (Vec2 0 1)) (mkSample 10 (Vec2 0 (-9)))
              Hs eq_refl eq_refl eq_refl eq_refl)
    as (k & a & b & p & Ha & Hb & _ & _ & Hp & Hx & Hy).
  destruct k as [|k]; [|exfalso; destruct k; cbn in Hb; discriminate Hb].
  cbn in Ha, Hb. inversion Ha; subst a. inversion Hb; subst b.
  exists p. split; [exact Hp|]. cbn in Hx, Hy. split.
  - rewrite Hx. reflexivity.
  - rewrite Hy. reflexivity.
Defined.
End SamplePositionTheorems.

(** ** What the steps of a frame move forward, keep and maintain *)

Ltac frame_adv st :=
  let Hr := fresh "Hr" in
  assert (Hr : advances st st)
    by (constructor; [intros; lia | intros; lia | auto | auto | auto | auto
                     | intros ? ts ?; exists []; by rewrite app_nil_r]);
  destruct Hr as [Hmini Hlaps Hrev Hdnf Hfin Hbase Hlt];
  constructor; cbn; try assumption.

Ltac frame_board H :=
  destruct H as [Hpit Hpos Htrig Hwin Hlaps Hdnf Hgates];
  constructor; cbn in *; try assumption.

Section MoreStepFacts.
Local Open Scope Q_scope.

Lemma advances_refl st : advances st st.
Proof. frame_adv st. Qed.

Lemma advances_trans a b c : advances a b -> advances b c -> advances a c.
Proof.
  intros [M1 L1 R1 D1 F1 B1 T1] [M2 L2 R2 D2 F2 B2 T2]. constructor.
  - intros d. specialize (M1 d). specialize (M2 d). lia.
  - intros d. specialize (L1 d). specialize (L2 d). lia.
  - auto.
  - auto.
  - intros H. destruct (F1 H) as [H1 E1]. destruct (F2 H1) as [H2 E2].
    split; [done|congruence].
  - intros H. destruct (B1 H) as [H1 E1]. destruct (B2 H1) as [H2 E2].
    split; [done|congruence].
  - intros d ts H. destruct (T1 d ts H) as [m1 H1].
    destruct (T2 d _ H1) as [m2 H2]. exists (m1 ++ m2). by rewrite app_assoc.
Qed.

Lemma detectKept_refl st : detectKept st st.
Proof. by unfold detectKept. Qed.

Lemma detectKept_trans a b c : detectKept a b -> detectKept b c -> detectKept a c.
Proof. unfold detectKept. intuition congruence. Qed.

Lemma numericLap_mono c b : (0 <= c)%Z -> (numericLap c b <= numericLap (c + 1) b)%Z.
Proof.
  intros H. unfold numericLap.
  destruct b; destruct (Z.eqb_spec c 0); destruct (Z.eqb_spec (c + 1) 0); lia.
Qed.

(** *** The recomputation *)

Lemma recompute_advances st : advances st (recomputeGapsSFandMinisectors st).
Proof.
  destruct (recompute_shape st) as (gl & ga & cl & sl & sa & -> & _). frame_adv st.
Qed.

Lemma recompute_detectKept st : detectKept st (recomputeGapsSFandMinisectors st).
Proof. by destruct (recompute_shape st) as (gl & ga & cl & sl & sa & -> & _). Qed.

Lemma recompute_board cfg st :
  boardInv cfg st -> boardInv cfg (recomputeGapsSFandMinisectors st).
Proof.
  intros H. destruct (recompute_shape st) as (gl & ga & cl & sl & sa & -> & _).
  frame_board H.
Qed.

(** *** The pit gate *)

Lemma pitStep_advances now key prev curr pb st :
  advances st (pitStep now key prev curr pb st).
Proof. unfold pitStep. repeat case_match; frame_adv st. Qed.

Lemma pitStep_detectKept now key prev curr pb st :
  detectKept st (pitStep now key prev curr pb st).
Proof. unfold pitStep. by repeat case_match. Qed.

Lemma pitStep_board cfg now key prev curr pb st :
  key ∉ frozenDrivers st ->
  boardInv cfg st -> boardInv cfg (pitStep now key prev curr pb st).
Proof.
  intros Hkey H. unfold pitStep. repeat case_match; try done. frame_board H.
  intros d Hd. destruct (decide (d = key)) as [->|Hne]; [done|].
  rewrite lookup_insert_ne by done. by apply Hpit.
Qed.

(** *** A counted minisector *)

Lemma countMini_overlay now key st d :
  pitOverlayActive (countMini now key st) !! d = Some true ->
  pitOverlayActive st !! d = Some true.
Proof.
  unfold countMini. cbn.
  destruct (decide (key ∈ revealedDrivers st)); cbn;
    destruct (pitOverlayActive st !! key) as [[]|] eqn:E; cbn; try done;
    (destruct (decide (d = key)) as [->|Hne];
     [by rewrite lookup_insert_eq|by rewrite lookup_insert_ne]).
Qed.

Lemma countMini_advances now key st : advances st (countMini now key st).
Proof.
  destruct (countMini_shape now key st) as [po ->]. frame_adv st.
  - intros d. destruct (decide (d = key)) as [->|Hne].
    + rewrite lookup_insert_eq. cbn. lia.
    + rewrite lookup_insert_ne by done. lia.
  - intros d Hd. apply elem_of_union. by right.
Qed.

Lemma countMini_detectKept now key st : detectKept st (countMini now key st).
Proof. by destruct (countMini_shape now key st) as [po ->]. Qed.

Lemma countMini_board cfg now key st :
  boardInv cfg st -> boardInv cfg (countMini now key st).
Proof.
  intros H. pose proof (countMini_overlay now key st) as Hov.
  destruct (countMini_shape now key st) as [po E]. rewrite E in *. cbn in Hov.
  frame_board H. intros d Hd Hpo. apply Hov in Hpo. by apply (Hpit d).
Qed.

(** *** A timed minisector *)

Lemma timeMini_rel now key gi st st' :
  timeMini now key gi st = Some st' -> advances st st' /\ detectKept st st'.
Proof.
  unfold timeMini. destruct (miniLapTimesByGate st !! key); [|done].
  cbn [mbind option_bind]. intros [= <-].
  match goal with |- context [recomputeGapsSFandMinisectors ?s] =>
    pose proof (recompute_advances s) as Ha;
    pose proof (recompute_detectKept s) as Hk;
    assert (Hs : advances st s /\ detectKept st s) by (split; [frame_adv st|done]);
    remember (recomputeGapsSFandMinisectors s) as r eqn:Hr
  end.
  destruct Hs as [Hs1 Hs2].
  split; [by eapply advances_trans|by eapply detectKept_trans].
Qed.

Lemma timeMini_board cfg now key gi st st' :
  boardInv cfg st -> timeMini now key gi st = Some st' -> boardInv cfg st'.
Proof.
  intros H. unfold timeMini. destruct (miniLapTimesByGate st !! key); [|done].
  cbn [mbind option_bind]. intros [= <-]. apply recompute_board. frame_board H.
Qed.

(** *** One minisector gate *)

Lemma miniGateStep_rel now ag key prev curr st g st' :
  miniGateStep now ag key prev curr st g = Some st' ->
  advances st st' /\ detectKept st st'.
Proof.
  destruct g as [gi gb]. unfold miniGateStep.
  destruct (gateHit gb prev curr);
    [|intros [= <-]; split; [apply advances_refl|apply detectKept_refl]].
  destruct (lastMiniCrossSecByGate st !! key); [|done]. cbn [mbind option_bind].
  destruct (intervalElapsed now _);
    [|intros [= <-]; split; [apply advances_refl|apply detectKept_refl]].
  pose proof (countMini_advances now key st) as Ha1.
  pose proof (countMini_detectKept now key st) as Hk1.
  destruct (if ag then _ else _) as [st2|] eqn:E2; [|done]. cbn [mbind option_bind].
  assert (advances st st2 /\ detectKept st st2) as [Ha2 Hk2].
  { destruct ag; [|by inversion E2; subst].
    apply timeMini_rel in E2 as [Ha Hk].
    split; [by eapply advances_trans|by eapply detectKept_trans]. }
  destruct (lastMiniCrossSecByGate st2 !! key); [|done]. cbn [mbind option_bind].
  intros [= <-]. split.
  - eapply advances_trans; [exact Ha2|]. frame_adv st2.
  - eapply detectKept_trans; [exact Hk2|]. done.
Qed.

Lemma miniGateStep_board cfg now ag key prev curr st g st' :
  boardInv cfg st -> miniGateStep now ag key prev curr st g = Some st' ->
  boardInv cfg st'.
Proof.
  intros H. destruct g as [gi gb]. unfold miniGateStep.
  destruct (gateHit gb prev curr); [|by intros [= <-]].
  destruct (lastMiniCrossSecByGate st !! key); [|done]. cbn [mbind option_bind].
  destruct (intervalElapsed now _); [|by intros [= <-]].
  pose proof (countMini_board cfg now key st H) as H1.
  destruct (if ag then _ else _) as [st2|] eqn:E2; [|done]. cbn [mbind option_bind].
  assert (H2 : boardInv cfg st2).
  { destruct ag; [|by inversion E2; subst]. by eapply timeMini_board. }
  destruct (lastMiniCrossSecByGate st2 !! key) as [bg|] eqn:Eg; [|done].
  cbn [mbind option_bind]. intros [= <-]. frame_board H2.
  intros d Hd. rewrite dom_insert in Hd.
  apply elem_of_union in Hd as [Hd|Hd]; [|by apply Hgates].
  apply elem_of_singleton in Hd. subst d. apply Hgates, elem_of_dom. by eexists.
Qed.

Lemma miniLoop_rel now ag key prev curr gates st st' :
  foldlOpt (miniGateStep now ag key prev curr) st gates = Some st' ->
  advances st st' /\ detectKept st st'.
Proof.
  apply (foldlOpt_inv (fun s => advances st s /\ detectKept st s)).
  - intros a b a' [Ha Hk] Hb. apply miniGateStep_rel in Hb as [Ha' Hk'].
    split; [by eapply advances_trans|by eapply detectKept_trans].
  - split; [apply advances_refl|apply detectKept_refl].
Qed.

Lemma miniLoop_board cfg now ag key prev curr gates st st' :
  boardInv cfg st ->
  foldlOpt (miniGateStep now ag key prev curr) st gates = Some st' ->
  boardInv cfg st'.
Proof.
  intros H. apply (foldlOpt_inv (boardInv cfg)); [|done].
  intros a b a' Ha Hb. by eapply miniGateStep_board.
Qed.

(** *** The start/finish gate *)

Lemma finishLogic_rel cfg key st :
  advances st (finishLogic cfg key st) /\ detectKept st (finishLogic cfg key st).
Proof.
  unfold finishLogic.
  repeat match goal with
         | |- context [if ?b then _ else _] => destruct b eqn:?
         end;
    (split; [frame_adv st|done]);
    try (intros Ht; cbn in *; rewrite Ht in *; cbn in *;
         rewrite ?andb_false_r in *; done).
Qed.

Lemma finishLogic_board cfg key st :
  boardInv cfg st -> boardInv cfg (finishLogic cfg key st).
Proof.
  intros H. unfold finishLogic.
  set (lapNum := numericLap _ _).
  match goal with |- boardInv _ (if _ then _ else ?s2) => set (st2 := s2) end.
  assert (H2 : boardInv cfg st2).
  { subst st2.
    repeat match goal with
           | |- context [if ?b then _ else _] => destruct b
           end; frame_board H. }
  assert (Hlc : lapCounts st2 = lapCounts st).
  { subst st2.
    repeat match goal with
           | |- context [if ?b then _ else _] => destruct b
           end; done. }
  destruct (negb (raceFinishTriggered st2)) eqn:Et; cbn [andb]; [|done].
  destruct (FINAL_LAP cfg <=? lapNum)%Z eqn:El; [|done].
  frame_board H2.
  - intros _. by eexists.
  - intros k [= <-]. split; [done|]. rewrite Hlc. apply Z.leb_le in El. exact El.
Qed.

Lemma sfStep_rel cfg now key prev curr sb st st' :
  sfStep cfg now key prev curr sb st = Some st' ->
  advances st st' /\ detectKept st st'.
Proof.
  unfold sfStep.
  destruct (gateHit sb prev curr);
    [|intros [= <-]; split; [apply advances_refl|apply detectKept_refl]].
  destruct (intervalElapsed now _);
    [|intros [= <-]; split; [apply advances_refl|apply detectKept_refl]].
  destruct (lapTimes st !! key) as [times|] eqn:Et; [|done].
  cbn [mbind option_bind]. intros [= <-].
  match goal with |- context [finishLogic cfg key ?s] =>
    destruct (finishLogic_rel cfg key s) as [Ha Hk];
    assert (Hs : advances st s /\ detectKept st s);
    [|remember (finishLogic cfg key s) as r eqn:Hr]
  end.
  { split; [|done]. frame_adv st.
    - intros d. destruct (decide (d = key)) as [->|Hne].
      + rewrite lookup_insert_eq. cbn. lia.
      + rewrite lookup_insert_ne by done. lia.
    - intros d ts Hts. destruct (decide (d = key)) as [->|Hne].
      + rewrite lookup_insert_eq. rewrite Et in Hts. inversion Hts; subst.
        by eexists.
      + rewrite lookup_insert_ne by done. exists []. by rewrite app_nil_r. }
  destruct Hs as [Hs1 Hs2].
  split; [by eapply advances_trans|by eapply detectKept_trans].
Qed.

Lemma sfStep_board cfg now key prev curr sb st st' :
  boardInv cfg st -> sfStep cfg now key prev curr sb st = Some st' ->
  boardInv cfg st'.
Proof.
  intros H. unfold sfStep.
  destruct (gateHit sb prev curr); [|by intros [= <-]].
  destruct (intervalElapsed now _); [|by intros [= <-]].
  destruct (lapTimes st !! key) as [times|]; [|done].
  cbn [mbind option_bind]. intros [= <-]. apply finishLogic_board.
  frame_board H.
  - intros k Hk. destruct (Hwin k Hk) as [Ht Hl]. split; [done|].
    destruct (decide (k = key)) as [->|Hne].
    + rewrite lookup_insert_eq. cbn.
      etransitivity; [exact Hl|]. apply numericLap_mono, Hlaps.
    + by rewrite lookup_insert_ne.
  - intros d. destruct (decide (d = key)) as [->|Hne].
    + rewrite lookup_insert_eq. cbn. specialize (Hlaps key). lia.
    + rewrite lookup_insert_ne by done. apply Hlaps.
Qed.

(** *** The detector and the driver loop *)

Lemma detect_rel cfg now ag key prev curr st st' :
  detect cfg now ag key prev curr st = Some st' ->
  advances st st' /\ detectKept st st'.
Proof.
  unfold detect.
  match goal with |- context [foldlOpt _ ?s _] =>
    assert (H1 : advances st s /\ detectKept st s) end.
  { destruct (pitBase cfg);
      [|split; [apply advances_refl|apply detectKept_refl]].
    case_decide; [split; [apply advances_refl|apply detectKept_refl]|].
    split; [apply pitStep_advances|apply pitStep_detectKept]. }
  destruct H1 as [Ha1 Hk1].
  destruct (foldlOpt _ _ _) as [st2|] eqn:E2; [|done]. cbn [mbind option_bind].
  apply miniLoop_rel in E2 as [Ha2 Hk2].
  assert (advances st st2 /\ detectKept st st2) as [Ha Hk].
  { split; [by eapply advances_trans|by eapply detectKept_trans]. }
  destruct ag; [|by intros [= <-]].
  destruct (sfBase cfg); [|by intros [= <-]].
  intros Hsf. apply sfStep_rel in Hsf as [Ha3 Hk3].
  split; [by eapply advances_trans|by eapply detectKept_trans].
Qed.

Lemma detect_board cfg now ag key prev curr st st' :
  boardInv cfg st -> detect cfg now ag key prev curr st = Some st' ->
  boardInv cfg st'.
Proof.
  intros H. unfold detect.
  match goal with |- context [foldlOpt _ ?s _] =>
    assert (H1 : boardInv cfg s) end.
  { destruct (pitBase cfg); [|done]. case_decide; [done|]. by apply pitStep_board. }
  destruct (foldlOpt _ _ _) as [st2|] eqn:E2; [|done]. cbn [mbind option_bind].
  apply (miniLoop_board cfg) in E2; [|done].
  destruct ag; [|by intros [= <-]].
  destruct (sfBase cfg); [|by intros [= <-]].
  by apply sfStep_board.
Qed.

(** A turn of the driver loop: the detector's effect, then the new
    previous position of that driver. *)
Lemma driverStep_shape cfg now ag speed st n st' :
  driverStep cfg now ag speed st n = Some st' ->
  exists st1,
    advances st st1 /\ detectKept st st1
    /\ (boardInv cfg st -> boardInv cfg st1)
    /\ ((st' = st1 /\ screenPosAt cfg n now = None)
        \/ exists curr, screenPosAt cfg n now = Some curr
             /\ st' = set_prevScreenPos (<[n := curr]> (prevScreenPos st1)) st1).
Proof.
  unfold driverStep, screenPosAt.
  destruct (points cfg !! n) as [[|a arr]|]; cbn [mbind option_bind].
  - intros [= <-]. exists st.
    split; [apply advances_refl|]. split; [apply detectKept_refl|].
    split; [done|]. by left.
  - destruct (samplePosition _ _) as [pw|]; [|done]. cbn [mbind option_bind].
    match goal with |- (?m ≫= _) = _ -> _ => destruct m as [st1|] eqn:E1; [|done] end.
    cbn [mbind option_bind]. intros [= <-]. exists st1.
    assert (H1 : advances st st1 /\ detectKept st st1
                 /\ (boardInv cfg st -> boardInv cfg st1)).
    { destruct (prevScreenPos st !! n);
        [|inversion E1; subst; split; [apply advances_refl|];
          split; [apply detectKept_refl|done]].
      destruct (allowDetection cfg now && Qltb 0 speed);
        [|inversion E1; subst; split; [apply advances_refl|];
          split; [apply detectKept_refl|done]].
      destruct (detect_rel _ _ _ _ _ _ _ _ E1) as [Ha Hk].
      split; [done|]. split; [done|]. intros Hb. by eapply detect_board. }
    destruct H1 as (Ha & Hk & Hb). split; [done|]. split; [done|]. split; [done|].
    right. by eexists.
  - intros [= <-]. exists st.
    split; [apply advances_refl|]. split; [apply detectKept_refl|].
    split; [done|]. by left.
Qed.

Lemma driverStep_rel cfg now ag speed st n st' :
  driverStep cfg now ag speed st n = Some st' ->
  advances st st'
  /\ raceTime st' = raceTime st /\ lastBoardAbsSec st' = lastBoardAbsSec st
  /\ dnfOverlayActive st' = dnfOverlayActive st
  /\ baselinedAtGreen st' = baselinedAtGreen st
  /\ (boardInv cfg st -> boardInv cfg st').
Proof.
  intros Hstep.
  destruct (driverStep_shape _ _ _ _ _ _ _ Hstep)
    as (st1 & Ha & Hk & Hb & [[-> _]|(curr & _ & ->)]).
  - unfold detectKept in Hk. intuition.
  - unfold detectKept in Hk. destruct Hk as (K1 & K2 & K3 & K4 & K5 & K6).
    split; [|cbn; split; [done|]; split; [done|]; split; [done|]; split; [done|]].
    + eapply advances_trans; [exact Ha|]. frame_adv st1.
    + intros H. specialize (Hb H). frame_board Hb.
Qed.

Lemma driverLoop_rel cfg now ag speed ns st st' :
  foldlOpt (driverStep cfg now ag speed) st ns = Some st' ->
  advances st st'
  /\ raceTime st' = raceTime st /\ lastBoardAbsSec st' = lastBoardAbsSec st
  /\ dnfOverlayActive st' = dnfOverlayActive st
  /\ baselinedAtGreen st' = baselinedAtGreen st
  /\ (boardInv cfg st -> boardInv cfg st').
Proof.
  apply (foldlOpt_inv (fun s =>
    advances st s
    /\ raceTime s = raceTime st /\ lastBoardAbsSec s = lastBoardAbsSec st
    /\ dnfOverlayActive s = dnfOverlayActive st
    /\ baselinedAtGreen s = baselinedAtGreen st
    /\ (boardInv cfg st -> boardInv cfg s))).
  - intros a b a' (Ha & K1 & K2 & K3 & K4 & Hb) Hstep.
    destruct (driverStep_rel _ _ _ _ _ _ _ Hstep) as (Ha' & J1 & J2 & J3 & J4 & Hb').
    split; [by eapply advances_trans|].
    split; [congruence|]. split; [congruence|]. split; [congruence|].
    split; [congruence|]. auto.
  - split; [apply advances_refl|]. done.
Qed.

(** *** The head of a frame *)

Lemma lookup_due cfg b d :
  omap (fun t => if Qleb t b then Some true else None) (dnfTimesAbsSec cfg) !! d
  = dnfTimesAbsSec cfg !! d ≫= fun t => if Qleb t b then Some true else None.
Proof. apply lookup_omap. Qed.

Lemma activateDnf_advances cfg b st : advances st (activateDnf cfg b st).
Proof.
  unfold activateDnf. frame_adv st.
  intros d Hd. apply lookup_union_Some_raw.
  destruct (omap _ _ !! d) as [v|] eqn:E; [|by right].
  left. rewrite lookup_due in E.
  destruct (dnfTimesAbsSec cfg !! d) as [t|]; [|done]. cbn in E.
  by destruct (Qleb t b).
Qed.

Lemma activateDnf_due cfg b st d t :
  dnfTimesAbsSec cfg !! d = Some t -> t <= b ->
  dnfOverlayActive (activateDnf cfg b st) !! d = Some true.
Proof.
  intros Ht Hle. unfold activateDnf. cbn. apply lookup_union_Some_raw. left.
  rewrite lookup_due, Ht. cbn. apply Qleb_true in Hle. by rewrite Hle.
Qed.

Lemma activateDnf_board cfg st :
  boardInv cfg st ->
  boardInv cfg (activateDnf cfg (boardAbsSecAt cfg (raceTime st)) st).
Proof.
  intros H. unfold activateDnf. frame_board H.
  intros d Hd. apply lookup_union_Some_raw in Hd as [Hd|[_ Hd]]; [|by apply Hdnf].
  rewrite lookup_due in Hd.
  destruct (dnfTimesAbsSec cfg !! d) as [t|]; [|done]. cbn in Hd.
  destruct (Qleb t _) eqn:E; [|done]. exists t. split; [done|]. by apply Qleb_true.
Qed.

Lemma baselineAtGreen_advances cfg st :
  baselinedAtGreen st = false -> advances st (baselineAtGreen cfg st).
Proof.
  intros Hb. unfold baselineAtGreen.
  match goal with |- context [recomputeGapsSFandMinisectors ?s] =>
    pose proof (recompute_advances s) as Ha;
    assert (Hs : advances st s);
    [|remember (recomputeGapsSFandMinisectors s) as r eqn:Hr]
  end.
  { frame_adv st. intros Ht. congruence. }
  by eapply advances_trans.
Qed.

Lemma baselineAtGreen_clock cfg st :
  raceTime (baselineAtGreen cfg st) = raceTime st
  /\ lastBoardAbsSec (baselineAtGreen cfg st) = lastBoardAbsSec st
  /\ prevScreenPos (baselineAtGreen cfg st) = prevScreenPos st
  /\ dnfOverlayActive (baselineAtGreen cfg st) = dnfOverlayActive st
  /\ baselinedAtGreen (baselineAtGreen cfg st) = true.
Proof.
  unfold baselineAtGreen.
  match goal with |- context [recomputeGapsSFandMinisectors ?s] =>
    pose proof (recompute_detectKept s) as Hk;
    remember (recomputeGapsSFandMinisectors s) as r eqn:Hr
  end.
  unfold detectKept in Hk. cbn in Hk. intuition.
Qed.

Lemma baselineAtGreen_board cfg st :
  boardInv cfg st -> boardInv cfg (baselineAtGreen cfg st).
Proof.
  intros H. unfold baselineAtGreen. apply recompute_board. frame_board H.
  - intros d Hd. rewrite lookup_assignAll. case_decide; [done|by apply Hpit].
  - intros d Hd. rewrite dom_assignAll in Hd.
    apply elem_of_union in Hd as [Hd|Hd]; [|by apply Hgates].
    by apply elem_of_list_to_set in Hd.
Qed.

Lemma frameStart_rel cfg f st :
  let st3 := frameStart cfg f st in
  advances st st3
  /\ raceTime st3 = advance f st
  /\ lastBoardAbsSec st3 = boardAbsSecAt cfg (advance f st)
  /\ prevScreenPos st3 = prevScreenPos st
  /\ (forall d t, dnfTimesAbsSec cfg !! d = Some t ->
                  t <= boardAbsSecAt cfg (advance f st) ->
                  dnfOverlayActive st3 !! d = Some true)
  /\ baselinedAtGreen st3
     = baselinedAtGreen st || raceStartedAt cfg (advance f st).
Proof.
  cbv zeta. unfold frameStart.
  set (raceT := advance f st). set (b := boardAbsSecAt cfg raceT).
  set (st1 := set_lastBoardAbsSec b (set_raceTime raceT st)).
  assert (H1 : advances st st1) by (subst st1; frame_adv st).
  pose proof (activateDnf_advances cfg b st1) as H2.
  assert (H12 : advances st (activateDnf cfg b st1)) by (by eapply advances_trans).
  assert (Hdue : forall d t, dnfTimesAbsSec cfg !! d = Some t -> t <= b ->
                   dnfOverlayActive (activateDnf cfg b st1) !! d = Some true).
  { intros d t. apply activateDnf_due. }
  assert (Hbl : baselinedAtGreen (activateDnf cfg b st1) = baselinedAtGreen st) by done.
  rewrite Hbl.
  destruct (raceStartedAt cfg raceT) eqn:Ers; cbn [andb];
    [destruct (baselinedAtGreen st) eqn:Eb; cbn [negb orb]|].
  - done.
  - destruct (baselineAtGreen_clock cfg (activateDnf cfg b st1))
      as (K1 & K2 & K3 & K4 & K5).
    split.
    { eapply advances_trans; [exact H12|]. by apply baselineAtGreen_advances. }
    rewrite K1, K2, K3, K4, K5. done.
  - rewrite orb_false_r. done.
Qed.

Lemma frameStart_board cfg f st :
  0 <= deltaTime f -> boardInv cfg st -> boardInv cfg (frameStart cfg f st).
Proof.
  intros Hdt H. unfold frameStart.
  set (raceT := advance f st). set (b := boardAbsSecAt cfg raceT).
  set (st1 := set_lastBoardAbsSec b (set_raceTime raceT st)).
  assert (H1 : boardInv cfg st1).
  { subst st1. pose proof (advance_mono f st Hdt) as Hm. fold raceT in Hm.
    frame_board H. intros d Hd. destruct (Hdnf d Hd) as (t & Ht & Hle).
    exists t. split; [done|]. unfold boardAbsSecAt in *. lra. }
  assert (H2 : boardInv cfg (activateDnf cfg b st1)).
  { apply (activateDnf_board cfg st1 H1). }
  destruct (_ && _); [by apply baselineAtGreen_board|done].
Qed.

(** *** The leaderboard pass *)

Lemma markFreeze_rel cfg st r :
  advances st (markFreeze cfg st r) /\ detectKept st (markFreeze cfg st r)
  /\ (boardInv cfg st -> boardInv cfg (markFreeze cfg st r)).
Proof.
  unfold markFreeze.
  repeat match goal with
         | |- context [if ?b then _ else _] => destruct b
         end;
    (split; [frame_adv st|split; [done|]]; intros H; frame_board H).
Qed.

Lemma markLoop_rel cfg rs st :
  advances st (foldl (markFreeze cfg) st rs)
  /\ detectKept st (foldl (markFreeze cfg) st rs)
  /\ (boardInv cfg st -> boardInv cfg (foldl (markFreeze cfg) st rs)).
Proof.
  apply (foldl_inv (fun s => advances st s /\ detectKept st s
                             /\ (boardInv cfg st -> boardInv cfg s))).
  - intros a b (Ha & Hk & Hb). destruct (markFreeze_rel cfg a b) as (Ha' & Hk' & Hb').
    split; [by eapply advances_trans|]. split; [by eapply detectKept_trans|]. auto.
  - split; [apply advances_refl|]. split; [apply detectKept_refl|done].
Qed.

Lemma rowPosition_range rows d p :
  rowPosition rows d = Some p -> (1 <= p <= Z.of_nat (length rows))%Z.
Proof.
  revert p. induction rows as [|r rows IH] using rev_ind; intros p; [done|].
  rewrite rowPosition_snoc, length_app. cbn [length].
  destruct (dn r =? d)%N.
  - intros [= <-]. lia.
  - intros H. apply IH in H. lia.
Qed.

Lemma length_boardRows cfg st :
  (length (boardRows cfg st) <= length (driverInfo cfg))%nat.
Proof.
  unfold boardRows. rewrite sortBy_length, length_fmap. apply length_filter.
Qed.

Lemma commitPending_rel rows st :
  advances st (commitPending rows st) /\ detectKept st (commitPending rows st).
Proof. unfold commitPending. split; [frame_adv st|done]. Qed.

Lemma commitPending_board cfg rows st :
  (length rows <= length (driverInfo cfg))%nat ->
  boardInv cfg st -> boardInv cfg (commitPending rows st).
Proof.
  intros Hlen H. unfold commitPending.
  set (newly := filter _ (freezePending st)).
  frame_board H.
  - intros d Hd Hp. apply lookup_union_Some_raw in Hp as [Hp|[Hn Hp]].
    + rewrite lookup_fmap in Hp. by destruct (newly !! d).
    + apply elem_of_union in Hd as [Hd|Hd]; [|by apply (Hpit d)].
      apply elem_of_dom in Hd as [v Hv]. rewrite lookup_fmap, Hv in Hn. done.
  - intros d p Hp. apply lookup_union_Some_raw in Hp as [Hp|[_ Hp]].
    + rewrite map_lookup_imap in Hp.
      destruct (newly !! d) as [v|] eqn:Ev; [|done]. cbn in Hp.
      apply rowPosition_range in Hp. split; [|lia].
      apply elem_of_union. left. apply elem_of_dom. by eexists.
    + destruct (Hpos d p Hp) as [Hf Hr]. split; [|done].
      apply elem_of_union. by right.
Qed.

Lemma drawLeaderboard_rel cfg st :
  advances st (drawLeaderboard cfg st) /\ detectKept st (drawLeaderboard cfg st)
  /\ (boardInv cfg st -> boardInv cfg (drawLeaderboard cfg st)).
Proof.
  unfold drawLeaderboard.
  pose proof (length_boardRows cfg st) as Hlen.
  destruct (boardRows cfg st) as [|r rows];
    [split; [apply advances_refl|]; split; [apply detectKept_refl|done]|].
  destruct (markLoop_rel cfg (imap pair (r :: rows)) st) as (Ha & Hk & Hb).
  destruct (commitPending_rel (r :: rows)
              (foldl (markFreeze cfg) st (imap pair (r :: rows)))) as [Ha' Hk'].
  split; [by eapply advances_trans|]. split; [by eapply detectKept_trans|].
  intros H. apply commitPending_board; [exact Hlen|by apply Hb].
Qed.

(** *** A whole frame *)

Lemma draw_rel cfg f st st' :
  draw cfg f st = Some st' ->
  advances st st'
  /\ raceTime st' = advance f st
  /\ lastBoardAbsSec st' = boardAbsSecAt cfg (advance f st)
  /\ (forall d t, dnfTimesAbsSec cfg !! d = Some t ->
                  t <= boardAbsSecAt cfg (advance f st) ->
                  dnfOverlayActive st' !! d = Some true)
  /\ baselinedAtGreen st'
     = baselinedAtGreen st || raceStartedAt cfg (advance f st).
Proof.
  unfold draw. intros Hdraw.
  destruct (frameStart_rel cfg f st) as (A3 & R3 & B3 & _ & D3 & G3).
  destruct (foldlOpt _ _ _) as [st4|] eqn:E4; [|done].
  cbn [mbind option_bind] in Hdraw. inversion Hdraw as [Hst']. clear Hdraw Hst'.
  destruct (driverLoop_rel _ _ _ _ _ _ _ E4) as (A4 & R4 & B4 & D4 & G4 & _).
  destruct (drawLeaderboard_rel cfg st4) as (A5 & K5 & _).
  destruct K5 as (R5 & B5 & _ & D5 & G5 & _).
  split; [eapply advances_trans; [exact A3|]; by eapply advances_trans|].
  split; [congruence|]. split; [congruence|]. split; [|congruence].
  intros d t Ht Hle. rewrite D5, D4. by eapply D3.
Qed.

Lemma draw_board cfg f st st' :
  0 <= deltaTime f -> boardInv cfg st -> draw cfg f st = Some st' ->
  boardInv cfg st'.
Proof.
  intros Hdt H. unfold draw. intros Hdraw.
  pose proof (frameStart_board cfg f st Hdt H) as H3.
  destruct (foldlOpt _ _ _) as [st4|] eqn:E4; [|done].
  cbn [mbind option_bind] in Hdraw. inversion Hdraw as [Hst']. clear Hdraw Hst'.
  destruct (driverLoop_rel _ _ _ _ _ _ _ E4) as (_ & _ & _ & _ & _ & H4).
  destruct (drawLeaderboard_rel cfg st4) as (_ & _ & H5). auto.
Qed.

Lemma setup_board cfg : boardInv cfg (setup cfg).
Proof.
  constructor; cbn.
  - intros d Hd. by apply elem_of_empty in Hd.
  - intros d p Hp. by rewrite lookup_empty in Hp.
  - done.
  - done.
  - intros d. rewrite lookup_assignAll, lookup_empty. case_decide; cbn; lia.
  - intros d. rewrite lookup_assignAll, lookup_empty. by case_decide.
  - intros d Hd. rewrite dom_assignAll in Hd.
    apply elem_of_union in Hd as [Hd|Hd]; [by apply elem_of_list_to_set in Hd|].
    by rewrite dom_empty in Hd; apply elem_of_empty in Hd.
Qed.

Lemma reachable_board cfg st : reachable cfg st -> boardInv cfg st.
Proof.
  induction 1 as [|st f st' _ IH Hdt Hdraw]; [apply setup_board|].
  by eapply draw_board.
Qed.

Lemma runFrames_advances cfg fs st st' :
  runFrames cfg fs st = Some st' -> advances st st'.
Proof.
  unfold runFrames. revert st. induction fs as [|f fs IH]; intros st Hrun; cbn in Hrun.
  - inversion Hrun; subst. apply advances_refl.
  - destruct (draw cfg f st) as [st1|] eqn:E1; [|done].
    eapply advances_trans; [|by apply IH]. by apply draw_rel in E1 as [H _].
Qed.
End MoreStepFacts.

(** ** Previous screen positions across frames *)

Section PrevFacts.
Local Open Scope Q_scope.

Lemma foldlOpt_prefix {A B} (P : list B -> A -> Prop) (f : A -> B -> option A) l :
  (forall pre b a a', b ∈ l -> P pre a -> f a b = Some a' -> P (pre ++ [b]) a') ->
  forall a a', P [] a -> foldlOpt f a l = Some a' -> P l a'.
Proof.
  intros Hstep.
  assert (Hgen : forall l' pre a a',
             (forall b, b ∈ l' -> b ∈ l) -> P pre a ->
             foldlOpt f a l' = Some a' -> P (pre ++ l') a').
  { induction l' as [|b l' IH]; intros pre a a' Hsub Ha Hrun; cbn in Hrun.
    - inversion Hrun; subst. by rewrite app_nil_r.
    - destruct (f a b) as [a1|] eqn:E; [|done].
      replace (pre ++ b :: l') with ((pre ++ [b]) ++ l') by (by rewrite <- app_assoc).
      apply (IH _ a1); [|eapply Hstep; [|exact Ha|exact E]|exact Hrun].
      + intros c Hc. apply Hsub. by right.
      + apply Hsub. by left. }
  intros a a' Ha Hrun. by apply (Hgen l [] a a').
Qed.

Lemma samplePosition_nil t : samplePosition [] t = None.
Proof. reflexivity. Qed.

(** Whether driver [n] has a screen position does not depend on the
    time: it has one exactly when its trace is not empty. *)
Lemma screenPosAt_is_Some cfg n t t' :
  is_Some (screenPosAt cfg n t) -> is_Some (screenPosAt cfg n t').
Proof.
  unfold screenPosAt. destruct (points cfg !! n) as [arr|]; cbn [mbind option_bind];
    [|by intros [? ?]].
  destruct arr as [|a arr]; [by intros [? ?]|]. intros _.
  destruct (samplePosition_total (a :: arr) t') as [p ->]; [done|]. by eexists.
Qed.

(** A car that has not moved crosses nothing. *)
Lemma gateHit_still gb p : gateHit gb p p = false.
Proof.
  unfold gateHit. destruct (flipsForward _ _) eqn:E; [|done].
  apply flipsForward_spec in E. lra.
Qed.

Lemma pitHit_still gb p : pitHit gb p p = false.
Proof.
  unfold pitHit. destruct (crosses _ _) eqn:E; [|done].
  apply crosses_spec in E. lra.
Qed.

Lemma detect_still cfg now ag key p st : detect cfg now ag key p p st = Some st.
Proof.
  unfold detect.
  assert (H1 : match pitBase cfg with
               | Some pb => if decide (key ∈ frozenDrivers st) then st
                            else pitStep now key p p pb st
               | None => st
               end = st).
  { destruct (pitBase cfg); [|done]. case_decide; [done|].
    unfold pitStep. by rewrite pitHit_still. }
  rewrite H1.
  assert (H2 : forall gates, foldlOpt (miniGateStep now ag key p p) st gates = Some st).
  { induction gates as [|[gi gb] gates IH]; [done|]. cbn [foldlOpt].
    unfold miniGateStep at 1. by rewrite gateHit_still. }
  rewrite H2. cbn [mbind option_bind].
  destruct ag; [|done]. destruct (sfBase cfg); [|done].
  unfold sfStep. by rewrite gateHit_still.
Qed.

(** The driver loop leaves every driver of [DRIVER_NUMS] that has a
    trace with its position at the frame's clock. *)
Lemma driverLoop_prev cfg now ag speed st st' :
  (forall n p, prevScreenPos st !! n = Some p ->
               n ∈ DRIVER_NUMS cfg /\ is_Some (screenPosAt cfg n now)) ->
  foldlOpt (driverStep cfg now ag speed) st (DRIVER_NUMS cfg) = Some st' ->
  forall n p, prevScreenPos st' !! n = Some p ->
              n ∈ DRIVER_NUMS cfg /\ screenPosAt cfg n now = Some p.
Proof.
  intros H0 Hrun.
  pose (J := fun (done : list N) (s : State) =>
               forall n p, prevScreenPos s !! n = Some p ->
                 n ∈ DRIVER_NUMS cfg /\ is_Some (screenPosAt cfg n now)
                 /\ (n ∈ done -> screenPosAt cfg n now = Some p)).
  assert (HJ : J (DRIVER_NUMS cfg) st').
  { apply (foldlOpt_prefix J (driverStep cfg now ag speed) (DRIVER_NUMS cfg))
      with (a := st); [| |exact Hrun].
    - intros pre b a a' Hb Ha Hstep n p Hp.
      destruct (driverStep_shape _ _ _ _ _ _ _ Hstep)
        as (st1 & _ & Hk & _ & [[-> Hnone]|(curr & Hcurr & ->)]).
      + destruct Hk as (_ & _ & Hprev & _). rewrite Hprev in Hp.
        destruct (Ha n p Hp) as (Hn & Hs & Hd). split; [done|]. split; [done|].
        intros Hin. apply elem_of_app in Hin as [Hin|Hin]; [by apply Hd|].
        apply list_elem_of_singleton in Hin. subst n.
        rewrite Hnone in Hs. by destruct Hs.
      + destruct Hk as (_ & _ & Hprev & _). cbn in Hp. rewrite Hprev in Hp.
        destruct (decide (n = b)) as [->|Hne].
        * rewrite lookup_insert_eq in Hp. inversion Hp; subst p.
          split; [done|]. split; [by eexists|done].
        * rewrite lookup_insert_ne in Hp by done.
          destruct (Ha n p Hp) as (Hn & Hs & Hd). split; [done|]. split; [done|].
          intros Hin. apply elem_of_app in Hin as [Hin|Hin]; [by apply Hd|].
          apply list_elem_of_singleton in Hin. done.
    - intros n p Hp. destruct (H0 n p Hp) as [Hn Hs]. split; [done|]. split; [done|].
      intros Hin. by apply elem_of_nil in Hin. }
  intros n p Hp. destruct (HJ n p Hp) as (Hn & _ & Hd). split; [done|]. by apply Hd.
Qed.

Lemma draw_prevOk cfg f st st' :
  prevOk cfg st -> draw cfg f st = Some st' -> prevOk cfg st'.
Proof.
  intros H Hdraw. pose proof (draw_rel _ _ _ _ Hdraw) as (_ & Hrace & _).
  unfold draw in Hdraw.
  destruct (frameStart_rel cfg f st) as (_ & R3 & _ & P3 & _).
  destruct (foldlOpt _ _ _) as [st4|] eqn:E4; [|done].
  cbn [mbind option_bind] in Hdraw. injection Hdraw as Hst'.
  destruct (drawLeaderboard_rel cfg st4) as (_ & K5 & _).
  destruct K5 as (_ & _ & P5 & _). rewrite Hst' in P5.
  intros n p Hp. rewrite Hrace. rewrite P5 in Hp.
  eapply driverLoop_prev; [|exact E4|exact Hp].
  intros m q Hq. rewrite P3 in Hq. destruct (H m q Hq) as [Hm Hs].
  split; [done|]. eapply screenPosAt_is_Some. by eexists.
Qed.

Lemma reachable_prevOk cfg st : reachable cfg st -> prevOk cfg st.
Proof.
  induction 1 as [|st f st' _ IH _ Hdraw].
  - intros n p Hp. change (prevScreenPos (setup cfg)) with (∅ : gmap N vec2) in Hp.
    by rewrite lookup_empty in Hp.
  - by eapply draw_prevOk.
Qed.

(** With the clock stopped the driver loop only rewrites the previous
    positions, each with the value it already had. *)
Lemma driverLoop_paused cfg now ag speed ns st st' :
  (forall n p, prevScreenPos st !! n = Some p -> screenPosAt cfg n now = Some p) ->
  foldlOpt (driverStep cfg now ag speed) st ns = Some st' ->
  exists P, st' = set_prevScreenPos P st
            /\ forall n p, prevScreenPos st !! n = Some p -> P !! n = Some p.
Proof.
  intros H0 Hrun.
  assert (Hinv : exists P, st' = set_prevScreenPos P st
                   /\ (forall n p, P !! n = Some p -> screenPosAt cfg n now = Some p)
                   /\ (forall n p, prevScreenPos st !! n = Some p -> P !! n = Some p));
    [|destruct Hinv as (P & -> & _ & Hsub); by exists P].
  apply (foldlOpt_inv (fun s =>
           exists P, s = set_prevScreenPos P st
                     /\ (forall n p, P !! n = Some p -> screenPosAt cfg n now = Some p)
                     /\ (forall n p, prevScreenPos st !! n = Some p -> P !! n = Some p))
           (driverStep cfg now ag speed) ns) with (a := st); [| |exact Hrun].
  - intros a b a' (P & -> & HP & Hsub) Hstep. revert Hstep. unfold driverStep.
    pose proof (HP b) as HPb. unfold screenPosAt in HPb.
    destruct (points cfg !! b) as [[|s arr]|] eqn:Epts;
      try (intros [= <-]; by exists P).
    cbn [mbind option_bind] in HPb.
    destruct (samplePosition (s :: arr) now) as [pw|] eqn:Epw; [|done].
    cbn [mbind option_bind] in *.
    set (curr := Vec2 _ _) in *.
    assert (Hcurr : screenPosAt cfg b now = Some curr).
    { unfold screenPosAt. rewrite Epts. cbn [mbind option_bind]. by rewrite Epw. }
    change (prevScreenPos (set_prevScreenPos P st) !! b) with (P !! b).
    assert (Hnew : (forall n p, <[b := curr]> P !! n = Some p ->
                                screenPosAt cfg n now = Some p)
                   /\ (forall n p, prevScreenPos st !! n = Some p ->
                                   <[b := curr]> P !! n = Some p)).
    { split; intros n p; (destruct (decide (n = b)) as [->|Hne];
        [rewrite lookup_insert_eq|rewrite lookup_insert_ne by done]).
      - by intros [= <-].
      - apply HP.
      - intros Hp. apply Hsub in Hp. specialize (HPb p Hp). congruence.
      - apply Hsub. }
    destruct Hnew as [Hn1 Hn2].
    destruct (P !! b) as [prev|] eqn:Eprev.
    + assert (prev = curr) as -> by (specialize (HPb prev eq_refl); congruence).
      assert (Hd : (if allowDetection cfg now && Qltb 0 speed
                    then detect cfg now ag b curr curr (set_prevScreenPos P st)
                    else Some (set_prevScreenPos P st))
                   = Some (set_prevScreenPos P st)).
      { destruct (_ && _); [apply detect_still|done]. }
      rewrite Hd. cbn [mbind option_bind]. intros [= <-].
      exists (<[b := curr]> P). split; [by destruct st|done].
    + intros [= <-]. exists (<[b := curr]> P). split; [by destruct st|done].
  - exists (prevScreenPos st). split; [by destruct st|]. split; [exact H0|done].
Qed.
End PrevFacts.

(** ** Sessions: what only grows, what is fixed, what never happens *)

Section SessionTheorems.
Local Open Scope Q_scope.

(** X5. Over any run of frames the ledger only grows: no driver's
    minisector count or lap count ever decreases, a revealed driver
    stays revealed, and the lap-time history of a driver is only ever
    appended to. *)
Theorem ledger_only_grows
    (cfg : Config) (fs : list Frame) (st st' : State) (d : N) :
  runFrames cfg fs st = Some st' ->
  (default 0 (miniCounts st !! d) <= default 0 (miniCounts st' !! d))%Z
  /\ (default 0 (lapCounts st !! d) <= default 0 (lapCounts st' !! d))%Z
  /\ (d ∈ revealedDrivers st -> d ∈ revealedDrivers st')
  /\ (forall ts, lapTimes st !! d = Some ts ->
                 exists more, lapTimes st' !! d = Some (ts ++ more)).
Proof.
  intros Hrun. apply runFrames_advances in Hrun.
  destruct Hrun as [Hm Hl Hr _ _ _ Ht]. auto.
Qed.

Lemma ledger_only_grows_witness :
  let st := afterFrames sprintCfg beforeLineFrames in
  let st' := afterFrames sprintCfg sprintFrames in
  lapCounts st !! 1%N = Some 0%Z /\ lapCounts st' !! 1%N = Some 1%Z
  /\ (default 0 (lapCounts st !! 1%N) <= default 0 (lapCounts st' !! 1%N))%Z
  /\ (1%N ∈ revealedDrivers st -> 1%N ∈ revealedDrivers st').
Proof.
  cbv zeta.
  set (st := afterFrames sprintCfg beforeLineFrames).
  set (st' := afterFrames sprintCfg sprintFrames).
  assert (Hrun : runFrames sprintCfg [lineFrame] st = Some st')
    by (vm_compute; reflexivity).
  assert (H0 : lapCounts st !! 1%N = Some 0%Z) by (vm_compute; reflexivity).
  assert (H1 : lapCounts st' !! 1%N = Some 1%Z) by (vm_compute; reflexivity).
  destruct (ledger_only_grows sprintCfg [lineFrame] st st' 1%N Hrun)
    as (_ & Hl & Hr & _).
  split; [exact H0|]. split; [exact H1|]. split; [exact Hl|exact Hr].
Defined.

(** X6. After every frame a driver with a DNF event is flagged DNF
    exactly when the event's time is at or before the board clock, a
    driver without an event is never flagged, and a flag once set stays
    set. *)
Theorem dnf_flag_iff_due (cfg : Config) (f : Frame) (st st' : State) (d : N) :
  reachable cfg st -> 0 <= deltaTime f -> draw cfg f st = Some st' ->
  (forall t, dnfTimesAbsSec cfg !! d = Some t ->
     (dnfOverlayActive st' !! d = Some true <-> t <= lastBoardAbsSec st'))
  /\ (dnfTimesAbsSec cfg !! d = None -> dnfOverlayActive st' !! d <> Some true)
  /\ (dnfOverlayActive st !! d = Some true -> dnfOverlayActive st' !! d = Some true).
Proof.
  intros Hr Hdt Hdraw.
  assert (Hr' : reachable cfg st') by (by eapply reach_draw).
  pose proof (reachable_board _ _ Hr') as Hb.
  destruct (draw_rel _ _ _ _ Hdraw) as (Ha & Hrace & Hboard & Hdue & _).
  split; [|split].
  - intros t Ht. split.
    + intros Hflag. destruct (binv_dnf _ _ Hb d Hflag) as (t' & Ht' & Hle).
      rewrite Ht in Ht'. inversion Ht'; subst t'.
      rewrite Hboard, <- Hrace. exact Hle.
    + intros Hle. apply (Hdue d t Ht). by rewrite <- Hboard.
  - intros Hnone Hflag. destruct (binv_dnf _ _ Hb d Hflag) as (t' & Ht' & _).
    rewrite Hnone in Ht'. discriminate Ht'.
  - apply (adv_dnf _ _ Ha).
Qed.

Lemma dnf_flag_iff_due_witness :
  let st := afterFrames formationCfg formationFrames in
  let st' := afterFrames formationCfg (formationFrames ++ [playing 1000 1]) in
  dnfOverlayActive st !! 4%N = Some false
  /\ dnfTimesAbsSec formationCfg !! 4%N = Some 3
  /\ (dnfOverlayActive st' !! 4%N = Some true <-> 3 <= lastBoardAbsSec st')
  /\ dnfOverlayActive st' !! 1%N <> Some true.
Proof.
  cbv zeta.
  set (st := afterFrames formationCfg formationFrames).
  set (st' := afterFrames formationCfg (formationFrames ++ [playing 1000 1])).
  assert (Hr : reachable formationCfg st).
  { apply afterFrames_reachable. repeat constructor; vm_compute; discriminate. }
  assert (Hdt : 0 <= deltaTime (playing 1000 1)) by (vm_compute; discriminate).
  assert (Hdraw : draw formationCfg (playing 1000 1) st = Some st')
    by (vm_compute; reflexivity).
  assert (H0 : dnfOverlayActive st !! 4%N = Some false) by (vm_compute; reflexivity).
  assert (Ht : dnfTimesAbsSec formationCfg !! 4%N = Some 3)
    by (vm_compute; reflexivity).
  assert (Hn : dnfTimesAbsSec formationCfg !! 1%N = None)
    by (vm_compute; reflexivity).
  destruct (dnf_flag_iff_due formationCfg (playing 1000 1) st st' 4%N Hr Hdt Hdraw)
    as (Hiff & _ & _).
  destruct (dnf_flag_iff_due formationCfg (playing 1000 1) st st' 1%N Hr Hdt Hdraw)
    as (_ & Hnever & _).
  split; [exact H0|]. split; [exact Ht|]. split; [exact (Hiff 3 Ht)|exact (Hnever Hn)].
Defined.



(** X8. A recorded final position belongs to a frozen driver and lies
    between 1 and the number of rows of the driver table. *)
Theorem freezePos_in_range (cfg : Config) (st : State) (d : N) (p : Z) :
  reachable cfg st -> freezePos st !! d = Some p ->
  d ∈ frozenDrivers st /\ (1 <= p <= Z.of_nat (length (driverInfo cfg)))%Z.
Proof. intros Hr. apply (binv_pos _ _ (reachable_board _ _ Hr)). Qed.

Lemma freezePos_in_range_witness :
  let st := afterFrames gridCfg (formationFrames ++ [gridFrame]) in
  freezePos st !! 4%N = Some 20%Z
  /\ 4%N ∈ frozenDrivers st
  /\ (1 <= 20 <= Z.of_nat (length (driverInfo gridCfg)))%Z.
Proof.
  cbv zeta. set (st := afterFrames gridCfg (formationFrames ++ [gridFrame])).
  assert (Hr : reachable gridCfg st).
  { apply afterFrames_reachable. repeat constructor; vm_compute; discriminate. }
  assert (Hp : freezePos st !! 4%N = Some 20%Z) by (vm_compute; reflexivity).
  split; [exact Hp|]. exact (freezePos_in_range gridCfg st 4%N 20%Z Hr Hp).
Defined.

(** X9. The finish is triggered once: from the frame in which a driver
    first completes the final lap, that driver is the finish leader for
    the rest of the session, the trigger stays set, and the finish
    leader's lap number is at least [FINAL_LAP]. *)
Theorem finish_leader_is_final
    (cfg : Config) (fs : list Frame) (st st' : State) (k : N) :
  reachable cfg st -> Forall (fun f => 0 <= deltaTime f) fs ->
  runFrames cfg fs st = Some st' ->
  finishLeaderDn st = Some k ->
  finishLeaderDn st' = Some k /\ raceFinishTriggered st' = true
  /\ (FINAL_LAP cfg
      <= numericLap (default 0 (lapCounts st' !! k))
                    (bool_decide (k ∈ PIT_START_DRIVERS cfg)))%Z.
Proof.
  intros Hr Hfs Hrun Hk.
  destruct (binv_winner _ _ (reachable_board _ _ Hr) k Hk) as [Ht _].
  pose proof (runFrames_advances _ _ _ _ Hrun) as Ha.
  destruct (adv_finish _ _ Ha Ht) as [Ht' Hk'].
  assert (Hr' : reachable cfg st') by (by eapply runFrames_reachable).
  rewrite Hk in Hk'. split; [exact Hk'|]. split; [exact Ht'|].
  apply (binv_winner _ _ (reachable_board _ _ Hr') k Hk').
Qed.

Lemma finish_leader_is_final_witness :
  let st := afterFrames sprintCfg sprintFrames in
  let st' := afterFrames sprintCfg (sprintFrames ++ [playing 1000 1; playing 1000 1]) in
  finishLeaderDn (afterFrames sprintCfg beforeLineFrames) = None
  /\ finishLeaderDn st = Some 1%N
  /\ finishLeaderDn st' = Some 1%N /\ raceFinishTriggered st' = true.
Proof.
  cbv zeta.
  set (st := afterFrames sprintCfg sprintFrames).
  set (st' := afterFrames sprintCfg (sprintFrames ++ [playing 1000 1; playing 1000 1])).
  assert (Hr : reachable sprintCfg st).
  { apply afterFrames_reachable. repeat constructor; vm_compute; discriminate. }
  assert (Hfs : Forall (fun f => 0 <= deltaTime f) [playing 1000 1; playing 1000 1]).
  { repeat constructor; vm_compute; discriminate. }
  assert (Hrun : runFrames sprintCfg [playing 1000 1; playing 1000 1] st = Some st')
    by (vm_compute; reflexivity).
  assert (H0 : finishLeaderDn (afterFrames sprintCfg beforeLineFrames) = None)
    by (vm_compute; reflexivity).
  assert (Hk : finishLeaderDn st = Some 1%N) by (vm_compute; reflexivity).
  destruct (finish_leader_is_final sprintCfg _ st st' 1%N Hr Hfs Hrun Hk)
    as (H1 & H2 & _).
  split; [exact H0|]. split; [exact Hk|]. split; [exact H1|exact H2].
Defined.
End SessionTheorems.

Section FrameTheorems.
Local Open Scope Q_scope.

Lemma baselineAtGreen_captures cfg st d :
  d ∈ driverInfo cfg ->
  baselineMiniAtGreen (baselineAtGreen cfg st) !! d
  = Some (default 0%Z (miniCounts st !! d)).
Proof.
  intros Hd. unfold baselineAtGreen.
  match goal with |- context [recomputeGapsSFandMinisectors ?s] =>
    destruct (recompute_detectKept s) as (_ & _ & _ & _ & _ & ->) end.
  cbn. by rewrite lookup_assignAll, decide_True.
Qed.

(** X10. The green-flag baseline is taken once, in the first frame whose
    board clock has reached the race start: after a frame the baseline
    flag is set exactly when it was set before or the clock has reached
    the start; the frame that sets it captures, for every row of the
    driver table, the minisector count the driver had when the frame
    began; and a captured baseline never changes again. *)
Theorem baseline_taken_once (cfg : Config) (f : Frame) (st st' : State) :
  draw cfg f st = Some st' ->
  baselinedAtGreen st' = baselinedAtGreen st || raceStartedAt cfg (raceTime st')
  /\ (baselinedAtGreen st = true -> baselineMiniAtGreen st' = baselineMiniAtGreen st)
  /\ (baselinedAtGreen st = false -> baselinedAtGreen st' = true ->
      forall d, d ∈ driverInfo cfg ->
                baselineMiniAtGreen st' !! d = Some (default 0%Z (miniCounts st !! d))).
Proof.
  intros Hdraw.
  destruct (draw_rel _ _ _ _ Hdraw) as (Ha & Hrace & _ & _ & Hbase).
  split; [by rewrite Hrace|]. split; [apply (adv_baseline _ _ Ha)|].
  intros Hoff Hon d Hd. rewrite Hoff in Hbase. cbn [orb] in Hbase.
  rewrite Hon in Hbase. unfold draw in Hdraw.
  destruct (foldlOpt _ _ _) as [st4|] eqn:E4; [|discriminate Hdraw].
  cbn [mbind option_bind] in Hdraw. injection Hdraw as Hst'.
  destruct (driverLoop_rel _ _ _ _ _ _ _ E4) as (A4 & _ & _ & _ & G4 & _).
  destruct (drawLeaderboard_rel cfg st4) as (_ & K5 & _).
  destruct K5 as (_ & _ & _ & _ & _ & M5). rewrite Hst' in M5. rewrite M5.
  assert (H3 : frameStart cfg f st
               = baselineAtGreen cfg
                   (activateDnf cfg (boardAbsSecAt cfg (advance f st))
                      (set_lastBoardAbsSec (boardAbsSecAt cfg (advance f st))
                         (set_raceTime (advance f st) st)))).
  { unfold frameStart. rewrite <- Hbase.
    change (baselinedAtGreen (activateDnf cfg _ _)) with (baselinedAtGreen st).
    by rewrite Hoff. }
  assert (G3 : baselinedAtGreen (frameStart cfg f st) = true).
  { rewrite H3. apply baselineAtGreen_clock. }
  destruct (adv_baseline _ _ A4 G3) as [_ ->].
  rewrite H3, (baselineAtGreen_captures _ _ d Hd). reflexivity.
Qed.

Lemma baseline_taken_once_witness :
  let st := afterFrames greenCfg [playing 500 1] in
  let st' := afterFrames greenCfg jumpFrames in
  baselinedAtGreen (setup greenCfg) = false
  /\ baselinedAtGreen st = true
  /\ baselineMiniAtGreen st !! 1%N = Some 0%Z
  /\ baselineMiniAtGreen st' = baselineMiniAtGreen st.
Proof.
  cbv zeta.
  set (st := afterFrames greenCfg [playing 500 1]).
  set (st' := afterFrames greenCfg jumpFrames).
  assert (H1 : draw greenCfg (playing 500 1) (setup greenCfg) = Some st)
    by (vm_compute; reflexivity).
  assert (H2 : draw greenCfg (playing 200 20) st = Some st')
    by (vm_compute; reflexivity).
  assert (Hoff : baselinedAtGreen (setup greenCfg) = false) by reflexivity.
  assert (Hon : baselinedAtGreen st = true) by (vm_compute; reflexivity).
  destruct (baseline_taken_once greenCfg _ _ _ H1) as (_ & _ & Hcap).
  destruct (baseline_taken_once greenCfg _ _ _ H2) as (_ & Hkeep & _).
  split; [exact Hoff|]. split; [exact Hon|]. split; [|exact (Hkeep Hon)].
  rewrite (Hcap Hoff Hon 1%N) by compute_done. reflexivity.
Defined.

(** X13. A driver without a row in the driver table has no per-gate
    ledger, at any point of a session, so its first hit of a minisector
    gate makes the step throw: the read of
    [lastMiniCrossSecByGate[key][gi]] dereferences [undefined]. *)
Theorem gate_hit_without_row_throws
    (cfg : Config) (st : State) (now : Q) (ag : bool) (key : N)
    (prev curr : vec2) (gi : nat) (gb : gateBase) :
  reachable cfg st -> key ∉ driverInfo cfg -> gateHit gb prev curr = true ->
  lastMiniCrossSecByGate st !! key = None
  /\ miniGateStep now ag key prev curr st (gi, gb) = None.
Proof.
  intros Hr Hkey Hhit.
  assert (Hnone : lastMiniCrossSecByGate st !! key = None).
  { destruct (lastMiniCrossSecByGate st !! key) as [bg|] eqn:E; [|done].
    exfalso. apply Hkey. apply (binv_gates _ _ (reachable_board _ _ Hr)).
    apply elem_of_dom. by eexists. }
  split; [exact Hnone|]. unfold miniGateStep. by rewrite Hhit, Hnone.
Qed.

Lemma gate_hit_without_row_witness :
  let st := afterFrames strayCfg [playing 500 1] in
  let gb := gateBaseOf strayCfg (gateAt 0) in
  miniGateStep 1.5 false 7%N (Vec2 2 (- (1 # 2))) (Vec2 2 (1 # 2)) st (0%nat, gb) = None
  /\ draw strayCfg (playing 1000 1) st = None.
Proof.
  cbv zeta. set (st := afterFrames strayCfg [playing 500 1]).
  assert (Hr : reachable strayCfg st).
  { apply afterFrames_reachable. repeat constructor; vm_compute; discriminate. }
  assert (Hkey : 7%N ∉ driverInfo strayCfg) by compute_done.
  assert (Hhit : gateHit (gateBaseOf strayCfg (gateAt 0))
                   (Vec2 2 (- (1 # 2))) (Vec2 2 (1 # 2)) = true)
    by (vm_compute; reflexivity).
  split.
  - exact (proj2 (gate_hit_without_row_throws strayCfg st 1.5 false 7%N _ _ 0%nat _
                    Hr Hkey Hhit)).
  - vm_compute. reflexivity.
Defined.
End FrameTheorems.

(** ** The gap to the driver ahead *)

Section AheadTheorems.
Local Open Scope Q_scope.

Lemma gapsToAhead_recompute st pre d post :
  rankOrder st = pre ++ d :: post ->
  gapsToAhead (recomputeGapsSFandMinisectors st) !! d
  = Some (aheadGapOf st (last pre) d).
Proof.
  intros E. pose proof (NoDup_rankOrder st) as Hnd. rewrite E in Hnd.
  destruct (rankOrder st) as [|leader rest] eqn:Er; [by destruct pre|].
  rewrite (recompute_nonempty _ _ _ Er).
  remember (gapLoop st leader None (leader :: rest) (∅, ∅)) as new eqn:Hnew.
  cbn. subst new. rewrite E.
  rewrite gapLoop_ahead_lookup by done. by destruct (last pre).
Qed.

(** X14. The gap to the driver ahead follows the rule of the gap to the
    leader, against the driver one place up in the ranking: with a time
    of that driver at the entity's latest index it is
    [Time (max 0 (entityTime - aheadTime))], otherwise the last stable
    gap-to-ahead (never a leader tag; [Unavailable] when there is
    none).  The first of the ranking is tagged [Leader] in the
    gap-to-ahead map too, and for the second of the ranking the two
    gaps coincide whenever the leader has a time at that index. *)
Theorem gap_to_ahead_at_latest_index
    (st : State) (pre post : list N) (a d : N) (seq : list Q) (tD : Q) :
  rankOrder st = pre ++ a :: d :: post ->
  miniSeqTimes st !! d = Some seq -> last seq = Some tD ->
  let idx := (length seq - 1)%nat in
  let after := recomputeGapsSFandMinisectors st in
  (forall tA, seqOf st a !! idx = Some tA ->
              gapsToAhead after !! d = Some (GTime (Qmax 0 (tD - tA))))
  /\ (seqOf st a !! idx = None ->
      gapsToAhead after !! d = Some (fallbackGap (lastStableGapsAhead st !! d))
      /\ gapsToAhead after !! d <> Some GLeader)
  /\ (forall l, head (rankOrder st) = Some l -> gapsToAhead after !! l = Some GLeader)
  /\ (pre = [] -> forall tA, seqOf st a !! idx = Some tA ->
                  gapsToAhead after !! d = gapsToLeader after !! d).
Proof.
  intros E Hseq Hlast idx after. subst after.
  assert (Hgap : gapsToAhead (recomputeGapsSFandMinisectors st) !! d
                 = Some (timeGap seq (seqOf st a) (lastStableGapsAhead st !! d))).
  { rewrite (gapsToAhead_recompute st (pre ++ [a]) d post)
      by (by rewrite <- app_assoc).
    rewrite last_snoc. cbn [aheadGapOf]. unfold seqOf at 1. by rewrite Hseq. }
  assert (Hlen : length seq = S idx /\ seq !! idx = Some tD).
  { subst idx. rewrite last_lookup in Hlast.
    destruct seq as [|t0 seq']; [done|]. cbn in *.
    rewrite Nat.sub_0_r. done. }
  destruct Hlen as [Hlen HtD].
  assert (Htime : forall tA, seqOf st a !! idx = Some tA ->
            gapsToAhead (recomputeGapsSFandMinisectors st) !! d
            = Some (GTime (Qmax 0 (tD - tA)))).
  { intros tA HtA. rewrite Hgap. unfold timeGap. by rewrite Hlen, HtD, HtA. }
  split; [exact Htime|]. split; [|split].
  - intros Hnone. rewrite Hgap. unfold timeGap. rewrite Hlen, HtD, Hnone.
    split; [done|]. intros [= H]. by apply fallbackGap_not_leader in H.
  - intros l Hl. destruct (rankOrder st) as [|l' rest] eqn:Er; [done|].
    cbn in Hl. inversion Hl; subst l'.
    by rewrite (gapsToAhead_recompute st [] l rest).
  - intros -> tA HtA. rewrite (Htime tA HtA). cbn [app] in E.
    rewrite (gapsToLeader_recompute_nonempty _ _ _ _ E).
    rewrite decide_True by (rewrite E; apply list_elem_of_further, list_elem_of_here).
    unfold leaderGapOf.
    pose proof (NoDup_rankOrder st) as Hnd. rewrite E in Hnd.
    apply NoDup_cons in Hnd as [Hne _].
    destruct (N.eqb_spec d a) as [->|_]; [exfalso; apply Hne, list_elem_of_here|].
    assert (Hsd : seqOf st d = seq) by (unfold seqOf; by rewrite Hseq).
    rewrite Hsd. unfold timeGap. by rewrite Hlen, HtD, HtA.
Qed.

Lemma gap_to_ahead_witness :
  rankOrder gapScenario = [1%N; 4%N]
  /\ (exists s, gapsToAhead (recomputeGapsSFandMinisectors gapScenario) !! 4%N
                = Some (GTime s) /\ s == 0.6)
  /\ gapsToAhead (recomputeGapsSFandMinisectors gapScenario) !! 1%N = Some GLeader.
Proof.
  assert (E : rankOrder gapScenario = [] ++ 1%N :: 4%N :: []) by (vm_compute; reflexivity).
  assert (H5 : miniSeqTimes gapScenario !! 4%N = Some [10.5; 22.6])
    by (vm_compute; reflexivity).
  assert (H6 : last [10.5; 22.6] = Some 22.6) by reflexivity.
  assert (H7 : seqOf gapScenario 1%N !! 1%nat = Some 22) by (vm_compute; reflexivity).
  destruct (gap_to_ahead_at_latest_index gapScenario [] [] 1%N 4%N [10.5; 22.6] 22.6
              E H5 H6) as (Ht & _ & Hl & _).
  split; [exact E|]. split.
  - exists (Qmax 0 (22.6 - 22)). split; [exact (Ht 22 H7)|reflexivity].
  - apply Hl. rewrite E. reflexivity.
Defined.
End AheadTheorems.

(** ** The visible order of the leaderboard *)

Section VisibleOrderFacts.
Local Open Scope Z_scope.

Lemma rowByDn_snoc rows r d :
  rowByDn (rows ++ [r]) d = if (dn r =? d)%N then Some r else rowByDn rows d.
Proof. unfold rowByDn. by rewrite foldl_app. Qed.

Lemma rowByDn_Some rows d r : rowByDn rows d = Some r -> r ∈ rows /\ dn r = d.
Proof.
  revert r. induction rows as [|r' rows IH] using rev_ind; intros r; [done|].
  rewrite rowByDn_snoc. destruct (N.eqb_spec (dn r') d) as [E|E].
  - intros [= <-]. split; [|done]. apply elem_of_app. right. apply list_elem_of_here.
  - intros H. destruct (IH r H) as [Hin Hd]. split; [|done].
    apply elem_of_app. by left.
Qed.

Lemma rowByDn_elem rows r :
  NoDup (dn <$> rows) -> r ∈ rows -> rowByDn rows (dn r) = Some r.
Proof.
  induction rows as [|r' rows IH] using rev_ind; intros Hnd Hin.
  - by apply elem_of_nil in Hin.
  - rewrite fmap_app in Hnd. apply NoDup_app in Hnd as (Hnd & Hne & _).
    rewrite rowByDn_snoc. apply elem_of_app in Hin as [Hin|Hin].
    + destruct (N.eqb_spec (dn r') (dn r)) as [E|E]; [|by apply IH].
      exfalso. apply (Hne (dn r)); [by apply list_elem_of_fmap_2|].
      rewrite <- E. cbn. apply list_elem_of_here.
    + apply list_elem_of_singleton in Hin. subst r'. by rewrite N.eqb_refl.
Qed.

Lemma rowByDn_position rows d r :
  rowByDn rows d = Some r -> is_Some (rowPosition rows d).
Proof.
  revert r. induction rows as [|r' rows IH] using rev_ind; intros r; [done|].
  rewrite rowByDn_snoc, rowPosition_snoc. destruct (dn r' =? d)%N; [by eexists|].
  apply IH.
Qed.

(** *** The two scans *)

Lemma occupied_false slots j :
  0 <= j < Z.of_nat (length slots) ->
  occupied slots j = false <-> slots !! Z.to_nat j = Some None.
Proof.
  intros Hj. unfold occupied.
  destruct (lookup_lt_is_Some_2 slots (Z.to_nat j)) as [v Hv]; [lia|].
  rewrite Hv. by destruct v.
Qed.

Lemma scanUp_spec fuel slots idx :
  0 <= idx -> Z.of_nat (length slots) - idx <= Z.of_nat fuel ->
  let r := scanUp fuel slots idx in
  idx <= r
  /\ (forall j, idx <= j < r -> occupied slots j = true)
  /\ (r < Z.of_nat (length slots) -> occupied slots r = false)
  /\ (idx <= Z.of_nat (length slots) -> r <= Z.of_nat (length slots)).
Proof.
  revert idx. induction fuel as [|fuel IH]; intros idx H0 Hf; cbn [scanUp].
  - split; [lia|]. split; [intros j Hj; lia|]. split; [intros Hr; lia|done].
  - destruct (Z.ltb_spec idx (Z.of_nat (length slots))) as [Hlt|Hge]; cbn [andb].
    + destruct (occupied slots idx) eqn:E.
      * destruct (IH (idx + 1)) as (H1 & H2 & H3 & H4); [lia|lia|].
        split; [lia|]. split; [|split; [done|intros _; apply H4; lia]].
        intros j Hj. destruct (decide (j = idx)) as [->|Hne]; [done|].
        apply H2. lia.
      * split; [lia|]. split; [intros j Hj; lia|]. split; [done|done].
    + split; [lia|]. split; [intros j Hj; lia|]. split; [intros Hr; lia|done].
Qed.

Lemma scanDown_spec fuel slots idx :
  -1 <= idx -> idx + 1 <= Z.of_nat fuel ->
  let r := scanDown fuel slots idx in
  -1 <= r <= idx
  /\ (forall j, r < j <= idx -> occupied slots j = true)
  /\ (0 <= r -> occupied slots r = false).
Proof.
  revert idx. induction fuel as [|fuel IH]; intros idx H0 Hf; cbn [scanDown].
  - split; [lia|]. split; [intros j Hj; lia|intros Hr; lia].
  - destruct (Z.leb_spec 0 idx) as [Hle|Hgt]; cbn [andb].
    + destruct (occupied slots idx) eqn:E.
      * destruct (IH (idx - 1)) as (H1 & H2 & H3); [lia|lia|].
        split; [lia|]. split; [|done].
        intros j Hj. destruct (decide (j = idx)) as [->|Hne]; [done|].
        apply H2. lia.
      * split; [lia|]. split; [intros j Hj; lia|done].
    + split; [lia|]. split; [intros j Hj; lia|intros Hr; lia].
Qed.

(** With a free slot somewhere, the slot chosen for a frozen row is
    inside the board and free. *)
Lemma chosen_slot_free slots pos j :
  1 <= pos <= Z.of_nat (length slots) ->
  slots !! j = Some None ->
  let total := Z.of_nat (length slots) in
  let up := scanUp (length slots) slots (pos - 1) in
  let idx := if total <=? up then scanDown (length slots) slots (pos - 2) else up in
  0 <= idx < total /\ slots !! Z.to_nat idx = Some None.
Proof.
  intros Hpos Hj total up idx.
  assert (Hjlt : Z.of_nat j < total) by (apply lookup_lt_Some in Hj; lia).
  assert (Hjfree : occupied slots (Z.of_nat j) = false).
  { apply occupied_false; [lia|]. by rewrite Nat2Z.id. }
  destruct (scanUp_spec (length slots) slots (pos - 1)) as (U1 & U2 & U3 & U4);
    [lia|lia|]. fold up in U1, U2, U3, U4.
  subst idx. destruct (Z.leb_spec total up) as [Hfull|Hfound].
  - destruct (scanDown_spec (length slots) slots (pos - 2)) as (D1 & D2 & D3);
      [lia|lia|].
    set (dwn := scanDown _ _ _) in *.
    assert (Hjlow : Z.of_nat j < pos - 1).
    { destruct (Z.lt_ge_cases (Z.of_nat j) (pos - 1)) as [?|Hge]; [done|].
      rewrite U2 in Hjfree by lia. done. }
    assert (Hd0 : 0 <= dwn).
    { destruct (Z.le_gt_cases 0 dwn) as [?|Hneg]; [done|].
      rewrite D2 in Hjfree by lia. done. }
    split; [lia|]. apply occupied_false; [lia|]. by apply D3.
  - split; [lia|]. apply occupied_false; [lia|]. by apply U3.
Qed.

(** *** Rows on the board *)

Lemma omap_insert_free (slots : list (option Candidate)) i r :
  slots !! i = Some None ->
  omap id (<[i := Some r]> slots) ≡ₚ r :: omap id slots.
Proof.
  revert i. induction slots as [|s slots IH]; intros i Hi; [done|].
  destruct i as [|i]; cbn in Hi.
  - inversion Hi; subst s. done.
  - cbn [insert list_insert]. fold (@insert _ _ _ (@list_insert (option Candidate)) i (Some r) slots).
    destruct s as [r'|]; cbn.
    + rewrite (IH i Hi). apply perm_swap.
    + apply (IH i Hi).
Qed.

Lemma free_slot_exists (slots : list (option Candidate)) :
  (length (omap id slots) < length slots)%nat -> exists j, slots !! j = Some None.
Proof.
  induction slots as [|s slots IH]; cbn; [lia|].
  destruct s as [r|]; cbn.
  - intros H. destruct IH as [j Hj]; [lia|]. by exists (S j).
  - intros _. by exists 0%nat.
Qed.

Lemma elem_of_placed rows (order : list N) r :
  r ∈ omap (rowByDn rows) order <-> r ∈ rows /\ dn r ∈ order /\ rowByDn rows (dn r) = Some r.
Proof.
  rewrite list_elem_of_omap. split.
  - intros (d & Hd & Hr). destruct (rowByDn_Some _ _ _ Hr) as [Hin <-]. done.
  - intros (Hin & Hd & Hr). by exists (dn r).
Qed.

Lemma NoDup_placed rows (order : list N) :
  NoDup order -> NoDup (omap (rowByDn rows) order).
Proof.
  induction 1 as [|d order Hd Hnd IH]; cbn; [constructor|].
  destruct (rowByDn rows d) as [r|] eqn:E; [|done].
  constructor; [|done]. intros Hin. apply elem_of_placed in Hin as (_ & Hin & _).
  apply rowByDn_Some in E as [_ E]. by rewrite E in Hin.
Qed.

Lemma length_placed rows (order : list N) :
  NoDup order -> (length (omap (rowByDn rows) order) <= length rows)%nat.
Proof.
  intros Hnd. apply submseteq_length. apply NoDup_submseteq; [by apply NoDup_placed|].
  intros r Hr. by apply elem_of_placed in Hr as [Hr _].
Qed.
End VisibleOrderFacts.

Section VisibleOrderResults.
Local Open Scope Z_scope.

(** One placement: a frozen driver with a row takes a free slot. *)
Lemma placeFrozen_step st rows slots d :
  length slots = length rows ->
  (length (omap id slots) < length rows)%nat ->
  length (placeFrozen st rows slots d) = length rows
  /\ omap id (placeFrozen st rows slots d)
     ≡ₚ omap id slots ++ omap (rowByDn rows) [d].
Proof.
  intros Hlen Hroom. unfold placeFrozen. cbn [omap list_omap].
  destruct (rowByDn rows d) as [r|] eqn:Er;
    [|by rewrite app_nil_r].
  destruct (rowByDn_position _ _ _ Er) as [position Hp]. rewrite Hp.
  set (pos0 := match freezePos st !! d with
               | Some p => if p =? 0 then position else p
               | None => position
               end).
  destruct (free_slot_exists slots) as [j Hj]; [lia|].
  assert (Htot : (0 < length rows)%nat) by lia.
  destruct (chosen_slot_free slots (constrainPos pos0 (Z.of_nat (length rows))) j)
    as [Hin Hfree]; [unfold constrainPos; lia|exact Hj|].
  rewrite Hlen in Hin, Hfree.
  set (idx := if _ <=? _ then _ else _) in *.
  destruct (Z.leb_spec 0 idx) as [?|?]; [|lia].
  destruct (Z.ltb_spec idx (Z.of_nat (length rows))) as [?|?]; [|lia].
  cbn [andb]. split; [by rewrite length_insert|].
  rewrite (omap_insert_free _ _ r Hfree).
  by rewrite (Permutation_app_comm (omap id slots) [r]).
Qed.

Lemma placeLoop_inv st rows order :
  NoDup order ->
  let slots := foldl (placeFrozen st rows) (replicate (length rows) None) order in
  length slots = length rows
  /\ omap id slots ≡ₚ omap (rowByDn rows) order.
Proof.
  induction order as [|d order IH] using rev_ind; intros Hnd; cbv zeta.
  - cbn [foldl]. split; [apply length_replicate|].
    assert (H : forall n, omap id (replicate n (@None Candidate)) = []).
    { induction n as [|n IHn]; [done|]. cbn. exact IHn. }
    by rewrite H.
  - rewrite foldl_app. cbn [foldl].
    pose proof (length_placed rows (order ++ [d]) Hnd) as Hle.
    apply NoDup_app in Hnd as (Hnd & Hne & _).
    destruct (IH Hnd) as [Hlen Hperm].
    set (slots := foldl _ _ order) in *.
    rewrite omap_app in Hle |- *. rewrite length_app in Hle.
    destruct (rowByDn rows d) as [r|] eqn:Er.
    + assert (Hroom : (length (omap id slots) < length rows)%nat).
      { rewrite Hperm. cbn in Hle. rewrite Er in Hle. cbn in Hle. lia. }
      destruct (placeFrozen_step st rows slots d Hlen Hroom) as [H1 H2].
      split; [exact H1|]. by rewrite H2, Hperm.
    + unfold placeFrozen. rewrite Er. split; [exact Hlen|].
      cbn. rewrite Er. by rewrite app_nil_r.
Qed.

Lemma length_omap_id (slots : list (option Candidate)) :
  (length (omap id slots) <= length slots)%nat.
Proof. induction slots as [|[r|] slots IH]; cbn; lia. Qed.

(** The fill loop: with exactly as many active rows as holes, every
    slot ends up with a row. *)
Lemma fillHoles_full (slots : list (option Candidate)) active :
  (length active + length (omap id slots) = length slots)%nat ->
  exists l, fillHoles slots active = Some <$> l
            /\ l ≡ₚ omap id slots ++ active
            /\ length l = length slots.
Proof.
  revert active. induction slots as [|s slots IH]; intros active Hlen.
  - destruct active; [|cbn in Hlen; lia]. by exists [].
  - destruct s as [r|]; cbn in Hlen |- *.
    + destruct (IH active) as (l & -> & Hp & Hl); [lia|].
      exists (r :: l). split; [done|]. split; [by rewrite Hp|cbn; lia].
    + pose proof (length_omap_id slots) as Hle.
      destruct active as [|a active]; [cbn in Hlen; lia|]. cbn.
      destruct (IH active) as (l & -> & Hp & Hl); [cbn in Hlen; lia|].
      exists (a :: l). split; [done|]. split; [|cbn; lia].
      rewrite Hp. cbn. by rewrite <- Permutation_middle.
Qed.


(** The rows placed for the frozen drivers are the rows of the ranking
    whose driver is frozen. *)
Lemma placed_are_frozen rows (order : list N) (s : gset N) :
  NoDup (dn <$> rows) -> iterationOf order s ->
  omap (rowByDn rows) order ≡ₚ filter (fun r => dn r ∈ s) rows.
Proof.
  intros Hnd [Ho Hs]. apply NoDup_Permutation.
  - by apply NoDup_placed.
  - apply NoDup_filter. by apply NoDup_fmap_1 in Hnd.
  - intros r. rewrite elem_of_placed, list_elem_of_filter. split.
    + intros (Hin & Hd & _). split; [by apply Hs|done].
    + intros [Hd Hin]. split; [done|]. split; [by apply Hs|].
      by apply rowByDn_elem.
Qed.
End VisibleOrderResults.

Section VisibleOrderTheorems.
Local Open Scope Z_scope.

Lemma fillHoles_order (Q : Candidate -> Prop) `{!forall r, Decision (Q r)}
    (slots : list (option Candidate)) active l :
  (forall r, r ∈ omap id slots -> ~ Q r) -> Forall Q active ->
  (length active + length (omap id slots) = length slots)%nat ->
  fillHoles slots active = Some <$> l -> filter Q l = active.
Proof.
  revert active l. induction slots as [|s slots IH]; intros active l Hs Ha Hlen Hfill.
  - destruct active; [|cbn in Hlen; lia]. by destruct l.
  - pose proof (length_omap_id slots) as Hle.
    destruct s as [r|]; cbn in Hlen, Hfill, Hs.
    + destruct l as [|a l]; [done|]. cbn in Hfill. inversion Hfill as [[Hr Hl]].
      subst a. rewrite filter_cons_False by (apply Hs, list_elem_of_here).
      apply (IH active l); try done; [|lia].
      intros r' Hr'. apply Hs. by apply list_elem_of_further.
    + destruct active as [|a active]; [cbn in Hlen; lia|].
      destruct l as [|a' l]; [done|]. cbn in Hfill. inversion Hfill as [[Hr Hl]].
      subst a'. apply Forall_cons in Ha as [Ha Hrest].
      rewrite filter_cons_True by done. f_equal.
      apply (IH active l); try done. cbn in Hlen. lia.
Qed.

Lemma take_min_length {A} (n : nat) (l : list A) :
  take (Nat.min n (length l)) l = take n l.
Proof.
  destruct (Nat.le_ge_cases n (length l)) as [H|H].
  - by rewrite Nat.min_l.
  - rewrite Nat.min_r by done. by rewrite !take_ge.
Qed.

(** X15. The visible order of the leaderboard is a rearrangement of the
    ranking: with distinct driver numbers in the ranking, after the
    frozen rows are put at their slots and the holes filled, every slot
    holds a row (no slot is left [null] or [undefined]), the rows are
    exactly the rows of the ranking, each once, and the rows of the
    drivers that are not frozen appear in ranking order.  The visible
    rows are the first [BOARD_MAX_ROWS] of them. *)
Theorem finalRows_is_a_rearrangement
    (st : State) (rows : list Candidate) (frozenOrder : list N) :
  NoDup (dn <$> rows) -> iterationOf frozenOrder (frozenDrivers st) ->
  exists l,
    finalRows st rows frozenOrder = Some <$> l
    /\ l ≡ₚ rows
    /\ filter (fun r => dn r ∉ frozenDrivers st) l
       = filter (fun r => dn r ∉ frozenDrivers st) rows
    /\ visibleRows st rows frozenOrder = Some <$> take BOARD_MAX_ROWS l.
Proof.
  intros Hnd Hit. pose proof Hit as [Ho Hs]. unfold visibleRows, finalRows.
  destruct (placeLoop_inv st rows frozenOrder Ho) as [Hlen Hperm].
  set (slots := foldl _ _ frozenOrder) in *.
  pose proof (placed_are_frozen rows frozenOrder _ Hnd Hit) as Hfro.
  set (active := filter (fun r => dn r ∉ frozenDrivers st) rows).
  assert (Hcount : (length active + length (omap id slots) = length slots)%nat).
  { rewrite Hperm, Hfro, Hlen, Nat.add_comm, <- length_app.
    apply Permutation_length.
    exact (filter_app_complement (fun r => dn r ∈ frozenDrivers st) rows). }
  destruct (fillHoles_full slots active Hcount) as (l & Hfill & Hl & Hll).
  exists l. split; [exact Hfill|]. split; [|split].
  - rewrite Hl, Hperm, Hfro.
    exact (filter_app_complement (fun r => dn r ∈ frozenDrivers st) rows).
  - apply (fillHoles_order _ slots active l); try done.
    + intros r Hr. rewrite Hperm, Hfro in Hr.
      apply list_elem_of_filter in Hr as [Hr _]. by intros Hn.
    + apply Forall_forall. intros r Hr. by apply list_elem_of_filter in Hr as [Hr _].
  - rewrite Hfill, <- fmap_take. f_equal.
    rewrite <- Hlen, <- Hll. apply take_min_length.
Qed.

Lemma finalRows_rearrangement_witness :
  let st := afterFrames gridCfg (formationFrames ++ [gridFrame]) in
  let rows := boardRows gridCfg gridState in
  NoDup (dn <$> rows) /\ iterationOf [4%N] (frozenDrivers st)
  /\ exists l,
       finalRows st rows [4%N] = Some <$> l
       /\ l ≡ₚ rows
       /\ filter (fun r => dn r ∉ frozenDrivers st) l
          = filter (fun r => dn r ∉ frozenDrivers st) rows
       /\ visibleRows st rows [4%N] = Some <$> take BOARD_MAX_ROWS l.
Proof.
  cbv zeta. set (st := afterFrames gridCfg (formationFrames ++ [gridFrame])).
  set (rows := boardRows gridCfg gridState).
  assert (Hnd : NoDup (dn <$> rows)).
  { assert (E : dn <$> rows
                = N.of_nat <$> [1; 2; 3; 5; 6; 7; 8; 9; 10; 11; 12; 13; 14; 15;
                                16; 17; 18; 19; 20; 4]%nat)
      by (vm_compute; reflexivity).
    rewrite E. apply (bool_decide_unpack _). vm_compute. exact I. }
  assert (Hit : iterationOf [4%N] (frozenDrivers st)).
  { assert (E : frozenDrivers st = {[4%N]}) by (vm_compute; reflexivity).
    rewrite E. split; [apply NoDup_singleton|]. intros d.
    by rewrite list_elem_of_singleton, elem_of_singleton. }
  split; [exact Hnd|]. split; [exact Hit|].
  exact (finalRows_is_a_rearrangement st rows [4%N] Hnd Hit).
Defined.




End VisibleOrderTheorems.

(** ** The viewport fit *)

Section ViewportResults.
Local Open Scope Q_scope.

Lemma foldl_min_le (f : vec2 -> Q) ps m :
  foldl (fun m q => Qmin m (f q)) m ps <= m
  /\ forall q, q ∈ ps -> foldl (fun m q => Qmin m (f q)) m ps <= f q.
Proof.
  revert m. induction ps as [|p ps IH]; intros m; cbn [foldl].
  - split; [lra|]. intros q Hq. by apply elem_of_nil in Hq.
  - destruct (IH (Qmin m (f p))) as [H1 H2]. split.
    + apply Qle_trans with (Qmin m (f p)); [exact H1|apply Q.le_min_l].
    + intros q Hq. apply elem_of_cons in Hq as [->|Hq]; [|by apply H2].
      apply Qle_trans with (Qmin m (f p)); [exact H1|apply Q.le_min_r].
Qed.

Lemma foldl_max_ge (f : vec2 -> Q) ps m :
  m <= foldl (fun m q => Qmax m (f q)) m ps
  /\ forall q, q ∈ ps -> f q <= foldl (fun m q => Qmax m (f q)) m ps.
Proof.
  revert m. induction ps as [|p ps IH]; intros m; cbn [foldl].
  - split; [lra|]. intros q Hq. by apply elem_of_nil in Hq.
  - destruct (IH (Qmax m (f p))) as [H1 H2]. split.
    + apply Qle_trans with (Qmax m (f p)); [apply Q.le_max_l|exact H1].
    + intros q Hq. apply elem_of_cons in Hq as [->|Hq]; [|by apply H2].
      apply Qle_trans with (Qmax m (f p)); [apply Q.le_max_r|exact H1].
Qed.

(** Every sample lies in the world bounds. *)
Lemma worldBounds_hold cfg p :
  p ∈ allPos cfg ->
  let b := worldBounds cfg in
  minX b <= x p <= maxX b /\ minY b <= y p <= maxY b.
Proof.
  intros Hp. cbv zeta. unfold worldBounds.
  destruct (allPos cfg) as [|p0 ps]; [by apply elem_of_nil in Hp|].
  cbn [minX maxX minY maxY].
  destruct (foldl_min_le x ps (x p0)) as [A1 A2].
  destruct (foldl_max_ge x ps (x p0)) as [B1 B2].
  destruct (foldl_min_le y ps (y p0)) as [C1 C2].
  destruct (foldl_max_ge y ps (y p0)) as [D1 D2].
  apply elem_of_cons in Hp as [->|Hp]; [done|].
  repeat split; [by apply A2|by apply B2|by apply C2|by apply D2].
Qed.

(** The fit on one axis: a coordinate inside the bounds lands inside
    the padded span, whichever way the axis points. *)
Lemma fit_axis (lo hi v size other : Q) :
  lo <= v <= hi -> 0 <= size - PADDING * 2 -> 0 <= other ->
  let sc := Qmin ((size - PADDING * 2) / Qmax 1 (hi - lo)) other in
  PADDING <= (v - (lo + hi) / 2) * sc + size / 2 <= size - PADDING
  /\ PADDING <= - (v - (lo + hi) / 2) * sc + size / 2 <= size - PADDING.
Proof.
  intros Hv Hsize Hother sc.
  set (D := Qmax 1 (hi - lo)).
  assert (HD1 : 1 <= D) by apply Q.le_max_l.
  assert (HD2 : hi - lo <= D) by apply Q.le_max_r.
  assert (Hsc0 : 0 <= sc).
  { subst sc. apply Q.min_glb; [|exact Hother].
    apply Qle_shift_div_l; fold D; lra. }
  assert (Hsc : sc * D <= size - PADDING * 2).
  { assert (H : sc <= (size - PADDING * 2) / D) by apply Q.le_min_l.
    apply Qmult_le_compat_r with (z := D) in H; [|lra].
    assert (E : (size - PADDING * 2) / D * D == size - PADDING * 2)
      by (field; lra).
    lra. }
  clearbody sc D. unfold Qdiv in *. change (/ 2) with (1 # 2) in *.
  assert (H1 : 0 <= (D * (1 # 2) - (v - (lo + hi) * (1 # 2))) * sc)
    by (apply Qmult_le_0_compat; lra).
  assert (H2 : 0 <= (D * (1 # 2) + (v - (lo + hi) * (1 # 2))) * sc)
    by (apply Qmult_le_0_compat; lra).
  unfold PADDING in *. split; split; lra.
Qed.

Lemma insidePadded_mapToScreen cfg p :
  PADDING * 2 <= TRACK_VP_w cfg -> PADDING * 2 <= TRACK_VP_h cfg ->
  (let b := worldBounds cfg in
   minX b <= x p <= maxX b /\ minY b <= y p <= maxY b) ->
  let cfg' := rebuildViewportAndLayers cfg in
  let q := mapToScreen cfg' p in
  insidePadded cfg' (Vec2 (TRACK_VP_x cfg' + x q) (TRACK_VP_y cfg' + y q)).
Proof.
  intros Hw Hh [Hx Hy]. cbv zeta. unfold insidePadded, mapToScreen.
  cbn [x y rebuildViewportAndLayers centerX centerY worldScale TRACK_VP_x
       TRACK_VP_y TRACK_VP_w TRACK_VP_h].
  set (b := worldBounds cfg) in *.
  set (sx := (TRACK_VP_w cfg - PADDING * 2) / Qmax 1 (maxX b - minX b)).
  set (sy := (TRACK_VP_h cfg - PADDING * 2) / Qmax 1 (maxY b - minY b)).
  assert (Hsx : 0 <= sx).
  { apply Qle_shift_div_l; [|rewrite Qmult_0_l; lra].
    apply Qlt_le_trans with 1; [reflexivity|apply Q.le_max_l]. }
  assert (Hsy : 0 <= sy).
  { apply Qle_shift_div_l; [|rewrite Qmult_0_l; lra].
    apply Qlt_le_trans with 1; [reflexivity|apply Q.le_max_l]. }
  destruct (fit_axis (minX b) (maxX b) (x p) (TRACK_VP_w cfg) sy Hx) as [[X1 X2] _];
    [lra|exact Hsy|].
  destruct (fit_axis (minY b) (maxY b) (y p) (TRACK_VP_h cfg) sx Hy) as [_ [Y1 Y2]];
    [lra|exact Hsx|].
  fold sx in X1, X2. fold sy in Y1, Y2.
  rewrite (Q.min_comm sy sx) in Y1, Y2.
  repeat split; lra.
Qed.

Lemma samples_in_allPos cfg n arr a :
  n ∈ DRIVER_NUMS cfg -> points cfg !! n = Some arr -> a ∈ arr ->
  pos a ∈ allPos cfg.
Proof.
  intros Hn Harr Ha. unfold allPos. apply list_elem_of_bind.
  exists n. split; [|exact Hn]. rewrite Harr. cbn [default].
  by apply list_elem_of_fmap_2.
Qed.

(** X17. The fit keeps every car in view: once
    [rebuildViewportAndLayers] has set the scale and the centre from
    the world bounds of all samples, and the track viewport is at least
    two paddings wide and high, the raw screen position of every driver
    of [DRIVER_NUMS] lies inside the track viewport, [PADDING] pixels
    away from its edges, at every time. *)
Theorem cars_stay_in_view (cfg : Config) (n : N) (t : Q) (p : vec2) :
  PADDING * 2 <= TRACK_VP_w cfg -> PADDING * 2 <= TRACK_VP_h cfg ->
  n ∈ DRIVER_NUMS cfg ->
  screenPosAt (rebuildViewportAndLayers cfg) n t = Some p ->
  insidePadded (rebuildViewportAndLayers cfg) p.
Proof.
  intros Hw Hh Hn Hp. unfold screenPosAt in Hp.
  change (points (rebuildViewportAndLayers cfg)) with (points cfg) in Hp.
  destruct (points cfg !! n) as [arr|] eqn:Harr; [|done].
  cbn [mbind option_bind] in Hp.
  destruct (samplePosition arr t) as [w|] eqn:Hs; [|done].
  cbn [mbind option_bind] in Hp. injection Hp as <-.
  apply (insidePadded_mapToScreen cfg w Hw Hh). cbv zeta.
  destruct (samplePosition_shape arr t w Hs) as (k & a & Ha & Hshape).
  pose proof (worldBounds_hold cfg (pos a)
                (samples_in_allPos cfg n arr a Hn Harr
                   (list_elem_of_lookup_2 _ _ _ Ha))) as [Hax Hay].
  destruct Hshape as [->|(b & f & Hb & Hf0 & Hf1 & ->)]; [done|].
  pose proof (worldBounds_hold cfg (pos b)
                (samples_in_allPos cfg n arr b Hn Harr
                   (list_elem_of_lookup_2 _ _ _ Hb))) as [Hbx Hby].
  cbv zeta in *. cbn [x y].
  pose proof (lerp_between (x (pos a)) (x (pos b)) f Hf0 Hf1) as [L1 L2].
  pose proof (lerp_between (y (pos a)) (y (pos b)) f Hf0 Hf1) as [L3 L4].
  pose proof (Q.min_glb (x (pos a)) (x (pos b)) (minX (worldBounds cfg))
                (proj1 Hax) (proj1 Hbx)).
  pose proof (Q.max_lub (x (pos a)) (x (pos b)) (maxX (worldBounds cfg))
                (proj2 Hax) (proj2 Hbx)).
  pose proof (Q.min_glb (y (pos a)) (y (pos b)) (minY (worldBounds cfg))
                (proj1 Hay) (proj1 Hby)).
  pose proof (Q.max_lub (y (pos a)) (y (pos b)) (maxY (worldBounds cfg))
                (proj2 Hay) (proj2 Hby)).
  repeat split; lra.
Qed.

Lemma cars_stay_in_view_witness :
  PADDING * 2 <= TRACK_VP_w slopeCfg /\ PADDING * 2 <= TRACK_VP_h slopeCfg
  /\ 16%N ∈ DRIVER_NUMS slopeCfg
  /\ exists p, screenPosAt (rebuildViewportAndLayers slopeCfg) 16%N 4 = Some p
               /\ insidePadded (rebuildViewportAndLayers slopeCfg) p.
Proof.
  assert (Hw : PADDING * 2 <= TRACK_VP_w slopeCfg) by (vm_compute; discriminate).
  assert (Hh : PADDING * 2 <= TRACK_VP_h slopeCfg) by (vm_compute; discriminate).
  assert (Hn : 16%N ∈ DRIVER_NUMS slopeCfg)
    by (apply list_elem_of_further, list_elem_of_here).
  split; [exact Hw|]. split; [exact Hh|]. split; [exact Hn|].
  destruct (screenPosAt (rebuildViewportAndLayers slopeCfg) 16%N 4) as [p|] eqn:Hp;
    [|exfalso; revert Hp; vm_compute; discriminate].
  exists p. split; [reflexivity|].
  exact (cars_stay_in_view slopeCfg 16%N 4 p Hw Hh Hn Hp).
Defined.
End ViewportResults.

(** ** Layout arithmetic *)

Section LayoutResults.
Local Open Scope Q_scope.

(** What one shrinking step does to the column it shrinks: [w] is the
    width, [m] its minimum, [t] the total. *)
Lemma shrink_amount (avail t w m : Q) :
  avail < t ->
  let sh := Qmin (t - avail) (Qmax 0 (w - m)) in
  0 <= sh /\ Qmin w m <= w - sh /\ avail <= t - sh
  /\ (avail < t - sh -> w - sh <= m).
Proof.
  intros Ht sh. subst sh.
  pose proof (Q.max_spec 0 (w - m)) as HM.
  set (M := Qmax 0 (w - m)) in *.
  pose proof (Q.min_spec (t - avail) M) as HS.
  set (S := Qmin (t - avail) M) in *.
  pose proof (Q.min_spec w m) as HW.
  set (W := Qmin w m) in *.
  clearbody M S W.
  destruct HM as [[? ?]|[? ?]], HS as [[? ?]|[? ?]], HW as [[? ?]|[? ?]];
    repeat split; intros; lra.
Qed.

Lemma shrinkDriverStep_spec avail c :
  let c' := shrinkDriverStep avail c in
  gapW c' = gapW c /\ tyreW c' = tyreW c
  /\ totalW c - totalW c' == driverW c - driverW c'
  /\ Qmin (driverW c) DRIVER_MIN <= driverW c' <= driverW c
  /\ (totalW c <= avail -> c' = c)
  /\ (avail < totalW c -> avail <= totalW c')
  /\ (avail < totalW c' -> driverW c' <= DRIVER_MIN).
Proof.
  cbv zeta. unfold shrinkDriverStep.
  pose proof (Q.le_min_l (driverW c) DRIVER_MIN) as Dmin.
  destruct (Qltb avail (totalW c)) eqn:E.
  - apply Qltb_true in E.
    destruct (shrink_amount avail (totalW c) (driverW c) DRIVER_MIN E)
      as (D0 & D1 & D2 & D3).
    cbn [totalW driverW gapW tyreW].
    set (sd := Qmin _ _) in *. clearbody sd.
    repeat split; intros; first [lra | exfalso; lra | by apply D3].
  - apply Qltb_false in E.
    repeat split; intros; first [done | lra].
Qed.

Lemma shrinkGapStep_spec avail c :
  let c' := shrinkGapStep avail c in
  driverW c' = driverW c /\ tyreW c' = tyreW c
  /\ totalW c - totalW c' == gapW c - gapW c'
  /\ Qmin (gapW c) GAP_MIN <= gapW c' <= gapW c
  /\ (totalW c <= avail -> c' = c)
  /\ (avail < totalW c -> avail <= totalW c')
  /\ (avail < totalW c' -> gapW c' <= GAP_MIN).
Proof.
  cbv zeta. unfold shrinkGapStep.
  pose proof (Q.le_min_l (gapW c) GAP_MIN) as Gmin.
  destruct (Qltb avail (totalW c)) eqn:E.
  - apply Qltb_true in E.
    destruct (shrink_amount avail (totalW c) (gapW c) GAP_MIN E)
      as (D0 & D1 & D2 & D3).
    cbn [totalW driverW gapW tyreW].
    set (sg := Qmin _ _) in *. clearbody sg.
    repeat split; intros; first [lra | exfalso; lra | by apply D3].
  - apply Qltb_false in E.
    repeat split; intros; first [done | lra].
Qed.

Lemma shrinkTyreStep_spec showTyre avail c :
  let c' := shrinkTyreStep showTyre avail c in
  driverW c' = driverW c /\ gapW c' = gapW c
  /\ totalW c - totalW c' == tyreW c - tyreW c'
  /\ Qmin (tyreW c) (TYRE_ICON + 4) <= tyreW c' <= tyreW c
  /\ (totalW c <= avail -> c' = c)
  /\ (showTyre = false -> c' = c)
  /\ (avail < totalW c -> avail <= totalW c')
  /\ (avail < totalW c' -> showTyre = true -> tyreW c' <= TYRE_ICON + 4).
Proof.
  cbv zeta. unfold shrinkTyreStep.
  pose proof (Q.le_min_l (tyreW c) (TYRE_ICON + 4)) as Tmin.
  destruct (Qltb avail (totalW c)) eqn:E; cbn [andb].
  - apply Qltb_true in E. destruct showTyre.
    + destruct (shrink_amount avail (totalW c) (tyreW c) (TYRE_ICON + 4) E)
        as (D0 & D1 & D2 & D3).
      cbn [totalW driverW gapW tyreW].
      set (sw := Qmin _ _) in *. clearbody sw.
      repeat split; intros; first [lra | exfalso; lra | discriminate | by apply D3].
    + repeat split; intros; first [done | lra].
  - apply Qltb_false in E.
    repeat split; intros; first [done | lra].
Qed.

(** X18. The column budget of the leaderboard: the running total stays
    the sum of the columns; no column grows, and none is shrunk below
    its minimum (40 for Driver, 60 for Gap, the icon plus 4 for Tyre);
    a table that fits is left alone and one that does not is never
    shrunk below the available width; Gap is touched only when Driver
    is at its minimum, Tyre only when Gap is too; and the table still
    overflows only when every shrinkable column is at its minimum. *)
Theorem columns_shrink_to_fit
    (showTyre : bool) (DELTA_W posW teamW dW gW tW boardW : Q) :
  let avail := boardW - PAD_L - PAD_R in
  let total := columnsTotal showTyre DELTA_W posW teamW dW gW tW in
  let c := shrinkColumns showTyre DELTA_W posW teamW dW gW tW boardW in
  totalW c == columnsTotal showTyre DELTA_W posW teamW
                           (driverW c) (gapW c) (tyreW c)
  /\ (Qmin dW DRIVER_MIN <= driverW c <= dW
      /\ Qmin gW GAP_MIN <= gapW c <= gW
      /\ Qmin tW (TYRE_ICON + 4) <= tyreW c <= tW)
  /\ (total <= avail -> c = mkColumns dW gW tW total)
  /\ (avail < total -> avail <= totalW c)
  /\ (gapW c < gW -> driverW c <= DRIVER_MIN)
  /\ (tyreW c < tW -> driverW c <= DRIVER_MIN /\ gapW c <= GAP_MIN)
  /\ (avail < totalW c ->
      driverW c <= DRIVER_MIN /\ gapW c <= GAP_MIN
      /\ (showTyre = true -> tyreW c <= TYRE_ICON + 4)).
Proof.
  cbv zeta. unfold shrinkColumns.
  set (avail := boardW - PAD_L - PAD_R).
  set (total := columnsTotal showTyre DELTA_W posW teamW dW gW tW).
  set (c0 := mkColumns dW gW tW total).
  set (c1 := shrinkDriverStep avail c0).
  set (c2 := shrinkGapStep avail c1).
  set (c3 := shrinkTyreStep showTyre avail c2).
  destruct (shrinkDriverStep_spec avail c0)
    as (Ag & At & Asum & [Amin Amax] & Akeep & Aavail & Aover).
  destruct (shrinkGapStep_spec avail c1)
    as (Bd & Bt & Bsum & [Bmin Bmax] & Bkeep & Bavail & Bover).
  destruct (shrinkTyreStep_spec showTyre avail c2)
    as (Cd & Cg & Csum & [Cmin Cmax] & Ckeep & Coff & Cavail & Cover).
  fold c1 in Ag, At, Asum, Amin, Amax, Akeep, Aavail, Aover.
  fold c2 in Bd, Bt, Bsum, Bmin, Bmax, Bkeep, Bavail, Bover.
  fold c3 in Cd, Cg, Csum, Cmin, Cmax, Ckeep, Coff, Cavail, Cover.
  clearbody c1 c2 c3.
  change (totalW c0) with total in *. change (driverW c0) with dW in *.
  change (gapW c0) with gW in *. change (tyreW c0) with tW in *.
  rewrite Ag in Bsum, Bmin, Bmax. rewrite Bt, At in Csum, Cmin, Cmax.
  rewrite Cd, Bd. rewrite Cg.
  assert (Hsum : total == columnsTotal showTyre DELTA_W posW teamW dW gW tW)
    by reflexivity.
  assert (Hoff : showTyre = false -> totalW c3 == totalW c2)
    by (intros H; rewrite (Coff H); reflexivity).
  split.
  { unfold columnsTotal in *. clearbody total. destruct showTyre.
    - lra.
    - specialize (Hoff eq_refl). lra. }
  split; [repeat split; lra|].
  split.
  { intros Hfit. assert (H1 : c1 = c0) by (apply Akeep; lra).
    assert (H2 : c2 = c1) by (apply Bkeep; rewrite H1; exact Hfit).
    assert (H3 : c3 = c2) by (apply Ckeep; rewrite H2, H1; exact Hfit).
    by rewrite H3, H2, H1. }
  destruct (Qlt_le_dec avail total) as [H0|H0].
  2:{ assert (H1 : c1 = c0) by (apply Akeep; lra).
      assert (H2 : c2 = c1) by (apply Bkeep; rewrite H1; exact H0).
      assert (H3 : c3 = c2) by (apply Ckeep; rewrite H2, H1; exact H0).
      rewrite H1 in *. clear H1. subst c2 c3.
      change (totalW c0) with total in *. change (driverW c0) with dW in *.
      change (gapW c0) with gW in *. change (tyreW c0) with tW in *.
      repeat split; intros; first [lra | exfalso; lra]. }
  specialize (Aavail H0).
  destruct (Qlt_le_dec avail (totalW c1)) as [H1|H1].
  2:{ assert (H2 : c2 = c1) by (apply Bkeep; lra).
      assert (H3 : c3 = c2) by (apply Ckeep; rewrite H2; lra).
      subst c3 c2. rewrite ?Ag, ?At in *.
      repeat split; intros; first [lra | exfalso; lra]. }
  specialize (Aover H1). specialize (Bavail H1).
  destruct (Qlt_le_dec avail (totalW c2)) as [H2|H2].
  2:{ assert (H3 : c3 = c2) by (apply Ckeep; lra).
      subst c3. rewrite ?Bt, ?At in *.
      repeat split; intros; first [lra | exfalso; lra]. }
  specialize (Bover H2). specialize (Cavail H2).
  repeat split; intros; first [lra | by apply Cover].
Qed.

(** X19. [drawImageCover] covers the box: for an image of non-negative
    size the rectangle handed to [image] contains the box [x, y, w, h],
    has the same centre, fits it exactly in width or in height, and
    keeps the aspect ratio of the image (of 1 by 1 when the image or a
    size is missing). *)
Theorem image_covers_the_box (img : option Image) (bx by_ w h : Q) :
  (forall i, img = Some i -> 0 <= imgWidth i /\ 0 <= imgHeight i) ->
  let r := drawImageCover img bx by_ w h in
  let iw := match img with
            | Some i => if Qeq_bool (imgWidth i) 0 then 1 else imgWidth i
            | None => 1
            end in
  let ih := match img with
            | Some i => if Qeq_bool (imgHeight i) 0 then 1 else imgHeight i
            | None => 1
            end in
  (rx r <= bx /\ bx + w <= rx r + rw r)
  /\ (ry r <= by_ /\ by_ + h <= ry r + rh r)
  /\ (rx r + rw r / 2 == bx + w / 2 /\ ry r + rh r / 2 == by_ + h / 2)
  /\ (rw r == w \/ rh r == h)
  /\ rw r * ih == rh r * iw.
Proof.
  intros Himg. cbv zeta. unfold drawImageCover. cbn [rx ry rw rh].
  set (iw := match img with
             | Some i => if Qeq_bool (imgWidth i) 0 then 1 else imgWidth i
             | None => 1
             end).
  set (ih := match img with
             | Some i => if Qeq_bool (imgHeight i) 0 then 1 else imgHeight i
             | None => 1
             end).
  assert (Hiw : 0 < iw).
  { subst iw. destruct img as [i|]; [|reflexivity].
    destruct (Himg i eq_refl) as [H0 _].
    destruct (Qeq_bool (imgWidth i) 0) eqn:E; [reflexivity|].
    apply Qeq_bool_neq in E. lra. }
  assert (Hih : 0 < ih).
  { subst ih. destruct img as [i|]; [|reflexivity].
    destruct (Himg i eq_refl) as [_ H0].
    destruct (Qeq_bool (imgHeight i) 0) eqn:E; [reflexivity|].
    apply Qeq_bool_neq in E. lra. }
  clearbody iw ih.
  assert (Ew : iw * (w / iw) == w) by (field; lra).
  assert (Eh : ih * (h / ih) == h) by (field; lra).
  set (sc := Qmax (w / iw) (h / ih)).
  assert (Hw : w <= iw * sc).
  { rewrite <- Ew at 1. apply Qmult_le_l; [exact Hiw|apply Q.le_max_l]. }
  assert (Hh : h <= ih * sc).
  { rewrite <- Eh at 1. apply Qmult_le_l; [exact Hih|apply Q.le_max_r]. }
  assert (Hone : iw * sc == w \/ ih * sc == h).
  { subst sc. destruct (Q.max_spec (w / iw) (h / ih)) as [[_ ->]|[_ ->]].
    - right. exact Eh.
    - left. exact Ew. }
  clearbody sc. unfold Qdiv. change (/ 2) with (1 # 2).
  repeat split; first [lra | exact Hone | ring].
Qed.

Lemma image_covers_the_box_witness :
  let r := drawImageCover (Some (mkImage 1920 1080)) 0 0 1000 1000 in
  (rx r <= 0 /\ 0 + 1000 <= rx r + rw r) /\ rh r == 1000.
Proof.
  cbv zeta.
  assert (Himg : forall i, Some (mkImage 1920 1080) = Some i ->
                           0 <= imgWidth i /\ 0 <= imgHeight i).
  { intros i [= <-]. split; discriminate. }
  split; [|vm_compute; reflexivity].
  exact (proj1 (image_covers_the_box (Some (mkImage 1920 1080)) 0 0 1000 1000
                  Himg)).
Defined.

Lemma jsRound_near v : jsRound v <= v + (1 # 2) /\ v - (1 # 2) < jsRound v.
Proof.
  unfold jsRound. split; [apply Qfloor_le|].
  pose proof (Qlt_floor (v + (1 # 2))) as H.
  rewrite inject_Z_plus in H. change (inject_Z 1) with 1 in H. lra.
Qed.

Lemma jsRound_mono u v : u <= v -> jsRound u <= jsRound v.
Proof.
  intros H. unfold jsRound. rewrite <- Zle_Qle. apply Qfloor_resp_le. lra.
Qed.

Lemma jsRound_int (z : Z) v : v == inject_Z z -> jsRound v == inject_Z z.
Proof.
  intros H. unfold jsRound.
  assert (E : Qfloor (v + (1 # 2)) = z); [|by rewrite E].
  apply Z.le_antisymm.
  - apply Z.lt_succ_r. rewrite Zlt_Qlt.
    apply Qle_lt_trans with (v + (1 # 2)); [apply Qfloor_le|].
    unfold Z.succ. rewrite inject_Z_plus. change (inject_Z 1) with 1. lra.
  - assert (E : z = Qfloor (inject_Z z)) by (by rewrite Qfloor_Z).
    rewrite E at 1. apply Qfloor_resp_le. lra.
Qed.

(** X20. [computeLayout] on a canvas at least 600 wide and 41 high: the
    board is 380 to 560 wide, within half a pixel of 28 percent of the
    canvas where that lies in this range; the track viewport starts 100
    pixels right of the board, is at least 80 wide and ends 20 pixels
    from the right edge of the canvas; both panels run from 20 pixels
    below the top to 20 pixels above the bottom. *)
Theorem layout_fits_canvas (width height : Q) :
  600 <= width -> 41 <= height ->
  let b := BOARD_VP width height in
  let t := TRACK_VP width height in
  (rx b == 20 /\ ry b == 20 /\ ry t == 20)
  /\ 380 <= rw b <= 560
  /\ (380 <= width * 0.28 <= 560 ->
      width * 0.28 - (1 # 2) < rw b <= width * 0.28 + (1 # 2))
  /\ rx t == rx b + rw b + 100
  /\ (80 <= rw t /\ rx t + rw t == width - 20)
  /\ (1 <= rh b /\ rh t == rh b /\ ry b + rh b == height - 20).
Proof.
  intros Hw Hh. cbv zeta. unfold BOARD_VP, TRACK_VP, computeLayout.
  cbn [fst snd rx ry rw rh].
  set (c := constrain (width * 0.28) 380 560).
  destruct (constrain_bounds (width * 0.28) 380 560) as [Hc1 Hc2]; [lra|].
  fold c in Hc1, Hc2.
  destruct (jsRound_near c) as [Hr1 Hr2].
  assert (H380 : 380 <= jsRound c).
  { rewrite <- (jsRound_int 380 380) by reflexivity. by apply jsRound_mono. }
  assert (H560 : jsRound c <= 560).
  { rewrite <- (jsRound_int 560 560) by reflexivity. by apply jsRound_mono. }
  assert (Hroom : jsRound c <= width - 220).
  { destruct (Qlt_le_dec 380 (width * 0.28)) as [Hbig|Hsmall].
    - assert (Hc : c <= width * 0.28).
      { subst c. unfold constrain. apply Q.max_lub; [apply Q.le_min_l|lra]. }
      lra.
    - assert (Hc : c == 380)
        by (subst c; apply constrain_below; lra).
      rewrite (jsRound_int 380 c) by exact Hc.
      change (inject_Z 380) with 380. lra. }
  assert (Hmid : 380 <= width * 0.28 <= 560 ->
                 width * 0.28 - (1 # 2) < jsRound c <= width * 0.28 + (1 # 2)).
  { intros [? ?]. assert (Hc : c == width * 0.28)
      by (subst c; apply constrain_inside; lra).
    lra. }
  clearbody c.
  assert (Ht : Qmax 1 (width - (20 + jsRound c + 100) - 20)
               == width - (20 + jsRound c + 100) - 20) by (apply Q.max_r; lra).
  assert (Hhh : Qmax 1 (height - 20 * 2) == height - 20 * 2)
    by (apply Q.max_r; lra).
  rewrite Ht, Hhh. repeat split; lra.
Qed.

Lemma layout_fits_canvas_witness :
  let b := BOARD_VP 1920 1080 in
  let t := TRACK_VP 1920 1080 in
  (600 <= 1920 /\ 41 <= 1080)
  /\ (rw b == 538 /\ rx t == 658 /\ rw t == 1242)
  /\ (rx b == 20 /\ ry b == 20 /\ ry t == 20)
  /\ 380 <= rw b <= 560.
Proof.
  cbv zeta.
  assert (Hw : 600 <= 1920) by discriminate.
  assert (Hh : 41 <= 1080) by discriminate.
  split; [split; [exact Hw|exact Hh]|].
  split; [repeat split; vm_compute; reflexivity|].
  destruct (layout_fits_canvas 1920 1080 Hw Hh) as (H1 & H2 & _).
  split; [exact H1|exact H2].
Defined.
End LayoutResults.

(** ** Truncated text *)

Section TruncatedTextResults.
Local Open Scope Q_scope.
Variable textWidth : list N -> Q.

Lemma mid_between (lo hi : nat) :
  (lo < hi)%nat -> (lo < (lo + hi + 1) / 2 <= hi)%nat.
Proof.
  intros H.
  split; [apply Nat.div_le_lower_bound|apply Nat.Div0.div_le_upper_bound]; lia.
Qed.

Lemma truncLoop_spec txt maxW fuel lo hi :
  (lo <= hi)%nat -> (hi - lo <= fuel)%nat ->
  let fits j := textWidth (withEllipsis txt j) <= maxW in
  let k := truncLoop textWidth fuel txt maxW lo hi in
  (lo <= k <= hi)%nat
  /\ (k = lo \/ fits k)
  /\ ((forall i j, (i <= j <= length txt)%nat ->
                   textWidth (withEllipsis txt i) <= textWidth (withEllipsis txt j)) ->
      (forall j, (hi < j <= length txt)%nat -> ~ fits j) ->
      forall j, (k < j <= length txt)%nat -> ~ fits j).
Proof.
  revert lo hi. induction fuel as [|fuel IH]; intros lo hi Hle Hfuel; cbv zeta.
  - cbn [truncLoop]. assert (hi = lo) by lia. subst hi.
    split; [lia|]. split; [by left|]. intros _ H. exact H.
  - cbn [truncLoop]. destruct (Nat.ltb_spec lo hi) as [Hlt|Hge].
    2:{ assert (hi = lo) by lia. subst hi.
        split; [lia|]. split; [by left|]. intros _ H. exact H. }
    destruct (mid_between lo hi Hlt) as [Hm1 Hm2].
    set (mid := ((lo + hi + 1) / 2)%nat) in *.
    destruct (Qleb (textWidth (withEllipsis txt mid)) maxW) eqn:E.
    + apply Qleb_true in E.
      destruct (IH mid hi Hm2 ltac:(lia)) as (K1 & K2 & K3).
      split; [lia|]. split; [|exact K3].
      right. destruct K2 as [->|K2]; [exact E|exact K2].
    + apply Qleb_false in E.
      destruct (IH lo (mid - 1)%nat ltac:(lia) ltac:(lia)) as (K1 & K2 & K3).
      split; [lia|]. split; [exact K2|].
      intros Hmono Hhi. apply K3; [exact Hmono|].
      intros j Hj Hfit.
      assert (Hmj : (mid <= j <= length txt)%nat) by lia.
      pose proof (Hmono mid j Hmj). lra.
Qed.

Lemma truncLoop_fuel txt maxW f1 f2 lo hi :
  (hi - lo <= f1)%nat -> (hi - lo <= f2)%nat ->
  truncLoop textWidth f1 txt maxW lo hi = truncLoop textWidth f2 txt maxW lo hi.
Proof.
  revert f2 lo hi. induction f1 as [|f1 IH]; intros f2 lo hi H1 H2.
  - destruct f2 as [|f2]; [done|]. cbn [truncLoop].
    destruct (Nat.ltb_spec lo hi); [lia|done].
  - destruct f2 as [|f2]; cbn [truncLoop].
    + destruct (Nat.ltb_spec lo hi); [lia|done].
    + destruct (Nat.ltb_spec lo hi) as [Hlt|?]; [|done].
      destruct (mid_between lo hi Hlt) as [Hm1 Hm2].
      set (mid := ((lo + hi + 1) / 2)%nat) in *.
      destruct (Qleb _ _); apply IH; lia.
Qed.

(** X21. What [drawTruncatedText] draws.  With no room ([maxW <= 0]) it
    draws nothing; a text that fits is drawn as it is; otherwise a
    prefix of the text followed by an ellipsis is drawn, and that string
    fits in [maxW] unless it is the bare ellipsis.  When a longer prefix
    with the ellipsis is never narrower than a shorter one, the prefix
    drawn is the longest that fits with the ellipsis.  The binary search
    ends within as many turns as the text has code units. *)
Theorem truncated_text_fits (txt : list N) (maxW : Q) :
  (maxW <= 0 -> drawTruncatedText textWidth txt maxW = None)
  /\ (0 < maxW -> textWidth txt <= maxW ->
      drawTruncatedText textWidth txt maxW = Some txt)
  /\ (0 < maxW -> maxW < textWidth txt ->
      exists k,
        (k <= length txt)%nat
        /\ drawTruncatedText textWidth txt maxW = Some (take k txt ++ ell)
        /\ (k = 0%nat \/ textWidth (take k txt ++ ell) <= maxW)
        /\ ((forall i j, (i <= j <= length txt)%nat ->
               textWidth (take i txt ++ ell) <= textWidth (take j txt ++ ell)) ->
            forall j, (k < j <= length txt)%nat ->
                      maxW < textWidth (take j txt ++ ell)))
  /\ (forall fuel, (length txt <= fuel)%nat ->
        truncLoop textWidth fuel txt maxW 0 (length txt)
        = truncLoop textWidth (length txt) txt maxW 0 (length txt)).
Proof.
  unfold drawTruncatedText. split; [|split; [|split]];
    [| | |intros fuel Hf; apply truncLoop_fuel; lia].
  - intros H. apply Qleb_true in H. by rewrite H.
  - intros H0 H1. apply Qleb_false in H0. apply Qleb_true in H1.
    by rewrite H0, H1.
  - intros H0 H1. apply Qleb_false in H0. apply Qleb_false in H1.
    rewrite H0, H1.
    destruct (truncLoop_spec txt maxW (length txt) 0 (length txt))
      as (K1 & K2 & K3); [lia|lia|].
    set (k := truncLoop textWidth (length txt) txt maxW 0 (length txt)) in *.
    exists k. split; [lia|]. split; [done|]. split; [exact K2|].
    intros Hmono j Hj.
    destruct (Qlt_le_dec maxW (textWidth (take j txt ++ ell))) as [?|Hfit]; [done|].
    exfalso. apply (K3 Hmono) with (j := j); [|exact Hj|exact Hfit].
    intros j' Hj'. lia.
Qed.

End TruncatedTextResults.

(** ** The lap of the header *)

Section HeaderLapResults.
Local Open Scope Z_scope.

Lemma numericLap_le c c' b : 0 <= c <= c' -> numericLap c b <= numericLap c' b.
Proof.
  intros H. unfold numericLap.
  destruct b; destruct (Z.eqb_spec c 0); destruct (Z.eqb_spec c' 0); lia.
Qed.

Lemma numericLap_pos c b : 0 <= c -> 1 <= numericLap c b.
Proof. intros H. unfold numericLap. destruct b; destruct (Z.eqb_spec c 0); lia. Qed.

(** The maximum the header loop computes, over any list of keys. *)
Lemma headerLoop_spec (f : N -> Z) (ks : list N) (m : Z) :
  let r := foldl (fun mx k => if mx <? f k then f k else mx) m ks in
  m <= r /\ (forall k, k ∈ ks -> f k <= r) /\ (r = m \/ exists k, k ∈ ks /\ r = f k).
Proof.
  revert m. induction ks as [|k ks IH]; intros m; cbv zeta; cbn [foldl].
  - split; [lia|]. split; [|by left]. intros k Hk. by apply elem_of_nil in Hk.
  - destruct (IH (if m <? f k then f k else m)) as (H1 & H2 & H3).
    set (r := foldl _ _ ks) in *.
    destruct (Z.ltb_spec m (f k)) as [Hlt|Hge].
    + split; [lia|]. split.
      * intros k' Hk'. apply elem_of_cons in Hk' as [->|Hk']; [lia|by apply H2].
      * right. destruct H3 as [->|(k' & Hk' & ->)].
        -- exists k. split; [apply list_elem_of_here|done].
        -- exists k'. split; [by apply list_elem_of_further|done].
    + split; [lia|]. split.
      * intros k' Hk'. apply elem_of_cons in Hk' as [->|Hk']; [lia|by apply H2].
      * destruct H3 as [->|(k' & Hk' & ->)]; [by left|].
        right. exists k'. split; [by apply list_elem_of_further|done].
Qed.

Lemma lapHeaderNumeric_spec cfg st :
  let lapOf d := numericLap (default 0 (lapCounts st !! d))
                            (bool_decide (d ∈ PIT_START_DRIVERS cfg)) in
  1 <= lapHeaderNumeric cfg st
  /\ (forall d, lapHeaderNumeric cfg st < lapOf d -> lapCounts st !! d = None)
  /\ (lapHeaderNumeric cfg st = 1
      \/ exists d, is_Some (lapCounts st !! d) /\ lapHeaderNumeric cfg st = lapOf d).
Proof.
  cbv zeta. unfold lapHeaderNumeric.
  destruct (headerLoop_spec
              (fun k => numericLap (default 0 (lapCounts st !! k))
                                   (bool_decide (k ∈ PIT_START_DRIVERS cfg)))
              (jsKeys (lapCounts st)) 1) as (H1 & H2 & H3).
  cbv zeta in H1, H2, H3. split; [exact H1|]. split.
  - intros d Hd. destruct (lapCounts st !! d) as [c|] eqn:E; [|done].
    exfalso. assert (Hin : d ∈ jsKeys (lapCounts st)).
    { apply elem_of_jsKeys, elem_of_dom. by eexists. }
    specialize (H2 d Hin). cbn beta in H2. rewrite E in H2. lia.
  - destruct H3 as [H3|(k & Hk & H3)]; [by left|]. right. exists k.
    split; [|exact H3]. by apply elem_of_jsKeys, elem_of_dom in Hk.
Qed.

(** X22. The lap shown in the header: in a session [lapHeaderNumeric]
    is at least 1, it is at least the lap number of every driver (the
    [numericLap] of its lap count), it is the lap number of some driver
    of the ledger unless it is 1, and over any run of frames it never
    goes down. *)
Theorem header_lap_never_goes_down
    (cfg : Config) (fs : list Frame) (st st' : State) :
  reachable cfg st -> runFrames cfg fs st = Some st' ->
  let lapOf s d := numericLap (default 0 (lapCounts s !! d))
                              (bool_decide (d ∈ PIT_START_DRIVERS cfg)) in
  1 <= lapHeaderNumeric cfg st <= lapHeaderNumeric cfg st'
  /\ (forall d, lapOf st' d <= lapHeaderNumeric cfg st')
  /\ (lapHeaderNumeric cfg st' = 1
      \/ exists d, is_Some (lapCounts st' !! d)
                   /\ lapHeaderNumeric cfg st' = lapOf st' d).
Proof.
  intros Hr Hrun. cbv zeta.
  pose proof (runFrames_advances _ _ _ _ Hrun) as Ha.
  pose proof (binv_laps _ _ (reachable_board _ _ Hr)) as Hpos.
  destruct (lapHeaderNumeric_spec cfg st) as (A1 & A2 & A3).
  destruct (lapHeaderNumeric_spec cfg st') as (B1 & B2 & B3).
  cbv zeta in *.
  assert (Hall : forall d,
             numericLap (default 0 (lapCounts st' !! d))
                        (bool_decide (d ∈ PIT_START_DRIVERS cfg))
             <= lapHeaderNumeric cfg st').
  { intros d. destruct (Z.le_gt_cases
                (numericLap (default 0 (lapCounts st' !! d))
                            (bool_decide (d ∈ PIT_START_DRIVERS cfg)))
                (lapHeaderNumeric cfg st')) as [?|Hgt]; [done|].
    rewrite (B2 d ltac:(lia)) in Hgt |- *. cbn [default] in *.
    unfold numericLap in *. destruct (bool_decide _); cbn in *; lia. }
  split; [|split; [exact Hall|exact B3]].
  split; [exact A1|].
  destruct A3 as [->|(d & _ & ->)]; [exact B1|].
  apply Z.le_trans with
    (numericLap (default 0 (lapCounts st' !! d))
                (bool_decide (d ∈ PIT_START_DRIVERS cfg))); [|apply Hall].
  apply numericLap_le. split; [apply Hpos|apply (adv_laps _ _ Ha)].
Qed.

Lemma header_lap_witness :
  let st := afterFrames sprintCfg beforeLineFrames in
  let st' := afterFrames sprintCfg sprintFrames in
  lapCounts st' !! 1%N = Some 1
  /\ 1 <= lapHeaderNumeric sprintCfg st <= lapHeaderNumeric sprintCfg st'.
Proof.
  cbv zeta.
  set (st := afterFrames sprintCfg beforeLineFrames).
  set (st' := afterFrames sprintCfg sprintFrames).
  assert (Hr : reachable sprintCfg st).
  { apply afterFrames_reachable. repeat constructor; vm_compute; discriminate. }
  assert (Hrun : runFrames sprintCfg [lineFrame] st = Some st')
    by (vm_compute; reflexivity).
  split; [vm_compute; reflexivity|].
  exact (proj1 (header_lap_never_goes_down sprintCfg [lineFrame] st st' Hr Hrun)).
Defined.
End HeaderLapResults.

(** ** Tyre stints *)

Section StintResults.
Local Open Scope Z_scope.
Context {Compound : Type}.
Implicit Types (s : Stint Compound) (arr : list (Stint Compound)).
Implicit Types rows : list (option N * Stint Compound).

Lemma byLapStart_before (a b : Stint Compound) : before byLapStart a b <-> lap_start a <= lap_start b.
Proof.
  unfold before, byLapStart. rewrite Zle_Qle. split; intros H; lra.
Qed.

(** The arrays after the pushes: the rows of each driver, in row order. *)
Lemma pushed_rows rows d :
  foldl pushStint ∅ rows !! d
  = match rowsOf rows d with [] => None | l => Some l end.
Proof.
  induction rows as [|r rows IH] using rev_ind; [done|].
  rewrite foldl_app. cbn [foldl]. unfold rowsOf in *. rewrite omap_app.
  cbn [omap list_omap]. unfold pushStint at 1.
  destruct r as [[d'|] s]; cbn [fst snd].
  - destruct (decide (d' = d)) as [->|Hne].
    + rewrite lookup_insert_eq, IH. rewrite decide_True by done.
      by destruct (omap _ rows).
    + rewrite lookup_insert_ne by done. rewrite IH.
      rewrite decide_False by congruence. by rewrite app_nil_r.
  - rewrite IH. rewrite decide_False by done. by rewrite app_nil_r.
Qed.

(** [stintsByDriver[d]]: the rows of [d], sorted by [lap_start]. *)
Lemma buildStints_lookup rows d arr :
  buildStints rows !! d = Some arr ->
  arr <> [] /\ arr ≡ₚ rowsOf rows d
  /\ StronglySorted (fun a b : Stint Compound => lap_start a <= lap_start b) arr.
Proof.
  unfold buildStints. rewrite lookup_fmap, pushed_rows.
  destruct (rowsOf rows d) as [|s l] eqn:E; [done|].
  cbn [fmap option_fmap option_map]. intros Harr.
  assert (arr = sortBy byLapStart (s :: l)) by congruence. subst arr. clear Harr.
  split; [|split].
  - intros H. by apply sortBy_nil_inv in H.
  - apply sortBy_perm.
  - assert (Htot : forall a b : Stint Compound,
               ~ before byLapStart a b -> before byLapStart b a).
    { intros a b H. apply byLapStart_before.
      assert (~ lap_start a <= lap_start b)
        by (intros H'; apply H; by apply byLapStart_before).
      lia. }
    assert (Htrans : forall a b c : Stint Compound,
               before byLapStart a b -> before byLapStart b c ->
               before byLapStart a c).
    { intros a b c. rewrite !byLapStart_before. lia. }
    pose proof (sortBy_sorted byLapStart Htot Htrans (s :: l)) as Hs.
    induction Hs as [|a l' Hs IH Hall]; constructor; [exact IH|].
    eapply Forall_impl; [exact Hall|]. intros b Hb. by apply byLapStart_before.
Qed.

Lemma buildStints_None rows d :
  buildStints rows !! d = None -> rowsOf rows d = [].
Proof.
  unfold buildStints. rewrite lookup_fmap, pushed_rows.
  by destruct (rowsOf rows d).
Qed.

Lemma coveringStint_Some arr lapNum s :
  coveringStint arr lapNum = Some s ->
  s ∈ arr /\ lap_start s <= lapNum <= lap_end s.
Proof.
  unfold coveringStint. intros H. apply head_Some_elem_of in H.
  by apply list_elem_of_filter in H as [? ?].
Qed.

Lemma coveringStint_None arr lapNum :
  coveringStint arr lapNum = None ->
  forall s, s ∈ arr -> ~ (lap_start s <= lapNum <= lap_end s).
Proof.
  unfold coveringStint. intros H s Hs Hc. apply head_None in H.
  by apply (filter_nil_not_elem_of _ _ s H).
Qed.

Lemma bestStint_snoc arr s lapNum :
  bestStint (arr ++ [s]) lapNum
  = if bool_decide (lap_start s <= lapNum) then Some s else bestStint arr lapNum.
Proof. unfold bestStint. by rewrite foldl_app. Qed.

Lemma bestStint_spec arr lapNum :
  StronglySorted (fun a b : Stint Compound => lap_start a <= lap_start b) arr ->
  match bestStint arr lapNum with
  | Some s => s ∈ arr /\ lap_start s <= lapNum
              /\ forall s', s' ∈ arr -> lap_start s' <= lapNum ->
                            lap_start s' <= lap_start s
  | None => forall s', s' ∈ arr -> lapNum < lap_start s'
  end.
Proof.
  induction arr as [|s arr IH] using rev_ind; intros Hs.
  - cbn. intros s' Hs'. by apply elem_of_nil in Hs'.
  - rewrite bestStint_snoc. apply StronglySorted_app in Hs as (Hlt & Hs & _).
    specialize (IH Hs). case_bool_decide as Hd.
    + split; [apply elem_of_app; right; apply list_elem_of_here|].
      split; [exact Hd|]. intros s' Hs' _.
      apply elem_of_app in Hs' as [Hs'|Hs'].
      * apply Hlt; [exact Hs'|apply list_elem_of_here].
      * apply list_elem_of_singleton in Hs'. by subst s'.
    + destruct (bestStint arr lapNum) as [b|].
      * destruct IH as (Hb1 & Hb2 & Hb3). split; [apply elem_of_app; by left|].
        split; [exact Hb2|]. intros s' Hs' Hle.
        apply elem_of_app in Hs' as [Hs'|Hs']; [by apply Hb3|].
        apply list_elem_of_singleton in Hs'. subst s'. lia.
      * intros s' Hs'. apply elem_of_app in Hs' as [Hs'|Hs']; [by apply IH|].
        apply list_elem_of_singleton in Hs'. subst s'. lia.
Qed.

(** X23. Tyre compound and tyre age come from the same stint.  With
    [stintsByDriver] as [setup] builds it from the rows of stints.csv:
    no age is returned exactly when no row of the driver starts at or
    before the lap, and then no compound is returned either; otherwise
    one row of the driver, started at or before the lap, gives both the
    compound and the age, the age being the laps since the start of
    that stint plus its starting age; that row covers the lap, or no
    row of the driver covers the lap and it is a row with the latest
    start at or before the lap. *)
Theorem tyre_from_one_stint
    rows (d : N) (lapNum : Z) :
  let stints := buildStints rows in
  let mine := rowsOf rows d in
  (currentTyreAgeForDriver stints d lapNum = None
   <-> forall s, s ∈ mine -> lapNum < lap_start s)
  /\ (currentTyreAgeForDriver stints d lapNum = None ->
      currentCompoundForDriver stints d lapNum = None)
  /\ (forall a, currentTyreAgeForDriver stints d lapNum = Some a ->
        exists s,
          s ∈ mine /\ lap_start s <= lapNum
          /\ a = (lapNum - lap_start s) + baseAge s
          /\ currentCompoundForDriver stints d lapNum = compound s
          /\ (lapNum <= lap_end s
              \/ (forall s', s' ∈ mine ->
                             ~ (lap_start s' <= lapNum <= lap_end s'))
                 /\ forall s', s' ∈ mine -> lap_start s' <= lapNum ->
                               lap_start s' <= lap_start s)).
Proof.
  cbv zeta. unfold currentTyreAgeForDriver, currentCompoundForDriver.
  destruct (buildStints rows !! d) as [arr|] eqn:E.
  2:{ apply buildStints_None in E. rewrite E. split; [|split]; try done.
      split; [|done]. intros _ s Hs. by apply elem_of_nil in Hs. }
  destruct (buildStints_lookup rows d arr E) as (Hne & Hperm & Hsorted).
  destruct arr as [|s0 arr0] eqn:Earr; [done|]. rewrite <- Earr in *.
  clear Hne. pose proof (bestStint_spec arr lapNum Hsorted) as Hbest.
  destruct (coveringStint arr lapNum) as [s|] eqn:Ec.
  - apply coveringStint_Some in Ec as [Hin Hcov]. rewrite Hperm in Hin.
    split; [|split]; try done.
    + split; [done|]. intros H. specialize (H s Hin). lia.
    + intros a [= <-]. exists s. split; [exact Hin|]. split; [lia|].
      split; [done|]. split; [done|]. left. lia.
  - pose proof (coveringStint_None _ _ Ec) as Hnc.
    destruct (bestStint arr lapNum) as [b|].
    + destruct Hbest as (Hb1 & Hb2 & Hb3). rewrite Hperm in Hb1.
      split; [|split]; try done.
      * split; [done|]. intros H. specialize (H b Hb1). lia.
      * intros a [= <-]. exists b. split; [exact Hb1|]. split; [exact Hb2|].
        split; [done|]. split; [done|]. right. split.
        -- intros s' Hs'. apply Hnc. by rewrite Hperm.
        -- intros s' Hs'. apply Hb3. by rewrite Hperm.
    + split; [|split]; try done. split; [|done].
      intros _ s Hs. apply Hbest. by rewrite Hperm.
Qed.
End StintResults.

(** ** Controls *)

Section ControlsResults.
Local Open Scope Q_scope.
Variable dist : Q -> Q -> Q -> Q -> Q.

Lemma mousePressed_speed p u :
  let u' := Controls.mousePressed dist p u in
  (Controls.playbackSpeed u', Controls.speedIndex u')
  = (Controls.playbackSpeed u, Controls.speedIndex u)
  \/ (Controls.playbackSpeed u', Controls.speedIndex u')
     ∈ [(1, 0%Z); (2, 1%Z); (5, 2%Z); (10, 3%Z); (20, 4%Z)].
Proof.
  cbv zeta. unfold Controls.mousePressed, Controls.startSwitch, Controls.selectByClick.
  repeat match goal with
         | |- context [if ?c then _ else _] => destruct c
         | |- context [match ?c with _ => _ end] => destruct c
         end;
    first [by left | right; set_solver].
Qed.

Lemma uiStep_speedOk u e : speedOk u -> speedOk (Controls.uiStep dist u e).
Proof.
  intros H. destruct e as [p|k|dt]; cbn [Controls.uiStep].
  - unfold speedOk. destruct (mousePressed_speed p u) as [->|H']; [exact H|exact H'].
  - unfold Controls.keyPressed. by destruct (_ =? _)%Z.
  - unfold Controls.drawControls.
    assert (Hc : constrain (Controls.playbackSpeed u) 1 20 = Controls.playbackSpeed u).
    { unfold speedOk in H. destruct u as [? ? ? ? sp ix ? ? ?]. cbn in *.
      repeat (apply elem_of_cons in H as [H|H]; [by injection H as -> ->|]).
      by apply elem_of_nil in H. }
    cbv zeta. destruct (Controls.vsActive _); unfold speedOk; cbn; by rewrite Hc.
Qed.

(** X24. The speed the replay runs at is always the preset the header
    shows: after any sequence of clicks, key presses and frames
    [playbackSpeed] is one of [SPEED_PRESETS], [speedIndex] is its index
    there, and the clamp of [draw] to the range 1..20 leaves it as it
    is. *)
Theorem speed_is_the_preset_shown (es : list Controls.UiEvent) :
  let u := Controls.uiRun dist es Controls.initialUi in
  Controls.SPEED_PRESETS !! Z.to_nat (Controls.speedIndex u)
  = Some (Controls.playbackSpeed u)
  /\ (0 <= Controls.speedIndex u)%Z
  /\ Controls.speedIndex u = Controls.indexOf (Controls.playbackSpeed u)
  /\ forall ms playing,
       frameSpeed (mkFrame ms playing (Controls.playbackSpeed u))
       = Controls.playbackSpeed u.
Proof.
  cbv zeta.
  assert (H : speedOk (Controls.uiRun dist es Controls.initialUi)).
  { unfold Controls.uiRun. apply foldl_inv.
    - intros a b. apply uiStep_speedOk.
    - unfold speedOk. cbn. set_solver. }
  set (u := Controls.uiRun dist es Controls.initialUi) in *. clearbody u.
  unfold speedOk in H. destruct u as [? ? ? ? sp ix ? ? ?]. cbn in *.
  repeat (apply elem_of_cons in H as [H|H];
          [injection H as -> ->; repeat split; (reflexivity || lia)|]).
  by apply elem_of_nil in H.
Qed.

(** A click leaves the view and its switch alone, or starts a switch
    to the other view. *)
Lemma mousePressed_view p u :
  let u' := Controls.mousePressed dist p u in
  (Controls.viewMode u' = Controls.viewMode u
   /\ Controls.viewSwitch u' = Controls.viewSwitch u)
  \/ exists target, Controls.viewMode u <> target
                    /\ u' = Controls.startSwitch target u.
Proof.
  cbv zeta. unfold Controls.mousePressed. cbv zeta.
  destruct (Controls.pointInRect _ _ (Controls.bgL _)); [by left|].
  destruct (Controls.pointInRect _ _ (Controls.bgR _)); [by left|].
  destruct (_ && negb (Controls.View_eqb _ Controls.TRACK)) eqn:E1.
  { right. exists Controls.TRACK. split; [|reflexivity].
    intros Hv. rewrite Hv in E1. cbn in E1. by rewrite andb_false_r in E1. }
  destruct (_ && negb (Controls.View_eqb _ Controls.CHART)) eqn:E2.
  { right. exists Controls.CHART. split; [|reflexivity].
    intros Hv. rewrite Hv in E2. cbn in E2. by rewrite andb_false_r in E2. }
  left. unfold Controls.selectByClick.
  repeat match goal with
         | |- context [if ?c then _ else _] => destruct c eqn:?
         | |- context [match ?c with _ => _ end] => destruct c eqn:?
         end; cbn; split; first [reflexivity | congruence].
Qed.

Lemma startSwitch_viewOk target u :
  Controls.viewMode u <> target -> viewOk u ->
  viewOk (Controls.startSwitch target u).
Proof.
  intros Hne Hok. unfold Controls.startSwitch.
  destruct (Controls.vsActive (Controls.viewSwitch u)); [exact Hok|].
  unfold viewOk. cbn. split; [done|]. split; [done|]. intros _.
  split; [exact Hne|reflexivity].
Qed.

Lemma mousePressed_viewOk p u :
  viewOk u -> viewOk (Controls.mousePressed dist p u).
Proof.
  intros Hok. destruct (mousePressed_view p u) as [[E1 E2]|(target & Hne & E)].
  - unfold viewOk in *. by rewrite E1, E2.
  - rewrite E. by apply startSwitch_viewOk.
Qed.

Lemma drawControls_viewOk dt u :
  viewOk u -> viewOk (Controls.drawControls dt u).
Proof.
  intros (H1 & H2 & H3). unfold Controls.drawControls. cbv zeta.
  cbn [Controls.viewMode Controls.viewSwitch Controls.set_speed].
  destruct (Controls.vsActive (Controls.viewSwitch u)) eqn:Ea.
  2:{ unfold viewOk.
      cbn [Controls.viewMode Controls.viewSwitch Controls.set_speed].
      rewrite Ea. split; [exact H1|]. split; [exact H2|]. intros [=]. }
  destruct (H3 eq_refl) as [Hne Ht].
  unfold viewOk.
  cbn [Controls.viewMode Controls.viewSwitch Controls.vsActive
       Controls.vsFrom Controls.vsTo Controls.vsT Controls.vsDur
       Controls.vsSwitched Controls.set_viewMode Controls.set_viewSwitch
       Controls.set_speed].
  split; [|split; [exact H2|]].
  - destruct (Controls.vsSwitched (Controls.viewSwitch u)) eqn:Es; cbn [negb andb].
    + exact H1.
    + by destruct (Qleb _ _).
  - destruct (Qleb (Controls.vsDur (Controls.viewSwitch u)) _) eqn:El; [intros [=]|].
    intros _. split; [exact Hne|]. by apply Qleb_false in El.
Qed.

Lemma uiStep_viewOk u e : viewOk u -> viewOk (Controls.uiStep dist u e).
Proof.
  intros H. destruct e as [p|k|dt]; cbn [Controls.uiStep].
  - by apply mousePressed_viewOk.
  - unfold Controls.keyPressed. by destruct (_ =? _)%Z.
  - by apply drawControls_viewOk.
Qed.

Lemma drawControls_idle dt u :
  Controls.vsActive (Controls.viewSwitch u) = false ->
  Controls.viewSwitch (Controls.drawControls dt u) = Controls.viewSwitch u
  /\ Controls.viewMode (Controls.drawControls dt u) = Controls.viewMode u.
Proof.
  intros H. unfold Controls.drawControls. cbv zeta.
  cbn [Controls.viewMode Controls.viewSwitch Controls.set_speed]. by rewrite H.
Qed.

Lemma frames_idle (dts : list Q) u :
  Controls.vsActive (Controls.viewSwitch u) = false ->
  let u' := Controls.uiRun dist (Controls.Drawn <$> dts) u in
  Controls.viewSwitch u' = Controls.viewSwitch u
  /\ Controls.viewMode u' = Controls.viewMode u.
Proof.
  revert u. induction dts as [|dt dts IH]; intros u H; cbv zeta; [done|].
  cbn [fmap list_fmap Controls.uiRun foldl Controls.uiStep].
  destruct (drawControls_idle dt u H) as [E1 E2].
  destruct (IH (Controls.drawControls dt u)) as [E3 E4]; [by rewrite E1|].
  unfold Controls.uiRun in E3, E4. by rewrite E3, E4.
Qed.

(** Frames alone bring a running switch to its end. *)
Lemma frames_end_switch (dts : list Q) u :
  viewOk u -> Controls.vsActive (Controls.viewSwitch u) = true ->
  Controls.vsDur (Controls.viewSwitch u)
  <= Controls.vsT (Controls.viewSwitch u) + sumQ dts ->
  let u' := Controls.uiRun dist (Controls.Drawn <$> dts) u in
  Controls.vsActive (Controls.viewSwitch u') = false
  /\ Controls.viewMode u' = Controls.vsTo (Controls.viewSwitch u).
Proof.
  revert u. induction dts as [|dt dts IH]; intros u Hok Hact Hsum; cbv zeta.
  - exfalso. destruct Hok as (H1 & H2 & H3). destruct (H3 Hact) as [_ Ht].
    change (sumQ []) with 0 in Hsum. lra.
  - cbn [fmap list_fmap Controls.uiRun foldl Controls.uiStep].
    pose proof (drawControls_viewOk dt u Hok) as Hok'.
    set (u1 := Controls.drawControls dt u) in *.
    assert (Hto : Controls.vsTo (Controls.viewSwitch u1)
                  = Controls.vsTo (Controls.viewSwitch u)
                  /\ Controls.vsT (Controls.viewSwitch u1)
                     = Controls.vsT (Controls.viewSwitch u) + dt
                  /\ Controls.vsDur (Controls.viewSwitch u1)
                     = Controls.vsDur (Controls.viewSwitch u)
                  /\ (Controls.vsActive (Controls.viewSwitch u1) = false ->
                      Controls.vsSwitched (Controls.viewSwitch u1) = true)).
    { subst u1. unfold Controls.drawControls. cbv zeta.
      cbn [Controls.viewMode Controls.viewSwitch Controls.set_speed].
      rewrite Hact.
      cbn [Controls.viewMode Controls.viewSwitch Controls.vsActive
           Controls.vsFrom Controls.vsTo Controls.vsT Controls.vsDur
           Controls.vsSwitched Controls.set_viewMode Controls.set_viewSwitch
           Controls.set_speed].
      split; [done|]. split; [done|]. split; [done|].
      destruct Hok as (_ & H2 & _). rewrite H2.
      destruct (Qleb 0.45 _) eqn:El; [|intros [=]]. intros _.
      apply Qleb_true in El.
      destruct (Controls.vsSwitched (Controls.viewSwitch u)); [done|].
      cbn [negb andb].
      assert (Hh : Qleb (0.45 * 0.5) (Controls.vsT (Controls.viewSwitch u) + dt) = true)
        by (apply Qleb_true; lra).
      by rewrite Hh. }
    destruct Hto as (Eto & Et & Ed & Hsw).
    destruct (Controls.vsActive (Controls.viewSwitch u1)) eqn:Ea1.
    + destruct (IH u1 Hok' Ea1) as [R1 R2].
      { rewrite Ed, Et. change (sumQ (dt :: dts)) with (dt + sumQ dts) in Hsum.
        lra. }
      unfold Controls.uiRun in R1, R2. split; [exact R1|]. by rewrite R2, Eto.
    + destruct (frames_idle dts u1 Ea1) as [R1 R2].
      unfold Controls.uiRun in R1, R2. rewrite R1, R2. split; [exact Ea1|].
      destruct Hok' as (H1' & _ & _). rewrite H1', (Hsw eq_refl). exact Eto.
Qed.

(** X25. A view switch always lands on its target.  In every state the
    controls can reach, whether a switch runs or not, the view is the
    origin of the last switch until it flips and its target afterwards.
    While a switch runs it leads to the other view, a click (on the view
    pill or anywhere else) leaves the switch and the view as they are,
    and once the frames drawn from then on add up to the duration of the
    switch, the switch is over and the view is its target. *)
Theorem view_switch_lands_on_target (es : list Controls.UiEvent) :
  let u := Controls.uiRun dist es Controls.initialUi in
  let vs := Controls.viewSwitch u in
  Controls.viewMode u
  = (if Controls.vsSwitched vs then Controls.vsTo vs else Controls.vsFrom vs)
  /\ (Controls.vsActive vs = true ->
      Controls.vsFrom vs <> Controls.vsTo vs
      /\ (forall p : Controls.Pointer,
            Controls.viewSwitch (Controls.mousePressed dist p u) = vs
            /\ Controls.viewMode (Controls.mousePressed dist p u)
               = Controls.viewMode u)
      /\ (forall dts : list Q,
            Controls.vsDur vs <= Controls.vsT vs + sumQ dts ->
            let u' := Controls.uiRun dist (Controls.Drawn <$> dts) u in
            Controls.vsActive (Controls.viewSwitch u') = false
            /\ Controls.viewMode u' = Controls.vsTo vs)).
Proof.
  cbv zeta.
  assert (Hok : viewOk (Controls.uiRun dist es Controls.initialUi)).
  { unfold Controls.uiRun. apply foldl_inv.
    - intros a b. apply uiStep_viewOk.
    - unfold viewOk. cbn. split; [done|]. split; [done|]. intros [=]. }
  set (u := Controls.uiRun dist es Controls.initialUi) in *. clearbody u.
  split; [by destruct Hok as (H1 & _)|].
  intros Hact. split; [|split].
  - destruct Hok as (_ & _ & H3). by apply H3.
  - intros p.
    destruct (mousePressed_view p u) as [[E1 E2]|(target & Hne & E)]; [done|].
    rewrite E. unfold Controls.startSwitch. by rewrite Hact.
  - intros dts Hsum. by apply frames_end_switch.
Qed.

(** *** The car under a click *)

Lemma jsKeys_ascending {V} (m : gmap N V) : StronglySorted N.le (jsKeys m).
Proof.
  unfold jsKeys.
  set (cmp := fun a b : N => inject_Z (Z.of_N a) - inject_Z (Z.of_N b)).
  assert (Hb : forall a b, before cmp a b <-> (a <= b)%N).
  { intros a b. unfold before, cmp.
    assert (H : inject_Z (Z.of_N a) <= inject_Z (Z.of_N b) <-> (a <= b)%N)
      by (rewrite <- Zle_Qle; lia).
    rewrite <- H. split; intros; lra. }
  assert (Hs : StronglySorted (before cmp) (sortBy cmp (elements (dom m)))).
  { apply sortBy_sorted.
    - intros a b H. apply Hb. assert (~ (a <= b)%N) by (intros H'; by apply H, Hb).
      lia.
    - intros a b c. rewrite !Hb. lia. }
  induction Hs as [|a l Hs IH Hall]; constructor; [exact IH|].
  eapply Forall_impl; [exact Hall|]. intros b. apply Hb.
Qed.

(** The loop over the cars: the best so far is within the radius and
    no car seen is nearer; of equally near cars the first seen wins. *)
Lemma nearestCar_loop p (ks : list N) :
  StronglySorted N.le ks ->
  let R := Qmax Controls.HOVER_RADIUS_BASE (Controls.CAR_DIAM + 6) in
  let dOf (sp : vec2) :=
    dist (Controls.mouseX p) (Controls.mouseY p) (x sp) (y sp) in
  match foldl (Controls.nearerCar dist p) (None, None) ks with
  | (None, None) =>
      forall k sp, k ∈ ks -> Controls.lastFrameScreenPos p !! k = Some sp ->
                   R < dOf sp
  | (Some b, Some bd) =>
      exists spb, Controls.lastFrameScreenPos p !! b = Some spb
        /\ bd = dOf spb /\ bd <= R /\ b ∈ ks
        /\ forall k sp, k ∈ ks -> Controls.lastFrameScreenPos p !! k = Some sp ->
                        dOf sp <= R ->
                        bd <= dOf sp /\ (dOf sp == bd -> (b <= k)%N)
  | _ => False
  end.
Proof.
  induction ks as [|k ks IH] using rev_ind; intros Hs; cbv zeta.
  - cbn. intros k sp Hk. by apply elem_of_nil in Hk.
  - rewrite foldl_app. cbn [foldl].
    apply StronglySorted_app in Hs as (Hlt & Hs & _).
    specialize (IH Hs). cbv zeta in IH.
    destruct (foldl (Controls.nearerCar dist p) (None, None) ks) as [[b|] [bd|]];
      try done; unfold Controls.nearerCar; cbn [snd].
    + destruct IH as (spb & Hb & Ebd & HbR & Hbin & Hbest).
      destruct (Controls.lastFrameScreenPos p !! k) as [sp|] eqn:Ek.
      2:{ exists spb. split; [done|]. split; [done|]. split; [done|].
          split; [apply elem_of_app; by left|].
          intros k' sp' Hk' Hsp'. apply elem_of_app in Hk' as [Hk'|Hk'];
            [by apply Hbest|].
          apply list_elem_of_singleton in Hk'. subst k'. congruence. }
      cbv zeta.
      set (d := dist (Controls.mouseX p) (Controls.mouseY p) (x sp) (y sp)) in *.
      destruct (Qleb d _) eqn:E1; cbn [andb];
        [destruct (Qltb d bd) eqn:E2|].
      * apply Qleb_true in E1. apply Qltb_true in E2.
        exists sp. split; [done|]. split; [done|]. split; [exact E1|].
        split; [apply elem_of_app; right; apply list_elem_of_here|].
        intros k' sp' Hk' Hsp' HR. apply elem_of_app in Hk' as [Hk'|Hk'].
        -- destruct (Hbest k' sp' Hk' Hsp' HR) as [Hle _]. split; [lra|].
           intros Heq. exfalso. lra.
        -- apply list_elem_of_singleton in Hk'. subst k'.
           assert (sp' = sp) by congruence. subst sp'. fold d.
           split; [lra|]. intros _. lia.
      * apply Qleb_true in E1. apply Qltb_false in E2.
        exists spb. split; [done|]. split; [done|]. split; [done|].
        split; [apply elem_of_app; by left|].
        intros k' sp' Hk' Hsp' HR. apply elem_of_app in Hk' as [Hk'|Hk'];
          [by apply Hbest|].
        apply list_elem_of_singleton in Hk'. subst k'.
        assert (sp' = sp) by congruence. subst sp'. fold d.
        split; [exact E2|]. intros _. apply Hlt; [exact Hbin|apply list_elem_of_here].
      * apply Qleb_false in E1.
        exists spb. split; [done|]. split; [done|]. split; [done|].
        split; [apply elem_of_app; by left|].
        intros k' sp' Hk' Hsp' HR. apply elem_of_app in Hk' as [Hk'|Hk'];
          [by apply Hbest|].
        apply list_elem_of_singleton in Hk'. subst k'.
        assert (sp' = sp) by congruence. subst sp'. fold d in HR. lra.
    + destruct (Controls.lastFrameScreenPos p !! k) as [sp|] eqn:Ek.
      2:{ intros k' sp' Hk' Hsp'. apply elem_of_app in Hk' as [Hk'|Hk'];
            [by apply (IH k')|].
          apply list_elem_of_singleton in Hk'. subst k'. congruence. }
      cbv zeta.
      set (d := dist (Controls.mouseX p) (Controls.mouseY p) (x sp) (y sp)) in *.
      destruct (Qleb d _) eqn:E1; cbn [andb].
      * apply Qleb_true in E1.
        exists sp. split; [done|]. split; [done|]. split; [exact E1|].
        split; [apply elem_of_app; right; apply list_elem_of_here|].
        intros k' sp' Hk' Hsp' HR. apply elem_of_app in Hk' as [Hk'|Hk'].
        -- pose proof (IH k' sp' Hk' Hsp'). lra.
        -- apply list_elem_of_singleton in Hk'. subst k'.
           assert (sp' = sp) by congruence. subst sp'. fold d.
           split; [lra|]. intros _. lia.
      * apply Qleb_false in E1.
        intros k' sp' Hk' Hsp'. apply elem_of_app in Hk' as [Hk'|Hk'];
          [by apply (IH k')|].
        apply list_elem_of_singleton in Hk'. subst k'.
        assert (sp' = sp) by congruence. subst sp'. exact E1.
Qed.

(** X26. A click on the track picks the nearest car.  In the track
    view, for a click that hits none of the controls: if some car of the
    last frame lies within the hover radius, the car selected is one
    within the radius that no car is nearer to the pointer than, and of
    equally near cars the one with the lowest number; if no car lies
    within the radius and the click is outside the board, the selection
    is cleared.  The click changes nothing but the selection. *)
Theorem click_selects_nearest_car (p : Controls.Pointer) (u : Controls.Ui) :
  Controls.viewMode u = Controls.TRACK ->
  Forall (fun r => Controls.pointInRect (Controls.mouseX p) (Controls.mouseY p) r
                   = false)
         (allButtons (Controls.buttons p)) ->
  let R := Qmax Controls.HOVER_RADIUS_BASE (Controls.CAR_DIAM + 6) in
  let dOf (sp : vec2) :=
    dist (Controls.mouseX p) (Controls.mouseY p) (x sp) (y sp) in
  let u' := Controls.mousePressed dist p u in
  (forall k sp, Controls.lastFrameScreenPos p !! k = Some sp -> dOf sp <= R ->
     exists b spb,
       Controls.selectedDriver u' = Some b
       /\ Controls.lastFrameScreenPos p !! b = Some spb
       /\ dOf spb <= R /\ dOf spb <= dOf sp
       /\ (dOf sp == dOf spb -> (b <= k)%N))
  /\ ((forall k sp, Controls.lastFrameScreenPos p !! k = Some sp -> R < dOf sp) ->
      Controls.pointInRect (Controls.mouseX p) (Controls.mouseY p)
                           (Controls.boardVp p) = false ->
      Controls.selectedDriver u' = None)
  /\ u' = Controls.set_selectedDriver (Controls.selectedDriver u') u.
Proof.
  intros Hview Hmiss. cbv zeta.
  unfold allButtons, Controls.topRow in Hmiss. cbn [app] in Hmiss.
  repeat match type of Hmiss with
         | Forall _ (_ :: _) =>
             let H := fresh "M" in apply Forall_cons in Hmiss as [H Hmiss]
         end.
  assert (E : Controls.mousePressed dist p u = Controls.selectByClick dist p u).
  { unfold Controls.mousePressed. cbv zeta.
    rewrite M, M0, M1, M2, M3, M4, M5, M6, M7, M8, M9, M10, M11, M12, M13.
    cbn [andb]. by rewrite Hview. }
  rewrite E. clear E. unfold Controls.selectByClick. rewrite Hview. cbv zeta.
  pose proof (nearestCar_loop p (jsKeys (Controls.lastFrameScreenPos p))
                (jsKeys_ascending _)) as Hloop.
  cbv zeta in Hloop. unfold Controls.nearestCar.
  destruct (foldl (Controls.nearerCar dist p) (None, None)
              (jsKeys (Controls.lastFrameScreenPos p))) as [[b|] [bd|]];
    try done; cbn [fst].
  - destruct Hloop as (spb & Hb & -> & HbR & _ & Hbest).
    split; [|split; [|done]].
    + intros k sp Hk HR. exists b, spb. split; [done|]. split; [exact Hb|].
      split; [exact HbR|].
      assert (Hin : k ∈ jsKeys (Controls.lastFrameScreenPos p)).
      { apply elem_of_jsKeys, elem_of_dom. by eexists. }
      destruct (Hbest k sp Hin Hk HR) as [H1 H2]. split; [exact H1|exact H2].
    + intros Hfar _. exfalso. pose proof (Hfar b spb Hb). lra.
  - split; [|split].
    + intros k sp Hk HR. exfalso.
      assert (Hin : k ∈ jsKeys (Controls.lastFrameScreenPos p)).
      { apply elem_of_jsKeys, elem_of_dom. by eexists. }
      pose proof (Hloop k sp Hin Hk). lra.
    + intros _ Hout. by rewrite Hout.
    + by destruct (if Controls.pointInRect _ _ _ then _ else _).
Qed.
(** *** The button row *)

Lemma foldl_Qmax_ge {A} (f : A -> Q) (l : list A) (m : Q) :
  m <= foldl (fun w a => Qmax w (f a)) m l
  /\ forall a, a ∈ l -> f a <= foldl (fun w a => Qmax w (f a)) m l.
Proof.
  revert m. induction l as [|b l IH]; intros m; cbn [foldl].
  - split; [lra|]. intros a Ha. by apply elem_of_nil in Ha.
  - destruct (IH (Qmax m (f b))) as [H1 H2]. split.
    + apply Qle_trans with (Qmax m (f b)); [apply Q.le_max_l|exact H1].
    + intros a Ha. apply elem_of_cons in Ha as [->|Ha]; [|by apply H2].
      apply Qle_trans with (Qmax m (f b)); [apply Q.le_max_r|exact H1].
Qed.

Ltac split_index i k :=
  lazymatch k with
  | O => idtac
  | S ?k' => destruct i as [|i]; [|split_index i k']
  end.

Lemma hit_x px py r :
  Controls.pointInRect px py r = true -> rx r <= px <= rx r + rw r.
Proof.
  unfold Controls.pointInRect. intros H.
  apply andb_prop in H as [H _]. apply andb_prop in H as [H _].
  apply andb_prop in H as [H1 H2]. apply Qleb_true in H1. apply Qleb_true in H2.
  done.
Qed.

(** X27. The button row of the track view, as [layoutButtonsTrack]
    places it with the segment width of [computeUnifiedPillSegW]: a pill
    segment is at least as wide as any pill label with its padding; the
    eleven hit boxes stand on one line, 34 high, from left to right, the
    two segments of a pill touching and everything else 8 pixels apart;
    so a point lies in two of them only on the edge two segments of a
    pill share.  All of them lie inside the group rectangle, 8 pixels
    from its left, top and bottom edge and at least 16 from its right
    edge.  Laying the row out again changes nothing. *)
Theorem button_row_layout (textWidth : list N -> Q) (vp : Rect) :
  let W := Controls.computeUnifiedPillSegW textWidth in
  let b := Controls.layoutButtonsTrack vp W Controls.UI_BTN in
  let g := Controls.group b in
  (0 <= W /\ forall l, l ∈ Controls.pillLabels ->
                       textWidth l + Controls.PILL_PAD_X * 2 <= W)
  /\ (forall r, r ∈ Controls.topRow b ->
        (ry r == ry vp + 16 /\ rh r == Controls.BTN_H /\ 0 <= rw r)
        /\ (rx g + 8 <= rx r /\ rx r + rw r + 16 <= rx g + rw g)
        /\ (ry g + 8 == ry r /\ ry r + rh r + 8 == ry g + rh g))
  /\ (forall i r r', Controls.topRow b !! i = Some r ->
        Controls.topRow b !! S i = Some r' ->
        rx r' - (rx r + rw r)
        == match i with 0%nat | 2%nat | 4%nat => 0 | _ => Controls.GAP_BTN end)
  /\ (forall i j r r' px py, (i < j)%nat ->
        Controls.topRow b !! i = Some r -> Controls.topRow b !! j = Some r' ->
        Controls.pointInRect px py r = true ->
        Controls.pointInRect px py r' = true ->
        j = S i /\ (i = 0 \/ i = 2 \/ i = 4)%nat /\ px == rx r')
  /\ Controls.layoutButtonsTrack vp W b = b.
Proof.
  cbv zeta.
  set (W := Controls.computeUnifiedPillSegW textWidth).
  assert (HW : 0 <= W /\ forall l, l ∈ Controls.pillLabels ->
                 textWidth l + Controls.PILL_PAD_X * 2 <= W).
  { subst W. unfold Controls.computeUnifiedPillSegW.
    destruct (foldl_Qmax_ge (fun l => textWidth l + Controls.PILL_PAD_X * 2)
                Controls.pillLabels 0) as [H0 Hl].
    set (m := foldl _ 0 Controls.pillLabels) in *.
    pose proof (Qle_ceiling m) as Hc. split; [lra|].
    intros l Hin. specialize (Hl l Hin). cbn beta in Hl. lra. }
  destruct HW as [HW0 HWl]. clearbody W.
  assert (Hgap : forall i r r',
             Controls.topRow (Controls.layoutButtonsTrack vp W Controls.UI_BTN) !! i
             = Some r ->
             Controls.topRow (Controls.layoutButtonsTrack vp W Controls.UI_BTN) !! S i
             = Some r' ->
             rx r' - (rx r + rw r)
             == match i with 0%nat | 2%nat | 4%nat => 0 | _ => Controls.GAP_BTN end).
  { intros i r r' Hr Hr'.
    unfold Controls.topRow, Controls.layoutButtonsTrack in Hr, Hr'.
    cbv zeta in Hr, Hr'.
    split_index i 11%nat; cbn [lookup list_lookup] in Hr, Hr';
      try discriminate Hr; try discriminate Hr';
      injection Hr as <-; injection Hr' as <-;
      cbn [rx ry rw rh Controls.bgL Controls.bgR Controls.viewL Controls.viewR
           Controls.playL Controls.playR Controls.group Controls.s1 Controls.s2
           Controls.s5 Controls.s10 Controls.s20 Controls.UI_BTN];
      unfold Controls.GAP_BTN, Controls.BTN_W; ring. }
  assert (Hrow : forall r,
             r ∈ Controls.topRow (Controls.layoutButtonsTrack vp W Controls.UI_BTN) ->
             ry r == ry vp + 16 /\ rh r == Controls.BTN_H /\ 0 <= rw r).
  { intros r Hr.
    unfold Controls.topRow, Controls.layoutButtonsTrack in Hr. cbv zeta in Hr.
    repeat (apply elem_of_cons in Hr as [->|Hr];
            [cbn [rx ry rw rh Controls.bgL Controls.bgR Controls.viewL Controls.viewR
                  Controls.playL Controls.playR Controls.group Controls.s1 Controls.s2
                  Controls.s5 Controls.s10 Controls.s20 Controls.UI_BTN];
             unfold Controls.BTN_W, Controls.BTN_H; repeat split; lra|]).
    by apply elem_of_nil in Hr. }
  split; [split; [exact HW0|exact HWl]|]. split; [|split; [exact Hgap|split]].
  - intros r Hr. split; [by apply Hrow|].
    unfold Controls.topRow, Controls.layoutButtonsTrack in Hr. cbv zeta in Hr.
    unfold Controls.layoutButtonsTrack. cbv zeta.
    repeat (apply elem_of_cons in Hr as [->|Hr];
            [cbn [rx ry rw rh Controls.bgL Controls.bgR Controls.viewL Controls.viewR
                  Controls.playL Controls.playR Controls.group Controls.s1 Controls.s2
                  Controls.s5 Controls.s10 Controls.s20 Controls.UI_BTN];
             unfold Controls.BTN_W, Controls.BTN_H, Controls.GAP_BTN;
             repeat split; lra|]).
    by apply elem_of_nil in Hr.
  - intros i j r r' px py Hij Hr Hr' Hin Hin'.
    apply hit_x in Hin. apply hit_x in Hin'.
    unfold Controls.topRow, Controls.layoutButtonsTrack in Hr, Hr'.
    cbv zeta in Hr, Hr'.
    split_index i 11%nat; split_index j 11%nat;
      cbn [lookup list_lookup] in Hr, Hr';
      try discriminate Hr; try discriminate Hr'; try (exfalso; lia);
      injection Hr as <-; injection Hr' as <-;
      cbn [rx ry rw rh Controls.bgL Controls.bgR Controls.viewL Controls.viewR
           Controls.playL Controls.playR Controls.group Controls.s1 Controls.s2
           Controls.s5 Controls.s10 Controls.s20 Controls.UI_BTN] in *;
      unfold Controls.GAP_BTN, Controls.BTN_W in *;
      first [ exfalso; lra
            | split; [reflexivity|split; [lia|lra]] ].
  - reflexivity.
Qed.
End ControlsResults.

Section ControlsExamples.
Local Open Scope Q_scope.

Lemma view_switch_witness :
  let u0 := Controls.initialUi in
  let u := Controls.uiRun chebyshev [Controls.Click chartClick; Controls.Drawn 0.1]
                          Controls.initialUi in
  let u' := Controls.uiRun chebyshev (Controls.Drawn <$> [0.2; 0.2]) u in
  (Controls.vsActive (Controls.viewSwitch u0) = false
   /\ Controls.viewMode u0 = Controls.vsFrom (Controls.viewSwitch u0))
  /\ Controls.vsActive (Controls.viewSwitch u) = true
  /\ Controls.viewMode u = Controls.TRACK
  /\ Controls.viewMode u = Controls.vsFrom (Controls.viewSwitch u)
  /\ Controls.viewMode (Controls.mousePressed chebyshev chartClick u)
     = Controls.TRACK
  /\ Controls.vsActive (Controls.viewSwitch u') = false
  /\ Controls.viewMode u' = Controls.CHART
  /\ Controls.viewMode u' = Controls.vsTo (Controls.viewSwitch u').
Proof.
  cbv zeta.
  set (es := [Controls.Click chartClick; Controls.Drawn 0.1]).
  assert (Hact : Controls.vsActive (Controls.viewSwitch
                   (Controls.uiRun chebyshev es Controls.initialUi)) = true)
    by (vm_compute; reflexivity).
  assert (Hsum : Controls.vsDur (Controls.viewSwitch
                   (Controls.uiRun chebyshev es Controls.initialUi))
                 <= Controls.vsT (Controls.viewSwitch
                      (Controls.uiRun chebyshev es Controls.initialUi))
                    + sumQ [0.2; 0.2])
    by (vm_compute; discriminate).
  assert (Hview : Controls.viewMode (Controls.uiRun chebyshev es Controls.initialUi)
                  = Controls.TRACK)
    by (vm_compute; reflexivity).
  destruct (view_switch_lands_on_target chebyshev []) as [H0 _].
  destruct (view_switch_lands_on_target chebyshev es) as [H1 H2].
  destruct (H2 Hact) as (_ & Hclick & Hend).
  destruct (Hclick chartClick) as [_ Hc].
  destruct (Hend [0.2; 0.2] Hsum) as [H3 H4].
  split; [split; [reflexivity|exact H0]|].
  split; [exact Hact|]. split; [exact Hview|].
  split; [rewrite H1; vm_compute; reflexivity|].
  split; [rewrite Hc; exact Hview|].
  split; [exact H3|].
  split; [rewrite H4; vm_compute; reflexivity|].
  rewrite H4. vm_compute. reflexivity.
Defined.

Lemma click_selects_nearest_witness :
  Controls.selectedDriver
    (Controls.mousePressed chebyshev demoPointer Controls.initialUi) = Some 44%N
  /\ Controls.isPlaying
       (Controls.mousePressed chebyshev demoPointer Controls.initialUi) = true.
Proof.
  assert (Hview : Controls.viewMode Controls.initialUi = Controls.TRACK)
    by reflexivity.
  assert (Hmiss : Forall (fun r => Controls.pointInRect
                                     (Controls.mouseX demoPointer)
                                     (Controls.mouseY demoPointer) r = false)
                         (allButtons (Controls.buttons demoPointer))).
  { unfold allButtons, Controls.topRow. cbn [app].
    repeat (apply Forall_cons_2; [vm_compute; reflexivity|]). apply Forall_nil_2. }
  destruct (click_selects_nearest_car chebyshev demoPointer Controls.initialUi
              Hview Hmiss) as (Hnear & _ & Hrest).
  destruct (Hnear 16%N (Vec2 900 410)) as (b & spb & Hb & Hsp & _ & Hle & _);
    [vm_compute; reflexivity|vm_compute; discriminate|].
  split.
  - rewrite Hb. f_equal.
    destruct (decide (b = 44%N)) as [->|Hne]; [reflexivity|exfalso].
    destruct (decide (b = 16%N)) as [->|Hne'].
    + revert Hb. vm_compute. discriminate.
    + revert Hsp. unfold demoPointer. cbn [Controls.lastFrameScreenPos].
      rewrite lookup_insert_ne by done. rewrite lookup_insert_ne by done.
      rewrite lookup_empty. discriminate.
  - rewrite Hrest. reflexivity.
Defined.
End ControlsExamples.

(** ** Position snapshots *)

Section SnapshotResults.
Local Open Scope Z_scope.

Lemma snapshotOf_snoc rows r :
  snapshotOf (rows ++ [r])
  = <[dn r := Z.of_nat (length rows) + 1]> (snapshotOf rows).
Proof.
  unfold snapshotOf. rewrite imap_app, foldl_app. cbn [imap foldl fst snd].
  by rewrite Nat.add_0_r.
Qed.

Lemma snapshotOf_lookup rows d p :
  NoDup (dn <$> rows) ->
  snapshotOf rows !! d = Some p
  <-> exists i r, rows !! i = Some r /\ dn r = d /\ p = Z.of_nat i + 1.
Proof.
  induction rows as [|r rows IH] using rev_ind; intros Hnd.
  - split; [done|]. by intros (i & r & Hi & _).
  - rewrite fmap_app in Hnd. apply NoDup_app in Hnd as (Hnd & Hne & _).
    rewrite snapshotOf_snoc. destruct (decide (dn r = d)) as [E|E].
    + rewrite E, lookup_insert_eq. split.
      * intros [= <-]. exists (length rows), r. split; [|done].
        by rewrite lookup_app_r, Nat.sub_diag by lia.
      * intros (i & r' & Hi & Hd & ->). f_equal.
        apply lookup_app_Some in Hi as [Hi|[Hlen Hi]].
        -- exfalso. apply (Hne d); [|rewrite <- E; cbn; apply list_elem_of_here].
           rewrite <- Hd. apply list_elem_of_fmap_2.
           by eapply list_elem_of_lookup_2.
        -- destruct (i - length rows)%nat eqn:En; [|by destruct n].
           f_equal. lia.
    + rewrite lookup_insert_ne by done. rewrite (IH Hnd). split.
      * intros (i & r' & Hi & Hd & ->). exists i, r'. split; [|done].
        by apply lookup_app_l_Some.
      * intros (i & r' & Hi & Hd & ->). exists i, r'. split; [|done].
        apply lookup_app_Some in Hi as [Hi|[Hlen Hi]]; [done|].
        destruct (i - length rows)%nat eqn:En; [|by destruct n].
        cbn in Hi. congruence.
Qed.

Lemma snapshot_isRanking cfg st :
  NoDup (driverInfo cfg) -> boardRows cfg st <> [] ->
  isRanking cfg (snapshotOf (boardRows cfg st)).
Proof.
  intros Hnd Hne. pose proof (NoDup_boardRows cfg st Hnd) as Hrows.
  set (rows := boardRows cfg st) in *.
  exists (length rows). split; [|split; [|split]].
  - split; [destruct rows; [done|cbn; lia]|].
    subst rows. unfold boardRows. rewrite sortBy_length, length_fmap.
    apply length_filter.
  - intros d p Hp. apply (snapshotOf_lookup rows d p Hrows) in Hp
      as (i & r & Hi & <- & _).
    assert (Hin : dn r ∈ dn <$> rows)
      by (apply list_elem_of_fmap_2; by eapply list_elem_of_lookup_2).
    subst rows. unfold boardRows in Hin. rewrite sortBy_perm in Hin.
    rewrite dn_candidateOf in Hin. by apply list_elem_of_filter in Hin as [_ ?].
  - intros p. split.
    + intros (d & Hp). apply (snapshotOf_lookup rows d p Hrows) in Hp
        as (i & r & Hi & _ & ->).
      apply lookup_lt_Some in Hi. lia.
    + intros Hp. destruct (lookup_lt_is_Some_2 rows (Z.to_nat (p - 1))) as [r Hr];
        [lia|].
      exists (dn r). apply (snapshotOf_lookup rows (dn r) p Hrows).
      exists (Z.to_nat (p - 1)), r. split; [done|]. split; [done|]. lia.
  - intros d d' p Hd Hd'.
    apply (snapshotOf_lookup rows d p Hrows) in Hd as (i & r & Hi & <- & ->).
    apply (snapshotOf_lookup rows d' _ Hrows) in Hd' as (i' & r' & Hi' & <- & E).
    assert (i' = i) by lia. subst i'. congruence.
Qed.

Lemma recordPositions_inv cfg st s rows log :
  NoDup (driverInfo cfg) -> rows = boardRows cfg s ->
  (forall lap snap, positionsByLap log !! lap = Some snap ->
                    1 <= lap /\ isRanking cfg snap) ->
  (lastRecordedLap log <> 0 -> is_Some (positionsByLap log !! lastRecordedLap log)) ->
  let log' := recordPositions cfg st rows log in
  (forall lap snap, positionsByLap log' !! lap = Some snap ->
                    1 <= lap /\ isRanking cfg snap)
  /\ (lastRecordedLap log' <> 0 ->
      is_Some (positionsByLap log' !! lastRecordedLap log')).
Proof.
  intros Hnd Hrows Hall Hlast. cbv zeta. unfold recordPositions.
  destruct rows as [|r rows'] eqn:Er; [done|]. rewrite <- Er in *.
  set (leaderLap := numericLap _ _).
  destruct (baselinedAtGreen st && (0 <? leaderLap)
            && negb (leaderLap =? lastRecordedLap log)) eqn:E; [|done].
  apply andb_prop in E as [E _]. apply andb_prop in E as [_ E].
  apply Z.ltb_lt in E. cbn [positionsByLap lastRecordedLap]. split.
  - intros lap snap Hl. destruct (decide (lap = leaderLap)) as [->|Hne].
    + rewrite lookup_insert_eq in Hl. injection Hl as <-. split; [lia|].
      rewrite Hrows. apply snapshot_isRanking; [done|].
      rewrite <- Hrows, Er. done.
    + rewrite lookup_insert_ne in Hl by done. by apply Hall.
  - intros _. rewrite lookup_insert_eq. by eexists.
Qed.

(** X28. Every snapshot the chart is drawn from is a ranking.  With
    distinct driver numbers in the driver table, after any run of frames
    from [setup] each entry of [positionsByLap] is filed under a lap of
    at least 1 and ranks drivers of the table 1 to n without gaps or
    ties; and when a lap has been recorded last, its snapshot is
    there. *)
Theorem snapshots_are_rankings
    (cfg : Config) (fs : list Frame) (st : State) (log : ChartLog) :
  NoDup (driverInfo cfg) ->
  runLogged cfg fs (setup cfg, emptyLog) = Some (st, log) ->
  (forall lap snap, positionsByLap log !! lap = Some snap ->
                    1 <= lap /\ isRanking cfg snap)
  /\ (lastRecordedLap log <> 0 -> is_Some (positionsByLap log !! lastRecordedLap log)).
Proof.
  intros Hnd Hrun.
  apply (foldlOpt_inv
           (fun sl : State * ChartLog =>
              (forall lap snap, positionsByLap sl.2 !! lap = Some snap ->
                                1 <= lap /\ isRanking cfg snap)
              /\ (lastRecordedLap sl.2 <> 0 ->
                  is_Some (positionsByLap sl.2 !! lastRecordedLap sl.2)))
           (drawLogged cfg) fs) with (a := (setup cfg, emptyLog)) (a' := (st, log));
    [| |exact Hrun].
  - intros [s l] f [s' l'] [H1 H2] Hstep. unfold drawLogged in Hstep.
    cbn [fst snd] in *. destruct (draw cfg f s) as [s1|]; [|done].
    injection Hstep as <- <-.
    by apply (recordPositions_inv cfg s1 (beforeBoard cfg f s)).
  - cbn. split; [intros lap snap H; by rewrite lookup_empty in H|done].
Qed.

Lemma snapshots_witness :
  exists st log snap,
    runLogged sprintCfg sprintFrames (setup sprintCfg, emptyLog) = Some (st, log)
    /\ lastRecordedLap log = 1
    /\ positionsByLap log !! 1 = Some snap
    /\ snap !! 1%N = Some 1
    /\ isRanking sprintCfg snap.
Proof.
  set (r := runLogged sprintCfg sprintFrames (setup sprintCfg, emptyLog)).
  set (st := (default (setup sprintCfg, emptyLog) r).1).
  set (log := (default (setup sprintCfg, emptyLog) r).2).
  assert (Hrun : r = Some (st, log)) by (vm_compute; reflexivity).
  assert (Hnd : NoDup (driverInfo sprintCfg)).
  { apply (bool_decide_unpack _). vm_compute. exact I. }
  destruct (positionsByLap log !! 1) as [snap|] eqn:Hs;
    [|exfalso; revert Hs; vm_compute; discriminate].
  exists st, log, snap. split; [exact Hrun|].
  split; [vm_compute; reflexivity|]. split; [exact Hs|].
  assert (H1 : positionsByLap log !! 1 ≫= (fun m => m !! 1%N) = Some 1)
    by (vm_compute; reflexivity).
  rewrite Hs in H1. cbn [mbind option_bind] in H1.
  split; [exact H1|].
  exact (proj2 (proj1 (snapshots_are_rankings sprintCfg sprintFrames st log
                         Hnd Hrun) 1 snap Hs)).
Defined.
End SnapshotResults.

(** ** The drawn position of a car *)

Section SmoothingResults.
Local Open Scope Q_scope.
Variable exp : Q -> Q.

Lemma smoothAlpha_range dt speed : 0.18 <= smoothAlpha exp dt speed <= 0.9.
Proof. unfold smoothAlpha. cbv zeta. apply constrain_bounds. discriminate. Qed.

Lemma samplePosition_inBounds cfg n arr t w :
  n ∈ DRIVER_NUMS cfg -> points cfg !! n = Some arr ->
  samplePosition arr t = Some w -> inBounds (worldBounds cfg) w.
Proof.
  intros Hn Harr Hs. unfold inBounds.
  destruct (samplePosition_shape arr t w Hs) as (k & a & Ha & Hshape).
  pose proof (worldBounds_hold cfg (pos a)
                (samples_in_allPos cfg n arr a Hn Harr
                   (list_elem_of_lookup_2 _ _ _ Ha))) as [Hax Hay].
  destruct Hshape as [->|(b & f & Hb & Hf0 & Hf1 & ->)]; [done|].
  pose proof (worldBounds_hold cfg (pos b)
                (samples_in_allPos cfg n arr b Hn Harr
                   (list_elem_of_lookup_2 _ _ _ Hb))) as [Hbx Hby].
  cbv zeta in *. cbn [x y].
  pose proof (lerp_between (x (pos a)) (x (pos b)) f Hf0 Hf1) as [L1 L2].
  pose proof (lerp_between (y (pos a)) (y (pos b)) f Hf0 Hf1) as [L3 L4].
  pose proof (Q.min_glb (x (pos a)) (x (pos b)) (minX (worldBounds cfg))
                (proj1 Hax) (proj1 Hbx)).
  pose proof (Q.max_lub (x (pos a)) (x (pos b)) (maxX (worldBounds cfg))
                (proj2 Hax) (proj2 Hbx)).
  pose proof (Q.min_glb (y (pos a)) (y (pos b)) (minY (worldBounds cfg))
                (proj1 Hay) (proj1 Hby)).
  pose proof (Q.max_lub (y (pos a)) (y (pos b)) (maxY (worldBounds cfg))
                (proj2 Hay) (proj2 Hby)).
  repeat split; lra.
Qed.

Lemma posDrawOf_inBounds b prev posWorld alpha :
  0 <= alpha <= 1 ->
  (forall q, prev = Some q -> inBounds b q) -> inBounds b posWorld ->
  inBounds b (posDrawOf prev posWorld alpha).
Proof.
  intros [Ha0 Ha1] Hprev Hw. destruct prev as [q|]; [|exact Hw].
  destruct (Hprev q eq_refl) as [[Q1 Q2] [Q3 Q4]]. destruct Hw as [[W1 W2] [W3 W4]].
  unfold inBounds, posDrawOf. cbn [x y].
  pose proof (lerp_between (x q) (x posWorld) alpha Ha0 Ha1) as [L1 L2].
  pose proof (lerp_between (y q) (y posWorld) alpha Ha0 Ha1) as [L3 L4].
  pose proof (Q.min_glb (x q) (x posWorld) (minX b) Q1 W1).
  pose proof (Q.max_lub (x q) (x posWorld) (maxX b) Q2 W2).
  pose proof (Q.min_glb (y q) (y posWorld) (minY b) Q3 W3).
  pose proof (Q.max_lub (y q) (y posWorld) (maxY b) Q4 W4).
  repeat split; lra.
Qed.

Lemma drawCar_ok cfg alpha t dc n :
  PADDING * 2 <= TRACK_VP_w cfg -> PADDING * 2 <= TRACK_VP_h cfg ->
  0 <= alpha <= 1 -> n ∈ DRIVER_NUMS cfg -> drawnOk cfg dc ->
  drawnOk cfg (drawCar (rebuildViewportAndLayers cfg) alpha t dc n).
Proof.
  intros Hw Hh Ha Hn [Hsm Hlast]. unfold drawCar.
  change (points (rebuildViewportAndLayers cfg)) with (points cfg).
  destruct (points cfg !! n) as [arr|] eqn:Harr; [|done].
  cbn [mbind option_bind].
  destruct (samplePosition arr t) as [w|] eqn:Hs; [|done]. cbv zeta.
  assert (Hd : inBounds (worldBounds cfg)
                 (posDrawOf (smoothWorldPos dc !! n) w alpha)).
  { apply posDrawOf_inBounds; [exact Ha| |].
    - intros q Hq. by apply (Hsm n).
    - by apply (samplePosition_inBounds cfg n arr t). }
  split; cbn [smoothWorldPos lastFrameScreenPos].
  - intros m q Hq. destruct (decide (m = n)) as [->|Hne].
    + rewrite lookup_insert_eq in Hq. by injection Hq as <-.
    + rewrite lookup_insert_ne in Hq by done. by apply (Hsm m).
  - intros m p Hp. destruct (decide (m = n)) as [->|Hne].
    + rewrite lookup_insert_eq in Hp. injection Hp as <-.
      by apply (insidePadded_mapToScreen cfg _ Hw Hh).
    + rewrite lookup_insert_ne in Hp by done. by apply (Hlast m).
Qed.

Lemma drawCars_ok cfg dc f :
  PADDING * 2 <= TRACK_VP_w cfg -> PADDING * 2 <= TRACK_VP_h cfg ->
  drawnOk cfg dc -> drawnOk cfg (drawCars exp (rebuildViewportAndLayers cfg) dc f).
Proof.
  intros Hw Hh [Hsm _]. destruct f as [[dt speed] t]. unfold drawCars.
  change (DRIVER_NUMS (rebuildViewportAndLayers cfg)) with (DRIVER_NUMS cfg).
  destruct (smoothAlpha_range dt speed) as [A1 A2].
  assert (Hin : forall n, n ∈ DRIVER_NUMS cfg -> n ∈ DRIVER_NUMS cfg) by done.
  revert Hin. generalize (DRIVER_NUMS cfg) at 1 3. intros ns Hin.
  assert (H0 : drawnOk cfg (mkDrawnCars (smoothWorldPos dc) ∅)).
  { split; [exact Hsm|]. intros n p Hp. cbn in Hp. by rewrite lookup_empty in Hp. }
  revert H0. generalize (mkDrawnCars (smoothWorldPos dc) ∅).
  induction ns as [|n ns IH]; intros d0 H0; cbn [foldl]; [exact H0|].
  apply IH.
  - intros m Hm. apply Hin. by apply list_elem_of_further.
  - apply drawCar_ok; try done; [lra|apply Hin, list_elem_of_here].
Qed.

(** X29. The cars as drawn stay in view and close their lag.  With the
    viewport fitted by [rebuildViewportAndLayers] and at least two
    paddings wide and high, after any frames the smoothed world position
    of every car lies within the world bounds and its position on
    screen, as kept in [lastFrameScreenPos], inside the track viewport
    [PADDING] pixels from its edges.  In each frame the smoothing factor
    is between 0.18 and 0.9, whatever the frame time and the speed: the
    drawn position moves from the last smoothed position towards the
    true one and leaves between 10 and 82 percent of the lag. *)
Theorem drawn_cars_stay_in_view
    (cfg : Config) (fs : list (Q * Q * Q)) (n : N) (p : vec2) :
  PADDING * 2 <= TRACK_VP_w cfg -> PADDING * 2 <= TRACK_VP_h cfg ->
  let cfg' := rebuildViewportAndLayers cfg in
  let dc := drawFrames exp cfg' fs in
  lastFrameScreenPos dc !! n = Some p ->
  insidePadded cfg' p
  /\ (exists q, smoothWorldPos dc !! n = Some q /\ inBounds (worldBounds cfg) q
                /\ p = Vec2 (TRACK_VP_x cfg' + x (mapToScreen cfg' q))
                            (TRACK_VP_y cfg' + y (mapToScreen cfg' q)))
  /\ (forall dt speed prev posWorld,
        let alpha := smoothAlpha exp dt speed in
        let d := posDrawOf (Some prev) posWorld alpha in
        0.18 <= alpha <= 0.9
        /\ x d - x posWorld == (1 - alpha) * (x prev - x posWorld)
        /\ y d - y posWorld == (1 - alpha) * (y prev - y posWorld)).
Proof.
  intros Hw Hh. cbv zeta. intros Hp.
  assert (Hok : forall fs', drawnOk cfg (drawFrames exp (rebuildViewportAndLayers cfg) fs')).
  { intros fs'. unfold drawFrames. apply foldl_inv.
    - intros dc f Hdc. by apply drawCars_ok.
    - split; intros m q Hq; cbn in Hq; by rewrite lookup_empty in Hq. }
  split; [by apply (proj2 (Hok fs) n)|]. split.
  - assert (Hlink : forall fs' m p',
               lastFrameScreenPos (drawFrames exp (rebuildViewportAndLayers cfg) fs') !! m
               = Some p' ->
               exists q, smoothWorldPos
                           (drawFrames exp (rebuildViewportAndLayers cfg) fs') !! m
                         = Some q
                 /\ p' = Vec2 (TRACK_VP_x (rebuildViewportAndLayers cfg)
                               + x (mapToScreen (rebuildViewportAndLayers cfg) q))
                              (TRACK_VP_y (rebuildViewportAndLayers cfg)
                               + y (mapToScreen (rebuildViewportAndLayers cfg) q))).
    { intros fs'. induction fs' as [|f fs' _] using rev_ind.
      - intros m p' H. cbn in H. by rewrite lookup_empty in H.
      - unfold drawFrames. rewrite foldl_app. cbn [foldl].
        set (dc0 := foldl _ _ fs'). destruct f as [[dt speed] t].
        unfold drawCars.
        set (step := drawCar (rebuildViewportAndLayers cfg) (smoothAlpha exp dt speed) t).
        assert (H0 : forall m p', lastFrameScreenPos (mkDrawnCars (smoothWorldPos dc0) ∅) !! m
                                  = Some p' ->
                      exists q, smoothWorldPos (mkDrawnCars (smoothWorldPos dc0) ∅) !! m
                                = Some q
                        /\ p' = Vec2 (TRACK_VP_x (rebuildViewportAndLayers cfg)
                                      + x (mapToScreen (rebuildViewportAndLayers cfg) q))
                                     (TRACK_VP_y (rebuildViewportAndLayers cfg)
                                      + y (mapToScreen (rebuildViewportAndLayers cfg) q))).
        { intros m p' H. cbn in H. by rewrite lookup_empty in H. }
        revert H0. generalize (mkDrawnCars (smoothWorldPos dc0) ∅).
        generalize (DRIVER_NUMS (rebuildViewportAndLayers cfg)).
        intros ns. induction ns as [|k ns IHn]; intros d0 H0; cbn [foldl]; [exact H0|].
        apply IHn. intros m p' Hm. subst step. unfold drawCar in Hm |- *.
        destruct (points (rebuildViewportAndLayers cfg) !! k ≫= _) as [w|];
          [|by apply H0].
        cbv zeta in Hm |- *. cbn [smoothWorldPos lastFrameScreenPos] in Hm |- *.
        destruct (decide (m = k)) as [->|Hne].
        + rewrite lookup_insert_eq in Hm |- *. injection Hm as <-. by eexists.
        + rewrite lookup_insert_ne in Hm |- * by done. by apply H0. }
    destruct (Hlink fs n p Hp) as (q & Hq & ->). exists q.
    split; [exact Hq|]. split; [|reflexivity]. by apply (proj1 (Hok fs) n).
  - intros dt speed prev posWorld. cbv zeta.
    split; [apply smoothAlpha_range|]. unfold posDrawOf. cbn [x y]. split; ring.
Qed.
End SmoothingResults.

Section SmoothingExamples.
Local Open Scope Q_scope.

Lemma drawn_cars_witness :
  let cfg' := rebuildViewportAndLayers slopeCfg in
  let dc := drawFrames (fun _ => 1 # 2) cfg' [(0.016, 5, 0); (0.016, 5, 4)] in
  (PADDING * 2 <= TRACK_VP_w slopeCfg /\ PADDING * 2 <= TRACK_VP_h slopeCfg)
  /\ exists p, lastFrameScreenPos dc !! 16%N = Some p /\ insidePadded cfg' p.
Proof.
  cbv zeta.
  assert (Hw : PADDING * 2 <= TRACK_VP_w slopeCfg) by (vm_compute; discriminate).
  assert (Hh : PADDING * 2 <= TRACK_VP_h slopeCfg) by (vm_compute; discriminate).
  split; [split; [exact Hw|exact Hh]|].
  destruct (lastFrameScreenPos
              (drawFrames (fun _ => 1 # 2) (rebuildViewportAndLayers slopeCfg)
                          [(0.016, 5, 0); (0.016, 5, 4)]) !! 16%N) as [p|] eqn:Hp;
    [|exfalso; revert Hp; vm_compute; discriminate].
  exists p. split; [reflexivity|].
  exact (proj1 (drawn_cars_stay_in_view (fun _ => 1 # 2) slopeCfg
                  [(0.016, 5, 0); (0.016, 5, 4)] 16%N p Hw Hh Hp)).
Defined.
End SmoothingExamples.

(** ** Gates from timestamps *)

Section GateResults.
Local Open Scope Q_scope.
Context {Date : Type} `{EqDecision Date}.
Variable parseIsoToSecOfDay : Date -> Q.
Variable angleOf : Q -> Q -> Q.
Implicit Types (arr : list (DatedSample Date)) (s : DatedSample Date).

(** The search keeps the first of the samples nearest to the target. *)
Lemma nearest_loop arr (target : Q) :
  match foldl (nearerSample target) None (imap pair arr) with
  | None => arr = []
  | Some (i, d) =>
      exists s, arr !! i = Some s /\ d = Qabs (tSec (sample s) - target)
        /\ forall j s', arr !! j = Some s' ->
             d <= Qabs (tSec (sample s') - target)
             /\ (Qabs (tSec (sample s') - target) == d -> (i <= j)%nat)
  end.
Proof.
  induction arr as [|s arr IH] using rev_ind; [done|].
  rewrite imap_app, foldl_app. cbn [imap foldl]. rewrite Nat.add_0_r.
  destruct (foldl (nearerSample target) None (imap pair arr)) as [[i d]|].
  - destruct IH as (b & Hb & -> & Hbest). unfold nearerSample. cbn [fst snd].
    set (ds := Qabs (tSec (sample s) - target)).
    set (db := Qabs (tSec (sample b) - target)) in *.
    destruct (Qltb ds db) eqn:E.
    + apply Qltb_true in E. exists s. split; [|split; [done|]].
      { by rewrite lookup_app_r, Nat.sub_diag by lia. }
      intros j s' Hj. apply lookup_app_Some in Hj as [Hj|[Hlen Hj]].
      * destruct (Hbest j s' Hj) as [Hle _]. split; [lra|]. intros Heq. lra.
      * destruct (j - length arr)%nat eqn:En; [|by destruct n].
        cbn in Hj. injection Hj as <-. fold ds. split; [lra|]. intros _. lia.
    + apply Qltb_false in E. exists b. split; [|split; [done|]].
      { by apply lookup_app_l_Some. }
      intros j s' Hj. apply lookup_app_Some in Hj as [Hj|[Hlen Hj]].
      * by apply Hbest.
      * destruct (j - length arr)%nat eqn:En; [|by destruct n].
        cbn in Hj. injection Hj as <-. fold ds. split; [exact E|].
        intros _. apply lookup_lt_Some in Hb. lia.
  - subst arr. cbn. exists s. split; [done|]. split; [done|].
    intros j s' Hj. destruct j as [|j]; [|done]. cbn in Hj. injection Hj as <-.
    split; [lra|]. intros _. lia.
Qed.

Lemma angleAt_single arr (def : Q) :
  length arr = 1%nat -> angleAt angleOf arr 0 def = def.
Proof. intros H. unfold angleAt. rewrite H. reflexivity. Qed.

(** X30. Where [gateFromTimestampFuzzy] puts a gate.  When a sample
    carries the timestamp, the result is that of [gateFromTimestamp]:
    the gate lies at the first such sample.  When none does, the gate
    lies at the sample whose time of day is nearest to the timestamp's,
    the first of equally near ones, provided it is within the
    tolerance; and there is no gate exactly when the array is empty or
    every sample is farther than the tolerance.  The angle is the one
    taken at that index, the default for an array of one sample. *)
Theorem gate_from_nearest_sample
    arr (ts : Date) (defaultAngleDeg toleranceSec : Q) :
  let r := gateFromTimestampFuzzy parseIsoToSecOfDay angleOf arr ts
                                  defaultAngleDeg toleranceSec in
  let lag s := Qabs (tSec (sample s) - parseIsoToSecOfDay ts) in
  (forall i s, arr !! i = Some s -> date s = ts ->
     (forall j s', arr !! j = Some s' -> (j < i)%nat -> date s' <> ts) ->
     r = gateFromTimestamp angleOf arr ts defaultAngleDeg
     /\ r = Some (mkGateSpec (pos (sample s)) (angleAt angleOf arr i defaultAngleDeg)))
  /\ ((forall s, s ∈ arr -> date s <> ts) ->
      match r with
      | Some g =>
          exists i s,
            arr !! i = Some s
            /\ g = mkGateSpec (pos (sample s)) (angleAt angleOf arr i defaultAngleDeg)
            /\ lag s <= toleranceSec
            /\ forall j s', arr !! j = Some s' ->
                 lag s <= lag s' /\ (lag s' == lag s -> (i <= j)%nat)
      | None => forall s, s ∈ arr -> toleranceSec < lag s
      end)
  /\ (length arr = 1%nat -> forall g, r = Some g -> angleDeg g = defaultAngleDeg).
Proof.
  cbv zeta. split; [|split].
  - intros i s Hi Hd Hfirst.
    assert (Hex : Exists (fun s => date s = ts) arr).
    { apply Exists_exists. exists s. split; [|exact Hd].
      by eapply list_elem_of_lookup_2. }
    assert (Hfind : list_find (fun s => date s = ts) arr = Some (i, s)).
    { apply list_find_Some. split; [exact Hi|]. split; [exact Hd|].
      intros j s' Hj Hlt. by apply (Hfirst j s'). }
    assert (Hr : gateFromTimestampFuzzy parseIsoToSecOfDay angleOf arr ts
                   defaultAngleDeg toleranceSec
                 = gateFromTimestamp angleOf arr ts defaultAngleDeg).
    { unfold gateFromTimestampFuzzy. destruct arr as [|s0 arr0]; [done|].
      by rewrite bool_decide_eq_true_2. }
    split; [exact Hr|]. rewrite Hr. unfold gateFromTimestamp. rewrite Hfind.
    unfold gateAtIndex. by rewrite Hi.
  - intros Hnone. unfold gateFromTimestampFuzzy.
    destruct arr as [|s0 arr0] eqn:Earr; [intros s Hs; by apply elem_of_nil in Hs|].
    rewrite <- Earr in *.
    rewrite bool_decide_eq_false_2.
    2:{ intros Hex. apply Exists_exists in Hex as (s & Hs & Hd).
        by apply (Hnone s). }
    cbv zeta. pose proof (nearest_loop arr (parseIsoToSecOfDay ts)) as Hloop.
    destruct (foldl (nearerSample (parseIsoToSecOfDay ts)) None (imap pair arr))
      as [[i d]|]; [|by rewrite Hloop in Earr].
    destruct Hloop as (b & Hb & -> & Hbest).
    destruct (Qltb toleranceSec _) eqn:E.
    + apply Qltb_true in E. intros s Hs.
      apply list_elem_of_lookup_1 in Hs as [j Hj].
      destruct (Hbest j s Hj) as [Hle _]. lra.
    + apply Qltb_false in E. unfold gateAtIndex. rewrite Hb.
      cbn [mbind option_bind]. exists i, b. split; [exact Hb|].
      split; [reflexivity|]. split; [exact E|]. exact Hbest.
  - intros Hlen g Hg. unfold gateFromTimestampFuzzy in Hg.
    destruct arr as [|s0 [|s1 arr1]] eqn:Earr; try done. rewrite <- Earr in *.
    assert (Hidx : forall i, gateAtIndex angleOf arr i defaultAngleDeg = Some g ->
                             angleDeg g = defaultAngleDeg).
    { intros i Hi. unfold gateAtIndex in Hi.
      destruct (arr !! i) as [s|] eqn:Es; [|done]. cbn in Hi. injection Hi as <-.
      cbn [angleDeg]. apply lookup_lt_Some in Es.
      assert (i = 0%nat) by lia. subst i. by apply angleAt_single. }
    case_bool_decide as Hex.
    + unfold gateFromTimestamp in Hg.
      destruct (list_find _ arr) as [[i s]|]; [|done]. by apply (Hidx i).
    + cbv zeta in Hg.
      destruct (foldl _ None (imap pair arr)) as [[i d]|]; [|done].
      destruct (Qltb toleranceSec d); [done|]. by apply (Hidx i).
Qed.
End GateResults.

(** ** Sessions with the leaderboard drawn, and with resizes *)

Section ShownBoardResults.
Local Open Scope Q_scope.

Lemma frameStart_frozen cfg f st :
  frozenDrivers (frameStart cfg f st) = frozenDrivers st.
Proof.
  unfold frameStart. destruct (_ && _); [|reflexivity].
  match goal with |- context [baselineAtGreen cfg ?s] =>
    destruct (baselineAtGreen_kept cfg s) as [-> _] end.
  reflexivity.
Qed.

Lemma drawLeaderboardShown_state cfg order st so :
  drawLeaderboardShown cfg order st = Some so -> so.1 = drawLeaderboard cfg st.
Proof.
  unfold drawLeaderboardShown, drawLeaderboard.
  destruct (boardRows cfg st) as [|r rows]; [by intros [= <-]|].
  cbv zeta. destruct (readVisible _); [|done]. by intros [= <-].
Qed.

Lemma drawShown_draw cfg f so so' :
  drawShown cfg f so = Some so' -> draw cfg f so.1 = Some so'.1.
Proof.
  unfold drawShown, draw. cbv zeta.
  destruct (foldlOpt _ _ _) as [st4|]; [|done]. cbn [mbind option_bind].
  intros H. apply drawLeaderboardShown_state in H. by rewrite H.
Qed.

(** The commit loop appends the drivers it freezes to the insertion
    order of [frozenDrivers]. *)
Lemma commit_order rows st order :
  iterationOf order (frozenDrivers st) ->
  iterationOf (order ++ newlyFrozen st) (frozenDrivers (commitPending rows st)).
Proof.
  intros [Hnd Hin]. unfold newlyFrozen, commitPending. cbn.
  set (newly := filter _ (freezePending st)).
  assert (Hnew : forall d, d ∈ dom newly -> d ∉ frozenDrivers st).
  { intros d Hd. apply elem_of_dom in Hd as [b Hb].
    apply map_lookup_filter_Some in Hb as [_ [_ Hn]]. exact Hn. }
  split.
  - apply NoDup_app. split; [exact Hnd|]. split; [|apply NoDup_jsKeys].
    intros d Hd Hd'. apply elem_of_jsKeys in Hd'. apply (Hnew d Hd'). by apply Hin.
  - intros d. rewrite elem_of_app, elem_of_jsKeys, elem_of_union, Hin. tauto.
Qed.

(** With one row per driver every slot of [finalRows] is filled. *)
Lemma finalRows_filled st rows order :
  NoDup (dn <$> rows) -> iterationOf order (frozenDrivers st) ->
  exists l, finalRows st rows order = Some <$> l.
Proof.
  intros Hnd Hit. pose proof Hit as [Ho Hs]. unfold finalRows.
  destruct (placeLoop_inv st rows order Ho) as [Hlen Hperm].
  set (slots := foldl _ _ order) in *.
  pose proof (placed_are_frozen rows order _ Hnd Hit) as Hfro.
  set (active := filter (fun r => dn r ∉ frozenDrivers st) rows).
  assert (Hcount : (length active + length (omap id slots) = length slots)%nat).
  { rewrite Hperm, Hfro, Hlen, Nat.add_comm, <- length_app.
    apply Permutation_length.
    exact (filter_app_complement (fun r => dn r ∈ frozenDrivers st) rows). }
  destruct (fillHoles_full slots active Hcount) as (l & Hfill & _).
  by exists l.
Qed.

Lemma readVisible_filled st rows order :
  NoDup (dn <$> rows) -> iterationOf order (frozenDrivers st) ->
  is_Some (readVisible (visibleRows st rows order)).
Proof.
  intros Hnd Hit. destruct (finalRows_filled st rows order Hnd Hit) as [l Hl].
  unfold readVisible, visibleRows. rewrite Hl, <- fmap_take.
  apply mapM_is_Some, Forall_forall. intros o Ho.
  apply list_elem_of_fmap in Ho as (r & -> & _). by eexists.
Qed.

Lemma drawLeaderboardShown_total cfg order st :
  NoDup (driverInfo cfg) -> iterationOf order (frozenDrivers st) ->
  exists order',
    drawLeaderboardShown cfg order st = Some (drawLeaderboard cfg st, order')
    /\ iterationOf order' (frozenDrivers (drawLeaderboard cfg st)).
Proof.
  intros Hnd Hit. unfold drawLeaderboardShown, drawLeaderboard.
  pose proof (NoDup_boardRows cfg st Hnd) as Hrows.
  destruct (boardRows cfg st) as [|r rows]; [by exists order|].
  cbv zeta.
  set (marked := foldl (markFreeze cfg) st (imap pair (r :: rows))).
  assert (Hm : iterationOf order (frozenDrivers marked)).
  { destruct (markLoop_kept cfg (imap pair (r :: rows)) st) as [[Hf _] _].
    subst marked. by rewrite Hf. }
  pose proof (commit_order (r :: rows) marked order Hm) as Hc.
  destruct (readVisible_filled (commitPending (r :: rows) marked) (r :: rows)
              (order ++ newlyFrozen marked) Hrows Hc) as [shown ->].
  by eexists.
Qed.

Lemma drawShown_total cfg f st order :
  wellFormed cfg -> NoDup (driverInfo cfg) -> 0 <= deltaTime f ->
  atBoundary cfg st -> iterationOf order (frozenDrivers st) ->
  exists st' order',
    drawShown cfg f (st, order) = Some (st', order')
    /\ draw cfg f st = Some st'
    /\ iterationOf order' (frozenDrivers st').
Proof.
  intros Hwf Hnd Hdt Hb Hit.
  destruct (draw_total cfg f st Hwf Hdt Hb) as [st' Hdraw].
  unfold drawShown, draw in *. cbv zeta in *. cbn [fst snd].
  destruct (foldlOpt _ _ _) as [st4|] eqn:E4; [|done].
  cbn [mbind option_bind] in *. injection Hdraw as <-.
  assert (H4 : iterationOf order (frozenDrivers st4)).
  { destruct (driverLoop_kept _ _ _ _ _ _ _ E4) as [-> _].
    by rewrite frameStart_frozen. }
  destruct (drawLeaderboardShown_total cfg order st4 Hnd H4) as (o' & -> & Ho').
  exists (drawLeaderboard cfg st4), o'. split; [reflexivity|]. split; [reflexivity|exact Ho'].
Qed.

Lemma runShown_total cfg fs st order :
  wellFormed cfg -> NoDup (driverInfo cfg) ->
  Forall (fun f => 0 <= deltaTime f) fs ->
  reachable cfg st -> iterationOf order (frozenDrivers st) ->
  exists st' order',
    runShown cfg fs (st, order) = Some (st', order')
    /\ runFrames cfg fs st = Some st'
    /\ reachable cfg st'
    /\ iterationOf order' (frozenDrivers st').
Proof.
  intros Hwf Hnd Hfs. revert st order.
  induction Hfs as [|f fs Hf Hfs IH]; intros st order Hr Hit.
  - by exists st, order.
  - destruct (drawShown_total cfg f st order Hwf Hnd Hf
                (reachable_session _ _ Hr) Hit) as (st1 & o1 & E1 & D1 & I1).
    destruct (IH st1 o1) as (st' & o' & E & D & R & I);
      [by eapply reach_draw|exact I1|].
    exists st', o'. unfold runShown, runFrames in *. cbn [foldlOpt].
    by rewrite E1, D1.
Qed.

(** X12. No frame of a session throws, on a missing ledger entry or on
    an empty slot of the leaderboard: when every driver of
    [DRIVER_NUMS] that has telemetry also has a row in the driver table,
    no driver number stands in two rows of the table, and [deltaTime] is
    never negative, every run of frames from [setup] returns a state,
    with every leaderboard drawn on the way: each slot of [visible]
    holds a row when the rest of [drawLeaderboard] reads it. *)
Theorem session_never_throws (cfg : Config) (fs : list Frame) :
  wellFormed cfg -> NoDup (driverInfo cfg) ->
  Forall (fun f => 0 <= deltaTime f) fs ->
  exists st order,
    runShown cfg fs (setup cfg, []) = Some (st, order)
    /\ runFrames cfg fs (setup cfg) = Some st
    /\ reachable cfg st
    /\ iterationOf order (frozenDrivers st).
Proof.
  intros Hwf Hnd Hfs.
  apply runShown_total; [exact Hwf|exact Hnd|exact Hfs|apply reach_setup|].
  split; [apply NoDup_nil_2|]. intros d.
  change (frozenDrivers (setup cfg)) with (∅ : gset N).
  rewrite elem_of_nil. set_solver.
Qed.

Lemma session_never_throws_witness :
  exists st order,
    runShown sprintCfg sprintFrames (setup sprintCfg, []) = Some (st, order)
    /\ runFrames sprintCfg sprintFrames (setup sprintCfg) = Some st
    /\ reachable sprintCfg st
    /\ iterationOf order (frozenDrivers st).
Proof.
  apply session_never_throws.
  - intros n arr Hn _ _. exact Hn.
  - apply (bool_decide_unpack _). vm_compute. exact I.
  - repeat constructor; vm_compute; discriminate.
Defined.

(** Without the condition on the driver table the leaderboard does
    throw: with the row of car 1 repeated, the frame that freezes car 1
    leaves a slot of [visible] empty. *)
Lemma repeated_row_leaves_a_slot_empty :
  wellFormed repeatedRowCfg
  /\ is_Some (runFrames repeatedRowCfg sprintFrames (setup repeatedRowCfg))
  /\ runShown repeatedRowCfg sprintFrames (setup repeatedRowCfg, []) = None.
Proof.
  split; [|split].
  - intros n arr Hn _ _. apply elem_of_cons in Hn as [->|Hn]; [set_solver|].
    apply elem_of_cons in Hn as [->|Hn]; [set_solver|].
    by apply elem_of_nil in Hn.
  - destruct (runFrames repeatedRowCfg sprintFrames (setup repeatedRowCfg))
      as [st|] eqn:E; [by eexists|].
    exfalso. revert E. vm_compute. discriminate.
  - vm_compute. reflexivity.
Qed.
End ShownBoardResults.

Section ResizeResults.
Local Open Scope Q_scope.

Lemma prevOk_known cfg st : prevOk cfg st -> prevKnown cfg st.
Proof.
  intros H n p Hp. destruct (H n p Hp) as [Hn Hs]. split; [done|]. by eexists.
Qed.

Lemma draw_prevKnown cfg f st st' :
  prevKnown cfg st -> draw cfg f st = Some st' -> prevOk cfg st'.
Proof.
  intros H Hdraw. pose proof (draw_rel _ _ _ _ Hdraw) as (_ & Hrace & _).
  unfold draw in Hdraw.
  destruct (frameStart_rel cfg f st) as (_ & R3 & _ & P3 & _).
  destruct (foldlOpt _ _ _) as [st4|] eqn:E4; [|done].
  cbn [mbind option_bind] in Hdraw. injection Hdraw as Hst'.
  destruct (drawLeaderboard_rel cfg st4) as (_ & K5 & _).
  destruct K5 as (_ & _ & P5 & _). rewrite Hst' in P5.
  intros n p Hp. rewrite Hrace. rewrite P5 in Hp.
  eapply driverLoop_prev; [|exact E4|exact Hp].
  intros m q Hq. rewrite P3 in Hq. destruct (H m q Hq) as [Hm Hs].
  split; [done|]. eapply screenPosAt_is_Some. exact Hs.
Qed.

(** A resize changes the fit, not the telemetry or the clock. *)
Lemma windowResized_prevKnown w h cfg st :
  prevKnown cfg st -> prevKnown (windowResized w h cfg) st.
Proof.
  intros H n p Hp. destruct (H n p Hp) as [Hn [q Hq]]. split; [exact Hn|].
  change (carAbsSecAt (windowResized w h cfg) (raceTime st))
    with (carAbsSecAt cfg (raceTime st)).
  unfold screenPosAt in *.
  change (points (windowResized w h cfg)) with (points cfg).
  destruct (points cfg !! n) as [arr|]; [|done]. cbn [mbind option_bind] in *.
  destruct (samplePosition arr _); [|done]. by eexists.
Qed.

(** Through a session with resizes: the stored positions are known, and
    they are the current ones when the last event was a frame. *)
Lemma runSession_prev cfg0 es cfg st :
  runSession es (cfg0, setup cfg0) = Some (cfg, st) ->
  prevKnown cfg st /\ (drawnLast es -> prevOk cfg st).
Proof.
  intros Hrun.
  apply (foldlOpt_prefix
           (fun pre (cs : Config * State) =>
              prevKnown cs.1 cs.2 /\ (drawnLast pre -> prevOk cs.1 cs.2))
           sessionStep es) with (a := (cfg0, setup cfg0)) (a' := (cfg, st));
    [| |exact Hrun].
  - intros pre e [c s] [c' s'] _ [Hk _] Hstep. cbn [fst snd] in *.
    unfold drawnLast. rewrite last_snoc.
    destruct e as [f|w h]; cbn [sessionStep fst snd] in Hstep.
    + destruct (draw c f s) as [s1|] eqn:Ed; [|done].
      cbn [mbind option_bind] in Hstep. injection Hstep as <- <-.
      pose proof (draw_prevKnown _ _ _ _ Hk Ed) as Hok.
      split; [by apply prevOk_known|done].
    + injection Hstep as <- <-. split; [by apply windowResized_prevKnown|done].
  - cbn [fst snd].
    assert (H0 : prevOk cfg0 (setup cfg0)).
    { intros n p Hp.
      change (prevScreenPos (setup cfg0)) with (∅ : gmap N vec2) in Hp.
      by rewrite lookup_empty in Hp. }
    split; [by apply prevOk_known|done].
Qed.

(** X11. A paused frame counts nothing, wherever the cars are, as long
    as the window has not been resized since the last frame was drawn.
    In a session of frames and resizes whose last event is a frame (or
    which has no event yet), a frame drawn with [isPlaying] off leaves
    the clock where it is, samples every car at the position stored for
    it, and records no minisector, lap, reveal or pit entry. *)
Theorem paused_frame_counts_nothing
    (cfg0 : Config) (es : list SessionEvent) (cfg : Config)
    (f : Frame) (st st' : State) :
  runSession es (cfg0, setup cfg0) = Some (cfg, st) -> drawnLast es ->
  isPlaying f = false -> draw cfg f st = Some st' ->
  nothingCounted st st' /\ raceTime st' = raceTime st
  /\ (forall n p, prevScreenPos st !! n = Some p -> prevScreenPos st' !! n = Some p).
Proof.
  intros Hrun Hlast Hpause Hdraw.
  pose proof (proj2 (runSession_prev _ _ _ _ Hrun) Hlast) as Hprev.
  destruct (draw_rel _ _ _ _ Hdraw) as (_ & Hrace & _).
  assert (Hadv : advance f st = raceTime st) by (unfold advance; by rewrite Hpause).
  rewrite Hadv in Hrace.
  unfold draw in Hdraw. rewrite Hadv in Hdraw.
  destruct (frameStart_rel cfg f st) as (_ & _ & _ & P3 & _).
  destruct (foldlOpt _ _ _) as [st4|] eqn:E4; [|discriminate Hdraw].
  cbn [mbind option_bind] in Hdraw. injection Hdraw as Hst'.
  apply driverLoop_paused in E4 as (P & E4 & Hsub).
  2:{ intros n p Hp. rewrite P3 in Hp. by apply Hprev. }
  split; [|split; [exact Hrace|]].
  - rewrite <- Hst', E4.
    eapply nothingCounted_trans; [|apply drawLeaderboard_nothingCounted].
    match goal with |- nothingCounted st (set_prevScreenPos P ?s) =>
      apply (nothingCounted_trans _ s); [|by unfold nothingCounted] end.
    unfold frameStart. destruct (_ && _).
    + eapply nothingCounted_trans; [|apply baselineAtGreen_nothingCounted].
      by unfold nothingCounted.
    + by unfold nothingCounted.
  - intros n p Hp.
    destruct (drawLeaderboard_rel cfg st4) as (_ & K5 & _).
    destruct K5 as (_ & _ & P5 & _). rewrite Hst' in P5. rewrite P5, E4.
    cbn. apply Hsub. by rewrite P3.
Qed.

Lemma paused_frame_witness :
  let es := resizeEvents ++ [DrawFrame (playing 1000 1)] in
  exists (cfg : Config) (st st' : State),
    runSession es (resizeCfg, setup resizeCfg) = Some (cfg, st)
    /\ drawnLast es
    /\ draw cfg pausedFrame st = Some st'
    /\ miniCounts st' = miniCounts st /\ raceTime st' = raceTime st.
Proof.
  cbv zeta.
  set (es := resizeEvents ++ [DrawFrame (playing 1000 1)]).
  set (cs := default (resizeCfg, setup resizeCfg)
                     (runSession es (resizeCfg, setup resizeCfg))).
  set (st' := default cs.2 (draw cs.1 pausedFrame cs.2)).
  assert (Hrun : runSession es (resizeCfg, setup resizeCfg) = Some (cs.1, cs.2))
    by (vm_compute; reflexivity).
  assert (Hlast : drawnLast es) by exact I.
  assert (Hdraw : draw cs.1 pausedFrame cs.2 = Some st')
    by (vm_compute; reflexivity).
  destruct (paused_frame_counts_nothing resizeCfg es cs.1 pausedFrame cs.2 st'
              Hrun Hlast eq_refl Hdraw)
    as ((Hm & _) & Ht & _).
  exists cs.1, cs.2, st'.
  split; [exact Hrun|]. split; [exact Hlast|]. split; [exact Hdraw|].
  split; [exact Hm|exact Ht].
Defined.

(** Without the condition the property fails: [windowResized] refits
    the viewport and leaves [prevScreenPos] in the old coordinates, so
    the frame after a resize compares a position of the old fit with
    one of the new.  Here the window grows while car 1 stands 6 units
    past a gate it passed uncounted in the first second; the paused
    frame that follows counts the gate. *)
Lemma paused_frame_after_resize_counts :
  exists (cfg : Config) (st st' : State),
    runSession resizeEvents (resizeCfg, setup resizeCfg) = Some (cfg, st)
    /\ draw cfg pausedFrame st = Some st'
    /\ raceTime st' = raceTime st
    /\ miniCounts st !! 1%N = Some 0%Z
    /\ miniCounts st' !! 1%N = Some 1%Z.
Proof.
  set (cs := default (resizeCfg, setup resizeCfg)
                     (runSession resizeEvents (resizeCfg, setup resizeCfg))).
  set (st' := default cs.2 (draw cs.1 pausedFrame cs.2)).
  exists cs.1, cs.2, st'.
  split; [vm_compute; reflexivity|].
  split; [vm_compute; reflexivity|].
  split; [vm_compute; reflexivity|].
  split; vm_compute; reflexivity.
Qed.
End ResizeResults.
